(** * MindMap: a shallow embedding of the layout, routing and tree core

    The program is a single Python class ([MindMapApp]) whose methods read
    and mutate one [Workspace] object.  The embedding keeps that shape:

    - Python floats are exact numbers.  Everything the code computes with
      field operations and comparisons only is a rational ([Q]); the edge
      router takes square roots, so its geometry lives in [R] and reads the
      rationals of the workspace through [Q2R].
    - Python [int] is [Z]; node ids are [Z].
    - A Python [dict] is an insertion-ordered association list with unique
      keys ([Dict]): iteration order is observable in the source
      ([next(iter(self.nodes))], the order of [_edges], the level buckets).
    - A method is a function of the workspace.  Methods that only read
      return an [outcome]; methods that mutate are state transformers
      [M A := Workspace -> outcome A * Workspace], so that the workspace a
      raised exception leaves behind is part of the result.
    - A [while] loop or a recursion that the source does not bound takes a
      fuel argument and answers [OutOfFuel] when the fuel runs out.
    - The Tk canvas (item handles, event bindings, drawing calls, status
      line, level panel, selection highlight) is outside the model.  What
      the core reads from Tk is passed in a record [Tk]: the canvas size
      and the font metrics. *)

From Stdlib Require Import ZArith QArith Qabs Qminmax Reals Qreals Lra Lqa Lia.
From Stdlib Require Import List String Ascii Bool Permutation.
Import ListNotations.

Local Open Scope Q_scope.

(* ================================================================== *)
(** ** Outcomes, exceptions and the two monads *)

Inductive exn : Type :=
| KeyError    (* d[k] on a missing key *)
| ValueError. (* list.remove / list.index on a missing element *)

Inductive outcome (A : Type) : Type :=
| Val (a : A)
| Exc (e : exn)
| OutOfFuel.

Arguments Val {A} a.
Arguments Exc {A} e.
Arguments OutOfFuel {A}.

Definition obind {A B : Type} (m : outcome A) (k : A -> outcome B) : outcome B :=
  match m with
  | Val a => k a
  | Exc e => Exc e
  | OutOfFuel => OutOfFuel
  end.

Notation "'let*' x ':=' m 'in' k" := (obind m (fun x => k))
  (at level 10, x pattern, m at level 100, k at level 200).

Definition of_option {A : Type} (e : exn) (o : option A) : outcome A :=
  match o with
  | Some a => Val a
  | None => Exc e
  end.

(** A read-only loop over a list that may raise. *)
Fixpoint ofold {A B : Type} (body : B -> A -> outcome B) (l : list A) (acc : B)
  : outcome B :=
  match l with
  | [] => Val acc
  | a :: l' => let* acc' := body acc a in ofold body l' acc'
  end.

Section StateMonad.
Context {S : Type}.

Definition M (A : Type) : Type := S -> outcome A * S.

Definition ret {A : Type} (a : A) : M A := fun s => (Val a, s).

Definition bind {A B : Type} (m : M A) (k : A -> M B) : M B :=
  fun s =>
    match m s with
    | (Val a, s') => k a s'
    | (Exc e, s') => (Exc e, s')
    | (OutOfFuel, s') => (OutOfFuel, s')
    end.

Definition gets {A : Type} (f : S -> A) : M A := fun s => (Val (f s), s).

Definition modify (f : S -> S) : M unit := fun s => (Val tt, f s).

(** Run a reader on the current state. *)
Definition read {A : Type} (r : S -> outcome A) : M A := fun s => (r s, s).

Definition raise {A : Type} (e : exn) : M A := fun s => (Exc e, s).

(** [for a in l: body a] *)
Fixpoint for_each {A : Type} (l : list A) (body : A -> M unit) : M unit :=
  match l with
  | [] => ret tt
  | a :: l' => bind (body a) (fun _ => for_each l' body)
  end.
End StateMonad.

Arguments M S A : clear implicits.

Notation "x <- m ;; k" := (bind m (fun x => k))
  (at level 100, m at next level, right associativity).
Notation "m ;;; k" := (bind m (fun _ => k))
  (at level 100, right associativity).

(* ================================================================== *)
(** ** Python containers *)

(** Keys of a dict: a type with a boolean equality ([__eq__] on ints and
    on pairs of ints). *)
Class Key (K : Type) : Type := { keqb : K -> K -> bool }.

#[export] Instance Key_Z : Key Z := { keqb := Z.eqb }.

#[export] Instance Key_pair : Key (Z * Z) :=
  { keqb := fun a b => Z.eqb (fst a) (fst b) && Z.eqb (snd a) (snd b) }.

Module Dict.
Section Ops.
Context {K V : Type} `{Key K}.

Definition t : Type := list (K * V).

(** [d.get(k)] *)
Fixpoint get (d : t) (k : K) : option V :=
  match d with
  | [] => None
  | (k', v) :: d' => if keqb k' k then Some v else get d' k
  end.

(** [k in d] *)
Definition mem (d : t) (k : K) : bool :=
  match get d k with
  | Some _ => true
  | None => false
  end.

(** [d[k] = v]: an existing key keeps its place, a new key goes last. *)
Fixpoint set (d : t) (k : K) (v : V) : t :=
  match d with
  | [] => [(k, v)]
  | (k', v') :: d' =>
      if keqb k' k then (k', v) :: d' else (k', v') :: set d' k v
  end.

(** [d.pop(k, None)] *)
Fixpoint pop (d : t) (k : K) : t :=
  match d with
  | [] => []
  | (k', v') :: d' => if keqb k' k then d' else (k', v') :: pop d' k
  end.

(** [d.setdefault(k, v)] *)
Definition setdefault (d : t) (k : K) (v : V) : t :=
  if mem d k then d else set d k v.

(** [list(d)], [list(d.keys())] *)
Definition keys (d : t) : list K := map fst d.

(** [next(iter(d), None)] *)
Definition first_key (d : t) : option K :=
  match d with
  | [] => None
  | (k, _) :: _ => Some k
  end.
End Ops.
Arguments t K V : clear implicits.
End Dict.

(** [x in l] on a list or set of ints. *)
Definition zmem (x : Z) (l : list Z) : bool := existsb (Z.eqb x) l.

(** [l.index(x)]: position of the first occurrence, [None] for ValueError. *)
Fixpoint index_of (x : Z) (l : list Z) : option Z :=
  match l with
  | [] => None
  | y :: l' =>
      if Z.eqb y x then Some 0%Z
      else match index_of x l' with
           | Some i => Some (i + 1)%Z
           | None => None
           end
  end.

(** [l.remove(x)]: drops the first occurrence (the caller checks [x in l]). *)
Fixpoint remove_first (x : Z) (l : list Z) : list Z :=
  match l with
  | [] => []
  | y :: l' => if Z.eqb y x then l' else y :: remove_first x l'
  end.

(** [enumerate(l)] *)
Fixpoint enumerate_from {A : Type} (i : Z) (l : list A) : list (Z * A) :=
  match l with
  | [] => []
  | a :: l' => (i, a) :: enumerate_from (i + 1)%Z l'
  end.

Definition enumerate {A : Type} (l : list A) : list (Z * A) := enumerate_from 0%Z l.

(** [sorted(l, key=...)] and [l.sort()]: Python's sort is stable, and a
    stable sort is determined by the order alone; insertion sort is the
    reference stable sort.  [leb a b] is [key(a) <= key(b)]. *)
Section Sorting.
Context {A : Type} (leb : A -> A -> bool).

(** Insert [a] after every element that is not greater than it. *)
Fixpoint insert_sorted (a : A) (l : list A) : list A :=
  match l with
  | [] => [a]
  | b :: l' => if leb b a then b :: insert_sorted a l' else a :: b :: l'
  end.

Definition sorted_by (l : list A) : list A :=
  fold_left (fun acc a => insert_sorted a acc) l [].
End Sorting.

(** Comparisons of floats as booleans. *)
Definition Qltb (a b : Q) : bool := negb (Qle_bool b a).
Definition Qleb (a b : Q) : bool := Qle_bool a b.
Definition Qeqb (a b : Q) : bool := Qeq_bool a b.

(** [int] used in float arithmetic. *)
Definition of_int (z : Z) : Q := inject_Z z.

(** [range(lo, hi)] *)
Definition range (lo hi : Z) : list Z :=
  map (fun i => (lo + Z.of_nat i)%Z) (seq 0 (Z.to_nat (hi - lo))).

(** The first iteration of a [for] loop that returns. *)
Fixpoint first_some {A B : Type} (f : A -> option B) (l : list A) : option B :=
  match l with
  | [] => None
  | a :: l' =>
      match f a with
      | Some b => Some b
      | None => first_some f l'
      end
  end.

(* ================================================================== *)
(** ** Configuration *)

Definition NODE_W : Q := 160.
Definition NODE_H : Q := 56.
Definition HORIZ_GAP : Q := 60.
Definition VERT_GAP : Q := 36.
Definition NODE_MARGIN : Q := 18.
Definition ZOOM_MIN : Q := 0.4.
Definition ZOOM_MAX : Q := 2.5.

Definition PALETTE_COLORS : list string :=
  [ "#B9C2FF"; "#FFB3BE"; "#FFF49A"; "#C6FFB0"; "#B7F0FF";
    "#DDB096"; "#B5A0DD"; "#9DDDD0"; "#DDA0B7"; "#B1DD53" ]%string.

Definition LEVEL_COLORS : list string := PALETTE_COLORS.

(* ================================================================== *)
(** ** Data model *)

(** One entry of [Workspace.nodes].  ["w"] and ["h"] are absent until
    [_update_node_size] has run (a loaded node has none), hence [option]. *)
Record Node : Type := mkNode {
  n_text : string;
  n_x : Q;
  n_y : Q;
  n_children : list Z;
  n_fill : option string;
  n_custom : bool;
  n_w : option Q;
  n_h : option Q
}.

(** The fields of the [Workspace] dataclass that the core reads or writes.
    [canvas_items] keeps only its key set: the core tests whether a node
    owns canvas items, the handles themselves belong to Tk. *)
Record Workspace : Type := mkWorkspace {
  nodes : Dict.t Z Node;
  parent : Dict.t Z (option Z);
  canvas_items : list Z;
  edge_offsets : Dict.t (Z * Z) Q;
  palette_index : Z;
  root_id : option Z;
  next_id : Z;
  scale : Q;
  offset_x : Q;
  offset_y : Q
}.

(** What the core asks of Tk. *)
Record Tk : Type := mkTk {
  winfo_width : Z;
  winfo_height : Z;
  measure : bool -> bool -> string -> Z;   (* font variant (bold, italic) *)
  linespace : bool -> bool -> Z
}.

Definition with_nodes (f : Dict.t Z Node -> Dict.t Z Node) (ws : Workspace) : Workspace :=
  mkWorkspace (f (nodes ws)) (parent ws) (canvas_items ws) (edge_offsets ws)
    (palette_index ws) (root_id ws) (next_id ws) (scale ws) (offset_x ws) (offset_y ws).

Definition with_parent (f : Dict.t Z (option Z) -> Dict.t Z (option Z)) (ws : Workspace)
  : Workspace :=
  mkWorkspace (nodes ws) (f (parent ws)) (canvas_items ws) (edge_offsets ws)
    (palette_index ws) (root_id ws) (next_id ws) (scale ws) (offset_x ws) (offset_y ws).

Definition with_canvas_items (f : list Z -> list Z) (ws : Workspace) : Workspace :=
  mkWorkspace (nodes ws) (parent ws) (f (canvas_items ws)) (edge_offsets ws)
    (palette_index ws) (root_id ws) (next_id ws) (scale ws) (offset_x ws) (offset_y ws).

Definition with_edge_offsets (f : Dict.t (Z * Z) Q -> Dict.t (Z * Z) Q) (ws : Workspace)
  : Workspace :=
  mkWorkspace (nodes ws) (parent ws) (canvas_items ws) (f (edge_offsets ws))
    (palette_index ws) (root_id ws) (next_id ws) (scale ws) (offset_x ws) (offset_y ws).

Definition with_palette_index (v : Z) (ws : Workspace) : Workspace :=
  mkWorkspace (nodes ws) (parent ws) (canvas_items ws) (edge_offsets ws)
    v (root_id ws) (next_id ws) (scale ws) (offset_x ws) (offset_y ws).

Definition with_root_id (v : option Z) (ws : Workspace) : Workspace :=
  mkWorkspace (nodes ws) (parent ws) (canvas_items ws) (edge_offsets ws)
    (palette_index ws) v (next_id ws) (scale ws) (offset_x ws) (offset_y ws).

Definition with_next_id (v : Z) (ws : Workspace) : Workspace :=
  mkWorkspace (nodes ws) (parent ws) (canvas_items ws) (edge_offsets ws)
    (palette_index ws) (root_id ws) v (scale ws) (offset_x ws) (offset_y ws).

Definition with_view (s ox oy : Q) (ws : Workspace) : Workspace :=
  mkWorkspace (nodes ws) (parent ws) (canvas_items ws) (edge_offsets ws)
    (palette_index ws) (root_id ws) (next_id ws) s ox oy.

Definition node_with_xy (vx vy : Q) (n : Node) : Node :=
  mkNode (n_text n) vx vy (n_children n) (n_fill n) (n_custom n) (n_w n) (n_h n).

Definition node_with_children (cs : list Z) (n : Node) : Node :=
  mkNode (n_text n) (n_x n) (n_y n) cs (n_fill n) (n_custom n) (n_w n) (n_h n).

Definition node_with_fill (f : option string) (n : Node) : Node :=
  mkNode (n_text n) (n_x n) (n_y n) (n_children n) f (n_custom n) (n_w n) (n_h n).

Definition node_with_custom (c : bool) (n : Node) : Node :=
  mkNode (n_text n) (n_x n) (n_y n) (n_children n) (n_fill n) c (n_w n) (n_h n).

Definition node_with_size (vw vh : Q) (n : Node) : Node :=
  mkNode (n_text n) (n_x n) (n_y n) (n_children n) (n_fill n) (n_custom n)
    (Some vw) (Some vh).

(** [self.nodes[nid]] *)
Definition node_at (ws : Workspace) (nid : Z) : outcome Node :=
  of_option KeyError (Dict.get (nodes ws) nid).

(** [self.nodes[nid][field] = ...] on a node that is known to exist. *)
Definition update_node (nid : Z) (f : Node -> Node) : M Workspace unit :=
  n <- read (fun ws => node_at ws nid) ;;
  modify (with_nodes (fun d => Dict.set d nid (f n))).

(** [self.parent.get(nid)]: a missing key and a stored [None] both read
    as [None]. *)
Definition parent_get (ws : Workspace) (nid : Z) : option Z :=
  match Dict.get (parent ws) nid with
  | Some (Some p) => Some p
  | _ => None
  end.

(** [s or default] on a float. *)
Definition or_float (s d : Q) : Q := if Qeqb s 0 then d else s.

(* ================================================================== *)
(** ** Coordinate helpers *)

Definition _to_canvas_point (ws : Workspace) (x y : Q) : Q * Q :=
  (offset_x ws + x * scale ws, offset_y ws + y * scale ws).

Definition _from_canvas_point (ws : Workspace) (x y : Q) : Q * Q :=
  if Qeqb (scale ws) 0 then (x, y)
  else ((x - offset_x ws) / scale ws, (y - offset_y ws) / scale ws).

Definition _node_center (ws : Workspace) (nid : Z) : outcome (Q * Q) :=
  let* node := node_at ws nid in
  Val (_to_canvas_point ws (n_x node) (n_y node)).

Definition opt_default {A : Type} (d : A) (o : option A) : A :=
  match o with
  | Some a => a
  | None => d
  end.

Definition _node_bbox (ws : Workspace) (nid : Z) : outcome (Q * Q * Q * Q) :=
  let* c := _node_center ws nid in
  let '(cx, cy) := c in
  let base_w := match Dict.get (nodes ws) nid with
                | Some node => opt_default NODE_W (n_w node)
                | None => NODE_W
                end in
  let base_h := match Dict.get (nodes ws) nid with
                | Some node => opt_default NODE_H (n_h node)
                | None => NODE_H
                end in
  let scale := or_float (scale ws) 1 in
  let half_w := (base_w * scale) / 2 in
  let half_h := (base_h * scale) / 2 in
  Val (cx - half_w, cy - half_h, cx + half_w, cy + half_h).

(* ================================================================== *)
(** ** Depth and colours *)

(** The [while True] loop of [_node_depth]; [visited] is the Python set. *)
Fixpoint _node_depth_loop (fuel : nat) (ws : Workspace)
  (depth : Z) (current : Z) (visited : list Z) : outcome Z :=
  match fuel with
  | O => OutOfFuel
  | S fuel' =>
      match parent_get ws current with
      | None => Val depth
      | Some parent_id =>
          if zmem parent_id visited then Val depth
          else _node_depth_loop fuel' ws (depth + 1)%Z parent_id (current :: visited)
      end
  end.

(** The loop runs with one unit of fuel more than the parent map has
    entries; [_node_depth_total] shows that this is always enough. *)
Definition _node_depth (ws : Workspace) (nid : Z) : outcome Z :=
  _node_depth_loop (S (List.length (parent ws))) ws 0%Z nid [].

Definition _default_fill_for_depth (depth : Z) : string :=
  match LEVEL_COLORS with
  | [] => "white"%string
  | _ => nth (Z.to_nat (depth mod Z.of_nat (List.length LEVEL_COLORS))) LEVEL_COLORS "white"%string
  end.

Definition _next_auto_color : M Workspace string :=
  let palette := PALETTE_COLORS in
  idx <- gets palette_index ;;
  let color := nth (Z.to_nat (idx mod Z.of_nat (List.length palette))) palette "#ffffff"%string in
  modify (with_palette_index (idx + 1)%Z) ;;;
  ret color.

Definition _new_id : M Workspace Z :=
  nid <- gets next_id ;;
  modify (with_next_id (nid + 1)%Z) ;;;
  ret nid.

(* ================================================================== *)
(** ** Placement helpers *)

(** The loop of [_is_position_free] over [self.nodes.values()]. *)
Fixpoint _is_position_free_loop (ns : Dict.t Z Node) (x y : Q) : bool :=
  match ns with
  | [] => true
  | (_, node) :: ns' =>
      if Qltb (Qabs (x - n_x node)) (NODE_W + NODE_MARGIN)
         && Qltb (Qabs (y - n_y node)) (NODE_H + NODE_MARGIN)
      then false
      else _is_position_free_loop ns' x y
  end.

Definition _is_position_free (ws : Workspace) (x y : Q) : bool :=
  match nodes ws with
  | [] => true
  | ns => _is_position_free_loop ns x y
  end.

Definition _find_free_position (ws : Workspace) (x y : Q) : Q * Q :=
  if _is_position_free ws x y then (x, y)
  else
    let step_x := NODE_W + HORIZ_GAP in
    let step_y := NODE_H + VERT_GAP in
    let found :=
      first_some (fun radius =>
        first_some (fun dx =>
          first_some (fun dy =>
            if negb (Z.eqb (Z.abs dx) radius) && negb (Z.eqb (Z.abs dy) radius)
            then None
            else
              let candidate_x := x + of_int dx * step_x in
              let candidate_y := y + of_int dy * step_y in
              if _is_position_free ws candidate_x candidate_y
              then Some (candidate_x, candidate_y)
              else None)
            (range (- radius) (radius + 1)))
          (range (- radius) (radius + 1)))
        (range 1 9) in
    match found with
    | Some p => p
    | None => (x + 10 * step_x, y + 10 * step_y)
    end.

(* ================================================================== *)
(** ** Node geometry: formatted text and the cached size *)

Definition Segment : Type := (string * bool * bool)%type.

(** [text.split("\n")] on the characters of a string. *)
Fixpoint split_lines (s : list ascii) (cur : list ascii) : list (list ascii) :=
  match s with
  | [] => [cur]
  | c :: s' =>
      if Ascii.eqb c "010"%char then cur :: split_lines s' []
      else split_lines s' (cur ++ [c])
  end.

Definition flush (buf : list ascii) (bold italic : bool) (segments : list Segment)
  : list Segment :=
  match buf with
  | [] => segments
  | _ => segments ++ [(string_of_list_ascii buf, bold, italic)]
  end.

(** The inner [while i < len(raw)] scanner of [_parse_formatted_lines]. *)
Fixpoint scan_line (raw : list ascii) (bold italic : bool) (buf : list ascii)
  (segments : list Segment) : list Segment * list ascii * bool * bool :=
  match raw with
  | [] => (segments, buf, bold, italic)
  | "*"%char :: "*"%char :: rest =>
      scan_line rest (negb bold) italic [] (flush buf bold italic segments)
  | "_"%char :: rest =>
      scan_line rest bold (negb italic) [] (flush buf bold italic segments)
  | ch :: rest => scan_line rest bold italic (buf ++ [ch]) segments
  end.

(** The outer [for raw in lines] loop; bold and italic carry over. *)
Fixpoint parse_lines (lines : list (list ascii)) (bold italic : bool)
  : list (list Segment) :=
  match lines with
  | [] => []
  | raw :: lines' =>
      let '(segments, buf, bold', italic') := scan_line raw bold italic [] [] in
      let segments := flush buf bold' italic' segments in
      let segments := match segments with
                      | [] => [(" "%string, bold, italic)]
                      | _ => segments
                      end in
      segments :: parse_lines lines' bold' italic'
  end.

Definition _parse_formatted_lines (text : string) : list (list Segment) :=
  parse_lines (split_lines (list_ascii_of_string text) []) false false.

(** [max(...)] over a non-empty sequence of ints, [sum(...)] of ints. *)
Definition max_ints (l : list Z) : Z :=
  match l with
  | [] => 0%Z
  | a :: l' => fold_left Z.max l' a
  end.

Definition sum_ints (l : list Z) : Z := fold_left Z.add l 0%Z.

(** The [for line in parsed] loop of [_update_node_size]. *)
Fixpoint measure_lines (tk : Tk) (parsed : list (list Segment))
  (max_width total_height : Q) : Q * Q :=
  match parsed with
  | [] => (max_width, total_height)
  | line :: parsed' =>
      let line_height :=
        match line with
        | [] => linespace tk false false
        | _ => max_ints (map (fun '(_, bold, italic) => linespace tk bold italic) line)
        end in
      let line_width :=
        match line with
        | [] => measure tk false false " "%string
        | _ => sum_ints (map (fun '(segment, bold, italic) => measure tk bold italic segment) line)
        end in
      measure_lines tk parsed' (Qmax max_width (of_int line_width))
        (total_height + of_int line_height)
  end.

Definition _update_node_size (tk : Tk) (nid : Z) : M Workspace unit :=
  node <- read (fun ws => node_at ws nid) ;;
  let text := if String.eqb (n_text node) ""%string then " "%string else n_text node in
  let parsed := _parse_formatted_lines text in
  let parsed := match parsed with
                | [] => [[(" "%string, false, false)]]
                | _ => parsed
                end in
  let padding_side := 14 in
  let padding_top := 12 in
  let padding_bottom := 12 in
  let line_gap := 4 in
  let '(max_width, total_height) := measure_lines tk parsed 0 0 in
  let total_height :=
    total_height + line_gap * of_int (Z.max 0 (Z.of_nat (List.length parsed) - 1)) in
  let width := max_width + padding_side * 2 in
  let height := total_height + padding_top + padding_bottom in
  update_node nid (node_with_size (Qmax width NODE_W) (Qmax height NODE_H)).

(* ================================================================== *)
(** ** Edge router: geometry over the reals *)

Local Open Scope R_scope.

Definition Rltb (a b : R) : bool := if Rlt_dec a b then true else false.
Definition Rleb (a b : R) : bool := if Rle_dec a b then true else false.
Definition Rgtb (a b : R) : bool := Rltb b a.
Definition Rgeb (a b : R) : bool := Rleb b a.
Definition Rzerob (a : R) : bool := if Req_dec_T a 0 then true else false.

(** [a or b] on floats, [math.hypot], [math.copysign]. *)
Definition or_real (a b : R) : R := if Rzerob a then b else a.
Definition hypot (a b : R) : R := sqrt (a * a + b * b).
Definition copysign (m s : R) : R := if Rltb s 0 then - Rabs m else Rabs m.

Definition Point : Type := (R * R)%type.

(** The values [_edge_exit_point] goes through: the semi-axes, the point
    on the ellipse, and the point returned after the outward margin. *)
Record ExitPoint : Type := mkExitPoint {
  semi_a : R;
  semi_b : R;
  on_ellipse : Point;
  with_margin : Point
}.

Definition _edge_exit_point_steps (ws : Workspace) (nid : Z) (target_x target_y : R)
  : outcome ExitPoint :=
  let* c := _node_center ws nid in
  let cx := Q2R (fst c) in
  let cy := Q2R (snd c) in
  let a := Rmax (Q2R NODE_W * Q2R (scale ws) / 2) 1 in
  let b := Rmax (Q2R NODE_H * Q2R (scale ws) / 2) 1 in
  let dx := target_x - cx in
  let dy := target_y - cy in
  let '(dx, dy) := if Rltb (Rabs dx) 1e-4 && Rltb (Rabs dy) 1e-4
                   then (0, b) else (dx, dy) in
  let factor := sqrt ((dx * dx) / (a * a) + (dy * dy) / (b * b)) in
  let factor := if Rzerob factor then 1 else factor in
  let t := 1 / factor in
  let sx := cx + dx * t in
  let sy := cy + dy * t in
  let margin := Rmax 1.5 (Q2R (scale ws) * 1.2) in
  let vx := dx * t in
  let vy := dy * t in
  let length := or_real (hypot vx vy) 1 in
  Val (mkExitPoint a b (sx, sy)
         (sx + (vx / length) * margin, sy + (vy / length) * margin)).

Definition _edge_exit_point (ws : Workspace) (nid : Z) (target_x target_y : R)
  : outcome Point :=
  let* e := _edge_exit_point_steps ws nid target_x target_y in
  Val (with_margin e).

(** One round of the obstacle loop of [_edge_control_points]: the pair
    of control points after node [other] has pushed them. *)
Definition push_by_obstacle (sx sy dx dy dist tx ty smoothing safety node_radius : R)
  (other : Point) (cps : Point * Point) : Point * Point :=
  let '(ox, oy) := other in
  let '((c1x, c1y), (c2x, c2y)) := cps in
  let seg_len_sq := Rmax (dist * dist) 1 in
  let t := ((ox - sx) * dx + (oy - sy) * dy) / seg_len_sq in
  if Rleb t 0 || Rgeb t 1 then cps
  else
    let closest_x := sx + dx * t in
    let closest_y := sy + dy * t in
    let vec_x := closest_x - ox in
    let vec_y := closest_y - oy in
    let separation := hypot vec_x vec_y in
    let clearance := separation - node_radius in
    if Rgeb clearance safety then cps
    else
      let influence := Rmax 0 (Rmin 1 ((safety - clearance) / safety)) * smoothing in
      let push_dir_x := if Rzerob separation then tx else vec_x / separation in
      let push_dir_y := if Rzerob separation then ty else vec_y / separation in
      let push_mag := Rmin (influence * (node_radius * 0.45 + dist * 0.18)) (dist * 0.4) in
      let push_x := push_dir_x * push_mag in
      let push_y := push_dir_y * push_mag in
      let w1 := Rpower (1 - t) 1.3 in
      let w2 := Rpower t 1.3 in
      let total := w1 + w2 in
      let w1 := if Rzerob total then w1 else w1 / total in
      let w2 := if Rzerob total then w2 else w2 / total in
      ((c1x + push_x * w1, c1y + push_y * w1), (c2x + push_x * w2, c2y + push_y * w2)).

(** The inner function [clamp_point]. *)
Definition clamp_point (sx sy nx ny tx ty min_along max_along max_perp : R)
  (point : Point) : Point :=
  let rel_x := fst point - sx in
  let rel_y := snd point - sy in
  let along := Rmax min_along (Rmin max_along (rel_x * nx + rel_y * ny)) in
  let perp := rel_x * tx + rel_y * ty in
  let perp := if Rgtb (Rabs perp) max_perp then copysign max_perp perp else perp in
  (sx + nx * along + tx * perp, sy + ny * along + ty * perp).

(** One point of the loop of the inner function [orient]: the moved point
    and what it adds to [total_adjust]. *)
Definition orient_point (sx sy dx dy dist tx ty lateral min_offset base_sign : R)
  (point : Point) : Point * R :=
  let signed_distance := ((fst point - sx) * dy - (snd point - sy) * dx) / dist in
  let desired := if Rzerob base_sign
                 then copysign 1 (or_real signed_distance (or_real lateral 1))
                 else base_sign in
  if Rltb (signed_distance * desired) min_offset then
    let delta := min_offset - signed_distance * desired in
    ((fst point + tx * desired * delta, snd point + ty * desired * delta), delta)
  else (point, 0).

Definition orient (sx sy dx dy dist tx ty lateral min_offset : R) (cp1 cp2 : Point)
  (base_sign : R) : Point * Point * R :=
  let '(p1, d1) := orient_point sx sy dx dy dist tx ty lateral min_offset base_sign cp1 in
  let '(p2, d2) := orient_point sx sy dx dy dist tx ty lateral min_offset base_sign cp2 in
  (p1, p2, 0 + d1 + d2).

Definition _edge_control_points (ws : Workspace) (pid cid : Z) (start end_ : Point)
  (extra_lateral : R) : outcome (Point * Point) :=
  let '(sx, sy) := start in
  let '(ex, ey) := end_ in
  let dx := ex - sx in
  let dy := ey - sy in
  let dist := Rmax (hypot dx dy) 1 in
  let* pnode := node_at ws pid in
  let siblings := n_children pnode in
  let spread :=
    if (1 <? Z.of_nat (List.length siblings))%Z && zmem cid siblings then
      let idx := opt_default 0%Z (index_of cid siblings) in
      let centre := (IZR (Z.of_nat (List.length siblings)) - 1) / 2 in
      IZR idx - centre
    else 0 in
  let scale := Q2R (or_float (scale ws) 1) in
  let smoothing := Rmin 1 (Rmax 0.25 (dist / (Q2R NODE_W * scale * 1.25))) in
  let lateral := spread * Q2R NODE_H * scale * 0.32 * smoothing in
  let nx := dx / dist in
  let ny := dy / dist in
  let tx := - ny in
  let ty := nx in
  let base_pull := Rmin (Rmax (dist * 0.22) (Q2R NODE_W * scale * 0.3))
                     (Q2R NODE_W * scale * 1.05) in
  let base_pull := base_pull * (0.75 + smoothing * 0.55) in
  let short := Rltb dist (Q2R NODE_W * scale * 0.75) in
  let base_pull := if short then dist * 0.3 else base_pull in
  let lateral := if short then lateral * 0.4 else lateral in
  let lateral := lateral + extra_lateral in
  let cp1 := (sx + nx * base_pull + tx * lateral, sy + ny * base_pull + ty * lateral) in
  let cp2 := (ex - nx * base_pull + tx * lateral, ey - ny * base_pull + ty * lateral) in
  let max_dim := Rmax (Q2R NODE_W) (Q2R NODE_H) * scale in
  let safety := max_dim * 0.5 in
  let node_radius :=
    hypot (Q2R NODE_W * scale / 2) (Q2R NODE_H * scale / 2) + Q2R NODE_MARGIN * scale in
  let* cps :=
    ofold (fun cps other_id =>
             if Z.eqb other_id pid || Z.eqb other_id cid then Val cps
             else
               let* o := _node_center ws other_id in
               Val (push_by_obstacle sx sy dx dy dist tx ty smoothing safety node_radius
                      (Q2R (fst o), Q2R (snd o)) cps))
          (Dict.keys (nodes ws)) (cp1, cp2) in
  let max_perp := Rmax (Q2R NODE_H * scale * (0.4 * smoothing + 0.18)) (dist * 0.22) in
  let min_along := dist * 0.1 in
  let max_along := dist - min_along in
  let cp1 := clamp_point sx sy nx ny tx ty min_along max_along max_perp (fst cps) in
  let cp2 := clamp_point sx sy nx ny tx ty min_along max_along max_perp (snd cps) in
  let min_offset := Q2R NODE_H * scale * 0.1 + 3 in
  let '(cp1_pos, cp2_pos, adjust_pos) :=
    orient sx sy dx dy dist tx ty lateral min_offset cp1 cp2 1 in
  let '(cp1_neg, cp2_neg, adjust_neg) :=
    orient sx sy dx dy dist tx ty lateral min_offset cp1 cp2 (-1) in
  let bias := if Rgeb lateral 0 then 0.04 else -0.04 in
  if Rleb (adjust_pos + Rmax 0 (- bias)) (adjust_neg + Rmax 0 bias)
  then Val (cp1_pos, cp2_pos)
  else Val (cp1_neg, cp2_neg).

Definition _sample_edge_points (start cp1 cp2 end_ : Point) (steps : Z) : list Point :=
  let steps := if (steps <? 2)%Z then 2%Z else steps in
  map (fun i =>
         let t := IZR i / IZR steps in
         let mt := 1 - t in
         (mt ^ 3 * fst start + 3 * mt ^ 2 * t * fst cp1
            + 3 * mt * t ^ 2 * fst cp2 + t ^ 3 * fst end_,
          mt ^ 3 * snd start + 3 * mt ^ 2 * t * snd cp1
            + 3 * mt * t ^ 2 * snd cp2 + t ^ 3 * snd end_))
      (range 0 (steps + 1)).

Definition _points_close (a b : Point) (tol : R) : bool :=
  Rleb (Rabs (fst a - fst b)) tol && Rleb (Rabs (snd a - snd b)) tol.

Definition _segments_share_endpoint (a_start a_end b_start b_end : Point) : bool :=
  let tol := 1.5 in
  _points_close a_start b_start tol
  || _points_close a_start b_end tol
  || _points_close a_end b_start tol
  || _points_close a_end b_end tol.

Definition _shares_endpoint (start_a end_a start_b end_b : Point) : bool :=
  let tol := 6 in
  _points_close start_a start_b tol
  || _points_close start_a end_b tol
  || _points_close end_a start_b tol
  || _points_close end_a end_b tol.

Definition orientation (a b c : Point) : R :=
  (fst b - fst a) * (snd c - snd a) - (snd b - snd a) * (fst c - fst a).

Definition on_segment (a b c : Point) : bool :=
  Rleb (Rmin (fst a) (fst c) - 1e-6) (fst b)
  && Rleb (fst b) (Rmax (fst a) (fst c) + 1e-6)
  && (Rleb (Rmin (snd a) (snd c) - 1e-6) (snd b)
      && Rleb (snd b) (Rmax (snd a) (snd c) + 1e-6)).

Definition _segments_intersect (p1 p2 q1 q2 : Point) : bool :=
  let o1 := orientation p1 p2 q1 in
  let o2 := orientation p1 p2 q2 in
  let o3 := orientation q1 q2 p1 in
  let o4 := orientation q1 q2 p2 in
  let tol := 1e-6 in
  if ((Rgtb o1 tol && Rltb o2 (- tol)) || (Rltb o1 (- tol) && Rgtb o2 tol))
     && ((Rgtb o3 tol && Rltb o4 (- tol)) || (Rltb o3 (- tol) && Rgtb o4 tol))
  then true
  else if Rleb (Rabs o1) tol && on_segment p1 q1 p2 then true
  else if Rleb (Rabs o2) tol && on_segment p1 q2 p2 then true
  else if Rleb (Rabs o3) tol && on_segment q1 p1 q2 then true
  else if Rleb (Rabs o4) tol && on_segment q1 p2 q2 then true
  else false.

(** [zip(points, points[1:])] *)
Fixpoint segments (points : list Point) : list (Point * Point) :=
  match points with
  | [] => []
  | a :: rest =>
      match rest with
      | [] => []
      | b :: _ => (a, b) :: segments rest
      end
  end.

Definition _paths_cross (a_points b_points : list Point) : bool :=
  existsb (fun seg_a =>
    existsb (fun seg_b =>
      if _segments_share_endpoint (fst seg_a) (snd seg_a) (fst seg_b) (snd seg_b)
      then false
      else _segments_intersect (fst seg_a) (snd seg_a) (fst seg_b) (snd seg_b))
      (segments b_points))
    (segments a_points).

(** One entry of [drawn_paths]. *)
Record DrawnPath : Type := mkDrawnPath {
  dp_points : list Point;
  dp_start : Point;
  dp_end : Point
}.

Definition _path_intersects (points : list Point) (existing : list DrawnPath)
  (start end_ : Point) : bool :=
  existsb (fun info =>
             if _shares_endpoint start end_ (dp_start info) (dp_end info) then false
             else _paths_cross points (dp_points info))
          existing.

Local Close Scope R_scope.

(* ================================================================== *)
(** ** Edge router: candidate search and redraw *)

(** The loop of [_edge_offset_candidates]. *)
Fixpoint _edge_offset_candidates_loop (base : Q) (steps offsets : list Q) : list Q :=
  match steps with
  | [] => offsets
  | step :: steps' =>
      let candidate := base + step in
      let keep := match offsets with
                  | [] => true
                  | _ => Qltb 1e-6 (Qabs (last offsets 0 - candidate))
                  end in
      _edge_offset_candidates_loop base steps'
        (if keep then offsets ++ [candidate] else offsets)
  end.

Definition _edge_offset_candidates (base : Q) : list Q :=
  let steps := [0; 20; -20; 40; -40; 60; -60; 80; -80] in
  _edge_offset_candidates_loop base steps [].

Definition QPoint (p : Q * Q) : Point := (Q2R (fst p), Q2R (snd p)).

(** The polyline of one candidate offset. *)
Definition candidate_path (ws : Workspace) (pid cid : Z) (start end_ : Point) (offset : Q)
  : outcome (list Point) :=
  let* cps := _edge_control_points ws pid cid start end_ (Q2R offset) in
  Val (_sample_edge_points start (fst cps) (snd cps) end_ 32).

(** The [for offset in candidates] loop of [_render_edge], which breaks at
    the first candidate that crosses nothing already drawn. *)
Fixpoint search_candidates (ws : Workspace) (pid cid : Z) (start end_ : Point)
  (drawn_paths : list DrawnPath) (candidates : list Q)
  : outcome (option (list Point * Q)) :=
  match candidates with
  | [] => Val None
  | offset :: candidates' =>
      let* points := candidate_path ws pid cid start end_ offset in
      if negb (_path_intersects points drawn_paths start end_)
      then Val (Some (points, offset))
      else search_candidates ws pid cid start end_ drawn_paths candidates'
  end.

(** The two end points of an edge, after the nudge for overlapping nodes. *)
Definition edge_endpoints (ws : Workspace) (pid cid : Z) : outcome (Point * Point) :=
  let* p := _node_center ws pid in
  let* c := _node_center ws cid in
  let '(px, py) := QPoint p in
  let '(cx, cy) := QPoint c in
  let* start := _edge_exit_point ws pid cx cy in
  let* end_ := _edge_exit_point ws cid px py in
  if Rltb (Rabs (fst start - fst end_) + Rabs (snd start - snd end_)) 6 then
    Val ((fst start * 0.9 + px * 0.1, snd start * 0.9 + py * 0.1)%R,
         (fst end_ * 0.9 + cx * 0.1, snd end_ * 0.9 + cy * 0.1)%R)
  else Val (start, end_).

(** [_render_edge] returns the extended [drawn_paths]; the [create_line]
    call is Tk's. *)
Definition _render_edge (pid cid : Z) (drawn_paths : list DrawnPath)
  : M Workspace (list DrawnPath) :=
  ends <- read (fun ws => edge_endpoints ws pid cid) ;;
  let '(start, end_) := ends in
  base_offset <- gets (fun ws => opt_default 0 (Dict.get (edge_offsets ws) (pid, cid))) ;;
  let candidates := _edge_offset_candidates base_offset in
  found <- read (fun ws => search_candidates ws pid cid start end_ drawn_paths candidates) ;;
  chosen <-
    match found with
    | Some (points, offset) => ret (points, offset)
    | None =>
        let fallback_offset := last candidates 0 in
        points <- read (fun ws => candidate_path ws pid cid start end_ fallback_offset) ;;
        ret (points, fallback_offset)
    end ;;
  let '(chosen_points, chosen_offset) := chosen in
  modify (with_edge_offsets (fun d => Dict.set d (pid, cid) chosen_offset)) ;;;
  ret (drawn_paths ++ [mkDrawnPath chosen_points start end_]).

Definition _edges (ws : Workspace) : list (Z * Z) :=
  flat_map (fun '(pid, info) => map (fun cid => (pid, cid)) (n_children info)) (nodes ws).

Definition edge_mem (key : Z * Z) (edges : list (Z * Z)) : bool :=
  existsb (keqb key) edges.

(** [_refresh_node_position]: only the bounding box is computed here, the
    rest is drawing. *)
Definition _refresh_node_position (ws : Workspace) (nid : Z) : outcome unit :=
  if zmem nid (canvas_items ws) then
    let* _ := _node_bbox ws nid in Val tt
  else Val tt.

Definition _refresh_all_positions (ws : Workspace) : outcome unit :=
  ofold (fun _ nid => _refresh_node_position ws nid) (Dict.keys (nodes ws)) tt.

(** The [for pid, cid in edges] loop of [redraw]. *)
Fixpoint render_edges (edges : list (Z * Z)) (drawn_paths : list DrawnPath)
  : M Workspace unit :=
  match edges with
  | [] => ret tt
  | (pid, cid) :: edges' =>
      drawn_paths' <- _render_edge pid cid drawn_paths ;;
      render_edges edges' drawn_paths'
  end.

Definition redraw : M Workspace unit :=
  read _refresh_all_positions ;;;
  edges <- gets _edges ;;
  keys <- gets (fun ws => Dict.keys (edge_offsets ws)) ;;
  for_each keys (fun key =>
    if negb (edge_mem key edges)
    then modify (with_edge_offsets (fun d => Dict.pop d key))
    else ret tt) ;;;
  render_edges edges [].

Definition redraw_edges_of_node_and_neighbors (nid : Z) : M Workspace unit := redraw.

(* ================================================================== *)
(** ** Node helpers and graph helpers *)

(** [fill or ...]: [None] and the empty string are falsy. *)
Definition truthy (f : option string) : option string :=
  match f with
  | Some s => if String.eqb s ""%string then None else Some s
  | None => None
  end.

(** [node.get("fill") or self._default_fill_for_depth(self._node_depth(nid))];
    the depth is computed only when the fill is falsy. *)
Definition fill_or_default (ws : Workspace) (nid : Z) (node : Node) : outcome string :=
  match truthy (n_fill node) with
  | Some s => Val s
  | None => let* depth := _node_depth ws nid in Val (_default_fill_for_depth depth)
  end.

Definition add_item (nid : Z) (items : list Z) : list Z :=
  if zmem nid items then items else items ++ [nid].

Definition remove_item (nid : Z) (items : list Z) : list Z :=
  filter (fun i => negb (Z.eqb i nid)) items.

Definition _set_root (nid : Z) : M Workspace unit :=
  modify (with_root_id (Some nid)) ;;;
  modify (with_parent (fun d => Dict.set d nid None)).

Definition _draw_node (nid : Z) : M Workspace unit :=
  read (fun ws => _node_bbox ws nid) ;;;
  node <- read (fun ws => node_at ws nid) ;;
  fill <- read (fun ws => fill_or_default ws nid node) ;;
  update_node nid (node_with_fill (Some fill)) ;;;
  modify (with_canvas_items (add_item nid)).

Definition _update_node_fill (nid : Z) : M Workspace unit :=
  has_items <- gets (fun ws => zmem nid (canvas_items ws)) ;;
  if negb has_items then ret tt
  else
    node <- read (fun ws => node_at ws nid) ;;
    fill <- read (fun ws => fill_or_default ws nid node) ;;
    update_node nid (node_with_fill (Some fill)).

Definition _delete_canvas_for_node (nid : Z) : M Workspace unit :=
  modify (with_canvas_items (remove_item nid)).

Definition _create_node (tk : Tk) (text : string) (x y : Q) (depth : option Z)
  : M Workspace Z :=
  pos <- gets (fun ws => _find_free_position ws x y) ;;
  let '(nx, ny) := pos in
  nid <- _new_id ;;
  let depth := opt_default 0%Z depth in
  fill <- _next_auto_color ;;
  modify (with_nodes (fun d =>
    Dict.set d nid (mkNode text nx ny [] (Some fill) true (Some NODE_W) (Some NODE_H)))) ;;;
  modify (with_parent (fun d => Dict.set d nid None)) ;;;
  _draw_node nid ;;;
  modify (with_canvas_items (add_item nid)) ;;;
  _update_node_size tk nid ;;;
  redraw_edges_of_node_and_neighbors nid ;;;
  root <- gets root_id ;;
  match root with
  | None => _set_root nid
  | Some _ => ret tt
  end ;;;
  ret nid.

Definition _add_edge (parent_id child_id : Z) : M Workspace unit :=
  current_parent <- gets (fun ws => parent_get ws child_id) ;;
  match current_parent with
  | None => ret tt
  | Some cp =>
      cpnode <- read (fun ws => node_at ws cp) ;;
      if zmem child_id (n_children cpnode)
      then update_node cp (node_with_children (remove_first child_id (n_children cpnode)))
      else ret tt
  end ;;;
  modify (with_parent (fun d => Dict.set d child_id (Some parent_id))) ;;;
  pnode <- read (fun ws => node_at ws parent_id) ;;
  (if negb (zmem child_id (n_children pnode))
   then update_node parent_id (node_with_children (n_children pnode ++ [child_id]))
   else ret tt) ;;;
  root <- gets root_id ;;
  match root with
  | Some r => if Z.eqb child_id r then _set_root parent_id else ret tt
  | None => ret tt
  end ;;;
  cnode <- read (fun ws => node_at ws child_id) ;;
  (if negb (n_custom cnode) then
     depth <- read (fun ws => _node_depth ws child_id) ;;
     update_node child_id (node_with_fill (Some (_default_fill_for_depth depth))) ;;;
     _update_node_fill child_id
   else ret tt) ;;;
  redraw_edges_of_node_and_neighbors child_id.

(** The inner function [dfs] of [_collect_subtree]; the fuel bounds the
    recursion depth, which the source leaves unbounded. *)
Fixpoint dfs (fuel : nat) (ws : Workspace) (node_id : Z) (collected : list Z)
  : outcome (list Z) :=
  match fuel with
  | O => OutOfFuel
  | S fuel' =>
      let collected := collected ++ [node_id] in
      let* node := node_at ws node_id in
      ofold (fun acc child => dfs fuel' ws child acc) (n_children node) collected
  end.

Definition _collect_subtree (fuel : nat) (ws : Workspace) (nid : Z) : outcome (list Z) :=
  dfs fuel ws nid [].

Definition _subtree_size (fuel : nat) (ws : Workspace) (nid : Z) : outcome Z :=
  let* ids := _collect_subtree fuel ws nid in
  Val (Z.of_nat (List.length ids)).

(** The body of the [for cid in ids] loop of [delete_selected]. *)
Definition delete_one (cid : Z) : M Workspace unit :=
  node <- read (fun ws => node_at ws cid) ;;
  for_each (n_children node) (fun ch =>
    modify (with_parent (fun d => Dict.set d ch None))) ;;;
  parent_id <- gets (fun ws => parent_get ws cid) ;;
  match parent_id with
  | None => ret tt
  | Some p =>
      pnode <- read (fun ws => node_at ws p) ;;
      if zmem cid (n_children pnode)
      then update_node p (node_with_children (remove_first cid (n_children pnode)))
      else ret tt
  end ;;;
  _delete_canvas_for_node cid ;;;
  modify (with_parent (fun d => Dict.pop d cid)) ;;;
  modify (with_nodes (fun d => Dict.pop d cid)).

(** [delete_selected]: [selected_id] is the primary selection and
    [answer] what the user replies to the confirmation dialog. *)
Definition delete_selected (fuel : nat) (selected_id : option Z) (answer : bool)
  : M Workspace unit :=
  match selected_id with
  | None => ret tt
  | Some nid =>
      if Z.eqb nid 0 then ret tt
      else
        count <- read (fun ws => _subtree_size fuel ws nid) ;;
        if (1 <? count)%Z && negb answer then ret tt
        else
          ids <- read (fun ws => _collect_subtree fuel ws nid) ;;
          for_each ids delete_one ;;;
          root <- gets root_id ;;
          match root with
          | Some r =>
              if zmem r ids
              then modify (fun ws => with_root_id (Dict.first_key (nodes ws)) ws)
              else ret tt
          | None => ret tt
          end ;;;
          redraw
  end.

(* ================================================================== *)
(** ** Layout *)

(** [queue.pop(0)] and [stack.pop()] *)
Definition pop_first {A : Type} (l : list A) : option (A * list A) :=
  match l with
  | [] => None
  | a :: l' => Some (a, l')
  end.

Definition pop_last {A : Type} (l : list A) : option (A * list A) :=
  match rev l with
  | [] => None
  | a :: r => Some (a, rev r)
  end.

(** The [while queue] loop of [_assign_directions]. *)
Fixpoint _assign_directions_loop (fuel : nat) (ws : Workspace)
  (directions : Dict.t Z Z) (queue : list Z) : outcome (Dict.t Z Z) :=
  match fuel with
  | O => OutOfFuel
  | S fuel' =>
      match pop_first queue with
      | None => Val directions
      | Some (nid, queue) =>
          let direction := opt_default 1%Z (Dict.get directions nid) in
          let* node := node_at ws nid in
          let directions :=
            fold_left (fun d child => Dict.set d child direction) (n_children node)
              directions in
          _assign_directions_loop fuel' ws directions (queue ++ n_children node)
      end
  end.

Definition _assign_directions (fuel : nat) (ws : Workspace) (root_id : Z)
  : outcome (Dict.t Z Z) :=
  let directions := [(root_id, 0%Z)] in
  let* rnode := node_at ws root_id in
  let children := n_children rnode in
  let directions :=
    fold_left (fun d '(index, child) =>
                 Dict.set d child (if Z.eqb (index mod 2) 0 then (-1)%Z else 1%Z))
      (enumerate children) directions in
  let* directions := _assign_directions_loop fuel ws directions children in
  Val (fold_left (fun d nid =>
                    Dict.setdefault d nid (if negb (Z.eqb nid root_id) then 1%Z else 0%Z))
         (Dict.keys (nodes ws)) directions).

(** The [for child in ...] loop inside the [while stack] loop of
    [_compute_depths]; [depths[nid]] is read at every round. *)
Fixpoint push_children (nid : Z) (children : list Z) (depths : Dict.t Z Z) (stack : list Z)
  : outcome (Dict.t Z Z * list Z) :=
  match children with
  | [] => Val (depths, stack)
  | child :: children' =>
      let* d := of_option KeyError (Dict.get depths nid) in
      push_children nid children' (Dict.set depths child (d + 1)%Z) (stack ++ [child])
  end.

Fixpoint _compute_depths_loop (fuel : nat) (ws : Workspace)
  (depths : Dict.t Z Z) (stack : list Z) : outcome (Dict.t Z Z) :=
  match fuel with
  | O => OutOfFuel
  | S fuel' =>
      match pop_last stack with
      | None => Val depths
      | Some (nid, stack) =>
          let* node := node_at ws nid in
          let* ds := push_children nid (n_children node) depths stack in
          _compute_depths_loop fuel' ws (fst ds) (snd ds)
      end
  end.

Definition _compute_depths (fuel : nat) (ws : Workspace) (root_id : Z)
  : outcome (Dict.t Z Z) :=
  let* depths := _compute_depths_loop fuel ws [(root_id, 0%Z)] [root_id] in
  Val (fold_left (fun depths nid =>
                    if negb (Dict.mem depths nid) then
                      match parent_get ws nid with
                      | Some parent_id =>
                          Dict.set depths nid
                            (opt_default 0%Z (Dict.get depths parent_id) + 1)%Z
                      | None => Dict.set depths nid 0%Z
                      end
                    else depths)
         (Dict.keys (nodes ws)) depths).

(** The [while len(positions) < count] loops of [_symmetrical_positions]. *)
Fixpoint extend_positions (fuel : nat) (count : Z) (positions : list Q) (offset : Q)
  : outcome (list Q) :=
  if (Z.of_nat (List.length positions) <? count)%Z then
    match fuel with
    | O => OutOfFuel
    | S fuel' => extend_positions fuel' count (positions ++ [- offset; offset]) (offset + 1)
    end
  else Val positions.

(** The loops run with [count] units of fuel; [_symmetrical_positions_total]
    shows that this is always enough. *)
Definition _symmetrical_positions (count : Z) : outcome (list Q) :=
  if (count <=? 0)%Z then Val []
  else
    let* positions :=
      if Z.eqb (count mod 2) 0
      then extend_positions (Z.to_nat count) count [] 0.5
      else extend_positions (Z.to_nat count) count [0] 1 in
    let positions := firstn (Z.to_nat count) positions in
    Val (sorted_by Qleb positions).

(** An entry of a bucket: [(parent_slot, ordinal, nid, parent_id)]. *)
Definition Entry : Type := (Q * Z * Z * option Z)%type.

(** [key(a) <= key(b)] for the key [(item[0], item[1])]. *)
Definition entry_leb (a b : Entry) : bool :=
  let '(a0, a1, _, _) := a in
  let '(b0, b1, _, _) := b in
  Qltb a0 b0 || (Qeqb a0 b0 && (a1 <=? b1)%Z).

(** The inner function [assign]. *)
Definition assign (root_id : Z) (entries : list Entry) (positions : list Q)
  (slots : Dict.t Z Q) : Dict.t Z Q :=
  match entries with
  | [] => slots
  | _ =>
      let ordered := sorted_by entry_leb entries in
      let length := Z.of_nat (List.length positions) in
      fold_left (fun slots '(idx, (parent_slot, _, nid, parent_id)) =>
                   let base := if Z.eqb length 0 then 0
                               else nth (Z.to_nat (Z.min idx (length - 1))) positions 0 in
                   let weight := match parent_id with
                                 | None => 0
                                 | Some p => if Z.eqb p root_id then 0 else 0.25
                                 end in
                   let slot := base * (1 - weight) + parent_slot * weight in
                   Dict.set slots nid slot)
        (enumerate ordered) slots
  end.

(** The three buckets of one depth level. *)
Record Buckets : Type := mkBuckets {
  left : list Entry;
  right : list Entry;
  centre : list Entry
}.

(** The [for nid in nodes] loop that fills the buckets. *)
Fixpoint fill_buckets (ws : Workspace) (directions : Dict.t Z Z) (slots : Dict.t Z Q)
  (level : list Z) (b : Buckets) : outcome Buckets :=
  match level with
  | [] => Val b
  | nid :: level' =>
      let parent_id := parent_get ws nid in
      let parent_slot := match parent_id with
                         | Some p => opt_default 0 (Dict.get slots p)
                         | None => 0
                         end in
      let* ordinal :=
        match parent_id with
        | Some p =>
            let* pnode := node_at ws p in
            Val (opt_default 0%Z (index_of nid (n_children pnode)))
        | None => Val 0%Z
        end in
      let inherited := match parent_id with
                       | Some p => opt_default 0%Z (Dict.get directions p)
                       | None => 0%Z
                       end in
      let direction := opt_default inherited (Dict.get directions nid) in
      let entry : Entry := (parent_slot, ordinal, nid, parent_id) in
      fill_buckets ws directions slots level'
        (if (0 <? direction)%Z then mkBuckets (left b) (right b ++ [entry]) (centre b)
         else if (direction <? 0)%Z then mkBuckets (left b ++ [entry]) (right b) (centre b)
         else mkBuckets (left b) (right b) (centre b ++ [entry]))
  end.

(** The body of the [for depth in range(1, max_depth + 1)] loop. *)
Definition slots_at_depth (ws : Workspace) (root_id : Z) (directions : Dict.t Z Z)
  (levels : Dict.t Z (list Z)) (slots : Dict.t Z Q) (depth : Z) : outcome (Dict.t Z Q) :=
  match opt_default [] (Dict.get levels depth) with
  | [] => Val slots
  | level =>
      let* b := fill_buckets ws directions slots level (mkBuckets [] [] []) in
      let max_side := Z.max (Z.of_nat (List.length (left b))) (Z.of_nat (List.length (right b))) in
      let* side_positions := _symmetrical_positions max_side in
      let* centre_positions := _symmetrical_positions (Z.of_nat (List.length (centre b))) in
      let slots := assign root_id (left b) side_positions slots in
      let slots := assign root_id (right b) side_positions slots in
      let slots := assign root_id (centre b) centre_positions slots in
      Val slots
  end.

Definition _compute_vertical_slots (ws : Workspace) (root_id : Z)
  (directions depths : Dict.t Z Z) : outcome (Dict.t Z Q) :=
  let slots : Dict.t Z Q := [(root_id, 0)] in
  let levels : Dict.t Z (list Z) :=
    fold_left (fun levels '(nid, depth) =>
                 Dict.set levels depth (opt_default [] (Dict.get levels depth) ++ [nid]))
      depths [] in
  let max_depth := match Dict.keys levels with
                   | [] => 0%Z
                   | k :: ks => fold_left Z.max ks k
                   end in
  let* slots := ofold (slots_at_depth ws root_id directions levels)
                  (range 1 (max_depth + 1)) slots in
  Val (fold_left (fun slots nid => Dict.setdefault slots nid 0) (Dict.keys (nodes ws)) slots).

(** The body of the [for nid in self.nodes] loop of [auto_layout]. *)
Definition place_node (root_id : Z) (base_x base_y : Q) (directions depths : Dict.t Z Z)
  (slots : Dict.t Z Q) (root_slot : Q) (nid : Z) : M Workspace unit :=
  let direction :=
    opt_default (if negb (Z.eqb nid root_id) then 1%Z else 0%Z) (Dict.get directions nid) in
  let depth := opt_default 0%Z (Dict.get depths nid) in
  let x := if (direction <? 0)%Z then base_x - of_int depth * (NODE_W + HORIZ_GAP)
           else if (0 <? direction)%Z then base_x + of_int depth * (NODE_W + HORIZ_GAP)
           else base_x in
  let offset := opt_default root_slot (Dict.get slots nid) - root_slot in
  let y := base_y + offset * (NODE_H + VERT_GAP) in
  update_node nid (node_with_xy x y) ;;;
  node <- read (fun ws => node_at ws nid) ;;
  if negb (n_custom node) then
    update_node nid (node_with_fill (Some (_default_fill_for_depth depth))) ;;;
    _update_node_fill nid
  else ret tt.

Definition auto_layout (tk : Tk) (fuel : nat) : M Workspace unit :=
  ns <- gets nodes ;;
  match Dict.first_key ns with
  | None => ret tt
  | Some first =>
      stored_root <- gets root_id ;;
      let root_id := match stored_root with
                     | Some r => if Z.eqb r 0 then first else r
                     | None => first
                     end in
      let cx_canvas := Qmax (of_int (winfo_width tk)) (NODE_W * 2) / 2 in
      let cy_canvas := Qmax (of_int (winfo_height tk)) (NODE_H * 2) / 2 in
      base <- gets (fun ws => _from_canvas_point ws cx_canvas cy_canvas) ;;
      let '(base_x, base_y) := base in
      directions <- read (fun ws => _assign_directions fuel ws root_id) ;;
      depths <- read (fun ws => _compute_depths fuel ws root_id) ;;
      slots <- read (fun ws => _compute_vertical_slots ws root_id directions depths) ;;
      let root_slot := opt_default 0 (Dict.get slots root_id) in
      for_each (Dict.keys ns)
        (place_node root_id base_x base_y directions depths slots root_slot) ;;;
      redraw
  end.

(* ================================================================== *)
(** ** View transforms *)

Definition pan_by (dx dy : Q) : M Workspace unit :=
  modify (fun ws => with_view (scale ws) (offset_x ws + dx) (offset_y ws + dy) ws) ;;;
  redraw.

Definition zoom (tk : Tk) (factor : Q) (origin : option (Q * Q)) : M Workspace unit :=
  old_scale <- gets scale ;;
  let new_scale := Qmax ZOOM_MIN (Qmin ZOOM_MAX (old_scale * factor)) in
  if Qltb (Qabs (new_scale - old_scale)) 1e-3 then ret tt
  else
    let '(cx, cy) :=
      match origin with
      | Some o => o
      | None => (of_int (winfo_width tk) / 2, of_int (winfo_height tk) / 2)
      end in
    let scale_ratio := if Qeqb old_scale 0 then 1 else new_scale / old_scale in
    modify (fun ws =>
      with_view new_scale
        (cx - scale_ratio * (cx - offset_x ws))
        (cy - scale_ratio * (cy - offset_y ws)) ws) ;;;
    redraw.

(* ================================================================== *)
(** ** Load *)

(** One value of the ["nodes"] object of a persisted document; a missing
    field is [None]. *)
Record NodeDoc : Type := mkNodeDoc {
  d_text : option string;
  d_x : option Q;
  d_y : option Q;
  d_children : option (list Z);
  d_fill : option string;
  d_custom : option bool
}.

(** A persisted document.  The keys of ["nodes"] are given as the
    integers that [int(nid_str)] returns, in the order of the file. *)
Record Document : Type := mkDocument {
  doc_root : option Z;
  doc_next_id : option Z;
  doc_nodes : list (Z * NodeDoc)
}.

(** The first loop of the loader: one node per entry of ["nodes"]. *)
Fixpoint load_nodes (raw_nodes : list (Z * NodeDoc)) (max_id : Z)
  : M Workspace Z :=
  match raw_nodes with
  | [] => ret max_id
  | (nid, nd) :: raw_nodes' =>
      let max_id := Z.max max_id nid in
      modify (with_nodes (fun d =>
        Dict.set d nid
          (mkNode (opt_default ""%string (d_text nd))
                  (opt_default 0 (d_x nd))
                  (opt_default 0 (d_y nd))
                  (opt_default [] (d_children nd))
                  (d_fill nd)
                  (opt_default false (d_custom nd))
                  None None))) ;;;
      modify (with_parent (fun d => Dict.set d nid None)) ;;;
      load_nodes raw_nodes' max_id
  end.

(** [_load_data_into_current_workspace] up to its call of [redraw]: the
    tables are rebuilt and the nodes drawn. *)
Definition load_tables (data : Document) : M Workspace unit :=
  modify (fun ws => mkWorkspace [] [] [] [] 0%Z (root_id ws) (next_id ws) 1 0 0) ;;;
  max_id <- load_nodes (doc_nodes data) 0%Z ;;
  ns <- gets nodes ;;
  for_each ns (fun '(pid, info) =>
    for_each (n_children info) (fun cid =>
      modify (with_parent (fun d => Dict.set d cid (Some pid))))) ;;;
  modify (with_root_id (doc_root data)) ;;;
  let fallback_next := (max_id + 1)%Z in
  let provided_next := opt_default fallback_next (doc_next_id data) in
  modify (with_next_id (Z.max provided_next fallback_next)) ;;;
  modify (with_palette_index (Z.of_nat (List.length ns))) ;;;
  for_each (Dict.keys ns) (fun nid =>
    _draw_node nid ;;;
    modify (with_canvas_items (add_item nid))) ;;;
  root <- gets root_id ;;
  ns' <- gets nodes ;;
  (match root with
   | Some r => if Dict.mem ns' r then ret tt
               else modify (with_root_id (Dict.first_key ns'))
   | None => modify (with_root_id (Dict.first_key ns'))
   end).

Definition _load_data_into_current_workspace (data : Document) : M Workspace unit :=
  load_tables data ;;;
  redraw.

(** The workspace of a fresh tab. *)
Definition empty_workspace : Workspace :=
  mkWorkspace [] [] [] [] 0%Z None 1%Z 1 0 0.

(* ================================================================== *)
(** ** Reset view and mouse dragging *)

Definition reset_view : M Workspace unit :=
  modify (with_view 1 0 0) ;;;
  redraw.

(** The [dragging] dictionary of the workspace.  Its keys are fixed, so it
    is a record; it is threaded through the handlers explicitly. *)
Inductive DragMode : Type :=
| DragIdle                    (* "mode": None *)
| DragNode                    (* "mode": "node" *)
| DragPan.                    (* "mode": "pan" *)

Record Drag : Type := mkDrag {
  drag_mode : DragMode;
  drag_id : option Z;
  drag_dx : Q;
  drag_dy : Q;
  drag_start_x : Q;
  drag_start_y : Q;
  drag_offset_x : Q;
  drag_offset_y : Q
}.

Definition idle_drag : Drag := mkDrag DragIdle None 0 0 0 0 0 0.

(** [on_click] at the canvas point [(ex, ey)]; [over_node] tells whether
    the canvas item under the pointer belongs to a node, in which case the
    handler returns at once and [on_click_node] does the work. *)
Definition on_click (over_node : bool) (ex ey : Q) (dragging : Drag) (ws : Workspace)
  : Drag :=
  if over_node then dragging
  else mkDrag DragPan None 0 0 ex ey (offset_x ws) (offset_y ws).

Definition on_click_node (ex ey : Q) (nid : Z) (ws : Workspace) : outcome Drag :=
  let '(lx, ly) := _from_canvas_point ws ex ey in
  let* node := node_at ws nid in
  Val (mkDrag DragNode (Some nid) (lx - n_x node) (ly - n_y node) ex ey 0 0).

Definition on_drag (dragging : Drag) (ex ey : Q) : M Workspace unit :=
  match drag_mode dragging with
  | DragNode =>
      match drag_id dragging with
      | None => ret tt
      | Some nid =>
          if Z.eqb nid 0 then ret tt
          else
            pos <- gets (fun ws => _from_canvas_point ws ex ey) ;;
            let '(lx, ly) := pos in
            update_node nid (fun n => node_with_xy (lx - drag_dx dragging) (n_y n) n) ;;;
            update_node nid (fun n => node_with_xy (n_x n) (ly - drag_dy dragging) n) ;;;
            read (fun ws => _refresh_node_position ws nid) ;;;
            redraw_edges_of_node_and_neighbors nid
      end
  | DragPan =>
      modify (fun ws =>
        with_view (scale ws)
          (drag_offset_x dragging + (ex - drag_start_x dragging))
          (drag_offset_y dragging + (ey - drag_start_y dragging)) ws) ;;;
      redraw
  | DragIdle => ret tt
  end.

Definition on_release (dragging : Drag) : Drag := idle_drag.

(* ================================================================== *)
(** ** Commands of the Node menu *)

(** [new_root]; the value is the node that is selected afterwards.  The
    canvas centre is computed with integer division, [or] replaces a zero
    by the default. *)
Definition new_root (tk : Tk) : M Workspace Z :=
  let cx := let c := (winfo_width tk / 2)%Z in if Z.eqb c 0 then 400%Z else c in
  let cy := let c := (winfo_height tk / 2)%Z in if Z.eqb c 0 then 300%Z else c in
  pos <- gets (fun ws => _from_canvas_point ws (of_int cx) (of_int cy)) ;;
  let '(lx, ly) := pos in
  nid <- _create_node tk "Root" lx ly (Some 0%Z) ;;
  _set_root nid ;;;
  ret nid.

(** [add_child] for the primary selection [selected_id]; the value is the
    primary selection afterwards. *)
Definition add_child (tk : Tk) (selected_id : option Z) : M Workspace (option Z) :=
  match selected_id with
  | None => ret selected_id
  | Some parent_id =>
      if Z.eqb parent_id 0 then ret selected_id
      else
        parent_node <- read (fun ws => node_at ws parent_id) ;;
        root <- gets root_id ;;
        let base_x :=
          if match root with Some r => Z.eqb parent_id r | None => false end
             && Z.eqb (Z.of_nat (List.length (n_children parent_node)) mod 2) 1
          then n_x parent_node - NODE_W - HORIZ_GAP
          else n_x parent_node + NODE_W + HORIZ_GAP in
        let base_y := n_y parent_node in
        pos <- gets (fun ws => _find_free_position ws base_x base_y) ;;
        let '(new_x, new_y) := pos in
        parent_depth <- read (fun ws => _node_depth ws parent_id) ;;
        let depth := (parent_depth + 1)%Z in
        nid <- _create_node tk "New Node" new_x new_y (Some depth) ;;
        _add_edge parent_id nid ;;;
        ret (Some nid)
  end.

(* ================================================================== *)
(** ** Node colours *)

(** [targets = set(self.selected_ids)], or the node of the context menu
    when nothing is selected.  The selection is given as the list of its
    members in the order in which the set is iterated. *)
Definition color_targets (selected_ids : list Z) (context_node : option Z) : list Z :=
  match selected_ids with
  | [] => match context_node with
          | Some nid => [nid]
          | None => []
          end
  | _ => selected_ids
  end.

Definition _apply_node_color (color : string) (selected_ids : list Z)
  (context_node : option Z) : M Workspace unit :=
  for_each (color_targets selected_ids context_node) (fun nid =>
    present <- gets (fun ws => Dict.mem (nodes ws) nid) ;;
    if negb present then ret tt
    else
      update_node nid (node_with_fill (Some color)) ;;;
      update_node nid (node_with_custom true) ;;;
      _update_node_fill nid).

Definition _reset_node_color (selected_ids : list Z) (context_node : option Z)
  : M Workspace unit :=
  for_each (color_targets selected_ids context_node) (fun nid =>
    present <- gets (fun ws => Dict.mem (nodes ws) nid) ;;
    if negb present then ret tt
    else
      depth <- read (fun ws => _node_depth ws nid) ;;
      update_node nid (node_with_fill (Some (_default_fill_for_depth depth))) ;;;
      update_node nid (node_with_custom false) ;;;
      _update_node_fill nid).

(* ================================================================== *)
(** ** Save *)

(** The dictionary [data] that [save] writes as JSON.  A node id is
    written as the string [str(nid)] and read back with [int]; the
    document holds the integer. *)
Definition save_data (ws : Workspace) : Document :=
  mkDocument (root_id ws) (Some (next_id ws))
    (map (fun '(nid, nd) =>
            (nid, mkNodeDoc (Some (n_text nd)) (Some (n_x nd)) (Some (n_y nd))
                    (Some (n_children nd)) (n_fill nd) (Some (n_custom nd))))
       (nodes ws)).

(** [save]: nothing is written for an empty workspace or when the file
    dialog is cancelled ([path] is [None] or empty). *)
Definition save (path : option string) (ws : Workspace) : option Document :=
  match nodes ws with
  | [] => None
  | _ =>
      match path with
      | None => None
      | Some p => if String.eqb p ""%string then None else Some (save_data ws)
      end
  end.

(* ================================================================== *)
(** ** Specification vocabulary *)

(** [m] relates every start state to the state it leaves, whatever the
    outcome. *)
Definition preserves {S A : Type} (R : S -> S -> Prop) (m : M S A) : Prop :=
  forall s, R s (snd (m s)).

(** The two states differ at most in the edge-offset memory. *)
Definition only_offsets (s s' : Workspace) : Prop :=
  s' = with_edge_offsets (fun _ => edge_offsets s') s.

(** [toLogical] of the spec is [_from_canvas_point]; equality of points
    as numbers. *)
Definition point_eq (p q : Q * Q) : Prop := fst p == fst q /\ snd p == snd q.

(** The origin that [zoom] uses. *)
Definition zoom_origin (tk : Tk) (origin : option (Q * Q)) : Q * Q :=
  match origin with
  | Some o => o
  | None => (of_int (winfo_width tk) / 2, of_int (winfo_height tk) / 2)
  end.

(** The ring cells of the free-position search in the order of the spec:
    radius 1 to 8, and on each ring [dx] from [-radius] to [radius] with,
    for each [dx], [dy] from [-radius] to [radius], keeping the border of
    the square. *)
Definition ring_offsets : list (Z * Z) :=
  flat_map (fun radius =>
    flat_map (fun dx =>
      flat_map (fun dy =>
        if Z.eqb (Z.abs dx) radius || Z.eqb (Z.abs dy) radius then [(dx, dy)] else [])
        (range (- radius) (radius + 1)))
      (range (- radius) (radius + 1)))
    (range 1 9).

(** The grid point [dx] columns and [dy] rows away from [(x, y)]. *)
Definition grid_cell (x y : Q) (d : Z * Z) : Q * Q :=
  (x + of_int (fst d) * (NODE_W + HORIZ_GAP), y + of_int (snd d) * (NODE_H + VERT_GAP)).

(** Chebyshev distance of a grid offset from the origin. *)
Definition chebyshev (d : Z * Z) : Z := Z.max (Z.abs (fst d)) (Z.abs (snd d)).

(** The cell test of the search loop. *)
Definition try_cell (ws : Workspace) (x y : Q) (d : Z * Z) : option (Q * Q) :=
  if _is_position_free ws (fst (grid_cell x y d)) (snd (grid_cell x y d))
  then Some (grid_cell x y d) else None.

(** [d] is the first offset of [offsets] whose cell is free. *)
Definition first_free (ws : Workspace) (x y : Q) (offsets : list (Z * Z)) (d : Z * Z) : Prop :=
  exists before after,
    offsets = before ++ d :: after
    /\ _is_position_free ws (fst (grid_cell x y d)) (snd (grid_cell x y d)) = true
    /\ forall d', In d' before ->
         _is_position_free ws (fst (grid_cell x y d')) (snd (grid_cell x y d')) = false.

(** ** Example states *)

(** What Tk answers in the examples: an 800 x 600 canvas and a font whose
    characters are 8 wide and 16 high. *)
Definition example_tk : Tk :=
  mkTk 800 600 (fun _ _ s => (8 * Z.of_nat (String.length s))%Z) (fun _ _ => 16%Z).

(** A workspace with a single default-sized node, the root, at (0, 0). *)
Definition one_node_ws : Workspace :=
  mkWorkspace
    [(1%Z, mkNode "Root" 0 0 [] (Some "#B9C2FF"%string) true (Some NODE_W) (Some NODE_H))]
    [(1%Z, None)] [1%Z] [] 1%Z (Some 1%Z) 2%Z 1 0 0.

(** The root 1 with the three children 2, 3, 4, as [add_child] attaches
    them. *)
Definition star3_ws : Workspace :=
  mkWorkspace
    [(1%Z, mkNode "Root" 0 0 [2; 3; 4]%Z (Some "#B9C2FF"%string) true (Some NODE_W) (Some NODE_H));
     (2%Z, mkNode "A" 220 0 [] (Some "#FFB3BE"%string) true (Some NODE_W) (Some NODE_H));
     (3%Z, mkNode "B" (-220) 0 [] (Some "#FFF49A"%string) true (Some NODE_W) (Some NODE_H));
     (4%Z, mkNode "C" 220 92 [] (Some "#C6FFB0"%string) true (Some NODE_W) (Some NODE_H))]
    [(1%Z, None); (2%Z, Some 1%Z); (3%Z, Some 1%Z); (4%Z, Some 1%Z)]
    [1; 2; 3; 4]%Z [] 4%Z (Some 1%Z) 5%Z 1 0 0.

(** ** Slots *)

Definition qsum (l : list Q) : Q := fold_right Qplus 0 l.

(** The symmetric position sequence in the words of the spec: for an even
    length the values ±0.5, ±1.5, ..., for an odd length 0, ±1, ±2, ...,
    in ascending order. *)
Definition spec_positions (L : Z) : list Q :=
  if Z.eqb (L mod 2) 0
  then map (fun k => of_int k + 0.5) (range (- (L / 2)) (L / 2))
  else map of_int (range (- (L / 2)) (L / 2 + 1)).

(** The offsets that the loops of [_symmetrical_positions] go through,
    and the list that the sort leaves after [k] rounds. *)
Fixpoint offset_at (o : Q) (k : nat) : Q :=
  match k with
  | O => o
  | S k' => offset_at o k' + 1
  end.

Fixpoint pairs_upto (o : Q) (k : nat) : list Q :=
  match k with
  | O => []
  | S k' => pairs_upto o k' ++ [- offset_at o k'; offset_at o k']
  end.

Fixpoint nested (base : list Q) (o : Q) (k : nat) : list Q :=
  match k with
  | O => base
  | S k' => - offset_at o k' :: nested base o k' ++ [offset_at o k']
  end.

Definition entry_nid (e : Entry) : Z := snd (fst e).
Definition entry_parent (e : Entry) : option Z := snd e.

(** The parent of the entry is the root or absent: [assign] blends with
    weight 0. *)
Definition weightless (root_id : Z) (e : Entry) : Prop :=
  match entry_parent e with
  | None => True
  | Some p => p = root_id
  end.

Definition slot_of (slots : Dict.t Z Q) (nid : Z) : Q :=
  opt_default 0 (Dict.get slots nid).

(** The slots that the layout engine computes for the children of the
    root on one side ([direction] -1 or 1), in the order of the root's
    children list. *)
Definition sibling_slots (fuel : nat) (ws : Workspace) (root_id direction : Z)
  : outcome (list Q) :=
  let* directions := _assign_directions fuel ws root_id in
  let* depths := _compute_depths fuel ws root_id in
  let* slots := _compute_vertical_slots ws root_id directions depths in
  let* rnode := node_at ws root_id in
  Val (map (slot_of slots)
         (filter (fun c => Z.eqb (opt_default 0%Z (Dict.get directions c)) direction)
            (n_children rnode))).

(** The list that [_symmetrical_positions] returns, round by round. *)
Definition code_positions (count : Z) : list Q :=
  if (count <=? 0)%Z then []
  else if Z.eqb (count mod 2) 0 then nested [] 0.5 (Z.to_nat (count / 2))
  else nested [0] 1 (Z.to_nat (count / 2)).

(** The slot that [assign] stores for the entry at position [idx] of the
    ordered bucket. *)
Definition assigned_slot (root_id : Z) (positions : list Q) (idx : Z) (e : Entry) : Q :=
  let '(parent_slot, _, _, parent_id) := e in
  let length := Z.of_nat (List.length positions) in
  let base := if Z.eqb length 0 then 0
              else nth (Z.to_nat (Z.min idx (length - 1))) positions 0 in
  let weight := match parent_id with
                | None => 0
                | Some p => if Z.eqb p root_id then 0 else 0.25
                end in
  base * (1 - weight) + parent_slot * weight.

Definition bucket_nids (b : Buckets) : list Z :=
  map entry_nid (left b) ++ map entry_nid (right b) ++ map entry_nid (centre b).

(** ** Frame of the layout *)

(** What auto-layout may change in a node: [x], [y], and the fill when the
    node is not custom-coloured. *)
Definition node_frame (n n' : Node) : Prop :=
  n_text n' = n_text n
  /\ n_children n' = n_children n
  /\ n_w n' = n_w n
  /\ n_h n' = n_h n
  /\ n_custom n' = n_custom n
  /\ (n_custom n = true -> n_fill n' = n_fill n).

(** Same ids in the same order, each node changed within [node_frame]. *)
Definition nodes_frame (d d' : Dict.t Z Node) : Prop :=
  Forall2 (fun kv kv' => fst kv' = fst kv /\ node_frame (snd kv) (snd kv')) d d'.

Definition layout_frame (s s' : Workspace) : Prop :=
  nodes_frame (nodes s) (nodes s')
  /\ parent s' = parent s
  /\ canvas_items s' = canvas_items s
  /\ palette_index s' = palette_index s
  /\ root_id s' = root_id s
  /\ next_id s' = next_id s
  /\ scale s' = scale s
  /\ offset_x s' = offset_x s
  /\ offset_y s' = offset_y s.

(** ** Node creation *)

(** Node [nid] exists, is flagged custom and has the fill [fill]. *)
Definition created (nid : Z) (fill : string) (s : Workspace) : Prop :=
  exists n, Dict.get (nodes s) nid = Some n /\ n_custom n = true /\ n_fill n = Some fill.

(** [m] keeps the state property [P]. *)
Definition keeps {A : Type} (P : Workspace -> Prop) (m : M Workspace A) : Prop :=
  preserves (fun s s' => P s -> P s') m.

(** The colour that [_next_auto_color] hands out in state [s]. *)
Definition next_palette_color (s : Workspace) : string :=
  nth (Z.to_nat (palette_index s mod Z.of_nat (List.length PALETTE_COLORS)))
    PALETTE_COLORS "#ffffff"%string.

(** ** Malformed documents *)

(** A persisted document whose two nodes list each other as child. *)
Definition cyclic_doc : Document :=
  mkDocument (Some 1%Z) (Some 3%Z)
    [(1%Z, mkNodeDoc (Some "a"%string) (Some 0) (Some 0) (Some [2%Z]) None (Some false));
     (2%Z, mkNodeDoc (Some "b"%string) (Some 220) (Some 0) (Some [1%Z]) None (Some false))].

(** The workspace in which loading [cyclic_doc] leaves the tables. *)
Definition cyclic_ws : Workspace := snd (load_tables cyclic_doc empty_workspace).

(** A persisted document whose only node lists the child 99, which is not
    among the nodes. *)
Definition dangling_doc : Document :=
  mkDocument (Some 1%Z) (Some 2%Z)
    [(1%Z, mkNodeDoc (Some "a"%string) (Some 0) (Some 0) (Some [99%Z]) None (Some false))].

(** The keys of the parent map that are not in [visited]. *)
Definition unvisited (ws : Workspace) (visited : list Z) : list Z :=
  filter (fun k => negb (zmem k visited)) (Dict.keys (parent ws)).

(** ** Edge routing *)

(** The end points and the candidate polylines of an edge as plain
    values; [render_edge_candidate_search] shows that the readers they
    come from do return when both nodes exist. *)
Definition endpoints_of (ws : Workspace) (pid cid : Z) : Point * Point :=
  match edge_endpoints ws pid cid with
  | Val ends => ends
  | _ => ((0, 0), (0, 0))%R
  end.

Definition path_of (ws : Workspace) (pid cid : Z) (start end_ : Point) (offset : Q)
  : list Point :=
  match candidate_path ws pid cid start end_ offset with
  | Val points => points
  | _ => []
  end.

(** The candidate offsets in the order of the spec. *)
Definition spec_candidates (base : Q) : list Q :=
  [base + 0; base + 20; base + -20; base + 40; base + -40;
   base + 60; base + -60; base + 80; base + -80].

(** A root with one child: the edge (1, 2). *)
Definition pair_ws : Workspace :=
  mkWorkspace
    [(1%Z, mkNode "Root" 0 0 [2%Z] (Some "#B9C2FF"%string) true (Some NODE_W) (Some NODE_H));
     (2%Z, mkNode "A" 220 0 [] (Some "#FFB3BE"%string) true (Some NODE_W) (Some NODE_H))]
    [(1%Z, None); (2%Z, Some 1%Z)] [1; 2]%Z [] 2%Z (Some 1%Z) 3%Z 1 0 0.

(** ** Exit points *)

(** [p] lies on the axis-parallel ellipse with centre [(cx, cy)] and
    semi-axes [a] and [b]. *)
Definition ellipse_eq (cx cy a b : R) (p : Point) : Prop :=
  ((fst p - cx) * (fst p - cx) / (a * a) + (snd p - cy) * (snd p - cy) / (b * b) = 1)%R.

(** [p] lies on the bounding ellipse of node [nid]: the ellipse inscribed
    in the box of [_node_bbox], whose half sides are half the node's
    cached width and height times the scale. *)
Definition on_bounding_ellipse (ws : Workspace) (nid : Z) (p : Point) : Prop :=
  exists x0 y0 x1 y1,
    _node_bbox ws nid = Val (x0, y0, x1, y1)
    /\ ellipse_eq (Q2R ((x0 + x1) / 2)) (Q2R ((y0 + y1) / 2))
         (Q2R ((x1 - x0) / 2)) (Q2R ((y1 - y0) / 2)) p.

(** A root whose text made it twice as wide as the default node, and its
    child at (400, 0). *)
Definition wide_ws : Workspace :=
  mkWorkspace
    [(1%Z, mkNode "A root with a long line of text in it" 0 0 [2%Z]
             (Some "#B9C2FF"%string) true (Some 320) (Some NODE_H));
     (2%Z, mkNode "A" 400 0 [] (Some "#FFB3BE"%string) true (Some NODE_W) (Some NODE_H))]
    [(1%Z, None); (2%Z, Some 1%Z)] [1; 2]%Z [] 2%Z (Some 1%Z) 3%Z 1 0 0.

(** ** Tree invariants *)

(** The children list of [p]; a node that does not exist has none. *)
Definition children_of (ws : Workspace) (p : Z) : list Z :=
  match Dict.get (nodes ws) p with
  | Some n => n_children n
  | None => []
  end.

(** Bidirectional consistency: [c] is in the children list of [p]
    exactly when the parent pointer of [c] is [p]. *)
Definition consistent (ws : Workspace) : Prop :=
  forall p c, In c (children_of ws p) <-> parent_get ws c = Some p.

(** The tree invariant of the spec: when there are nodes, exactly one of
    them has no parent, and it is the root; and the tables are
    bidirectionally consistent. *)
Definition tree_invariant (ws : Workspace) : Prop :=
  (nodes ws <> [] ->
   exists r,
     root_id ws = Some r
     /\ Dict.mem (nodes ws) r = true
     /\ forall nid, Dict.mem (nodes ws) nid = true ->
                    (parent_get ws nid = None <-> nid = r))
  /\ consistent ws.

(** What the dicts and lists are by construction: keys occur once, a
    children list names a child once, and ids from [next_id] on are not in
    use. *)
Definition tables_ok (ws : Workspace) : Prop :=
  NoDup (Dict.keys (nodes ws))
  /\ NoDup (Dict.keys (parent ws))
  /\ (forall p, NoDup (children_of ws p))
  /\ (forall nid, (next_id ws <= nid)%Z ->
        Dict.get (nodes ws) nid = None /\ Dict.get (parent ws) nid = None).

Definition linked (ws : Workspace) : Prop := tables_ok ws /\ consistent ws.

(** The two states have the same graph: same node ids, children lists,
    parent map and id counter. *)
Definition same_graph (s s' : Workspace) : Prop :=
  Dict.keys (nodes s') = Dict.keys (nodes s)
  /\ (forall p, children_of s' p = children_of s p)
  /\ parent s' = parent s
  /\ next_id s' = next_id s.

(** A linked state in which [nid] is a node without parent. *)
Definition linked_orphan (nid : Z) (s : Workspace) : Prop :=
  linked s /\ Dict.mem (nodes s) nid = true /\ parent_get s nid = None.

(** ** View *)

(** The two states show the logical plane through the same transform. *)
Definition same_view (s s' : Workspace) : Prop :=
  scale s' = scale s /\ offset_x s' = offset_x s /\ offset_y s' = offset_y s.

(** The scale is one that [zoom] can produce. *)
Definition scale_in_range (s : Workspace) : Prop :=
  ZOOM_MIN <= scale s /\ scale s <= ZOOM_MAX.

(** The point [p] moved by [(dx, dy)]. *)
Definition shifted (p : Q * Q) (dx dy : Q) : Q * Q := (fst p + dx, snd p + dy).

(** ** Placement *)

(** The point [(x, y)] is inside the exclusion box of node [n]. *)
Definition overlaps (n : Node) (x y : Q) : Prop :=
  Qabs (x - n_x n) < NODE_W + NODE_MARGIN /\ Qabs (y - n_y n) < NODE_H + NODE_MARGIN.

(** No node of the workspace has [(x, y)] in its exclusion box. *)
Definition clear_of_nodes (ws : Workspace) (p : Q * Q) : Prop :=
  forall nid n, In (nid, n) (nodes ws) -> ~ overlaps n (fst p) (snd p).

(** Where [_find_free_position] gives up. *)
Definition fallback_position (x y : Q) : Q * Q :=
  (x + 10 * (NODE_W + HORIZ_GAP), y + 10 * (NODE_H + VERT_GAP)).

(** ** Ancestors *)

(** [parent_chain ws nid l]: [l] lists the proper ancestors of [nid],
    nearest first, and ends at a node without parent. *)
Inductive parent_chain (ws : Workspace) : Z -> list Z -> Prop :=
| chain_top (nid : Z) :
    parent_get ws nid = None -> parent_chain ws nid []
| chain_up (nid p : Z) (l : list Z) :
    parent_get ws nid = Some p -> parent_chain ws p l -> parent_chain ws nid (p :: l).

(** Every id in a children list is a node: no edge dangles. *)
Definition closed (ws : Workspace) : Prop :=
  forall p c, In c (children_of ws p) -> Dict.mem (nodes ws) c = true.

(** ** Formatted text *)

Definition newline : string := String "010"%char EmptyString.

(** A character that is neither a marker nor a line break. *)
Definition plain_char (c : ascii) : Prop :=
  c <> "*"%char /\ c <> "_"%char /\ c <> "010"%char.

(** Text without markers and line breaks. *)
Definition plain (s : string) : Prop := Forall plain_char (list_ascii_of_string s).

Definition segment_text (seg : Segment) : string := fst (fst seg).

(** Number of line breaks in a text. *)
Definition count_newlines (s : string) : nat :=
  List.length (filter (fun c => Ascii.eqb c "010"%char) (list_ascii_of_string s)).

(** A segment that can be displayed: its text is not empty and holds no
    italic marker. *)
Definition shown_segment (seg : Segment) : Prop :=
  segment_text seg <> ""%string
  /\ ~ In "_"%char (list_ascii_of_string (segment_text seg)).

(** ** Colours *)

(** Node [n] with the fill [fill] and the custom flag [custom]. *)
Definition recolored (fill : string) (custom : bool) (n : Node) : Node :=
  mkNode (n_text n) (n_x n) (n_y n) (n_children n) (Some fill) custom (n_w n) (n_h n).

(** The depth-derived colour of node [nid]. *)
Definition depth_color (ws : Workspace) (nid : Z) : string :=
  match _node_depth ws nid with
  | Val d => _default_fill_for_depth d
  | _ => "white"%string
  end.

(** ** Redraw *)

(** Some children list names an id that is not a node. *)
Definition dangling (ws : Workspace) : Prop :=
  exists pid cid, In (pid, cid) (_edges ws) /\ Dict.mem (nodes ws) cid = false.

(** ** Layout result *)

(** The horizontal position that [auto_layout] gives to a node of the
    given direction and depth. *)
Definition layout_x (base_x : Q) (direction depth : Z) : Q :=
  if (direction <? 0)%Z then base_x - of_int depth * (NODE_W + HORIZ_GAP)
  else if (0 <? direction)%Z then base_x + of_int depth * (NODE_W + HORIZ_GAP)
  else base_x.

(** Node [n] with id [nid] as the node loop of [auto_layout] leaves it,
    for the tables computed before the loop. *)
Definition placed (root_id : Z) (base_x base_y : Q) (directions depths : Dict.t Z Z)
  (slots : Dict.t Z Q) (nid : Z) (n : Node) : Node :=
  let direction :=
    opt_default (if negb (Z.eqb nid root_id) then 1%Z else 0%Z) (Dict.get directions nid) in
  let depth := opt_default 0%Z (Dict.get depths nid) in
  let root_slot := opt_default 0 (Dict.get slots root_id) in
  mkNode (n_text n)
    (layout_x base_x direction depth)
    (base_y + (opt_default root_slot (Dict.get slots nid) - root_slot) * (NODE_H + VERT_GAP))
    (n_children n)
    (if n_custom n then n_fill n else Some (_default_fill_for_depth depth))
    (n_custom n) (n_w n) (n_h n).

(** The root that [auto_layout] lays the tree out from. *)
Definition layout_root (ws : Workspace) : option Z :=
  match Dict.first_key (nodes ws) with
  | None => None
  | Some first =>
      Some (match root_id ws with
            | Some r => if Z.eqb r 0 then first else r
            | None => first
            end)
  end.

(** The logical point that [auto_layout] takes as the place of the root:
    the centre of the canvas, which counts as at least two nodes wide and
    high. *)
Definition layout_base (tk : Tk) (ws : Workspace) : Q * Q :=
  _from_canvas_point ws
    (Qmax (of_int (winfo_width tk)) (NODE_W * 2) / 2)
    (Qmax (of_int (winfo_height tk)) (NODE_H * 2) / 2).

(** ** Loading *)

(** The node that the loader makes of one entry of the document. *)
Definition loaded_node (nd : NodeDoc) : Node :=
  mkNode (opt_default ""%string (d_text nd)) (opt_default 0 (d_x nd))
    (opt_default 0 (d_y nd)) (opt_default [] (d_children nd)) (d_fill nd)
    (opt_default false (d_custom nd)) None None.

(** The fill that [_draw_node] settles for node [nid]. *)
Definition drawn_fill (ws : Workspace) (nid : Z) (n : Node) : string :=
  match truthy (n_fill n) with
  | Some f => f
  | None => depth_color ws nid
  end.

(** A node as it is after a save and a load: the cached size is gone. *)
Definition reloaded (n : Node) : Node :=
  mkNode (n_text n) (n_x n) (n_y n) (n_children n) (n_fill n) (n_custom n) None None.

(** The node table after the first loop of the loader. *)
Definition loaded_nodes (data : Document) : Dict.t Z Node :=
  fold_left (fun d kv => Dict.set d (fst kv) (loaded_node (snd kv))) (doc_nodes data) [].

(** The parent that the loader's second loop leaves for [k]: the last
    node, in table order, that lists [k] as a child. *)
Definition loaded_parent (ns : Dict.t Z Node) (k : Z) : option Z :=
  fold_left (fun acc kv => if zmem k (n_children (snd kv)) then Some (fst kv) else acc)
    ns None.

(** The largest id of a document, 0 for none. *)
Definition max_doc_id (data : Document) : Z :=
  fold_left Z.max (map fst (doc_nodes data)) 0%Z.

(** Every node has a fill that is not empty, as after any drawing. *)
Definition filled (ws : Workspace) : Prop :=
  forall k n, Dict.get (nodes ws) k = Some n ->
              exists f, n_fill n = Some f /\ f <> ""%string.

(** The root is a node, and is missing only when there are no nodes. *)
Definition rooted (ws : Workspace) : Prop :=
  match root_id ws with
  | Some r => Dict.mem (nodes ws) r = true
  | None => nodes ws = []
  end.

(** ** Subtrees *)

(** [subtree ws nid l]: below [nid] the children lists unfold to a finite
    tree of nodes, and [l] lists it in preorder: the node, then the
    subtree of each child in the order of the children list. *)
Inductive subtree (ws : Workspace) : Z -> list Z -> Prop :=
| subtree_node (nid : Z) (n : Node) (l : list Z) :
    Dict.get (nodes ws) nid = Some n ->
    subtrees ws (n_children n) l ->
    subtree ws nid (nid :: l)
with subtrees (ws : Workspace) : list Z -> list Z -> Prop :=
| subtrees_nil : subtrees ws [] []
| subtrees_cons (c : Z) (cs l1 l2 : list Z) :
    subtree ws c l1 -> subtrees ws cs l2 -> subtrees ws (c :: cs) (l1 ++ l2).

(** The children list [cs] after each id of [l] has been removed from it
    once, as the rounds of the deletion loop do. *)
Definition remove_each (l cs : list Z) : list Z :=
  fold_left (fun acc c => remove_first c acc) l cs.

(** The parent pointer of a node that survives the deletion of [l]. *)
Definition parent_outside (l : list Z) (p : option Z) : option Z :=
  match p with
  | Some q => if zmem q l then None else Some q
  | None => None
  end.

(** The node reached from [nid] by following the parent pointer [k]
    times, if the chain is that long. *)
Fixpoint nth_parent (ws : Workspace) (k : nat) (nid : Z) : option Z :=
  match k with
  | O => Some nid
  | S k' =>
      match parent_get ws nid with
      | Some p => nth_parent ws k' p
      | None => None
      end
  end.

(* ================================================================== *)
(** * Properties *)

(** ** Booleans of comparisons *)

Lemma Qltb_lt (a b : Q) : Qltb a b = true <-> a < b.
Proof.
  unfold Qltb. rewrite negb_true_iff, <- not_true_iff_false, Qle_bool_iff.
  split; [apply Qnot_le_lt | apply Qlt_not_le].
Qed.

Lemma Qltb_ge (a b : Q) : Qltb a b = false <-> b <= a.
Proof.
  unfold Qltb. rewrite negb_false_iff. apply Qle_bool_iff.
Qed.

Lemma Qleb_le (a b : Q) : Qleb a b = true <-> a <= b.
Proof. apply Qle_bool_iff. Qed.

Lemma Qeqb_eq (a b : Q) : Qeqb a b = true <-> a == b.
Proof. apply Qeq_bool_iff. Qed.

Lemma Qeqb_neq (a b : Q) : Qeqb a b = false <-> ~ a == b.
Proof.
  rewrite <- Qeqb_eq. destruct (Qeqb a b); split; congruence.
Qed.

(** ** Dictionaries *)

Class KeyLaws (K : Type) `{Key K} : Prop :=
  { keqb_eq : forall a b : K, keqb a b = true <-> a = b }.

#[export] Instance KeyLaws_Z : KeyLaws Z.
Proof. constructor. intros a b. apply Z.eqb_eq. Qed.

#[export] Instance KeyLaws_pair : KeyLaws (Z * Z).
Proof.
  constructor. intros [a1 a2] [b1 b2]. simpl.
  rewrite andb_true_iff, !Z.eqb_eq. split.
  - intros [-> ->]. reflexivity.
  - intros E. inversion E. auto.
Qed.

Section DictFacts.
Context {K V : Type} `{KeyLaws K}.
Implicit Types (d : Dict.t K V) (k : K) (v : V).

Lemma keqb_refl k : keqb k k = true.
Proof. apply keqb_eq. reflexivity. Qed.

Lemma keqb_neq k k' : k <> k' -> keqb k k' = false.
Proof.
  intros N. destruct (keqb k k') eqn:E; [|reflexivity].
  apply keqb_eq in E. contradiction.
Qed.

Lemma keqb_dec k k' : {k = k'} + {k <> k'}.
Proof.
  destruct (keqb k k') eqn:E.
  - left. apply keqb_eq. exact E.
  - right. intros ->. rewrite keqb_refl in E. discriminate.
Qed.

Lemma get_set_same d k v : Dict.get (Dict.set d k v) k = Some v.
Proof.
  induction d as [|[k' v'] d IH]; simpl.
  - rewrite keqb_refl. reflexivity.
  - destruct (keqb k' k) eqn:E; simpl; rewrite E; auto.
Qed.

Lemma get_set_other d k k' v : k <> k' -> Dict.get (Dict.set d k v) k' = Dict.get d k'.
Proof.
  intros N. induction d as [|[k0 v0] d IH]; simpl.
  - rewrite keqb_neq; auto.
  - destruct (keqb k0 k) eqn:E; simpl.
    + apply keqb_eq in E. subst k0. rewrite keqb_neq; auto.
    + destruct (keqb k0 k'); auto.
Qed.

Lemma get_set d k k' v :
  Dict.get (Dict.set d k v) k' = if keqb k k' then Some v else Dict.get d k'.
Proof.
  destruct (keqb_dec k k') as [->|N].
  - rewrite keqb_refl. apply get_set_same.
  - rewrite keqb_neq by exact N. apply get_set_other. exact N.
Qed.

Lemma keys_set_present d k v :
  Dict.mem d k = true -> Dict.keys (Dict.set d k v) = Dict.keys d.
Proof.
  unfold Dict.mem, Dict.keys. induction d as [|[k' v'] d IH]; simpl.
  - discriminate.
  - destruct (keqb k' k) eqn:E; simpl; [reflexivity|].
    intros M. f_equal. apply IH. exact M.
Qed.

Lemma keys_set_absent d k v :
  Dict.mem d k = false -> Dict.keys (Dict.set d k v) = Dict.keys d ++ [k].
Proof.
  unfold Dict.mem, Dict.keys. induction d as [|[k' v'] d IH]; simpl.
  - reflexivity.
  - destruct (keqb k' k) eqn:E; simpl; [discriminate|].
    intros M. f_equal. apply IH. exact M.
Qed.

Lemma get_some_in_keys d k v : Dict.get d k = Some v -> In k (Dict.keys d).
Proof.
  unfold Dict.keys. induction d as [|[k' v'] d IH]; simpl; [discriminate|].
  destruct (keqb k' k) eqn:E.
  - apply keqb_eq in E. auto.
  - intros G. right. apply IH. exact G.
Qed.

Lemma in_keys_get d k : In k (Dict.keys d) -> exists v, Dict.get d k = Some v.
Proof.
  unfold Dict.keys. induction d as [|[k' v'] d IH]; simpl; [contradiction|].
  intros [->|I].
  - rewrite keqb_refl. eauto.
  - destruct (keqb k' k); eauto.
Qed.

Lemma mem_true_iff d k : Dict.mem d k = true <-> In k (Dict.keys d).
Proof.
  unfold Dict.mem. split.
  - destruct (Dict.get d k) eqn:G; [|discriminate].
    intros _. eapply get_some_in_keys. exact G.
  - intros I. destruct (in_keys_get d k I) as [v ->]. reflexivity.
Qed.

Lemma get_pop_same d k : NoDup (Dict.keys d) -> Dict.get (Dict.pop d k) k = None.
Proof.
  unfold Dict.keys. induction d as [|[k' v'] d IH]; simpl; [reflexivity|].
  intros ND. inversion ND as [|? ? NI ND']; subst.
  destruct (keqb k' k) eqn:E; simpl.
  - apply keqb_eq in E. subst k'.
    destruct (Dict.get d k) eqn:G; [|reflexivity].
    exfalso. apply NI. eapply get_some_in_keys. exact G.
  - rewrite E. apply IH. exact ND'.
Qed.

Lemma get_pop_other d k k' : k <> k' -> Dict.get (Dict.pop d k) k' = Dict.get d k'.
Proof.
  intros N. induction d as [|[k0 v0] d IH]; simpl; [reflexivity|].
  destruct (keqb k0 k) eqn:E; simpl.
  - apply keqb_eq in E. subst k0. rewrite keqb_neq; auto.
  - destruct (keqb k0 k'); auto.
Qed.
End DictFacts.

(** ** The state monad *)

Section Preserves.
Context {S : Type} (R : S -> S -> Prop).
Hypothesis R_refl : forall s, R s s.
Hypothesis R_trans : forall a b c, R a b -> R b c -> R a c.

Lemma preserves_ret {A : Type} (a : A) : preserves R (ret a).
Proof. intros s. apply R_refl. Qed.

Lemma preserves_read {A : Type} (r : S -> outcome A) : preserves R (read r).
Proof. intros s. apply R_refl. Qed.

Lemma preserves_gets {A : Type} (f : S -> A) : preserves R (gets f).
Proof. intros s. apply R_refl. Qed.

Lemma preserves_modify (f : S -> S) : (forall s, R s (f s)) -> preserves R (modify f).
Proof. intros F s. apply F. Qed.

Lemma preserves_bind {A B : Type} (m : M S A) (k : A -> M S B) :
  preserves R m -> (forall a, preserves R (k a)) -> preserves R (bind m k).
Proof.
  intros Pm Pk s. unfold bind. specialize (Pm s).
  destruct (m s) as [[a|e|] s1]; simpl in *; auto.
  eapply R_trans; [exact Pm | apply Pk].
Qed.

Lemma preserves_for_each {A : Type} (l : list A) (body : A -> M S unit) :
  (forall a, preserves R (body a)) -> preserves R (for_each l body).
Proof.
  intros Pb. induction l as [|a l IH]; simpl.
  - apply preserves_ret.
  - apply preserves_bind; auto.
Qed.
End Preserves.

(** ** Redraw touches the edge-offset memory only *)

Lemma only_offsets_refl (s : Workspace) : only_offsets s s.
Proof. destruct s. reflexivity. Qed.

Lemma only_offsets_trans (a b c : Workspace) :
  only_offsets a b -> only_offsets b c -> only_offsets a c.
Proof.
  unfold only_offsets. intros Hab Hbc. rewrite Hbc. rewrite Hab.
  destruct a. reflexivity.
Qed.

Lemma only_offsets_with (f : Dict.t (Z * Z) Q -> Dict.t (Z * Z) Q) (s : Workspace) :
  only_offsets s (with_edge_offsets f s).
Proof. destruct s. reflexivity. Qed.

Create HintDb offsets.
#[local] Hint Resolve only_offsets_refl only_offsets_trans only_offsets_with : offsets.

(** Peels one [bind] off a goal [preserves only_offsets (bind m k)]. *)
Ltac preserves_step :=
  first
    [ apply (preserves_ret only_offsets only_offsets_refl)
    | apply (preserves_read only_offsets only_offsets_refl)
    | apply (preserves_gets only_offsets only_offsets_refl)
    | apply preserves_modify; solve [eauto with offsets]
    | apply (preserves_bind only_offsets only_offsets_trans) ].

Lemma _render_edge_only_offsets (pid cid : Z) (drawn : list DrawnPath) :
  preserves only_offsets (_render_edge pid cid drawn).
Proof.
  unfold _render_edge.
  preserves_step; [preserves_step|]. intros [start end_].
  preserves_step; [preserves_step|]. intros base_offset.
  preserves_step; [preserves_step|]. intros found.
  preserves_step.
  - destruct found as [[points offset]|]; [preserves_step|].
    preserves_step; [preserves_step|]. intros points. preserves_step.
  - intros [chosen_points chosen_offset].
    preserves_step; [preserves_step|]. intros _. preserves_step.
Qed.

Lemma render_edges_only_offsets (edges : list (Z * Z)) (drawn : list DrawnPath) :
  preserves only_offsets (render_edges edges drawn).
Proof.
  revert drawn. induction edges as [|[pid cid] edges IH]; intros drawn; simpl.
  - preserves_step.
  - preserves_step; [apply _render_edge_only_offsets | intros drawn'; apply IH].
Qed.

Lemma redraw_only_offsets : preserves only_offsets redraw.
Proof.
  unfold redraw.
  preserves_step; [preserves_step|]. intros _.
  preserves_step; [preserves_step|]. intros edges.
  preserves_step; [preserves_step|]. intros keys.
  preserves_step.
  - apply (preserves_for_each only_offsets only_offsets_refl only_offsets_trans).
    intros key. destruct (negb (edge_mem key edges)); preserves_step.
  - intros _. apply render_edges_only_offsets.
Qed.

Lemma redraw_fields (s : Workspace) :
  let s' := snd (redraw s) in
  nodes s' = nodes s /\ parent s' = parent s /\ canvas_items s' = canvas_items s
  /\ palette_index s' = palette_index s /\ root_id s' = root_id s
  /\ next_id s' = next_id s /\ scale s' = scale s
  /\ offset_x s' = offset_x s /\ offset_y s' = offset_y s.
Proof.
  intros s'. pose proof (redraw_only_offsets s) as E.
  fold s' in E. unfold only_offsets in E. rewrite E.
  destruct s. simpl. repeat split.
Qed.

(** ** Zoom *)

Lemma new_scale_bounds (v : Q) :
  ZOOM_MIN <= Qmax ZOOM_MIN (Qmin ZOOM_MAX v)
  /\ Qmax ZOOM_MIN (Qmin ZOOM_MAX v) <= ZOOM_MAX.
Proof.
  split.
  - apply Q.le_max_l.
  - apply Q.max_lub.
    + unfold ZOOM_MIN, ZOOM_MAX. discriminate.
    + apply Q.le_min_l.
Qed.

(** The state [zoom] leaves when the scale does change. *)
Lemma zoom_changes (tk : Tk) (ws : Workspace) (factor : Q) (origin : option (Q * Q)) :
  let new_scale := Qmax ZOOM_MIN (Qmin ZOOM_MAX (scale ws * factor)) in
  let c := zoom_origin tk origin in
  let ratio := if Qeqb (scale ws) 0 then 1 else new_scale / scale ws in
  Qltb (Qabs (new_scale - scale ws)) 1e-3 = false ->
  zoom tk factor origin ws =
  redraw (with_view new_scale
            (fst c - ratio * (fst c - offset_x ws))
            (snd c - ratio * (snd c - offset_y ws)) ws).
Proof.
  intros new_scale c ratio E.
  unfold zoom, bind, gets. cbv beta iota zeta. fold new_scale. rewrite E.
  unfold c, zoom_origin, ratio, modify.
  destruct origin as [[cx cy]|]; cbv beta iota zeta; cbn [fst snd];
    match goal with |- context [redraw ?s] => destruct (redraw s) as [[[]|e|] s'] end;
    reflexivity.
Qed.

(** C6. Zoom-to-cursor: with a positive scale, the scale that [zoom]
    computes lies in [[ZOOM_MIN, ZOOM_MAX]] = [[0.4, 2.5]]; when it is
    closer than 1e-3 to the old scale, [zoom] returns at once and leaves
    the workspace as it is; otherwise the new scale is stored and the
    logical point under the origin ([_from_canvas_point] of the origin) is
    the same number before and after. *)
Theorem zoom_to_cursor (tk : Tk) (ws : Workspace) (factor : Q) (origin : option (Q * Q)) :
  0 < scale ws ->
  let new_scale := Qmax ZOOM_MIN (Qmin ZOOM_MAX (scale ws * factor)) in
  let c := zoom_origin tk origin in
  let ws' := snd (zoom tk factor origin ws) in
  (ZOOM_MIN <= new_scale /\ new_scale <= ZOOM_MAX)
  /\ (Qabs (new_scale - scale ws) < 1e-3 -> zoom tk factor origin ws = (Val tt, ws))
  /\ (~ Qabs (new_scale - scale ws) < 1e-3 ->
      scale ws' = new_scale
      /\ point_eq (_from_canvas_point ws' (fst c) (snd c))
                  (_from_canvas_point ws (fst c) (snd c))).
Proof.
  intros Hpos new_scale c ws'.
  pose proof (new_scale_bounds (scale ws * factor)) as [Hlo Hhi].
  fold new_scale in Hlo, Hhi.
  split; [split; assumption|]. split.
  - intros Hclose. apply Qltb_lt in Hclose.
    unfold zoom, bind, gets. cbv beta iota zeta. fold new_scale.
    rewrite Hclose. reflexivity.
  - intros Hfar.
    assert (E : Qltb (Qabs (new_scale - scale ws)) 1e-3 = false).
    { apply Qltb_ge. apply Qnot_lt_le. exact Hfar. }
    pose proof (zoom_changes tk ws factor origin E) as Z.
    fold new_scale in Z. fold c in Z.
    assert (Hold : Qeqb (scale ws) 0 = false).
    { apply Qeqb_neq. intros E0. rewrite E0 in Hpos. discriminate. }
    rewrite Hold in Z.
    unfold ws'. rewrite Z.
    set (s1 := with_view new_scale _ _ ws).
    destruct (redraw_fields s1) as (_ & _ & _ & _ & _ & _ & Hs & Hx & Hy).
    split; [rewrite Hs; reflexivity|].
    assert (Hnew : 0 < new_scale).
    { eapply Qlt_le_trans; [|exact Hlo]. reflexivity. }
    assert (Hnew0 : Qeqb new_scale 0 = false).
    { apply Qeqb_neq. intros E0. rewrite E0 in Hnew. discriminate. }
    unfold _from_canvas_point. rewrite Hs, Hx, Hy. simpl.
    rewrite Hnew0, Hold. unfold point_eq. simpl.
    assert (Hn : ~ new_scale == 0) by (intros E0; rewrite E0 in Hnew; discriminate).
    assert (Ho : ~ scale ws == 0) by (intros E0; rewrite E0 in Hpos; discriminate).
    split; field; auto.
Qed.

(** The workspace of a fresh tab has scale 1: zooming in by [ZOOM_STEP]
    = 1.1 at the point (400, 300). *)
Lemma zoom_to_cursor_witness :
  0 < scale empty_workspace
  /\ let ws' := snd (zoom example_tk 1.1 (Some (400, 300)) empty_workspace) in
     scale ws' = Qmax ZOOM_MIN (Qmin ZOOM_MAX (scale empty_workspace * 1.1))
     /\ point_eq (_from_canvas_point ws' 400 300)
                 (_from_canvas_point empty_workspace 400 300).
Proof.
  assert (Hpos : 0 < scale empty_workspace) by reflexivity.
  split; [exact Hpos|].
  apply (proj2 (proj2 (zoom_to_cursor example_tk
                         empty_workspace 1.1 (Some (400, 300)) Hpos))).
  vm_compute. intros L. discriminate L.
Defined.

(** ** Free-position finder *)

Lemma first_some_ext {A B : Type} (f g : A -> option B) (l : list A) :
  (forall a, f a = g a) -> first_some f l = first_some g l.
Proof.
  intros E. induction l as [|a l IH]; simpl; [reflexivity|].
  rewrite E, IH. reflexivity.
Qed.

Lemma first_some_app {A B : Type} (f : A -> option B) (l1 l2 : list A) :
  first_some f (l1 ++ l2) =
  match first_some f l1 with
  | Some b => Some b
  | None => first_some f l2
  end.
Proof.
  induction l1 as [|a l1 IH]; simpl; [reflexivity|].
  destruct (f a); [reflexivity | exact IH].
Qed.

Lemma first_some_flat_map {A B C : Type} (f : B -> option C) (g : A -> list B) (l : list A) :
  first_some f (flat_map g l) = first_some (fun a => first_some f (g a)) l.
Proof.
  induction l as [|a l IH]; simpl; [reflexivity|].
  rewrite first_some_app, IH. reflexivity.
Qed.

(** The three nested loops visit [ring_offsets] in order. *)
Lemma _find_free_position_ring (ws : Workspace) (x y : Q) :
  _find_free_position ws x y =
  if _is_position_free ws x y then (x, y)
  else match first_some (try_cell ws x y) ring_offsets with
       | Some p => p
       | None => (x + 10 * (NODE_W + HORIZ_GAP), y + 10 * (NODE_H + VERT_GAP))
       end.
Proof.
  unfold _find_free_position. destruct (_is_position_free ws x y); [reflexivity|].
  unfold ring_offsets. rewrite first_some_flat_map.
  erewrite (first_some_ext _ _ (range 1 9)); [reflexivity|].
  intros radius. cbv beta. rewrite first_some_flat_map.
  apply first_some_ext. intros dx. rewrite first_some_flat_map.
  apply first_some_ext. intros dy.
  destruct (Z.eqb (Z.abs dx) radius), (Z.eqb (Z.abs dy) radius); simpl;
    unfold try_cell, grid_cell; simpl;
    try destruct (_is_position_free ws _ _); reflexivity.
Qed.

Lemma first_some_first_free (ws : Workspace) (x y : Q) (offsets : list (Z * Z)) (d : Z * Z) :
  first_free ws x y offsets d ->
  first_some (try_cell ws x y) offsets = Some (grid_cell x y d).
Proof.
  intros (before & after & -> & Hfree & Hocc).
  rewrite first_some_app.
  assert (E : first_some (try_cell ws x y) before = None).
  { induction before as [|b before IH]; simpl; [reflexivity|].
    unfold try_cell at 1. rewrite (Hocc b (or_introl eq_refl)).
    apply IH. intros d' I. apply Hocc. right. exact I. }
  rewrite E. simpl. unfold try_cell. rewrite Hfree. reflexivity.
Qed.

Lemma ring_offsets_head :
  exists rest, ring_offsets = (-1, -1)%Z :: (-1, 0)%Z :: (-1, 1)%Z :: rest.
Proof. eexists. vm_compute. reflexivity. Qed.

Lemma ring_offsets_chebyshev (d : Z * Z) :
  In d ring_offsets -> (1 <= chebyshev d <= 8)%Z.
Proof.
  intros I.
  assert (F : forallb (fun d => (1 <=? chebyshev d)%Z && (chebyshev d <=? 8)%Z) ring_offsets
              = true) by (vm_compute; reflexivity).
  rewrite forallb_forall in F. specialize (F d I).
  apply andb_true_iff in F. destruct F as [F1 F2].
  apply Z.leb_le in F1. apply Z.leb_le in F2. split; assumption.
Qed.

(** With a single node, a point is free exactly when it is outside the
    node's exclusion box. *)
Lemma free_one_node (ws : Workspace) (nid : Z) (n : Node) (x y : Q) :
  nodes ws = [(nid, n)] ->
  _is_position_free ws x y = true <->
  ~ (Qabs (x - n_x n) < NODE_W + NODE_MARGIN /\ Qabs (y - n_y n) < NODE_H + NODE_MARGIN).
Proof.
  intros E. unfold _is_position_free. rewrite E. cbn [_is_position_free_loop].
  destruct (Qltb (Qabs (x - n_x n)) (NODE_W + NODE_MARGIN)) eqn:Ex;
  destruct (Qltb (Qabs (y - n_y n)) (NODE_H + NODE_MARGIN)) eqn:Ey; cbn [andb];
    try apply Qltb_lt in Ex; try apply Qltb_lt in Ey;
    try apply Qltb_ge in Ex; try apply Qltb_ge in Ey.
  - split; [intros D; discriminate D|]. intros N. exfalso. apply N. split; assumption.
  - split; [|reflexivity]. intros _ [_ L]. apply (Qlt_not_le _ _ L). exact Ey.
  - split; [|reflexivity]. intros _ [L _]. apply (Qlt_not_le _ _ L). exact Ex.
  - split; [|reflexivity]. intros _ [L _]. apply (Qlt_not_le _ _ L). exact Ex.
Qed.

(** Freedom of a cell next to a single node at the origin, as linear
    inequalities. *)
Lemma free_origin_node (ws : Workspace) (nid : Z) (n : Node) (a b : Q) :
  nodes ws = [(nid, n)] -> n_x n == 0 -> n_y n == 0 ->
  (_is_position_free ws a b = true <-> ~ ((-178 < a /\ a < 178) /\ (-74 < b /\ b < 74))).
Proof.
  intros E Hx Hy. rewrite (free_one_node ws nid n a b E).
  rewrite !Qabs_Qlt_condition. unfold NODE_W, NODE_H, NODE_MARGIN.
  split; intros N C; apply N; destruct C as [[C1 C2] [C3 C4]];
    repeat split; lra.
Qed.

(** C7. Free-position finder: with exactly one node, placed at (0,0), and
    a candidate [(x, y)] inside that node's exclusion box (closer than
    [NODE_W + NODE_MARGIN] horizontally and [NODE_H + NODE_MARGIN]
    vertically), [_find_free_position] returns a free point; the point is
    the grid cell [candidate + (dx * (NODE_W + HORIZ_GAP), dy * (NODE_H +
    VERT_GAP))] of an integer offset [(dx, dy)] at Chebyshev distance
    between 1 and 8, and that offset is the first one of the ring
    enumeration whose cell is free. *)
Theorem find_free_position_one_node
  (ws : Workspace) (nid : Z) (n : Node) (x y : Q) :
  nodes ws = [(nid, n)] -> n_x n == 0 -> n_y n == 0 ->
  Qabs x < NODE_W + NODE_MARGIN -> Qabs y < NODE_H + NODE_MARGIN ->
  let p := _find_free_position ws x y in
  _is_position_free ws (fst p) (snd p) = true
  /\ exists d : Z * Z,
       p = grid_cell x y d
       /\ (1 <= chebyshev d <= 8)%Z
       /\ first_free ws x y ring_offsets d.
Proof.
  intros E Hx Hy Ax Ay p.
  apply Qabs_Qlt_condition in Ax. apply Qabs_Qlt_condition in Ay.
  unfold NODE_W, NODE_H, NODE_MARGIN in Ax, Ay.
  assert (Hocc : _is_position_free ws x y = false).
  { apply not_true_iff_false. rewrite (free_origin_node ws nid n x y E Hx Hy).
    intros N. apply N. repeat split; lra. }
  destruct ring_offsets_head as [rest Hring].
  assert (Hd : exists d, first_free ws x y ring_offsets d).
  { destruct (_is_position_free ws (fst (grid_cell x y (-1, -1)%Z))
                (snd (grid_cell x y (-1, -1)%Z))) eqn:F1.
    { exists (-1, -1)%Z, [], ((-1, 0)%Z :: (-1, 1)%Z :: rest).
      split; [exact Hring|]. split; [exact F1|]. intros d' [].  }
    destruct (_is_position_free ws (fst (grid_cell x y (-1, 0)%Z))
                (snd (grid_cell x y (-1, 0)%Z))) eqn:F2.
    { exists (-1, 0)%Z, [(-1, -1)%Z], ((-1, 1)%Z :: rest).
      split; [exact Hring|]. split; [exact F2|].
      intros d' [<-|[]]. exact F1. }
    exists (-1, 1)%Z, [(-1, -1)%Z; (-1, 0)%Z], rest.
    split; [exact Hring|]. split.
    - apply not_true_iff_false in F1.
      rewrite (free_origin_node ws nid n _ _ E Hx Hy) in F1.
      rewrite (free_origin_node ws nid n _ _ E Hx Hy).
      unfold grid_cell, of_int, inject_Z, NODE_W, NODE_H, HORIZ_GAP, VERT_GAP in *.
      cbn [fst snd] in *.
      intros [_ [C3 C4]]. apply F1. intros [_ [B3 B4]]. lra.
    - intros d' [<-|[<-|[]]]; assumption. }
  destruct Hd as [d Hd].
  assert (Hp : p = grid_cell x y d).
  { unfold p. rewrite _find_free_position_ring, Hocc.
    rewrite (first_some_first_free ws x y ring_offsets d Hd). reflexivity. }
  split.
  - rewrite Hp. destruct Hd as (before & after & _ & Hfree & _). exact Hfree.
  - exists d. split; [exact Hp|]. split; [|exact Hd].
    apply ring_offsets_chebyshev.
    destruct Hd as (before & after & -> & _). apply in_or_app. right. left. reflexivity.
Qed.

(** The candidate (10, 10) next to the root at (0, 0). *)
Lemma find_free_position_one_node_witness :
  (Qabs 10 < NODE_W + NODE_MARGIN /\ Qabs 10 < NODE_H + NODE_MARGIN)
  /\ let p := _find_free_position one_node_ws 10 10 in
     _is_position_free one_node_ws (fst p) (snd p) = true
     /\ exists d : Z * Z,
          p = grid_cell 10 10 d
          /\ (1 <= chebyshev d <= 8)%Z
          /\ first_free one_node_ws 10 10 ring_offsets d.
Proof.
  split; [split; reflexivity|].
  apply (find_free_position_one_node one_node_ws 1%Z
           (mkNode "Root" 0 0 [] (Some "#B9C2FF"%string) true (Some NODE_W) (Some NODE_H))
           10 10); reflexivity.
Defined.

(** ** The symmetric position sequence *)

Section InsertionSort.
Context {A : Type} (leb : A -> A -> bool).

Lemma sorted_by_snoc (l : list A) (a : A) :
  sorted_by leb (l ++ [a]) = insert_sorted leb a (sorted_by leb l).
Proof. unfold sorted_by. rewrite fold_left_app. reflexivity. Qed.

Lemma insert_sorted_perm (a : A) (l : list A) :
  Permutation (insert_sorted leb a l) (a :: l).
Proof.
  induction l as [|b l IH]; simpl; [reflexivity|].
  destruct (leb b a); [|reflexivity].
  rewrite IH. apply perm_swap.
Qed.

Lemma sorted_by_perm (l : list A) : Permutation (sorted_by leb l) l.
Proof.
  induction l as [|a l IH] using rev_ind; [reflexivity|].
  rewrite sorted_by_snoc, insert_sorted_perm, IH.
  apply Permutation_cons_append.
Qed.

Lemma insert_sorted_front (a : A) (l : list A) :
  Forall (fun b => leb b a = false) l -> insert_sorted leb a l = a :: l.
Proof.
  destruct l as [|b l]; simpl; [reflexivity|].
  intros F. inversion F as [|? ? Hb _]; subst. rewrite Hb. reflexivity.
Qed.

Lemma insert_sorted_back (a : A) (l : list A) :
  Forall (fun b => leb b a = true) l -> insert_sorted leb a l = l ++ [a].
Proof.
  induction l as [|b l IH]; simpl; [reflexivity|].
  intros F. inversion F as [|? ? Hb Hl]; subst. rewrite Hb, IH; auto.
Qed.
End InsertionSort.

Lemma offset_at_value (o : Q) (k : nat) : offset_at o k == o + of_int (Z.of_nat k).
Proof.
  induction k as [|k IH].
  - simpl. unfold of_int, inject_Z. lra.
  - change (offset_at o (S k)) with (offset_at o k + 1).
    rewrite IH. unfold of_int. rewrite Nat2Z.inj_succ.
    unfold Z.succ. rewrite inject_Z_plus. change (inject_Z 1) with 1. lra.
Qed.

Lemma offset_at_ge (o : Q) (k : nat) : o <= offset_at o k.
Proof.
  induction k as [|k IH]; simpl; lra.
Qed.

Lemma length_pairs_upto (o : Q) (k : nat) : List.length (pairs_upto o k) = (2 * k)%nat.
Proof.
  induction k as [|k IH]; simpl; [reflexivity|].
  rewrite length_app, IH. simpl. lia.
Qed.

Lemma length_nested (base : list Q) (o : Q) (k : nat) :
  List.length (nested base o k) = (List.length base + 2 * k)%nat.
Proof.
  induction k as [|k IH]; simpl; [lia|].
  rewrite length_app, IH. simpl. lia.
Qed.

Lemma offset_at_shift (o : Q) (k : nat) : offset_at (o + 1) k = offset_at o (S k).
Proof.
  induction k as [|k IH]; [reflexivity|].
  change (offset_at (o + 1) (S k)) with (offset_at (o + 1) k + 1).
  rewrite IH. reflexivity.
Qed.

Lemma pairs_upto_shift (o : Q) (k : nat) :
  pairs_upto o (S k) = [- o; o] ++ pairs_upto (o + 1) k.
Proof.
  induction k as [|k IH]; [reflexivity|].
  change (pairs_upto o (S (S k)))
    with (pairs_upto o (S k) ++ [- offset_at o (S k); offset_at o (S k)]).
  rewrite IH.
  change (pairs_upto (o + 1) (S k))
    with (pairs_upto (o + 1) k ++ [- offset_at (o + 1) k; offset_at (o + 1) k]).
  rewrite offset_at_shift, app_assoc. reflexivity.
Qed.

Lemma extend_positions_eq (fuel : nat) (count : Z) (positions : list Q) (o : Q) :
  extend_positions fuel count positions o =
  if (Z.of_nat (List.length positions) <? count)%Z then
    match fuel with
    | O => OutOfFuel
    | S fuel' => extend_positions fuel' count (positions ++ [- o; o]) (o + 1)
    end
  else Val positions.
Proof. destruct fuel; reflexivity. Qed.

(** The loop stops by its own test after exactly [k] rounds when [k] is
    the least number of pairs with which the list reaches [count]. *)
Lemma extend_positions_run (count : Z) (k : nat) :
  forall (fuel : nat) (positions : list Q) (o : Q),
    (k <= fuel)%nat ->
    (count <= Z.of_nat (List.length positions) + 2 * Z.of_nat k)%Z ->
    (k <> O -> (Z.of_nat (List.length positions) + 2 * (Z.of_nat k - 1) < count)%Z) ->
    extend_positions fuel count positions o = Val (positions ++ pairs_upto o k).
Proof.
  induction k as [|k IH]; intros fuel positions o Hfuel Hreach Hleast.
  - assert (E : (Z.of_nat (List.length positions) <? count)%Z = false)
      by (apply Z.ltb_ge; lia).
    rewrite extend_positions_eq, E. simpl. rewrite app_nil_r. reflexivity.
  - assert (E : (Z.of_nat (List.length positions) <? count)%Z = true).
    { apply Z.ltb_lt. specialize (Hleast ltac:(discriminate)). lia. }
    destruct fuel as [|fuel]; [lia|].
    rewrite extend_positions_eq, E.
    rewrite IH.
    + rewrite pairs_upto_shift, app_assoc. reflexivity.
    + lia.
    + rewrite length_app. change (List.length [- o; o]) with 2%nat. lia.
    + intros Hk. rewrite length_app. change (List.length [- o; o]) with 2%nat.
      specialize (Hleast ltac:(discriminate)). lia.
Qed.

(** What the sort makes of the generated list. *)
Lemma sorted_pairs (base : list Q) (o : Q) (k : nat) :
  0 < o ->
  sorted_by Qleb base = base ->
  Forall (fun q => - o < q /\ q < o) base ->
  sorted_by Qleb (base ++ pairs_upto o k) = nested base o k
  /\ Forall (fun q => - offset_at o k < q /\ q < offset_at o k) (nested base o k).
Proof.
  intros Ho Hbase Hbound. induction k as [|k [IHs IHb]].
  - simpl. rewrite app_nil_r. split; assumption.
  - pose proof (offset_at_ge o k) as Hge.
    change (pairs_upto o (S k))
      with (pairs_upto o k ++ [- offset_at o k] ++ [offset_at o k]).
    rewrite !app_assoc, !sorted_by_snoc, IHs.
    rewrite (insert_sorted_front Qleb (- offset_at o k) (nested base o k)).
    2:{ eapply Forall_impl; [|exact IHb]. intros q [L _]. simpl.
        unfold Qleb. destruct (Qle_bool q (- offset_at o k)) eqn:E; [|reflexivity].
        apply Qle_bool_iff in E. lra. }
    rewrite insert_sorted_back.
    2:{ constructor.
        - apply Qle_bool_iff. lra.
        - eapply Forall_impl; [|exact IHb]. intros q [_ U]. simpl.
          apply Qle_bool_iff. lra. }
    split; [reflexivity|].
    change (offset_at o (S k)) with (offset_at o k + 1).
    change (nested base o (S k))
      with (- offset_at o k :: nested base o k ++ [offset_at o k]).
    constructor; [split; lra|].
    apply Forall_app. split.
    + eapply Forall_impl; [|exact IHb]. intros q [L U]. simpl. split; lra.
    + constructor; [split; lra|constructor].
Qed.

(** [_symmetrical_positions] always returns, and returns the nested list. *)
Lemma _symmetrical_positions_total (count : Z) :
  _symmetrical_positions count = Val (code_positions count).
Proof.
  unfold _symmetrical_positions, code_positions.
  destruct (count <=? 0)%Z eqn:Hc; [reflexivity|].
  apply Z.leb_gt in Hc.
  pose proof (Z.div_mod count 2 ltac:(lia)) as Hdm.
  pose proof (Z.mod_pos_bound count 2 ltac:(lia)) as Hmb.
  destruct (Z.eqb (count mod 2) 0) eqn:Hpar.
  - apply Z.eqb_eq in Hpar.
    rewrite (extend_positions_run count (Z.to_nat (count / 2)));
      try (cbn [List.length]; lia).
    cbn [obind app]. f_equal.
    rewrite firstn_all2 by (rewrite length_pairs_upto; lia).
    apply (sorted_pairs [] 0.5 (Z.to_nat (count / 2))); [reflexivity|reflexivity|constructor].
  - apply Z.eqb_neq in Hpar.
    rewrite (extend_positions_run count (Z.to_nat (count / 2)));
      try (cbn [List.length]; lia).
    cbn [obind]. f_equal.
    rewrite firstn_all2
      by (rewrite length_app, length_pairs_upto; cbn [List.length]; lia).
    apply (sorted_pairs [0] 1 (Z.to_nat (count / 2))); [reflexivity|reflexivity|].
    constructor; [split; reflexivity|constructor].
Qed.

Lemma length_code_positions (count : Z) :
  List.length (code_positions count) = Z.to_nat count.
Proof.
  unfold code_positions.
  destruct (count <=? 0)%Z eqn:Hc.
  - apply Z.leb_le in Hc. simpl. lia.
  - apply Z.leb_gt in Hc.
    pose proof (Z.div_mod count 2 ltac:(lia)) as Hdm.
    pose proof (Z.mod_pos_bound count 2 ltac:(lia)) as Hmb.
    destruct (Z.eqb (count mod 2) 0) eqn:Hpar; rewrite length_nested; simpl.
    + apply Z.eqb_eq in Hpar. lia.
    + apply Z.eqb_neq in Hpar. lia.
Qed.

Lemma qsum_app (l1 l2 : list Q) : qsum (l1 ++ l2) == qsum l1 + qsum l2.
Proof.
  induction l1 as [|a l1 IH]; simpl; [lra|]. rewrite IH. lra.
Qed.

Lemma qsum_nested (base : list Q) (o : Q) (k : nat) :
  qsum (nested base o k) == qsum base.
Proof.
  induction k as [|k IH]; [reflexivity|].
  change (nested base o (S k))
    with (- offset_at o k :: nested base o k ++ [offset_at o k]).
  cbn [qsum fold_right]. fold (qsum (nested base o k ++ [offset_at o k])).
  rewrite qsum_app, IH. simpl. lra.
Qed.

(** The sequence sums to 0. *)
Lemma qsum_code_positions (count : Z) : qsum (code_positions count) == 0.
Proof.
  unfold code_positions.
  destruct (count <=? 0)%Z; [reflexivity|].
  destruct (Z.eqb (count mod 2) 0); rewrite qsum_nested; reflexivity.
Qed.

Lemma range_nil (lo hi : Z) : (hi <= lo)%Z -> range lo hi = [].
Proof.
  intros H. unfold range. replace (Z.to_nat (hi - lo)) with O by lia. reflexivity.
Qed.

Lemma range_cons (lo hi : Z) : (lo < hi)%Z -> range lo hi = lo :: range (lo + 1) hi.
Proof.
  intros H. unfold range.
  replace (Z.to_nat (hi - lo)) with (S (Z.to_nat (hi - (lo + 1)))) by lia.
  cbn [seq map]. rewrite <- seq_shift, map_map. f_equal; [lia|].
  apply map_ext. intros i. lia.
Qed.

Lemma range_snoc (lo hi : Z) : (lo < hi)%Z -> range lo hi = range lo (hi - 1) ++ [(hi - 1)%Z].
Proof.
  intros H. unfold range.
  replace (Z.to_nat (hi - lo)) with (S (Z.to_nat (hi - 1 - lo))) by lia.
  rewrite seq_S, map_app. cbn [map Nat.add]. do 2 f_equal. lia.
Qed.

(** The nested list is the ascending enumeration [g (-k), ..., g (k + e - 1)]. *)
Lemma nested_ascending (g : Z -> Q) (e : Z) (base : list Q) (o : Q) :
  (0 <= e)%Z ->
  Forall2 Qeq base (map g (range 0 e)) ->
  (forall k : nat, - offset_at o k == g (- (Z.of_nat k + 1))%Z
                   /\ offset_at o k == g (Z.of_nat k + e)%Z) ->
  forall k : nat,
    Forall2 Qeq (nested base o k) (map g (range (- Z.of_nat k) (Z.of_nat k + e))).
Proof.
  intros He Hbase Hoff. induction k as [|k IH].
  - exact Hbase.
  - change (nested base o (S k))
      with (- offset_at o k :: nested base o k ++ [offset_at o k]).
    rewrite range_cons by lia. rewrite range_snoc by lia.
    replace (- Z.of_nat (S k) + 1)%Z with (- Z.of_nat k)%Z by lia.
    replace (Z.of_nat (S k) + e - 1)%Z with (Z.of_nat k + e)%Z by lia.
    cbn [map]. rewrite map_app. cbn [map].
    destruct (Hoff k) as [Hlo Hhi].
    constructor.
    + rewrite Hlo. replace (- Z.of_nat (S k))%Z with (- (Z.of_nat k + 1))%Z by lia.
      reflexivity.
    + apply Forall2_app; [exact IH|]. constructor; [exact Hhi|constructor].
Qed.

(** The returned sequence is the one the spec describes. *)
Lemma code_positions_spec (count : Z) :
  Forall2 Qeq (code_positions count) (spec_positions count).
Proof.
  unfold code_positions, spec_positions.
  pose proof (Z.div_mod count 2 ltac:(lia)) as Hdm.
  pose proof (Z.mod_pos_bound count 2 ltac:(lia)) as Hmb.
  destruct (count <=? 0)%Z eqn:Hc.
  - apply Z.leb_le in Hc.
    destruct (Z.eqb (count mod 2) 0) eqn:Hpar.
    + apply Z.eqb_eq in Hpar. rewrite range_nil by lia. constructor.
    + apply Z.eqb_neq in Hpar. rewrite range_nil by lia. constructor.
  - apply Z.leb_gt in Hc.
    destruct (Z.eqb (count mod 2) 0) eqn:Hpar.
    + pose proof (nested_ascending (fun k => of_int k + 0.5) 0 [] 0.5) as N.
      specialize (N ltac:(lia) ltac:(constructor)).
      assert (Hoff : forall k : nat,
                 - offset_at 0.5 k == of_int (- (Z.of_nat k + 1)) + 0.5
                 /\ offset_at 0.5 k == of_int (Z.of_nat k + 0) + 0.5).
      { intros k. rewrite offset_at_value. unfold of_int.
        rewrite inject_Z_opp, !inject_Z_plus.
        change (inject_Z 1) with 1. change (inject_Z 0) with 0. split; lra. }
      specialize (N Hoff (Z.to_nat (count / 2))).
      rewrite Z2Nat.id in N by lia. rewrite Z.add_0_r in N. exact N.
    + pose proof (nested_ascending of_int 1 [0] 1) as N.
      specialize (N ltac:(lia)).
      assert (Hb : Forall2 Qeq [0] (map of_int (range 0 1))).
      { constructor; [reflexivity|constructor]. }
      assert (Hoff : forall k : nat,
                 - offset_at 1 k == of_int (- (Z.of_nat k + 1))
                 /\ offset_at 1 k == of_int (Z.of_nat k + 1)).
      { intros k. rewrite offset_at_value. unfold of_int.
        rewrite inject_Z_opp, !inject_Z_plus.
        change (inject_Z 1) with 1. split; lra. }
      specialize (N Hb Hoff (Z.to_nat (count / 2))).
      rewrite Z2Nat.id in N by lia. exact N.
Qed.

(** ** Slot assignment *)

Lemma NoDup_app_disjoint {A : Type} (l1 l2 : list A) :
  NoDup (l1 ++ l2) -> forall x, In x l1 -> ~ In x l2.
Proof.
  induction l1 as [|a l1 IH]; simpl; intros ND x I; [contradiction|].
  inversion ND as [|? ? Na ND']; subst. destruct I as [<-|I].
  - intros I2. apply Na. apply in_or_app. right. exact I2.
  - apply IH; assumption.
Qed.

(** Reading back a dict after a run of stores with distinct keys. *)
Lemma get_fold_set_other {V : Type} (kvs : list (Z * V)) :
  forall (d : Dict.t Z V) (k : Z),
    ~ In k (map fst kvs) ->
    Dict.get (fold_left (fun s kv => Dict.set s (fst kv) (snd kv)) kvs d) k = Dict.get d k.
Proof.
  induction kvs as [|[k0 v0] kvs IH]; intros d k NI; simpl; [reflexivity|].
  simpl in NI. rewrite IH by tauto. apply get_set_other. tauto.
Qed.

Lemma get_fold_set_in {V : Type} (kvs : list (Z * V)) :
  forall (d : Dict.t Z V) (k : Z) (v : V),
    NoDup (map fst kvs) -> In (k, v) kvs ->
    Dict.get (fold_left (fun s kv => Dict.set s (fst kv) (snd kv)) kvs d) k = Some v.
Proof.
  induction kvs as [|[k0 v0] kvs IH]; intros d k v ND I; simpl; [contradiction|].
  simpl in ND. inversion ND as [|? ? Nk ND']; subst.
  destruct I as [E|I].
  - inversion E; subst. rewrite get_fold_set_other by exact Nk. apply get_set_same.
  - apply IH; assumption.
Qed.

Lemma enumerate_from_snd {A : Type} (l : list A) :
  forall i, map snd (enumerate_from i l) = l.
Proof.
  induction l as [|a l IH]; intros i; simpl; [reflexivity|]. rewrite IH. reflexivity.
Qed.

Lemma skipn_nth_cons {A : Type} (d : A) (l : list A) :
  forall i, (i < List.length l)%nat -> skipn i l = nth i l d :: skipn (S i) l.
Proof.
  induction l as [|a l IH]; intros i Hi; simpl in Hi; [lia|].
  destruct i as [|i]; [reflexivity|].
  simpl. apply IH. lia.
Qed.

(** [assign] as a run of stores. *)
Lemma assign_as_stores (root_id : Z) (entries : list Entry) (positions : list Q)
  (slots : Dict.t Z Q) :
  assign root_id entries positions slots =
  fold_left (fun s kv => Dict.set s (fst kv) (snd kv))
    (map (fun ie => (entry_nid (snd ie), assigned_slot root_id positions (fst ie) (snd ie)))
       (enumerate (sorted_by entry_leb entries)))
    slots.
Proof.
  unfold assign. destruct entries as [|e entries]; [reflexivity|].
  generalize (enumerate (sorted_by entry_leb (e :: entries))). intros l. revert slots.
  induction l as [|[idx [[[parent_slot ordinal] nid] parent_id]] l IH]; intros slots;
    [reflexivity|].
  simpl. rewrite IH. reflexivity.
Qed.

Lemma assign_keys (root_id : Z) (entries : list Entry) (positions : list Q) :
  map fst
    (map (fun ie => (entry_nid (snd ie), assigned_slot root_id positions (fst ie) (snd ie)))
       (enumerate (sorted_by entry_leb entries)))
  = map entry_nid (sorted_by entry_leb entries).
Proof.
  rewrite map_map. cbn [fst]. rewrite <- (map_map snd entry_nid).
  unfold enumerate. rewrite enumerate_from_snd. reflexivity.
Qed.

(** [assign] leaves the slots of other nodes alone. *)
Lemma assign_other (root_id : Z) (entries : list Entry) (positions : list Q)
  (slots : Dict.t Z Q) (nid : Z) :
  ~ In nid (map entry_nid entries) ->
  Dict.get (assign root_id entries positions slots) nid = Dict.get slots nid.
Proof.
  intros NI. rewrite assign_as_stores. apply get_fold_set_other.
  rewrite assign_keys. intros I. apply NI.
  eapply Permutation_in; [|exact I].
  apply Permutation_map. apply sorted_by_perm.
Qed.

(** The slots of the ordered bucket, read back after [assign]. *)
Lemma assign_read_back (root_id : Z) (entries : list Entry) (positions : list Q)
  (slots : Dict.t Z Q) :
  NoDup (map entry_nid entries) ->
  map (fun e => slot_of (assign root_id entries positions slots) (entry_nid e))
      (sorted_by entry_leb entries)
  = map (fun ie => assigned_slot root_id positions (fst ie) (snd ie))
      (enumerate (sorted_by entry_leb entries)).
Proof.
  intros ND.
  assert (ND' : NoDup (map entry_nid (sorted_by entry_leb entries))).
  { eapply Permutation_NoDup; [|exact ND].
    apply Permutation_map. apply Permutation_sym. apply sorted_by_perm. }
  rewrite <- (enumerate_from_snd (sorted_by entry_leb entries) 0%Z) at 1.
  fold (enumerate (sorted_by entry_leb entries)).
  rewrite map_map. apply map_ext_in. intros [idx e] I. cbn [fst snd].
  unfold slot_of. rewrite assign_as_stores.
  erewrite get_fold_set_in; [reflexivity| |].
  - rewrite assign_keys. exact ND'.
  - apply (in_map (fun ie => (entry_nid (snd ie),
                              assigned_slot root_id positions (fst ie) (snd ie)))
             _ (idx, e)). exact I.
Qed.

(** With weight 0 the stored slot is the position of the same index. *)
Lemma assigned_slot_weightless (root_id : Z) (positions : list Q) (i : nat) (e : Entry) :
  weightless root_id e -> (i < List.length positions)%nat ->
  assigned_slot root_id positions (Z.of_nat i) e == nth i positions 0.
Proof.
  destruct e as [[[parent_slot ordinal] nid] parent_id].
  unfold weightless, entry_parent, assigned_slot. cbn [snd].
  intros W Hi.
  assert (E0 : Z.eqb (Z.of_nat (List.length positions)) 0 = false)
    by (apply Z.eqb_neq; lia).
  rewrite E0. replace (Z.to_nat (Z.min (Z.of_nat i) (Z.of_nat (List.length positions) - 1)))
    with i by lia.
  destruct parent_id as [p|].
  - subst p. rewrite Z.eqb_refl. lra.
  - lra.
Qed.

Lemma assigned_prefix (root_id : Z) (positions : list Q) (l : list Entry) :
  forall i : nat,
    Forall (weightless root_id) l ->
    (i + List.length l <= List.length positions)%nat ->
    Forall2 Qeq
      (map (fun ie => assigned_slot root_id positions (fst ie) (snd ie))
         (enumerate_from (Z.of_nat i) l))
      (firstn (List.length l) (skipn i positions)).
Proof.
  induction l as [|e l IH]; intros i W Hlen; [constructor|].
  inversion W as [|? ? We Wl]; subst. cbn [List.length] in Hlen.
  rewrite (skipn_nth_cons 0 positions i) by lia.
  cbn [enumerate_from map firstn List.length fst snd]. constructor.
  - apply assigned_slot_weightless; [exact We | lia].
  - replace (Z.of_nat i + 1)%Z with (Z.of_nat (S i)) by lia.
    apply IH; [exact Wl | lia].
Qed.

Lemma qsum_Forall2 (l1 l2 : list Q) : Forall2 Qeq l1 l2 -> qsum l1 == qsum l2.
Proof.
  induction 1 as [|a b l1 l2 Hab _ IH]; simpl; [reflexivity|]. rewrite Hab, IH. reflexivity.
Qed.

Lemma qsum_perm (l1 l2 : list Q) : Permutation l1 l2 -> qsum l1 == qsum l2.
Proof.
  induction 1 as [|a l1 l2 _ IH|a b l|l1 l2 l3 _ IH1 _ IH2]; simpl.
  - reflexivity.
  - rewrite IH. reflexivity.
  - lra.
  - rewrite IH1. exact IH2.
Qed.

(** A bucket of nodes with weight 0 receives, in its (parent slot,
    ordinal) order, the first values of the position list. *)
Lemma assign_weightless (root_id : Z) (entries : list Entry) (positions : list Q)
  (slots : Dict.t Z Q) :
  NoDup (map entry_nid entries) ->
  Forall (weightless root_id) entries ->
  (List.length entries <= List.length positions)%nat ->
  Forall2 Qeq
    (map (fun e => slot_of (assign root_id entries positions slots) (entry_nid e))
       (sorted_by entry_leb entries))
    (firstn (List.length entries) positions).
Proof.
  intros ND W Hlen. rewrite assign_read_back by exact ND.
  pose proof (sorted_by_perm entry_leb entries) as P.
  rewrite <- (Permutation_length P).
  apply (assigned_prefix root_id positions (sorted_by entry_leb entries) 0).
  - rewrite Forall_forall in *. intros e I. apply W. eapply Permutation_in; eauto.
  - rewrite (Permutation_length P). simpl. exact Hlen.
Qed.

(** Every node of the level lands in exactly one bucket. *)
Lemma fill_buckets_nids (ws : Workspace) (directions : Dict.t Z Z) (slots : Dict.t Z Q)
  (level : list Z) :
  forall b0 b : Buckets,
    fill_buckets ws directions slots level b0 = Val b ->
    Permutation (bucket_nids b) (bucket_nids b0 ++ level).
Proof.
  induction level as [|nid level IH]; intros b0 b F.
  - simpl in F. inversion F; subst. rewrite app_nil_r. reflexivity.
  - cbn [fill_buckets] in F.
    destruct (match parent_get ws nid with
              | Some p => let* pnode := node_at ws p in
                          Val (opt_default 0%Z (index_of nid (n_children pnode)))
              | None => Val 0%Z
              end) as [ordinal|e|]; cbn [obind] in F; try discriminate F.
    apply IH in F. rewrite F.
    rewrite <- (Permutation_middle (bucket_nids b0) level nid).
    apply (Permutation_app_tail level (l' := nid :: bucket_nids b0)).
    apply Permutation_sym. unfold bucket_nids.
    set (L := map entry_nid (left b0)). set (R := map entry_nid (right b0)).
    set (C := map entry_nid (centre b0)).
    destruct (0 <? _)%Z; [|destruct (_ <? 0)%Z]; cbn [left right centre];
      rewrite map_app; cbn [map entry_nid fst snd]; fold L R C.
    + replace (L ++ (R ++ [nid]) ++ C) with ((L ++ R) ++ nid :: C)
        by (rewrite <- !app_assoc; reflexivity).
      apply Permutation_cons_app. rewrite app_assoc. reflexivity.
    + replace ((L ++ [nid]) ++ R ++ C) with (L ++ nid :: (R ++ C))
        by (rewrite <- !app_assoc; reflexivity).
      apply Permutation_cons_app. reflexivity.
    + replace (L ++ R ++ C ++ [nid]) with ((L ++ R ++ C) ++ nid :: [])
        by (rewrite <- !app_assoc; reflexivity).
      apply Permutation_cons_app. rewrite app_nil_r. reflexivity.
Qed.

Lemma Forall2_Qeq_trans (l1 l2 l3 : list Q) :
  Forall2 Qeq l1 l2 -> Forall2 Qeq l2 l3 -> Forall2 Qeq l1 l3.
Proof.
  intros H12. revert l3. induction H12 as [|a b l1 l2 Hab _ IH]; intros l3 H23.
  - inversion H23. constructor.
  - inversion H23 as [|? c ? l3' Hbc H23']; subst. constructor.
    + rewrite Hab. exact Hbc.
    + apply IH. exact H23'.
Qed.

Lemma Forall2_firstn {A B : Type} (R : A -> B -> Prop) (n : nat) (l1 : list A) (l2 : list B) :
  Forall2 R l1 l2 -> Forall2 R (firstn n l1) (firstn n l2).
Proof.
  intros H. revert n. induction H as [|a b l1 l2 Hab _ IH]; intros [|n]; simpl;
    constructor; auto.
Qed.

(** The slots of one side after the three [assign] calls of a level. *)
Lemma side_slots (root_id : Z) (b : Buckets) (positions centre_positions : list Q)
  (slots : Dict.t Z Q) (bucket : list Entry) :
  NoDup (bucket_nids b) ->
  bucket = left b \/ bucket = right b ->
  Forall (weightless root_id) bucket ->
  (List.length bucket <= List.length positions)%nat ->
  let slots' :=
    assign root_id (centre b) centre_positions
      (assign root_id (right b) positions (assign root_id (left b) positions slots)) in
  Forall2 Qeq (map (fun e => slot_of slots' (entry_nid e)) (sorted_by entry_leb bucket))
    (firstn (List.length bucket) positions).
Proof.
  intros ND Hside W Hlen slots'. unfold bucket_nids in ND.
  pose proof (NoDup_app_disjoint _ _ ND) as Dl.
  pose proof (NoDup_app_remove_l _ _ ND) as NDrc.
  pose proof (NoDup_app_disjoint _ _ NDrc) as Dr.
  assert (Hin : forall e, In e (sorted_by entry_leb bucket) ->
                          In (entry_nid e) (map entry_nid bucket)).
  { intros e I. apply in_map. eapply Permutation_in; [apply sorted_by_perm|exact I]. }
  destruct Hside as [-> | ->].
  - rewrite (map_ext_in _
      (fun e => slot_of (assign root_id (left b) positions slots) (entry_nid e))).
    + apply assign_weightless; auto. eapply NoDup_app_remove_r. exact ND.
    + intros e I. apply Hin in I. specialize (Dl _ I).
      unfold slot_of, slots'.
      rewrite (assign_other root_id (centre b)).
      2:{ intros I2. apply Dl. apply in_or_app. right. exact I2. }
      rewrite (assign_other root_id (right b)); [reflexivity|].
      intros I2. apply Dl. apply in_or_app. left. exact I2.
  - rewrite (map_ext_in _
      (fun e => slot_of (assign root_id (right b) positions
                           (assign root_id (left b) positions slots)) (entry_nid e))).
    + apply assign_weightless; auto. eapply NoDup_app_remove_r. exact NDrc.
    + intros e I. apply Hin in I. specialize (Dr _ I).
      unfold slot_of, slots'. rewrite assign_other; [reflexivity|exact Dr].
Qed.

(** C1 (amended). The symmetric position sequence of length [L] is the
    sequence ±0.5, ±1.5, ... (even [L]) or 0, ±1, ±2, ... (odd [L]) in
    ascending order, and it sums to 0.  At a depth level the left and the
    right bucket both take their values by index from the one sequence of
    length [max_side = max(|left|, |right|)]: a bucket whose nodes all
    blend with weight 0 (children of the root, or parentless nodes)
    receives, in its (parent slot, ordinal) order, the first [|bucket|]
    values of that sequence; its slots therefore sum to 0 when the bucket
    has [max_side] nodes. *)
Theorem slot_symmetry :
  (forall L : Z,
     exists positions,
       _symmetrical_positions L = Val positions
       /\ Forall2 Qeq positions (spec_positions L)
       /\ qsum positions == 0)
  /\ (forall (ws : Workspace) (root_id : Z) (directions : Dict.t Z Z)
        (levels : Dict.t Z (list Z)) (slots : Dict.t Z Q) (depth : Z) (b : Buckets),
        NoDup (opt_default [] (Dict.get levels depth)) ->
        fill_buckets ws directions slots (opt_default [] (Dict.get levels depth))
          (mkBuckets [] [] []) = Val b ->
        let max_side :=
          Z.max (Z.of_nat (List.length (left b))) (Z.of_nat (List.length (right b))) in
        exists slots',
          slots_at_depth ws root_id directions levels slots depth = Val slots'
          /\ forall bucket,
               bucket = left b \/ bucket = right b ->
               Forall (weightless root_id) bucket ->
               Forall2 Qeq
                 (map (fun e => slot_of slots' (entry_nid e)) (sorted_by entry_leb bucket))
                 (firstn (List.length bucket) (spec_positions max_side))
               /\ (Z.of_nat (List.length bucket) = max_side ->
                   qsum (map (fun e => slot_of slots' (entry_nid e)) bucket) == 0)).
Proof.
  split.
  - intros L. exists (code_positions L).
    split; [apply _symmetrical_positions_total|].
    split; [apply code_positions_spec | apply qsum_code_positions].
  - intros ws root_id directions levels slots depth b ND F max_side.
    pose proof (fill_buckets_nids _ _ _ _ _ _ F) as P. cbn [bucket_nids left right centre map app] in P.
    assert (NDb : NoDup (bucket_nids b)).
    { eapply Permutation_NoDup; [apply Permutation_sym; exact P | exact ND]. }
    unfold slots_at_depth.
    destruct (opt_default [] (Dict.get levels depth)) as [|n0 level] eqn:Hlev.
    + simpl in F. inversion F; subst b. exists slots. split; [reflexivity|].
      intros bucket [-> | ->] _; cbn [left right List.length firstn sorted_by fold_left map];
        (split; [constructor | intros _; reflexivity]).
    + rewrite F. cbn [obind]. rewrite !_symmetrical_positions_total. cbn [obind].
      fold max_side. eexists. split; [reflexivity|].
      intros bucket Hside W.
      assert (Hlen : (List.length bucket <= List.length (code_positions max_side))%nat).
      { rewrite length_code_positions. unfold max_side. destruct Hside as [-> | ->]; lia. }
      pose proof (side_slots root_id b (code_positions max_side)
                    (code_positions (Z.of_nat (List.length (centre b))))
                    slots bucket NDb Hside W Hlen) as S.
      cbv zeta in S. split.
      * eapply Forall2_Qeq_trans; [exact S|].
        apply Forall2_firstn. apply code_positions_spec.
      * intros Hfull.
        etransitivity.
        { apply qsum_perm. apply Permutation_map. apply Permutation_sym.
          apply (sorted_by_perm entry_leb). }
        rewrite (qsum_Forall2 _ _ S).
        rewrite firstn_all2 by (rewrite length_code_positions; lia).
        apply qsum_code_positions.
Qed.

(** The level of the three children of the root of [star3_ws]: the left
    bucket holds the children 2 and 4 and has [max_side] = 2 nodes. *)
Lemma slot_symmetry_witness :
  let directions : Dict.t Z Z := [(1, 0); (2, -1); (3, 1); (4, -1)]%Z in
  let levels : Dict.t Z (list Z) := [(0, [1]); (1, [2; 3; 4])]%Z in
  let slots : Dict.t Z Q := [(1%Z, 0)] in
  let b := mkBuckets [(0, 0%Z, 2%Z, Some 1%Z); (0, 2%Z, 4%Z, Some 1%Z)]
                     [(0, 1%Z, 3%Z, Some 1%Z)] [] in
  (NoDup [2; 3; 4]%Z
   /\ fill_buckets star3_ws directions slots [2; 3; 4]%Z (mkBuckets [] [] []) = Val b
   /\ Forall (weightless 1) (left b)
   /\ Z.of_nat (List.length (left b)) = 2%Z)
  /\ exists slots',
       slots_at_depth star3_ws 1 directions levels slots 1 = Val slots'
       /\ qsum (map (fun e => slot_of slots' (entry_nid e)) (left b)) == 0.
Proof.
  intros directions levels slots b.
  assert (ND : NoDup [2; 3; 4]%Z).
  { repeat constructor; simpl; intuition discriminate. }
  assert (F : fill_buckets star3_ws directions slots [2; 3; 4]%Z (mkBuckets [] [] [])
              = Val b) by reflexivity.
  assert (W : Forall (weightless 1) (left b)).
  { repeat constructor. }
  split; [repeat split; assumption|].
  destruct (proj2 slot_symmetry star3_ws 1%Z directions levels slots 1%Z b ND F)
    as (slots' & Hrun & Hside).
  exists slots'. split; [exact Hrun|].
  apply (proj2 (Hside (left b) (or_introl eq_refl) W)). reflexivity.
Defined.

(** C1 as stated fails: the root of [star3_ws] has three children; the
    only one on the right, node 3, is laid out against the sequence of
    length 2 of the left side and gets the slot -0.5, so the slots of the
    right-hand siblings do not sum to 0. *)
Lemma slot_symmetry_counterexample :
  exists slots,
    sibling_slots 10 star3_ws 1 1 = Val slots
    /\ Forall2 Qeq slots [-0.5]
    /\ ~ qsum slots == 0.
Proof.
  eexists. split; [vm_compute; reflexivity|]. split.
  - constructor; [reflexivity|constructor].
  - vm_compute. discriminate.
Qed.

(** ** Frame of auto-layout *)

Lemma node_frame_refl (n : Node) : node_frame n n.
Proof. unfold node_frame. intuition. Qed.

Lemma node_frame_trans (a b c : Node) : node_frame a b -> node_frame b c -> node_frame a c.
Proof.
  unfold node_frame. intros (T1 & C1 & W1 & H1 & U1 & F1) (T2 & C2 & W2 & H2 & U2 & F2).
  repeat split; try congruence.
  intros Hc. rewrite F2, F1; congruence.
Qed.

Lemma nodes_frame_refl (d : Dict.t Z Node) : nodes_frame d d.
Proof.
  induction d as [|kv d IH]; constructor; auto using node_frame_refl.
Qed.

Lemma nodes_frame_trans (a b c : Dict.t Z Node) :
  nodes_frame a b -> nodes_frame b c -> nodes_frame a c.
Proof.
  intros Hab. revert c. induction Hab as [|x y a b [Hk Hn] _ IH]; intros c Hbc.
  - inversion Hbc. constructor.
  - inversion Hbc as [|? z ? c' [Hk' Hn'] Hbc']; subst. constructor.
    + split; [congruence | eapply node_frame_trans; eauto].
    + apply IH. exact Hbc'.
Qed.

Lemma layout_frame_refl (s : Workspace) : layout_frame s s.
Proof. unfold layout_frame. repeat split; auto using nodes_frame_refl. Qed.

Lemma layout_frame_trans (a b c : Workspace) :
  layout_frame a b -> layout_frame b c -> layout_frame a c.
Proof.
  unfold layout_frame.
  intros (N1 & P1 & C1 & I1 & R1 & X1 & S1 & Ox1 & Oy1)
         (N2 & P2 & C2 & I2 & R2 & X2 & S2 & Ox2 & Oy2).
  repeat split; try congruence. eapply nodes_frame_trans; eauto.
Qed.

Lemma nodes_frame_keys (d d' : Dict.t Z Node) :
  nodes_frame d d' -> Dict.keys d' = Dict.keys d.
Proof.
  unfold Dict.keys. induction 1 as [|x y d d' [Hk _] _ IH]; simpl; congruence.
Qed.

Lemma nodes_frame_get (d d' : Dict.t Z Node) (nid : Z) :
  nodes_frame d d' ->
  match Dict.get d nid, Dict.get d' nid with
  | Some n, Some n' => node_frame n n'
  | None, None => True
  | _, _ => False
  end.
Proof.
  induction 1 as [|[k n] [k' n'] d d' [Hk Hn] _ IH]; simpl; [exact I|].
  simpl in Hk, Hn. subst k'. destruct (Z.eqb k nid); assumption.
Qed.

Lemma nodes_frame_set (d : Dict.t Z Node) (nid : Z) (n n' : Node) :
  Dict.get d nid = Some n -> node_frame n n' -> nodes_frame d (Dict.set d nid n').
Proof.
  induction d as [|[k m] d IH]; simpl; [discriminate|].
  intros G F. change (keqb k nid) with (Z.eqb k nid) in *.
  destruct (Z.eqb k nid) eqn:E.
  - inversion G; subst m. constructor; [split; [reflexivity|exact F]|apply nodes_frame_refl].
  - constructor; [split; [reflexivity|apply node_frame_refl]|]. apply IH; assumption.
Qed.

Lemma only_offsets_layout_frame (s s' : Workspace) : only_offsets s s' -> layout_frame s s'.
Proof.
  unfold only_offsets. intros ->. destruct s. unfold layout_frame. simpl.
  repeat split. apply nodes_frame_refl.
Qed.

Lemma update_node_run (nid : Z) (f : Node -> Node) (s : Workspace) :
  update_node nid f s =
  match Dict.get (nodes s) nid with
  | Some n => (Val tt, with_nodes (fun d => Dict.set d nid (f n)) s)
  | None => (Exc KeyError, s)
  end.
Proof.
  unfold update_node, bind, read, node_at, modify.
  destruct (Dict.get (nodes s) nid); reflexivity.
Qed.

(** Storing into a node a value within [node_frame] of the old one. *)
Lemma update_node_frame (nid : Z) (f : Node -> Node) (s : Workspace) :
  (forall n, Dict.get (nodes s) nid = Some n -> node_frame n (f n)) ->
  layout_frame s (snd (update_node nid f s)).
Proof.
  intros F. rewrite update_node_run.
  destruct (Dict.get (nodes s) nid) as [n|] eqn:G; [|apply layout_frame_refl].
  destruct s. unfold layout_frame. simpl in *. repeat split.
  apply (nodes_frame_set _ nid n (f n)); auto.
Qed.

Lemma _update_node_fill_frame (nid : Z) (s : Workspace) :
  (forall n, Dict.get (nodes s) nid = Some n -> n_custom n = false) ->
  layout_frame s (snd (_update_node_fill nid s)).
Proof.
  intros C. unfold _update_node_fill, bind, gets. cbn [fst snd].
  destruct (negb (zmem nid (canvas_items s))); [apply layout_frame_refl|].
  unfold read at 1, node_at.
  destruct (Dict.get (nodes s) nid) as [n|] eqn:G; cbn [of_option];
    [|apply layout_frame_refl].
  unfold read. destruct (fill_or_default s nid n) as [fill|e|];
    try apply layout_frame_refl.
  apply update_node_frame. intros n0 G0.
  rewrite G in *. specialize (C n0 G0). unfold node_frame, node_with_fill. simpl.
  repeat split. congruence.
Qed.

Lemma place_node_frame (root_id : Z) (base_x base_y : Q) (directions depths : Dict.t Z Z)
  (slots : Dict.t Z Q) (root_slot : Q) (nid : Z) :
  preserves layout_frame
    (place_node root_id base_x base_y directions depths slots root_slot nid).
Proof.
  intros s. unfold place_node. cbv zeta.
  set (x := if (_ <? 0)%Z then _ else _). set (y := base_y + _).
  set (depth := opt_default 0%Z (Dict.get depths nid)).
  unfold bind at 1.
  pose proof (update_node_frame nid (node_with_xy x y) s) as F1.
  destruct (update_node nid (node_with_xy x y) s) as [[[]|e|] s1] eqn:U1; cbn [snd] in *;
    try (apply F1; intros n _; unfold node_frame; simpl; intuition).
  assert (L1 : layout_frame s s1).
  { apply F1. intros n _. unfold node_frame. simpl. intuition. }
  eapply layout_frame_trans; [exact L1|]. clear F1 U1 L1.
  unfold bind at 1. unfold read at 1, node_at.
  destruct (Dict.get (nodes s1) nid) as [n1|] eqn:G1; cbn [of_option];
    [|apply layout_frame_refl].
  destruct (n_custom n1) eqn:Hc; cbn [negb]; [apply layout_frame_refl|].
  unfold bind.
  pose proof (update_node_frame nid (node_with_fill (Some (_default_fill_for_depth depth))) s1)
    as F2.
  assert (L2 : layout_frame s1
                 (snd (update_node nid
                         (node_with_fill (Some (_default_fill_for_depth depth))) s1))).
  { apply F2. intros n G. rewrite G1 in G. inversion G; subst n.
    unfold node_frame. simpl. repeat split. congruence. }
  rewrite update_node_run in *. rewrite G1 in *. cbn [snd] in *.
  set (s2 := with_nodes _ s1) in *.
  eapply layout_frame_trans; [exact L2|].
  apply _update_node_fill_frame. intros n G.
  unfold s2 in G. destruct s1. simpl in G. rewrite get_set_same in G.
  inversion G. simpl. exact Hc.
Qed.

Lemma auto_layout_layout_frame (tk : Tk) (fuel : nat) :
  preserves layout_frame (auto_layout tk fuel).
Proof.
  pose proof layout_frame_refl as Rf. pose proof layout_frame_trans as Rt.
  unfold auto_layout.
  apply (preserves_bind _ Rt); [apply (preserves_gets _ Rf)|]. intros ns.
  destruct (Dict.first_key ns) as [first|]; [|apply (preserves_ret _ Rf)].
  apply (preserves_bind _ Rt); [apply (preserves_gets _ Rf)|]. intros stored_root.
  cbv zeta.
  apply (preserves_bind _ Rt); [apply (preserves_gets _ Rf)|]. intros [base_x base_y].
  apply (preserves_bind _ Rt); [apply (preserves_read _ Rf)|]. intros directions.
  apply (preserves_bind _ Rt); [apply (preserves_read _ Rf)|]. intros depths.
  apply (preserves_bind _ Rt); [apply (preserves_read _ Rf)|]. intros slots.
  apply (preserves_bind _ Rt).
  - apply (preserves_for_each _ Rf Rt). intros nid. apply place_node_frame.
  - intros _ s. apply only_offsets_layout_frame. apply redraw_only_offsets.
Qed.

(** C10. Frame of auto-layout: whatever its outcome, [auto_layout] leaves
    the node ids (and their order), every node's text, children list,
    cached size and custom flag, the parent map, the next-id counter and
    the view transform as they were (and also the root, the palette cursor
    and the canvas items); in a node it changes at most [x], [y] and, when
    the node's custom flag is false, the fill.  The edge-offset memory is
    the router's: the redraw that ends the layout rewrites it. *)
Theorem auto_layout_frame (tk : Tk) (fuel : nat) (ws : Workspace) :
  let ws' := snd (auto_layout tk fuel ws) in
  Dict.keys (nodes ws') = Dict.keys (nodes ws)
  /\ (forall nid : Z,
        match Dict.get (nodes ws) nid, Dict.get (nodes ws') nid with
        | Some n, Some n' =>
            n_text n' = n_text n
            /\ n_children n' = n_children n
            /\ n_w n' = n_w n
            /\ n_h n' = n_h n
            /\ n_custom n' = n_custom n
            /\ (n_custom n = true -> n_fill n' = n_fill n)
        | None, None => True
        | _, _ => False
        end)
  /\ parent ws' = parent ws
  /\ next_id ws' = next_id ws
  /\ (scale ws' = scale ws /\ offset_x ws' = offset_x ws /\ offset_y ws' = offset_y ws)
  /\ (root_id ws' = root_id ws /\ palette_index ws' = palette_index ws
      /\ canvas_items ws' = canvas_items ws).
Proof.
  intros ws'.
  destruct (auto_layout_layout_frame tk fuel ws)
    as (N & P & C & I & R & X & S & Ox & Oy).
  fold ws' in N, P, C, I, R, X, S, Ox, Oy.
  split; [apply nodes_frame_keys; exact N|].
  split; [intros nid; apply (nodes_frame_get _ _ nid N)|].
  repeat split; assumption.
Qed.

(** ** Node creation and the custom flag *)

Lemma palette_truthy (s : Workspace) :
  truthy (Some (next_palette_color s)) = Some (next_palette_color s).
Proof.
  assert (F : Forall (fun c => String.eqb c ""%string = false) PALETTE_COLORS)
    by (repeat constructor).
  unfold next_palette_color. set (i := Z.to_nat _).
  assert (E : String.eqb (nth i PALETTE_COLORS "#ffffff"%string) ""%string = false).
  { destruct (Nat.lt_ge_cases i (List.length PALETTE_COLORS)) as [L|G].
    - rewrite Forall_forall in F. apply F. apply nth_In. exact L.
    - rewrite nth_overflow by exact G. reflexivity. }
  unfold truthy. rewrite E. reflexivity.
Qed.

Section Keeps.
Context (P : Workspace -> Prop).

Lemma keeps_refl (s : Workspace) : P s -> P s.
Proof. auto. Qed.

Lemma keeps_trans (a b c : Workspace) : (P a -> P b) -> (P b -> P c) -> P a -> P c.
Proof. auto. Qed.

Lemma keeps_bind {A B : Type} (m : M Workspace A) (k : A -> M Workspace B) :
  keeps P m -> (forall a, keeps P (k a)) -> keeps P (bind m k).
Proof. apply (preserves_bind (fun s s' => P s -> P s') keeps_trans). Qed.

Lemma keeps_pure {A : Type} (m : M Workspace A) :
  (forall s, snd (m s) = s) -> keeps P m.
Proof. intros E s. rewrite E. auto. Qed.

Lemma keeps_modify (f : Workspace -> Workspace) :
  (forall s, P s -> P (f s)) -> keeps P (modify f).
Proof. intros F s. apply F. Qed.

Lemma keeps_redraw : (forall s s', only_offsets s s' -> P s -> P s') -> keeps P redraw.
Proof. intros F s. apply F. apply redraw_only_offsets. Qed.
End Keeps.

Lemma created_only_offsets (nid : Z) (fill : string) (s s' : Workspace) :
  only_offsets s s' -> created nid fill s -> created nid fill s'.
Proof.
  unfold only_offsets, created. intros -> C. destruct s. exact C.
Qed.

Lemma created_update_node (nid : Z) (fill : string) (k : Z) (f : Node -> Node) :
  (forall n, n_custom n = true -> n_fill n = Some fill ->
             n_custom (f n) = true /\ n_fill (f n) = Some fill) ->
  keeps (created nid fill) (update_node k f).
Proof.
  intros F s C. rewrite update_node_run.
  destruct (Dict.get (nodes s) k) as [m|] eqn:G; [|exact C].
  destruct C as (n & Gn & Cn & Fn). unfold created.
  destruct s; simpl in *. rewrite get_set. change (keqb k nid) with (Z.eqb k nid).
  destruct (Z.eqb k nid) eqn:E.
  - apply Z.eqb_eq in E. subst k. rewrite Gn in G. inversion G; subst m.
    exists (f n). destruct (F n Cn Fn). auto.
  - exists n. auto.
Qed.

Lemma created_draw_node (nid : Z) (fill : string) :
  truthy (Some fill) = Some fill ->
  keeps (created nid fill) (_draw_node nid).
Proof.
  intros T s C. destruct C as (n & Gn & Cn & Fn).
  unfold _draw_node, bind, read.
  destruct (_node_bbox s nid) as [bb|e|]; cbn [fst snd]; try solve [exists n; auto].
  unfold node_at. rewrite Gn. cbn [of_option].
  unfold fill_or_default. rewrite Fn, T.
  rewrite update_node_run, Gn.
  unfold modify. cbn [snd]. unfold created.
  destruct s; simpl in *. rewrite get_set_same.
  eexists. split; [reflexivity|]. simpl. auto.
Qed.

Lemma created_update_node_size (tk : Tk) (nid : Z) (fill : string) (k : Z) :
  keeps (created nid fill) (_update_node_size tk k).
Proof.
  unfold _update_node_size. apply keeps_bind.
  - apply keeps_pure. reflexivity.
  - intros node. cbv zeta. destruct (measure_lines _ _ _ _) as [max_width total_height].
    apply created_update_node. intros n Cn Fn. simpl. auto.
Qed.

Lemma created_set_root (nid : Z) (fill : string) (k : Z) :
  keeps (created nid fill) (_set_root k).
Proof.
  unfold _set_root. apply keeps_bind; [|intros _]; apply keeps_modify;
    intros s C; destruct s; exact C.
Qed.

(** The value of a computation that ends in [ret a]. *)
Lemma bind_value {A B : Type} (m : M Workspace A) (k : A -> M Workspace B) (b : B) :
  (forall a s v, fst (k a s) = Val v -> v = b) ->
  forall s v, fst (bind m k s) = Val v -> v = b.
Proof.
  intros K s v. unfold bind. destruct (m s) as [[a|e|] s1]; simpl; try discriminate.
  apply K.
Qed.

(** [_create_node] up to the point where the node is in the tables. *)
Lemma _create_node_split (tk : Tk) (text : string) (x y : Q) (depth : option Z)
  (ws : Workspace) :
  let nid := next_id ws in
  let pos := _find_free_position ws x y in
  let s0 :=
    with_parent (fun d => Dict.set d nid None)
      (with_nodes (fun d =>
         Dict.set d nid
           (mkNode text (fst pos) (snd pos) [] (Some (next_palette_color ws)) true
              (Some NODE_W) (Some NODE_H)))
         (with_palette_index (palette_index ws + 1) (with_next_id (next_id ws + 1) ws))) in
  _create_node tk text x y depth ws =
  (_draw_node nid ;;;
   modify (with_canvas_items (add_item nid)) ;;;
   _update_node_size tk nid ;;;
   redraw_edges_of_node_and_neighbors nid ;;;
   root <- gets root_id ;;
   match root with
   | None => _set_root nid
   | Some _ => ret tt
   end ;;;
   ret nid) s0.
Proof.
  intros nid pos s0. unfold _create_node, s0, pos, nid.
  unfold bind at 1. unfold gets at 1.
  destruct (_find_free_position ws x y) as [nx ny].
  reflexivity.
Qed.

Lemma _create_node_created (tk : Tk) (text : string) (x y : Q) (depth : option Z)
  (ws ws' : Workspace) (nid : Z) :
  _create_node tk text x y depth ws = (Val nid, ws') ->
  nid = next_id ws /\ created nid (next_palette_color ws) ws'.
Proof.
  rewrite _create_node_split. cbv zeta.
  set (s0 := with_parent _ _). set (tail := bind _ _).
  intros E.
  assert (Hv : nid = next_id ws).
  { assert (V : fst (tail s0) = Val nid) by (rewrite E; reflexivity).
    revert V. unfold tail.
    repeat (apply bind_value; intros ? ?).
    intros v V. inversion V. reflexivity. }
  split; [exact Hv|].
  assert (K : keeps (created (next_id ws) (next_palette_color ws)) tail).
  { unfold tail.
    apply keeps_bind; [apply created_draw_node, palette_truthy|intros _].
    apply keeps_bind; [apply keeps_modify; intros s C; destruct s; exact C|intros _].
    apply keeps_bind; [apply created_update_node_size|intros _].
    apply keeps_bind; [apply keeps_redraw, created_only_offsets|intros _].
    apply keeps_bind; [apply keeps_pure; reflexivity|intros root].
    apply keeps_bind; [|intros _; apply keeps_pure; reflexivity].
    destruct root; [apply keeps_pure; reflexivity|apply created_set_root]. }
  specialize (K s0). rewrite E in K. cbn [snd] in K. subst nid. apply K.
  unfold created, s0. destruct ws; simpl. rewrite get_set_same.
  eexists. split; [reflexivity|]. split; reflexivity.
Qed.

(** C9 (amended). Custom flag on creation: a node that [_create_node]
    creates has the next palette colour as its fill and its custom flag
    equal to true, so a subsequent auto-layout leaves that node's fill as
    it is and does not reset it to the depth-derived colour. *)
Theorem create_node_custom (tk : Tk) (text : string) (x y : Q) (depth : option Z)
  (ws ws' : Workspace) (nid : Z) :
  _create_node tk text x y depth ws = (Val nid, ws') ->
  exists n,
    Dict.get (nodes ws') nid = Some n
    /\ n_custom n = true
    /\ n_fill n = Some (next_palette_color ws)
    /\ forall fuel : nat,
         exists n',
           Dict.get (nodes (snd (auto_layout tk fuel ws'))) nid = Some n'
           /\ n_custom n' = true
           /\ n_fill n' = n_fill n.
Proof.
  intros E. destruct (_create_node_created _ _ _ _ _ _ _ _ E) as [_ (n & G & C & F)].
  exists n. repeat split; try assumption.
  intros fuel.
  destruct (auto_layout_layout_frame tk fuel ws') as (N & _).
  pose proof (nodes_frame_get _ _ nid N) as NF. rewrite G in NF.
  destruct (Dict.get (nodes (snd (auto_layout tk fuel ws'))) nid) as [n'|]; [|contradiction].
  destruct NF as (_ & _ & _ & _ & C' & F').
  exists n'. split; [reflexivity|]. split; [congruence | auto].
Qed.

(** The first node of a fresh workspace. *)
Lemma create_node_custom_witness :
  exists ws',
    _create_node example_tk "Root" 0 0 (Some 0%Z) empty_workspace = (Val 1%Z, ws')
    /\ exists n,
         Dict.get (nodes ws') 1%Z = Some n
         /\ n_custom n = true
         /\ n_fill n = Some "#B9C2FF"%string.
Proof.
  eexists. split; [vm_compute; reflexivity|].
  destruct (create_node_custom example_tk "Root" 0 0 (Some 0%Z) empty_workspace _ 1%Z
              eq_refl) as (n & G & C & F & _).
  exists n. repeat split; assumption.
Defined.

(** C9 as stated fails: the node 2 that [_create_node] adds to
    [one_node_ws] has its custom flag set and the second palette colour
    as its fill; the colour of its depth (0) is the first palette colour,
    and the auto-layout that follows keeps the fill instead of resetting
    it. *)
Lemma create_node_custom_counterexample :
  let r := _create_node example_tk "New Node" 0 0 None one_node_ws in
  fst r = Val 2%Z
  /\ exists n,
       Dict.get (nodes (snd r)) 2%Z = Some n
       /\ n_custom n = true
       /\ n_custom n <> false
       /\ n_fill n = Some "#FFB3BE"%string
       /\ Some (_default_fill_for_depth 0) <> n_fill n
       /\ exists n',
            Dict.get (nodes (snd (auto_layout example_tk 10 (snd r)))) 2%Z = Some n'
            /\ n_fill n' = Some "#FFB3BE"%string.
Proof.
  vm_compute. split; [reflexivity|].
  eexists. split; [reflexivity|]. repeat split; try discriminate.
  eexists. split; reflexivity.
Qed.

(** ** Termination of the depth and subtree computations *)

Lemma parent_get_key (ws : Workspace) (nid p : Z) :
  parent_get ws nid = Some p -> In nid (Dict.keys (parent ws)).
Proof.
  unfold parent_get. destruct (Dict.get (parent ws) nid) as [o|] eqn:G; [|discriminate].
  intros _. eapply get_some_in_keys. exact G.
Qed.

Lemma zmem_true_iff (x : Z) (l : list Z) : zmem x l = true <-> In x l.
Proof.
  unfold zmem. rewrite existsb_exists. split.
  - intros (y & I & E). apply Z.eqb_eq in E. subst. exact I.
  - intros I. exists x. split; [exact I|apply Z.eqb_refl].
Qed.

Lemma zmem_false_iff (x : Z) (l : list Z) : zmem x l = false <-> ~ In x l.
Proof.
  rewrite <- zmem_true_iff. destruct (zmem x l); split; congruence.
Qed.

Lemma filter_length_le {A : Type} (p q : A -> bool) (l : list A) :
  (forall a, p a = true -> q a = true) ->
  (List.length (filter p l) <= List.length (filter q l))%nat.
Proof.
  intros Hpq. induction l as [|a l IH]; simpl; [lia|].
  specialize (Hpq a). destruct (p a), (q a); simpl; try lia;
    specialize (Hpq eq_refl); discriminate.
Qed.

Lemma filter_length_lt {A : Type} (p q : A -> bool) (l : list A) (x : A) :
  (forall a, p a = true -> q a = true) ->
  In x l -> p x = false -> q x = true ->
  (List.length (filter p l) < List.length (filter q l))%nat.
Proof.
  intros Hpq I Px Qx. induction l as [|a l IH]; simpl; [contradiction|].
  pose proof (filter_length_le p q l Hpq) as Le.
  destruct I as [->|I].
  - rewrite Px, Qx. simpl. lia.
  - specialize (IH I). specialize (Hpq a). destruct (p a), (q a); simpl; try lia;
      specialize (Hpq eq_refl); discriminate.
Qed.

(** Visiting a new key of the parent map leaves fewer keys to visit. *)
Lemma unvisited_decreases (ws : Workspace) (visited : list Z) (x : Z) :
  In x (Dict.keys (parent ws)) -> ~ In x visited ->
  (List.length (unvisited ws (x :: visited)) < List.length (unvisited ws visited))%nat.
Proof.
  intros I NI. unfold unvisited. apply (filter_length_lt _ _ _ x).
  - intros a. rewrite !negb_true_iff, !zmem_false_iff. simpl. tauto.
  - exact I.
  - apply negb_false_iff. apply zmem_true_iff. left. reflexivity.
  - apply negb_true_iff. apply zmem_false_iff. exact NI.
Qed.

(** The loop of [_node_depth] returns as soon as the fuel exceeds the
    number of keys that are left to visit. *)
Lemma _node_depth_loop_returns (ws : Workspace) (fuel : nat) :
  forall (depth current : Z) (visited : list Z),
    (In current visited -> parent_get ws current = Some current) ->
    (List.length (unvisited ws visited) < fuel)%nat ->
    exists d, _node_depth_loop fuel ws depth current visited = Val d.
Proof.
  induction fuel as [|fuel IH]; intros depth current visited Inv Hfuel; [lia|].
  simpl. destruct (parent_get ws current) as [p|] eqn:G; [|eauto].
  destruct (zmem p visited) eqn:M; [eauto|].
  apply zmem_false_iff in M.
  assert (NI : ~ In current visited).
  { intros I. specialize (Inv I). assert (p = current) by congruence.
    subst p. contradiction. }
  apply IH.
  - intros [E|I]; [|contradiction]. subst p. exact G.
  - pose proof (unvisited_decreases ws visited current (parent_get_key _ _ _ G) NI). lia.
Qed.

(** [_node_depth] returns for every parent map, cyclic or not. *)
Lemma _node_depth_total (ws : Workspace) (nid : Z) :
  exists d, _node_depth ws nid = Val d.
Proof.
  unfold _node_depth. apply _node_depth_loop_returns.
  - intros [].
  - unfold unvisited, Dict.keys. simpl.
    rewrite <- (length_map fst (parent ws)).
    generalize (map fst (parent ws)). intros K.
    induction K; simpl; lia.
Qed.

Lemma cyclic_ws_tables :
  nodes cyclic_ws =
    [(1%Z, mkNode "a" 0 0 [2%Z] (Some "#FFB3BE"%string) false None None);
     (2%Z, mkNode "b" 220 0 [1%Z] (Some "#FFB3BE"%string) false None None)]
  /\ parent cyclic_ws = [(1%Z, Some 2%Z); (2%Z, Some 1%Z)]
  /\ root_id cyclic_ws = Some 1%Z.
Proof. vm_compute. repeat split. Qed.

Lemma cyclic_dfs_diverges (fuel : nat) :
  forall collected,
    dfs fuel cyclic_ws 1 collected = OutOfFuel
    /\ dfs fuel cyclic_ws 2 collected = OutOfFuel.
Proof.
  induction fuel as [|fuel IH]; intros collected; [split; reflexivity|].
  split.
  - change (dfs (S fuel) cyclic_ws 1 collected)
      with (let* acc := dfs fuel cyclic_ws 2 (collected ++ [1%Z]) in Val acc).
    rewrite (proj2 (IH _)). reflexivity.
  - change (dfs (S fuel) cyclic_ws 2 collected)
      with (let* acc := dfs fuel cyclic_ws 1 (collected ++ [2%Z]) in Val acc).
    rewrite (proj1 (IH _)). reflexivity.
Qed.

Lemma cyclic_depths_loop_diverges (fuel : nat) :
  forall depths : Dict.t Z Z,
    (Dict.mem depths 1%Z = true -> _compute_depths_loop fuel cyclic_ws depths [1%Z] = OutOfFuel)
    /\ (Dict.mem depths 2%Z = true -> _compute_depths_loop fuel cyclic_ws depths [2%Z] = OutOfFuel).
Proof.
  induction fuel as [|fuel IH]; intros depths; [split; reflexivity|].
  split; intros Hm; unfold Dict.mem in Hm.
  - destruct (Dict.get depths 1%Z) as [d|] eqn:G; [|discriminate].
    change (_compute_depths_loop (S fuel) cyclic_ws depths [1%Z])
      with (let* ds := push_children 1 [2%Z] depths [] in
            _compute_depths_loop fuel cyclic_ws (fst ds) (snd ds)).
    cbn [push_children]. rewrite G. cbn [of_option obind fst snd app].
    apply (proj2 (IH _)). unfold Dict.mem. rewrite get_set_same. reflexivity.
  - destruct (Dict.get depths 2%Z) as [d|] eqn:G; [|discriminate].
    change (_compute_depths_loop (S fuel) cyclic_ws depths [2%Z])
      with (let* ds := push_children 2 [1%Z] depths [] in
            _compute_depths_loop fuel cyclic_ws (fst ds) (snd ds)).
    cbn [push_children]. rewrite G. cbn [of_option obind fst snd app].
    apply (proj1 (IH _)). unfold Dict.mem. rewrite get_set_same. reflexivity.
Qed.

Lemma cyclic_directions_loop_diverges (fuel : nat) :
  forall directions : Dict.t Z Z,
    _assign_directions_loop fuel cyclic_ws directions [1%Z] = OutOfFuel
    /\ _assign_directions_loop fuel cyclic_ws directions [2%Z] = OutOfFuel.
Proof.
  induction fuel as [|fuel IH]; intros directions; [split; reflexivity|].
  split.
  - change (_assign_directions_loop (S fuel) cyclic_ws directions [1%Z])
      with (_assign_directions_loop fuel cyclic_ws
              (Dict.set directions 2%Z (opt_default 1%Z (Dict.get directions 1%Z))) [2%Z]).
    apply IH.
  - change (_assign_directions_loop (S fuel) cyclic_ws directions [2%Z])
      with (_assign_directions_loop fuel cyclic_ws
              (Dict.set directions 1%Z (opt_default 1%Z (Dict.get directions 2%Z))) [1%Z]).
    apply IH.
Qed.


(** ** Edge candidate search *)

Lemma candidate_kept (base a b : Q) :
  1e-6 < Qabs (a - b) -> Qltb 1e-6 (Qabs (base + a - (base + b))) = true.
Proof.
  intros H. apply Qltb_lt.
  assert (E : base + a - (base + b) == a - b) by ring.
  rewrite E. exact H.
Qed.

(** In exact arithmetic no two successive candidates are closer than
    1e-6, so all nine are kept. *)
Lemma _edge_offset_candidates_all (base : Q) :
  _edge_offset_candidates base = spec_candidates base.
Proof.
  unfold _edge_offset_candidates, spec_candidates.
  cbn [_edge_offset_candidates_loop app last].
  repeat (rewrite candidate_kept by reflexivity; cbn [app last]).
  reflexivity.
Qed.

Lemma ofold_val {A B : Type} (body : B -> A -> outcome B) (l : list A) :
  (forall acc a, In a l -> exists b, body acc a = Val b) ->
  forall acc, exists r, ofold body l acc = Val r.
Proof.
  induction l as [|a l IH]; intros Hb acc; simpl; [eauto|].
  destruct (Hb acc a (or_introl eq_refl)) as [b ->]. cbn [obind].
  apply IH. intros acc' a' I. apply Hb. right. exact I.
Qed.

Lemma _node_center_val (ws : Workspace) (nid : Z) (n : Node) :
  Dict.get (nodes ws) nid = Some n ->
  _node_center ws nid = Val (_to_canvas_point ws (n_x n) (n_y n)).
Proof.
  intros G. unfold _node_center, node_at. rewrite G. reflexivity.
Qed.

Lemma _edge_exit_point_val (ws : Workspace) (nid : Z) (n : Node) (tx ty : R) :
  Dict.get (nodes ws) nid = Some n ->
  exists p, _edge_exit_point ws nid tx ty = Val p.
Proof.
  intros G. unfold _edge_exit_point, _edge_exit_point_steps.
  rewrite (_node_center_val ws nid n G). cbn [obind]. cbv zeta.
  destruct (Rltb _ _ && Rltb _ _); cbn [obind]; eauto.
Qed.

(** The control points are defined as soon as the parent exists: the only
    lookups are the parent and the nodes of [self.nodes] themselves. *)
Lemma _edge_control_points_val (ws : Workspace) (pid cid : Z) (pnode : Node)
  (start end_ : Point) (extra : R) :
  Dict.get (nodes ws) pid = Some pnode ->
  exists cps, _edge_control_points ws pid cid start end_ extra = Val cps.
Proof.
  intros G. unfold _edge_control_points.
  destruct start as [sx sy], end_ as [ex ey].
  unfold node_at at 1. rewrite G. cbn [of_option obind]. cbv zeta.
  match goal with
  | |- context [ofold ?f ?l ?a] =>
      assert (F : exists r, ofold f l a = Val r)
  end.
  { apply ofold_val. intros acc other_id I.
    destruct (Z.eqb other_id pid || Z.eqb other_id cid); [eauto|].
    destruct (in_keys_get _ _ I) as [n Gn].
    rewrite (_node_center_val ws other_id n Gn). cbn [obind]. eauto. }
  destruct F as [cps ->]. cbn [obind].
  destruct (orient _ _ _ _ _ _ _ _ _ _ _ 1%R) as [[cp1_pos cp2_pos] adjust_pos].
  destruct (orient _ _ _ _ _ _ _ _ _ _ _ (-1)%R) as [[cp1_neg cp2_neg] adjust_neg].
  destruct (Rleb _ _); eauto.
Qed.

Lemma candidate_path_val (ws : Workspace) (pid cid : Z) (pnode : Node)
  (start end_ : Point) (offset : Q) :
  Dict.get (nodes ws) pid = Some pnode ->
  candidate_path ws pid cid start end_ offset = Val (path_of ws pid cid start end_ offset).
Proof.
  intros G. unfold path_of, candidate_path.
  destruct (_edge_control_points_val ws pid cid pnode start end_ (Q2R offset) G) as [cps ->].
  reflexivity.
Qed.

Lemma edge_endpoints_val (ws : Workspace) (pid cid : Z) (pnode cnode : Node) :
  Dict.get (nodes ws) pid = Some pnode ->
  Dict.get (nodes ws) cid = Some cnode ->
  edge_endpoints ws pid cid = Val (endpoints_of ws pid cid).
Proof.
  intros Gp Gc. unfold endpoints_of, edge_endpoints.
  rewrite (_node_center_val ws pid pnode Gp), (_node_center_val ws cid cnode Gc).
  cbn [obind].
  destruct (QPoint (_to_canvas_point ws (n_x pnode) (n_y pnode))) as [px py].
  destruct (QPoint (_to_canvas_point ws (n_x cnode) (n_y cnode))) as [cx cy].
  destruct (_edge_exit_point_val ws pid pnode cx cy Gp) as [start ->].
  destruct (_edge_exit_point_val ws cid cnode px py Gc) as [end_ ->].
  cbn [obind]. destruct (Rltb _ _); reflexivity.
Qed.

(** The loop with [break] returns the first candidate that crosses
    nothing already drawn. *)
Lemma search_candidates_find (ws : Workspace) (pid cid : Z) (pnode : Node)
  (start end_ : Point) (drawn : list DrawnPath) (candidates : list Q) :
  Dict.get (nodes ws) pid = Some pnode ->
  search_candidates ws pid cid start end_ drawn candidates =
  Val (match find (fun off =>
                     negb (_path_intersects (path_of ws pid cid start end_ off)
                             drawn start end_)) candidates with
       | Some off => Some (path_of ws pid cid start end_ off, off)
       | None => None
       end).
Proof.
  intros G. induction candidates as [|off candidates IH]; [reflexivity|].
  cbn [search_candidates find].
  rewrite (candidate_path_val ws pid cid pnode start end_ off G). cbn [obind].
  destruct (negb (_path_intersects _ drawn start end_)); [reflexivity|exact IH].
Qed.

(** [_render_edge] on an edge whose two nodes exist. *)
Lemma _render_edge_run (ws : Workspace) (pid cid : Z) (drawn : list DrawnPath)
  (pnode cnode : Node) :
  Dict.get (nodes ws) pid = Some pnode ->
  Dict.get (nodes ws) cid = Some cnode ->
  let base := opt_default 0 (Dict.get (edge_offsets ws) (pid, cid)) in
  let start := fst (endpoints_of ws pid cid) in
  let end_ := snd (endpoints_of ws pid cid) in
  let path := path_of ws pid cid start end_ in
  let clear off := negb (_path_intersects (path off) drawn start end_) in
  let chosen := match find clear (spec_candidates base) with
                | Some off => off
                | None => base + -80
                end in
  _render_edge pid cid drawn ws =
  (Val (drawn ++ [mkDrawnPath (path chosen) start end_]),
   with_edge_offsets (fun d => Dict.set d (pid, cid) chosen) ws).
Proof.
  intros Gp Gc base start end_ path clear chosen.
  assert (Hends : edge_endpoints ws pid cid = Val (start, end_)).
  { rewrite (edge_endpoints_val ws pid cid pnode cnode Gp Gc).
    unfold start, end_. destruct (endpoints_of ws pid cid). reflexivity. }
  unfold _render_edge, bind, read, gets. rewrite Hends. cbn [fst snd].
  fold base. rewrite _edge_offset_candidates_all.
  rewrite (search_candidates_find ws pid cid pnode start end_ drawn _ Gp).
  fold path. fold clear. unfold chosen.
  destruct (find clear (spec_candidates base)) as [off|]; [reflexivity|].
  unfold ret. change (last (spec_candidates base) 0) with (base + -80).
  rewrite (candidate_path_val ws pid cid pnode start end_ _ Gp). reflexivity.
Qed.



(** ** Exit points *)

Local Open Scope R_scope.

Lemma Rltb_true (a b : R) : Rltb a b = true <-> a < b.
Proof. unfold Rltb. destruct (Rlt_dec a b); split; auto; discriminate. Qed.

Lemma Rltb_false (a b : R) : Rltb a b = false <-> ~ a < b.
Proof. unfold Rltb. destruct (Rlt_dec a b); split; auto; try discriminate; tauto. Qed.

Lemma Rzerob_false (a : R) : a <> 0 -> Rzerob a = false.
Proof. intros N. unfold Rzerob. destruct (Req_dec_T a 0); [contradiction|reflexivity]. Qed.

(** Scaling a non-zero direction by the inverse of its ellipse norm puts
    it on the ellipse. *)
Lemma scaled_direction_on_ellipse (cx cy a b dx dy : R) :
  0 < a -> 0 < b -> dx <> 0 \/ dy <> 0 ->
  let factor := sqrt (dx * dx / (a * a) + dy * dy / (b * b)) in
  factor <> 0
  /\ ellipse_eq cx cy a b (cx + dx * (1 / factor), cy + dy * (1 / factor)).
Proof.
  intros Ha Hb Hd factor.
  assert (Haa : 0 < a * a) by (apply Rmult_lt_0_compat; assumption).
  assert (Hbb : 0 < b * b) by (apply Rmult_lt_0_compat; assumption).
  assert (Hx : 0 <= dx * dx / (a * a)).
  { apply Rmult_le_pos; [apply Rle_0_sqr|]. left. apply Rinv_0_lt_compat. exact Haa. }
  assert (Hy : 0 <= dy * dy / (b * b)).
  { apply Rmult_le_pos; [apply Rle_0_sqr|]. left. apply Rinv_0_lt_compat. exact Hbb. }
  assert (Hv : 0 < dx * dx / (a * a) + dy * dy / (b * b)).
  { destruct Hd as [N|N].
    - assert (0 < dx * dx / (a * a)).
      { apply Rmult_lt_0_compat; [|apply Rinv_0_lt_compat; exact Haa].
        destruct (Rtotal_order dx 0) as [L|[E|G]]; [|contradiction|]; Lra.nra. }
      Lra.lra.
    - assert (0 < dy * dy / (b * b)).
      { apply Rmult_lt_0_compat; [|apply Rinv_0_lt_compat; exact Hbb].
        destruct (Rtotal_order dy 0) as [L|[E|G]]; [|contradiction|]; Lra.nra. }
      Lra.lra. }
  assert (Hf : 0 < factor) by (apply sqrt_lt_R0; exact Hv).
  assert (Hsq : factor * factor = dx * dx / (a * a) + dy * dy / (b * b)).
  { apply sqrt_sqrt. left. exact Hv. }
  split; [Lra.lra|].
  unfold ellipse_eq. cbn [fst snd].
  replace ((cx + dx * (1 / factor) - cx) * (cx + dx * (1 / factor) - cx) / (a * a)
           + (cy + dy * (1 / factor) - cy) * (cy + dy * (1 / factor) - cy) / (b * b))
    with ((dx * dx / (a * a) + dy * dy / (b * b)) / (factor * factor))
    by (field; repeat split; Lra.lra).
  rewrite <- Hsq. field. Lra.lra.
Qed.

Lemma Q2R_NODE_W : Q2R NODE_W = 160.
Proof. unfold NODE_W, Q2R. simpl. Lra.lra. Qed.

Lemma Q2R_NODE_H : Q2R NODE_H = 56.
Proof. unfold NODE_H, Q2R. simpl. Lra.lra. Qed.

Lemma Q2R_half (q : Q) : Q2R (q / 2) = Q2R q / 2.
Proof.
  rewrite Q2R_div by discriminate. f_equal. unfold Q2R. simpl. Lra.lra.
Qed.

(** From the smallest zoom on, the clamp of the semi-axes at 1 is idle. *)
Lemma semi_axes_unclamped (s : Q) :
  (ZOOM_MIN <= s)%Q ->
  Rmax (Q2R NODE_W * Q2R s / 2) 1 = Q2R NODE_W * Q2R s / 2
  /\ Rmax (Q2R NODE_H * Q2R s / 2) 1 = Q2R NODE_H * Q2R s / 2.
Proof.
  intros Hs. apply Qle_Rle in Hs.
  assert (E : Q2R ZOOM_MIN = 0.4) by (unfold ZOOM_MIN, Q2R; simpl; Lra.lra).
  rewrite E in Hs. rewrite Q2R_NODE_W, Q2R_NODE_H.
  split; apply Rmax_left; Lra.lra.
Qed.

(** C3 (amended). Ellipse exit point: for a node that exists, the point
    that [_edge_exit_point] computes before it adds the outward margin
    lies exactly on the ellipse around the node's screen centre whose
    semi-axes are [max(NODE_W * scale / 2, 1)] and [max(NODE_H * scale /
    2, 1)]: half the default node width and height times the zoom factor,
    not the node's own cached width and height.  When the target is
    within 1e-4 of the centre in both coordinates (in particular when the
    centres coincide) the exit direction is straight down.  For a node of
    default size and a scale of at least [ZOOM_MIN] this ellipse is the
    node's bounding ellipse. *)
Theorem exit_point_on_ellipse (ws : Workspace) (nid : Z) (n : Node) (tx ty : R) :
  Dict.get (nodes ws) nid = Some n ->
  let c := QPoint (_to_canvas_point ws (n_x n) (n_y n)) in
  let a := Rmax (Q2R NODE_W * Q2R (scale ws) / 2) 1 in
  let b := Rmax (Q2R NODE_H * Q2R (scale ws) / 2) 1 in
  exists e,
    _edge_exit_point_steps ws nid tx ty = Val e
    /\ semi_a e = a /\ semi_b e = b
    /\ ellipse_eq (fst c) (snd c) a b (on_ellipse e)
    /\ (Rabs (tx - fst c) < 1e-4 /\ Rabs (ty - snd c) < 1e-4 ->
        on_ellipse e = (fst c, snd c + b))
    /\ ((ZOOM_MIN <= scale ws)%Q ->
        (opt_default NODE_W (n_w n) == NODE_W)%Q ->
        (opt_default NODE_H (n_h n) == NODE_H)%Q ->
        on_bounding_ellipse ws nid (on_ellipse e)).
Proof.
  intros G c a b.
  assert (Ha : 0 < a).
  { pose proof (Rmax_r (Q2R NODE_W * Q2R (scale ws) / 2) 1) as M. fold a in M. Lra.lra. }
  assert (Hb : 0 < b).
  { pose proof (Rmax_r (Q2R NODE_H * Q2R (scale ws) / 2) 1) as M. fold b in M. Lra.lra. }
  unfold _edge_exit_point_steps. rewrite (_node_center_val ws nid n G).
  cbn [obind]. cbv zeta. fold a b. change (Q2R (fst (_to_canvas_point ws (n_x n) (n_y n))))
    with (fst c). change (Q2R (snd (_to_canvas_point ws (n_x n) (n_y n)))) with (snd c).
  set (close := Rltb (Rabs (tx - fst c)) 1e-4 && Rltb (Rabs (ty - snd c)) 1e-4).
  assert (Hon : exists d : R * R,
             (if close then (0, b) else (tx - fst c, ty - snd c)) = d
             /\ (fst d <> 0 \/ snd d <> 0)
             /\ (close = true -> d = (0, b))).
  { destruct close eqn:Hc.
    - exists (0, b). split; [reflexivity|]. split; [right; cbn [snd]; Lra.lra|auto].
    - exists (tx - fst c, ty - snd c). split; [reflexivity|]. split; [|discriminate].
      unfold close in Hc. apply andb_false_iff in Hc. cbn [fst snd].
      destruct Hc as [Hc|Hc]; apply Rltb_false in Hc; [left|right]; intros E;
        apply Hc; rewrite E, Rabs_R0; Lra.lra. }
  destruct Hon as (d & Hsel & Hd & Hdown). rewrite Hsel. clear Hsel.
  destruct d as [dx dy]. cbn [fst snd] in Hd.
  destruct (scaled_direction_on_ellipse (fst c) (snd c) a b dx dy Ha Hb Hd) as [Hf Hell].
  cbv zeta in Hf, Hell. rewrite (Rzerob_false _ Hf).
  eexists. split; [reflexivity|]. cbn [semi_a semi_b on_ellipse].
  split; [reflexivity|]. split; [reflexivity|]. split; [exact Hell|]. split.
  - intros [Cx Cy].
    assert (Hclose : close = true).
    { unfold close. apply andb_true_iff. split; apply Rltb_true; assumption. }
    specialize (Hdown Hclose). inversion Hdown; subst dx dy.
    replace (0 * 0 / (a * a) + b * b / (b * b)) with 1 by (field; Lra.lra).
    rewrite sqrt_1. f_equal; Lra.lra.
  - intros Hs Hw Hh.
    destruct (semi_axes_unclamped (scale ws) Hs) as [Ea Eb].
    assert (Hs0 : Qeqb (scale ws) 0 = false).
    { apply Qeqb_neq. intros E. rewrite E in Hs. apply Hs. reflexivity. }
    unfold on_bounding_ellipse, _node_bbox.
    rewrite (_node_center_val ws nid n G). cbn [obind]. rewrite G.
    unfold or_float. rewrite Hs0.
    destruct (_to_canvas_point ws (n_x n) (n_y n)) as [cxq cyq] eqn:Ec.
    do 4 eexists. split; [reflexivity|].
    assert (E1 : Q2R ((cxq - opt_default NODE_W (n_w n) * scale ws / 2
                       + (cxq + opt_default NODE_W (n_w n) * scale ws / 2)) / 2) = fst c).
    { unfold c, QPoint. cbn [fst]. apply Qeq_eqR. field. }
    assert (E2 : Q2R ((cyq - opt_default NODE_H (n_h n) * scale ws / 2
                       + (cyq + opt_default NODE_H (n_h n) * scale ws / 2)) / 2) = snd c).
    { unfold c, QPoint. cbn [snd]. apply Qeq_eqR. field. }
    assert (E3 : Q2R ((cxq + opt_default NODE_W (n_w n) * scale ws / 2
                       - (cxq - opt_default NODE_W (n_w n) * scale ws / 2)) / 2) = a).
    { unfold a. rewrite Ea, <- Q2R_mult, <- Q2R_half. apply Qeq_eqR. rewrite Hw. field. }
    assert (E4 : Q2R ((cyq + opt_default NODE_H (n_h n) * scale ws / 2
                       - (cyq - opt_default NODE_H (n_h n) * scale ws / 2)) / 2) = b).
    { unfold b. rewrite Eb, <- Q2R_mult, <- Q2R_half. apply Qeq_eqR. rewrite Hh. field. }
    rewrite E1, E2, E3, E4. exact Hell.
Qed.

(** The root of [pair_ws] has the default size and the scale is 1: the
    exit point towards its child at (220, 0) is on its bounding ellipse. *)
Lemma exit_point_on_ellipse_witness :
  (exists n, Dict.get (nodes pair_ws) 1%Z = Some n
             /\ (opt_default NODE_W (n_w n) == NODE_W)%Q
             /\ (opt_default NODE_H (n_h n) == NODE_H)%Q)
  /\ (ZOOM_MIN <= scale pair_ws)%Q
  /\ exists e,
       _edge_exit_point_steps pair_ws 1 220 0 = Val e
       /\ on_bounding_ellipse pair_ws 1 (on_ellipse e).
Proof.
  assert (Hs : (ZOOM_MIN <= scale pair_ws)%Q) by (intros D; discriminate D).
  split; [eexists; split; [reflexivity|split; reflexivity]|].
  split; [exact Hs|].
  destruct (exit_point_on_ellipse pair_ws 1%Z _ 220 0 eq_refl)
    as (e & Hrun & _ & _ & _ & _ & Hbound).
  exists e. split; [exact Hrun|].
  apply Hbound; [exact Hs|reflexivity|reflexivity].
Defined.

(** C3 as stated fails: the root of [wide_ws] is 320 wide, so its
    bounding ellipse has the semi-axes 160 and 28; the exit point towards
    the child at (400, 0) is computed on the ellipse of the default node
    size and is (80, 0), half way between the centre and the boundary. *)
Lemma exit_point_on_ellipse_counterexample :
  exists e,
    _edge_exit_point_steps wide_ws 1 400 0 = Val e
    /\ on_ellipse e = (80, 0)
    /\ ~ on_bounding_ellipse wide_ws 1 (on_ellipse e).
Proof.
  assert (Hrun : exists e, _edge_exit_point_steps wide_ws 1 400 0 = Val e
                           /\ on_ellipse e = (80, 0)).
  { unfold _edge_exit_point_steps.
    rewrite (_node_center_val wide_ws 1%Z _ eq_refl). cbn [obind]. cbv zeta.
    change (scale wide_ws) with 1%Q.
    change (_to_canvas_point wide_ws _ _) with ((0 + 0 * 1)%Q, (0 + 0 * 1)%Q).
    cbn [fst snd].
    assert (E0 : Q2R (0 + 0 * 1) = 0) by (unfold Q2R; simpl; Lra.lra).
    assert (E1 : Q2R 1 = 1) by (unfold Q2R; simpl; Lra.lra).
    rewrite E0, E1, Q2R_NODE_W, Q2R_NODE_H.
    rewrite (Rmax_left (160 * 1 / 2) 1) by Lra.lra.
    rewrite (Rmax_left (56 * 1 / 2) 1) by Lra.lra.
    assert (Hx : Rltb (Rabs (400 - 0)) 1e-4 = false).
    { apply Rltb_false. rewrite Rabs_pos_eq by Lra.lra. Lra.lra. }
    rewrite Hx. cbn [andb].
    assert (Hf : sqrt ((400 - 0) * (400 - 0) / (160 * 1 / 2 * (160 * 1 / 2))
                       + (0 - 0) * (0 - 0) / (56 * 1 / 2 * (56 * 1 / 2))) = 5).
    { apply sqrt_lem_1; [|Lra.lra|]; field_simplify; Lra.lra. }
    rewrite Hf. rewrite (Rzerob_false 5) by Lra.lra.
    eexists. split; [reflexivity|]. cbn [on_ellipse]. f_equal; field. }
  destruct Hrun as (e & Hrun & Hon). exists e. split; [exact Hrun|]. split; [exact Hon|].
  rewrite Hon. intros (x0 & y0 & x1 & y1 & Hbox & Hell).
  vm_compute in Hbox. inversion Hbox; subst x0 y0 x1 y1. clear Hbox.
  unfold ellipse_eq, Q2R in Hell. simpl in Hell. Lra.lra.
Qed.

Local Close Scope R_scope.

(** ** Redraw and dangling children *)

Lemma _edges_parent_exists (ws : Workspace) (pid cid : Z) :
  In (pid, cid) (_edges ws) -> exists pnode, Dict.get (nodes ws) pid = Some pnode.
Proof.
  unfold _edges. rewrite in_flat_map. intros ([k info] & I & Ic).
  apply in_map_iff in Ic. destruct Ic as (c & E & _). inversion E; subst k c.
  apply in_keys_get. unfold Dict.keys. apply (in_map fst _ _ I).
Qed.

Lemma _refresh_all_positions_val (ws : Workspace) : _refresh_all_positions ws = Val tt.
Proof.
  unfold _refresh_all_positions.
  assert (H : forall l, (forall nid, In nid l -> In nid (Dict.keys (nodes ws))) ->
                        ofold (fun _ nid => _refresh_node_position ws nid) l tt = Val tt).
  { induction l as [|nid l IH]; intros Hl; [reflexivity|].
    cbn [ofold]. unfold _refresh_node_position at 1.
    destruct (in_keys_get _ _ (Hl nid (or_introl eq_refl))) as [n G].
    destruct (zmem nid (canvas_items ws)).
    - unfold _node_bbox. rewrite (_node_center_val ws nid n G). cbn [obind].
      destruct (_to_canvas_point ws (n_x n) (n_y n)). cbn [obind].
      apply IH. intros k I. apply Hl. right. exact I.
    - cbn [obind]. apply IH. intros k I. apply Hl. right. exact I. }
  apply H. auto.
Qed.

Lemma render_edges_val (edges : list (Z * Z)) :
  forall (drawn : list DrawnPath) (ws : Workspace),
    (forall pid cid, In (pid, cid) edges ->
       Dict.mem (nodes ws) pid = true /\ Dict.mem (nodes ws) cid = true) ->
    fst (render_edges edges drawn ws) = Val tt.
Proof.
  induction edges as [|[pid cid] edges IH]; intros drawn ws He; [reflexivity|].
  cbn [render_edges]. unfold bind.
  destruct (He pid cid (or_introl eq_refl)) as [Mp Mc].
  unfold Dict.mem in Mp, Mc.
  destruct (Dict.get (nodes ws) pid) as [pnode|] eqn:Gp; [|discriminate].
  destruct (Dict.get (nodes ws) cid) as [cnode|] eqn:Gc; [|discriminate].
  rewrite (_render_edge_run ws pid cid drawn pnode cnode Gp Gc).
  refine (IH _ _ _). intros p c I. destruct ws. simpl. apply (He p c). right. exact I.
Qed.

(** [redraw] returns normally exactly when no edge dangles; this is the
    direction used below. *)
Lemma redraw_val (ws : Workspace) :
  (forall pid cid, In (pid, cid) (_edges ws) -> Dict.mem (nodes ws) cid = true) ->
  fst (redraw ws) = Val tt.
Proof.
  intros He. unfold redraw, bind at 1, read. rewrite _refresh_all_positions_val.
  unfold bind at 1, gets at 1. unfold bind at 1, gets at 1. unfold bind.
  set (prune := for_each _ _).
  assert (Hp : forall s, fst (prune s) = Val tt /\ nodes (snd (prune s)) = nodes s).
  { unfold prune. generalize (Dict.keys (edge_offsets ws)). intros keys.
    induction keys as [|key keys IH]; intros s; [split; reflexivity|].
    cbn [for_each]. unfold bind.
    destruct (negb (edge_mem key (_edges ws))); cbn [modify ret fst snd].
    - destruct (IH (with_edge_offsets (fun d => Dict.pop d key) s)) as [V N].
      split; [exact V|]. rewrite N. destruct s. reflexivity.
    - apply IH. }
  destruct (Hp ws) as [V N]. destruct (prune ws) as [[[]|e|] s1]; try discriminate V.
  cbn [snd] in N. apply render_edges_val. intros pid cid I. rewrite N.
  split; [|apply (He pid cid I)].
  destruct (_edges_parent_exists ws pid cid I) as [pnode G].
  unfold Dict.mem. rewrite G. reflexivity.
Qed.

(** Loading [cyclic_doc] completes: the document is one the application
    accepts. *)
Lemma cyclic_doc_loads :
  fst (_load_data_into_current_workspace cyclic_doc empty_workspace) = Val tt.
Proof.
  unfold _load_data_into_current_workspace, bind.
  replace (load_tables cyclic_doc empty_workspace) with (Val tt, cyclic_ws)
    by (vm_compute; reflexivity).
  apply redraw_val. intros pid cid I.
  assert (E : _edges cyclic_ws = [(1, 2); (2, 1)]%Z) by (vm_compute; reflexivity).
  rewrite E in I. destruct I as [I|[I|[]]]; inversion I; subst; reflexivity.
Qed.

(** C8 at the failing input.  Loading [cyclic_doc] completes and leaves
    the tables of [cyclic_ws], where 1 and 2 are each other's child and
    parent.  There [_node_depth] returns, but the loops of
    [_assign_directions] and [_compute_depths] and the recursion of
    [_collect_subtree] never end: whatever the fuel, they run out of it,
    and so does [auto_layout]. *)
Theorem cycle_unsafe_traversals :
  fst (_load_data_into_current_workspace cyclic_doc empty_workspace) = Val tt
  /\ (exists d, _node_depth cyclic_ws 1 = Val d)
  /\ (forall fuel, _assign_directions fuel cyclic_ws 1 = OutOfFuel)
  /\ (forall fuel, _compute_depths fuel cyclic_ws 1 = OutOfFuel)
  /\ (forall fuel, _collect_subtree fuel cyclic_ws 1 = OutOfFuel)
  /\ (forall tk fuel, fst (auto_layout tk fuel cyclic_ws) = OutOfFuel).
Proof.
  split; [apply cyclic_doc_loads|].
  split; [apply _node_depth_total|].
  assert (D : forall fuel, _assign_directions fuel cyclic_ws 1 = OutOfFuel).
  { intros fuel. unfold _assign_directions.
    change (node_at cyclic_ws 1)
      with (Val (mkNode "a" 0 0 [2%Z] (Some "#FFB3BE"%string) false None None)).
    cbn [obind n_children enumerate enumerate_from fold_left].
    rewrite (proj2 (cyclic_directions_loop_diverges fuel _)). reflexivity. }
  split; [exact D|]. split; [|split].
  - intros fuel. unfold _compute_depths.
    rewrite (proj1 (cyclic_depths_loop_diverges fuel _)); reflexivity.
  - intros fuel. unfold _collect_subtree. apply cyclic_dfs_diverges.
  - intros tk fuel. unfold auto_layout, bind, gets, read. cbn [fst snd].
    change (Dict.first_key (nodes cyclic_ws)) with (Some 1%Z).
    change (root_id cyclic_ws) with (Some 1%Z). cbn [Z.eqb].
    destruct (_from_canvas_point cyclic_ws _ _) as [base_x base_y].
    rewrite D. reflexivity.
Qed.

(** C4 at the failing input.  Loading [dangling_doc], whose node 1 lists
    the missing child 99, rebuilds the tables, stores the parent link
    99 -> 1, and then raises [KeyError] in the redraw, at
    [_node_center(99)]. *)
Theorem dangling_child_load :
  let r := _load_data_into_current_workspace dangling_doc empty_workspace in
  fst (load_tables dangling_doc empty_workspace) = Val tt
  /\ fst r = Exc KeyError
  /\ Dict.get (nodes (snd r)) 99%Z = None
  /\ Dict.get (parent (snd r)) 99%Z = Some (Some 1%Z)
  /\ _edges (snd r) = [(1, 99)%Z]
  /\ _node_center (snd r) 99 = Exc KeyError.
Proof.
  vm_compute. repeat split.
Qed.

(** ** Tree invariants under the core mutations *)

Lemma get_none_not_in_keys {V : Type} (d : Dict.t Z V) (k : Z) :
  Dict.get d k = None <-> ~ In k (Dict.keys d).
Proof.
  split.
  - intros G I. destruct (in_keys_get d k I) as [v E]. congruence.
  - intros NI. destruct (Dict.get d k) eqn:G; [|reflexivity].
    exfalso. apply NI. eapply get_some_in_keys. exact G.
Qed.

Lemma keys_set {V : Type} (d : Dict.t Z V) (k : Z) (v : V) :
  Dict.keys (Dict.set d k v) = if Dict.mem d k then Dict.keys d else Dict.keys d ++ [k].
Proof.
  destruct (Dict.mem d k) eqn:M; [apply keys_set_present|apply keys_set_absent]; exact M.
Qed.

Lemma NoDup_keys_set {V : Type} (d : Dict.t Z V) (k : Z) (v : V) :
  NoDup (Dict.keys d) -> NoDup (Dict.keys (Dict.set d k v)).
Proof.
  intros ND. rewrite keys_set. destruct (Dict.mem d k) eqn:M; [exact ND|].
  apply NoDup_app; [exact ND|repeat constructor; intros []|].
  intros a Ia [<-|[]]. apply mem_true_iff in Ia. congruence.
Qed.

Lemma keys_pop_incl {V : Type} (d : Dict.t Z V) (k x : Z) :
  In x (Dict.keys (Dict.pop d k)) -> In x (Dict.keys d).
Proof.
  unfold Dict.keys. induction d as [|[k' v'] d IH]; simpl; [auto|].
  change (keqb k' k) with (Z.eqb k' k). destruct (Z.eqb k' k); simpl; tauto.
Qed.

Lemma NoDup_keys_pop {V : Type} (d : Dict.t Z V) (k : Z) :
  NoDup (Dict.keys d) -> NoDup (Dict.keys (Dict.pop d k)).
Proof.
  unfold Dict.keys. induction d as [|[k' v'] d IH]; simpl; [auto|].
  intros ND. inversion ND as [|? ? NI ND']; subst.
  change (keqb k' k) with (Z.eqb k' k). destruct (Z.eqb k' k); simpl; [exact ND'|].
  constructor; [|apply IH; exact ND'].
  intros I. apply NI. apply (keys_pop_incl d k k' I).
Qed.

Lemma get_pop {V : Type} (d : Dict.t Z V) (k x : Z) :
  NoDup (Dict.keys d) ->
  Dict.get (Dict.pop d k) x = if Z.eqb k x then None else Dict.get d x.
Proof.
  intros ND. destruct (Z.eqb k x) eqn:E.
  - apply Z.eqb_eq in E. subst x. apply get_pop_same. exact ND.
  - apply Z.eqb_neq in E. apply get_pop_other. exact E.
Qed.

Lemma remove_first_in (x y : Z) (l : list Z) :
  NoDup l -> (In y (remove_first x l) <-> In y l /\ y <> x).
Proof.
  induction l as [|a l IH]; simpl; [tauto|].
  intros ND. inversion ND as [|? ? NI ND']; subst.
  destruct (Z.eqb a x) eqn:E.
  - apply Z.eqb_eq in E. subst a. split.
    + intros I. split; [auto|]. intros ->. contradiction.
    + intros [[->|I] N]; [contradiction|exact I].
  - apply Z.eqb_neq in E. simpl. rewrite (IH ND'). split.
    + intros [->|[I N]]; [split; auto|tauto].
    + intros [[->|I] N]; [auto|tauto].
Qed.

Lemma NoDup_remove_first (x : Z) (l : list Z) : NoDup l -> NoDup (remove_first x l).
Proof.
  induction l as [|a l IH]; simpl; [auto|].
  intros ND. inversion ND as [|? ? NI ND']; subst.
  destruct (Z.eqb a x); [exact ND'|]. constructor; [|auto].
  intros I. apply NI. apply remove_first_in in I; tauto.
Qed.

(** *** The graph of a state after the elementary stores *)

Lemma parent_get_set (s : Workspace) (c : Z) (v : option Z) (x : Z) :
  parent_get (with_parent (fun d => Dict.set d c v) s) x =
  if Z.eqb c x then v else parent_get s x.
Proof.
  unfold parent_get. destruct s; simpl. rewrite get_set.
  change (keqb c x) with (Z.eqb c x). destruct (Z.eqb c x); [destruct v|]; reflexivity.
Qed.

Lemma children_of_with_parent (f : Dict.t Z (option Z) -> Dict.t Z (option Z))
  (s : Workspace) (x : Z) :
  children_of (with_parent f s) x = children_of s x.
Proof. destruct s. reflexivity. Qed.

Lemma children_of_set (s : Workspace) (k : Z) (n : Node) (x : Z) :
  children_of (with_nodes (fun d => Dict.set d k n) s) x =
  if Z.eqb k x then n_children n else children_of s x.
Proof.
  unfold children_of. destruct s; simpl. rewrite get_set.
  change (keqb k x) with (Z.eqb k x). destruct (Z.eqb k x); reflexivity.
Qed.

Lemma parent_get_with_nodes (f : Dict.t Z Node -> Dict.t Z Node) (s : Workspace) (x : Z) :
  parent_get (with_nodes f s) x = parent_get s x.
Proof. destruct s. reflexivity. Qed.

(** *** States with the same graph *)

Lemma same_graph_refl (s : Workspace) : same_graph s s.
Proof. unfold same_graph. auto. Qed.

Lemma same_graph_trans (a b c : Workspace) :
  same_graph a b -> same_graph b c -> same_graph a c.
Proof.
  unfold same_graph. intros (K1 & C1 & P1 & N1) (K2 & C2 & P2 & N2).
  repeat split; try congruence.
Qed.

Lemma same_graph_parent_get (s s' : Workspace) (x : Z) :
  same_graph s s' -> parent_get s' x = parent_get s x.
Proof. intros (_ & _ & P & _). unfold parent_get. rewrite P. reflexivity. Qed.

Lemma same_graph_mem (s s' : Workspace) (x : Z) :
  same_graph s s' -> Dict.mem (nodes s') x = Dict.mem (nodes s) x.
Proof.
  intros (K & _). apply eq_true_iff_eq. rewrite !mem_true_iff, K. reflexivity.
Qed.

Lemma same_graph_linked (s s' : Workspace) : same_graph s s' -> linked s -> linked s'.
Proof.
  intros SG [(NDn & NDp & NDc & Fr) Co].
  pose proof SG as (K & C & P & N).
  split; [split; [|split; [|split]]|].
  - rewrite K. exact NDn.
  - rewrite P. exact NDp.
  - intros p. rewrite C. apply NDc.
  - intros nid Hn. rewrite N in Hn. destruct (Fr nid Hn) as [Gn Gp].
    split; [|rewrite P; exact Gp].
    apply get_none_not_in_keys. rewrite K. apply get_none_not_in_keys. exact Gn.
  - intros p c. rewrite C, (same_graph_parent_get s s' c SG). apply Co.
Qed.

Lemma only_offsets_same_graph (s s' : Workspace) : only_offsets s s' -> same_graph s s'.
Proof.
  unfold only_offsets. intros ->. destruct s. unfold same_graph, children_of. simpl. auto.
Qed.

(** Rewriting a node without touching its children list. *)
Lemma update_node_same_graph (k : Z) (f : Node -> Node) :
  (forall n, n_children (f n) = n_children n) ->
  preserves same_graph (update_node k f).
Proof.
  intros F s. rewrite update_node_run.
  destruct (Dict.get (nodes s) k) as [n|] eqn:G; [|apply same_graph_refl].
  cbn [snd]. unfold same_graph. split; [|split; [|split]].
  - destruct s; simpl in *. apply keys_set_present. unfold Dict.mem. rewrite G. reflexivity.
  - intros p. rewrite children_of_set. destruct (Z.eqb k p) eqn:E; [|reflexivity].
    apply Z.eqb_eq in E. subst p. unfold children_of. rewrite G. apply F.
  - destruct s; reflexivity.
  - destruct s; reflexivity.
Qed.

Lemma same_graph_with_canvas_items (f : list Z -> list Z) (s : Workspace) :
  same_graph s (with_canvas_items f s).
Proof. destruct s. unfold same_graph, children_of. simpl. auto. Qed.

Lemma modify_same_graph (f : Workspace -> Workspace) :
  (forall s, same_graph s (f s)) -> preserves same_graph (modify f).
Proof. intros F s. apply F. Qed.

Ltac same_graph_step :=
  first
    [ apply (preserves_ret same_graph same_graph_refl)
    | apply (preserves_read same_graph same_graph_refl)
    | apply (preserves_gets same_graph same_graph_refl)
    | apply (preserves_bind same_graph same_graph_trans) ].

Lemma redraw_same_graph : preserves same_graph redraw.
Proof. intros s. apply only_offsets_same_graph. apply redraw_only_offsets. Qed.

Lemma _draw_node_same_graph (nid : Z) : preserves same_graph (_draw_node nid).
Proof.
  unfold _draw_node.
  same_graph_step; [same_graph_step|intros _].
  same_graph_step; [same_graph_step|intros node].
  same_graph_step; [same_graph_step|intros fill].
  same_graph_step; [apply update_node_same_graph; reflexivity|intros _].
  apply modify_same_graph. apply same_graph_with_canvas_items.
Qed.

Lemma _update_node_size_same_graph (tk : Tk) (nid : Z) :
  preserves same_graph (_update_node_size tk nid).
Proof.
  unfold _update_node_size.
  same_graph_step; [same_graph_step|intros node]. cbv zeta.
  destruct (measure_lines _ _ _ _). apply update_node_same_graph. reflexivity.
Qed.

Lemma _update_node_fill_same_graph (nid : Z) : preserves same_graph (_update_node_fill nid).
Proof.
  unfold _update_node_fill.
  same_graph_step; [same_graph_step|intros has_items].
  destruct (negb has_items); [same_graph_step|].
  same_graph_step; [same_graph_step|intros node].
  same_graph_step; [same_graph_step|intros fill].
  apply update_node_same_graph. reflexivity.
Qed.

(** *** set-root *)

Lemma linked_with_root_id (r : option Z) (s : Workspace) :
  linked s -> linked (with_root_id r s).
Proof.
  apply same_graph_linked. destruct s. unfold same_graph, children_of. simpl. auto.
Qed.

Lemma mem_next_id (s : Workspace) (nid : Z) :
  tables_ok s -> Dict.mem (nodes s) nid = true -> (nid < next_id s)%Z.
Proof.
  intros (_ & _ & _ & Fr) M. destruct (Z.lt_ge_cases nid (next_id s)) as [L|G]; [exact L|].
  destruct (Fr nid G) as [Gn _]. unfold Dict.mem in M. rewrite Gn in M. discriminate.
Qed.

(** Clearing the parent pointer of a node that has no parent. *)
Lemma linked_set_parent_none (s : Workspace) (nid : Z) :
  linked s -> Dict.mem (nodes s) nid = true -> parent_get s nid = None ->
  linked (with_parent (fun d => Dict.set d nid None) s).
Proof.
  intros [T Co] M Pn. pose proof (mem_next_id s nid T M) as Lt.
  destruct T as (NDn & NDp & NDc & Fr).
  split; [split; [|split; [|split]]|].
  - destruct s; exact NDn.
  - destruct s; simpl in *. apply NoDup_keys_set. exact NDp.
  - intros p. rewrite children_of_with_parent. apply NDc.
  - intros id Hid. replace (next_id (with_parent _ s)) with (next_id s) in Hid
      by (destruct s; reflexivity).
    destruct (Fr id Hid) as [Gn Gp]. split; [destruct s; exact Gn|].
    destruct s; simpl in *. rewrite get_set_other by lia. exact Gp.
  - intros p c. rewrite children_of_with_parent, parent_get_set.
    destruct (Z.eqb nid c) eqn:E; [|apply Co].
    apply Z.eqb_eq in E. subst c. rewrite (Co p nid), Pn. reflexivity.
Qed.

Lemma _set_root_linked (nid : Z) (s : Workspace) :
  linked s -> Dict.mem (nodes s) nid = true -> parent_get s nid = None ->
  linked (snd (_set_root nid s)).
Proof.
  intros L M Pn. unfold _set_root, bind, modify. cbn [fst snd].
  apply linked_set_parent_none.
  - apply linked_with_root_id. exact L.
  - destruct s; exact M.
  - destruct s; exact Pn.
Qed.

(** *** create-node *)

(** The state in which [_create_node] has entered the new node into the
    two tables. *)
Lemma linked_insert (s : Workspace) (node : Node) (palette : Z) :
  linked s -> n_children node = [] ->
  let nid := next_id s in
  let s0 := with_parent (fun d => Dict.set d nid None)
              (with_nodes (fun d => Dict.set d nid node)
                 (with_palette_index palette (with_next_id (next_id s + 1) s))) in
  linked s0
  /\ Dict.mem (nodes s0) nid = true
  /\ parent_get s0 nid = None
  /\ (forall x, x <> nid -> parent_get s0 x = parent_get s x).
Proof.
  intros [(NDn & NDp & NDc & Fr) Co] Hc nid s0.
  destruct (Fr nid (Z.le_refl _)) as [Gn Gp].
  assert (Hch : forall x, children_of s0 x = if Z.eqb nid x then [] else children_of s x).
  { intros x. unfold s0. rewrite children_of_with_parent, children_of_set, Hc.
    destruct s; reflexivity. }
  assert (Hpg : forall x, parent_get s0 x = if Z.eqb nid x then None else parent_get s x).
  { intros x. unfold s0. rewrite parent_get_set. destruct s; reflexivity. }
  assert (Hold : parent_get s nid = None) by (unfold parent_get; rewrite Gp; reflexivity).
  assert (Hnone : children_of s nid = []) by (unfold children_of; rewrite Gn; reflexivity).
  split; [split; [split; [|split; [|split]]|]|split; [|split]].
  - unfold s0. destruct s; simpl in *. apply NoDup_keys_set. exact NDn.
  - unfold s0. destruct s; simpl in *. apply NoDup_keys_set. exact NDp.
  - intros p. rewrite Hch. destruct (Z.eqb nid p); [constructor|apply NDc].
  - intros id Hid.
    replace (next_id s0) with (next_id s + 1)%Z in Hid by (destruct s; reflexivity).
    destruct (Fr id ltac:(lia)) as [Gn' Gp'].
    unfold s0. destruct s; simpl in *.
    rewrite !get_set_other by (unfold nid; simpl; lia). auto.
  - intros p c. rewrite Hch, Hpg.
    destruct (Z.eqb nid p) eqn:Ep; destruct (Z.eqb nid c) eqn:Ec;
      try (apply Z.eqb_eq in Ep; subst p); try (apply Z.eqb_eq in Ec; subst c).
    + split; [intros []|discriminate].
    + split; [intros []|]. intros H. apply Co in H. rewrite Hnone in H. exact H.
    + rewrite (Co p nid), Hold. split; discriminate.
    + apply Co.
  - unfold s0, Dict.mem. destruct s; simpl. rewrite get_set_same. reflexivity.
  - rewrite Hpg, Z.eqb_refl. reflexivity.
  - intros x N. rewrite Hpg. destruct (Z.eqb nid x) eqn:E; [|reflexivity].
    apply Z.eqb_eq in E. congruence.
Qed.

Lemma linked_orphan_same_graph (nid : Z) (s s' : Workspace) :
  same_graph s s' -> linked_orphan nid s -> linked_orphan nid s'.
Proof.
  intros SG (L & M & P). split; [|split].
  - eapply same_graph_linked; eauto.
  - rewrite (same_graph_mem s s' nid SG). exact M.
  - rewrite (same_graph_parent_get s s' nid SG). exact P.
Qed.

Lemma _create_node_linked (tk : Tk) (text : string) (x y : Q) (depth : option Z)
  (s : Workspace) :
  linked s ->
  let r := _create_node tk text x y depth s in
  linked (snd r)
  /\ forall nid, fst r = Val nid ->
                 nid = next_id s
                 /\ Dict.mem (nodes (snd r)) nid = true
                 /\ parent_get (snd r) nid = None.
Proof.
  intros L. rewrite _create_node_split. cbv zeta.
  set (s0 := with_parent _ _). set (tail := bind _ _).
  assert (I0 : linked_orphan (next_id s) s0).
  { lazymatch goal with
    | s0 := context [Dict.set _ _ (mkNode ?a ?b ?c ?d ?e ?f ?g ?h)] |- _ =>
        destruct (linked_insert s (mkNode a b c d e f g h) (palette_index s + 1)
                    L eq_refl) as (L0 & M0 & P0 & _)
    end.
    split; [exact L0|split; [exact M0|exact P0]]. }
  assert (K : keeps (linked_orphan (next_id s)) tail).
  { pose proof (linked_orphan_same_graph (next_id s)) as SG.
    unfold tail.
    apply keeps_bind; [intros t; apply (SG t), _draw_node_same_graph|intros _].
    apply keeps_bind; [intros t; apply (SG t), same_graph_with_canvas_items|intros _].
    apply keeps_bind; [intros t; apply (SG t), _update_node_size_same_graph|intros _].
    apply keeps_bind; [intros t; apply (SG t), redraw_same_graph|intros _].
    apply keeps_bind; [apply keeps_pure; reflexivity|intros root].
    apply keeps_bind; [|intros _; apply keeps_pure; reflexivity].
    destruct root; [apply keeps_pure; reflexivity|].
    intros t (Lt & Mt & Pt). split; [|split].
    - apply _set_root_linked; assumption.
    - unfold _set_root, bind, modify. cbn [snd]. destruct t; exact Mt.
    - unfold _set_root, bind, modify. cbn [snd]. rewrite parent_get_set, Z.eqb_refl.
      reflexivity. }
  destruct (K s0 I0) as (L1 & M1 & P1).
  split; [exact L1|].
  intros nid V.
  assert (E : nid = next_id s).
  { revert V. unfold tail. repeat (apply bind_value; intros ? ?).
    intros v V. inversion V. reflexivity. }
  subst nid. auto.
Qed.

(** *** add-edge *)

Lemma remove_first_notin (x : Z) (l : list Z) : ~ In x l -> remove_first x l = l.
Proof.
  induction l as [|a l IH]; simpl; [reflexivity|].
  intros N. destruct (Z.eqb a x) eqn:E.
  - apply Z.eqb_eq in E. subst a. exfalso. apply N. left. reflexivity.
  - f_equal. apply IH. intros I. apply N. right. exact I.
Qed.

Lemma mem_get_some {V : Type} (d : Dict.t Z V) (k : Z) :
  Dict.mem d k = true -> exists v, Dict.get d k = Some v.
Proof.
  unfold Dict.mem. destruct (Dict.get d k) as [v|]; [eauto|discriminate].
Qed.

Lemma mem_with_nodes_set (s : Workspace) (k : Z) (n : Node) (x : Z) :
  Dict.mem (nodes s) k = true ->
  Dict.mem (nodes (with_nodes (fun d => Dict.set d k n) s)) x = Dict.mem (nodes s) x.
Proof.
  intros M. unfold Dict.mem in *. destruct s; simpl in *. rewrite get_set.
  change (keqb k x) with (Z.eqb k x). destruct (Z.eqb k x) eqn:E; [|reflexivity].
  apply Z.eqb_eq in E. subst x. symmetry. exact M.
Qed.

(** Replacing the children list of an existing node keeps the tables
    well formed when the new list has no duplicates. *)
Lemma tables_ok_set_children (s : Workspace) (k : Z) (n : Node) :
  tables_ok s -> Dict.mem (nodes s) k = true -> NoDup (n_children n) ->
  tables_ok (with_nodes (fun d => Dict.set d k n) s).
Proof.
  intros T M ND. pose proof (mem_next_id s k T M) as Lt.
  destruct T as (NDn & NDp & NDc & Fr).
  split; [|split; [|split]].
  - destruct s; simpl in *. rewrite keys_set_present by exact M. exact NDn.
  - destruct s; exact NDp.
  - intros p. rewrite children_of_set. destruct (Z.eqb k p); [exact ND|apply NDc].
  - intros id Hid. replace (next_id (with_nodes _ s)) with (next_id s) in Hid
      by (destruct s; reflexivity).
    destruct (Fr id Hid) as [Gn Gp]. split; [|destruct s; exact Gp].
    destruct s; simpl in *. rewrite get_set_other by lia. exact Gn.
Qed.

Lemma tables_ok_set_parent (s : Workspace) (c : Z) (v : option Z) :
  tables_ok s -> Dict.mem (nodes s) c = true ->
  tables_ok (with_parent (fun d => Dict.set d c v) s).
Proof.
  intros T M. pose proof (mem_next_id s c T M) as Lt.
  destruct T as (NDn & NDp & NDc & Fr).
  split; [|split; [|split]].
  - destruct s; exact NDn.
  - destruct s; simpl in *. apply NoDup_keys_set. exact NDp.
  - intros p. rewrite children_of_with_parent. apply NDc.
  - intros id Hid. replace (next_id (with_parent _ s)) with (next_id s) in Hid
      by (destruct s; reflexivity).
    destruct (Fr id Hid) as [Gn Gp]. split; [destruct s; exact Gn|].
    destruct s; simpl in *. rewrite get_set_other by lia. exact Gp.
Qed.

(** The block [if p is not None and c in nodes[p].children: remove] that
    add-edge and delete share, for a parent [cp] read beforehand. *)
Lemma detach_run (c : Z) (cp : option Z) (s : Workspace) :
  tables_ok s ->
  (forall q, cp = Some q -> Dict.mem (nodes s) q = true) ->
  exists s1,
    match cp with
    | None => ret tt
    | Some q =>
        cpnode <- read (fun ws => node_at ws q) ;;
        if zmem c (n_children cpnode)
        then update_node q (node_with_children (remove_first c (n_children cpnode)))
        else ret tt
    end s = (Val tt, s1)
    /\ tables_ok s1
    /\ parent s1 = parent s /\ root_id s1 = root_id s /\ next_id s1 = next_id s
    /\ canvas_items s1 = canvas_items s
    /\ (forall x, Dict.mem (nodes s1) x = Dict.mem (nodes s) x)
    /\ (forall x, children_of s1 x =
                  if match cp with Some q => Z.eqb q x | None => false end
                  then remove_first c (children_of s x) else children_of s x).
Proof.
  intros T Hq. destruct cp as [q|].
  - pose proof (Hq q eq_refl) as M. destruct (mem_get_some _ _ M) as [n G].
    unfold bind at 1. unfold read, node_at. rewrite G. cbn [of_option fst snd].
    destruct (zmem c (n_children n)) eqn:Z.
    + rewrite update_node_run, G. eexists. split; [reflexivity|].
      split; [|do 4 (split; [destruct s; reflexivity|]); split].
      * apply tables_ok_set_children; [exact T|exact M|].
        cbn. apply NoDup_remove_first.
        destruct T as (_ & _ & NDc & _). specialize (NDc q). unfold children_of in NDc.
        rewrite G in NDc. exact NDc.
      * intros x. apply mem_with_nodes_set. exact M.
      * intros x. rewrite children_of_set. destruct (Z.eqb q x) eqn:E; [|reflexivity].
        apply Z.eqb_eq in E. subst x. unfold children_of at 1. rewrite G.
        destruct n; reflexivity.
    + exists s. split; [reflexivity|]. split; [exact T|].
      do 5 (split; [reflexivity|]).
      intros x. destruct (Z.eqb q x) eqn:E; [|reflexivity].
      apply Z.eqb_eq in E. subst x. unfold children_of. rewrite G.
      symmetry. apply remove_first_notin. apply zmem_false_iff. exact Z.
  - exists s. split; [reflexivity|]. split; [exact T|].
    do 5 (split; [reflexivity|]). reflexivity.
Qed.

Lemma children_of_in_mem (s : Workspace) (p c : Z) :
  In c (children_of s p) -> Dict.mem (nodes s) p = true.
Proof.
  unfold children_of, Dict.mem. destruct (Dict.get (nodes s) p); [reflexivity|intros []].
Qed.

Lemma children_of_get (s : Workspace) (p : Z) (n : Node) :
  Dict.get (nodes s) p = Some n -> children_of s p = n_children n.
Proof. intros G. unfold children_of. rewrite G. reflexivity. Qed.

(** The part of [_add_edge] after the links are set keeps the graph. *)
Lemma _add_edge_tail_same_graph (child_id : Z) :
  preserves same_graph
    (cnode <- read (fun ws => node_at ws child_id) ;;
     (if negb (n_custom cnode) then
        depth <- read (fun ws => _node_depth ws child_id) ;;
        update_node child_id (node_with_fill (Some (_default_fill_for_depth depth))) ;;;
        _update_node_fill child_id
      else ret tt) ;;;
     redraw_edges_of_node_and_neighbors child_id).
Proof.
  same_graph_step; [same_graph_step|intros cnode].
  same_graph_step; [|intros _; apply redraw_same_graph].
  destruct (negb (n_custom cnode)); [|same_graph_step].
  same_graph_step; [same_graph_step|intros depth].
  same_graph_step; [apply update_node_same_graph; reflexivity|intros _].
  apply _update_node_fill_same_graph.
Qed.

Lemma _add_edge_linked (p c : Z) (s : Workspace) :
  linked s ->
  Dict.mem (nodes s) p = true -> Dict.mem (nodes s) c = true ->
  root_id s <> Some c \/ (parent_get s p = None /\ p <> c) ->
  let s' := snd (_add_edge p c s) in
  linked s' /\ parent_get s' c = Some p /\ In c (children_of s' p).
Proof.
  intros [T Co] Mp Mc Hroot. cbv zeta.
  set (Q := fun t => linked t /\ parent_get t c = Some p /\ In c (children_of t p)).
  change (Q (snd (_add_edge p c s))).
  unfold _add_edge. unfold bind at 1. unfold gets at 1. cbn [fst snd].
  destruct (detach_run c (parent_get s c) s T) as (s1 & E1 & T1 & Ep & Er & En & Ec & Hm & Hch).
  { intros q Hq. apply (children_of_in_mem s q c). apply Co. exact Hq. }
  unfold bind at 1. rewrite E1. cbn [fst snd].
  assert (D : forall q x, In x (children_of s1 q) <-> parent_get s x = Some q /\ x <> c).
  { intros q x. rewrite Hch.
    destruct (match parent_get s c with Some q0 => Z.eqb q0 q | None => false end) eqn:E.
    - rewrite remove_first_in by (destruct T as (_ & _ & NDc & _); apply NDc).
      rewrite (Co q x). tauto.
    - rewrite (Co q x). split; [|tauto]. intros H. split; [exact H|].
      intros ->. rewrite H, Z.eqb_refl in E. discriminate E. }
  unfold bind at 1. unfold modify at 1. cbn [fst snd].
  set (s2 := with_parent _ s1).
  assert (Mp1 : Dict.mem (nodes s1) p = true) by (rewrite Hm; exact Mp).
  assert (Mc1 : Dict.mem (nodes s1) c = true) by (rewrite Hm; exact Mc).
  assert (T2 : tables_ok s2) by (apply tables_ok_set_parent; assumption).
  assert (Mp2 : Dict.mem (nodes s2) p = true) by (unfold s2; destruct s1; exact Mp1).
  destruct (mem_get_some _ _ Mp2) as [pn G].
  assert (Hpn : n_children pn = children_of s1 p).
  { rewrite <- (children_of_get s2 p pn G). apply children_of_with_parent. }
  assert (Nc : ~ In c (children_of s1 p)) by (rewrite D; tauto).
  unfold bind at 1. unfold read at 1, node_at at 1. rewrite G. cbn [of_option fst snd].
  replace (zmem c (n_children pn)) with false
    by (symmetry; apply zmem_false_iff; rewrite Hpn; exact Nc).
  cbn [negb]. unfold bind at 1. rewrite update_node_run, G. cbn [fst snd].
  set (s3 := with_nodes _ s2).
  assert (Hch3 : forall x, children_of s3 x =
                           if Z.eqb p x then children_of s1 p ++ [c] else children_of s1 x).
  { intros x. unfold s3. rewrite children_of_set. cbn [n_children node_with_children].
    rewrite Hpn. unfold s2. rewrite children_of_with_parent. reflexivity. }
  assert (Hpg3 : forall x, parent_get s3 x = if Z.eqb c x then Some p else parent_get s x).
  { intros x. unfold s3. rewrite parent_get_with_nodes. unfold s2. rewrite parent_get_set.
    unfold parent_get. rewrite Ep. reflexivity. }
  assert (L3 : linked s3).
  { split.
    - apply tables_ok_set_children; [exact T2|exact Mp2|].
      cbn [n_children node_with_children]. rewrite Hpn.
      apply NoDup_app; [destruct T1 as (_ & _ & NDc & _); apply NDc| |].
      + repeat constructor. intros [].
      + intros a Ia [<-|[]]. exact (Nc Ia).
    - intros q x. rewrite Hch3, Hpg3.
      destruct (Z.eqb p q) eqn:Eq; destruct (Z.eqb c x) eqn:Ex;
        try (apply Z.eqb_eq in Eq; subst q); try (apply Z.eqb_eq in Ex; subst x);
        try apply Z.eqb_neq in Eq; try apply Z.eqb_neq in Ex.
      + rewrite in_app_iff. simpl. tauto.
      + rewrite in_app_iff, D. simpl. split.
        * intros [H|[H|[]]]; [tauto|congruence].
        * intros H. left. split; [exact H|congruence].
      + rewrite D. split; [tauto|]. intros H. congruence.
      + rewrite D. split; [tauto|]. intros H. split; [exact H|congruence]. }
  assert (R3 : root_id s3 = root_id s).
  { unfold s3, s2. destruct s1; simpl in *. exact Er. }
  assert (M3 : Dict.mem (nodes s3) p = true).
  { unfold s3. rewrite mem_with_nodes_set; exact Mp2. }
  set (tail := bind (read (fun ws => node_at ws c)) _).
  assert (K : forall t, Q t -> Q (snd (tail t))).
  { intros t (Lt & Pt & It).
    pose proof (_add_edge_tail_same_graph c t) as SG. fold tail in SG.
    split; [|split].
    - eapply same_graph_linked; eauto.
    - rewrite (same_graph_parent_get _ _ c SG). exact Pt.
    - destruct SG as (_ & C & _). rewrite C. exact It. }
  assert (P3 : parent_get s3 c = Some p) by (rewrite Hpg3, Z.eqb_refl; reflexivity).
  assert (I3 : In c (children_of s3 p)).
  { rewrite Hch3, Z.eqb_refl, in_app_iff. right. left. reflexivity. }
  unfold bind at 1. unfold gets at 1. cbn [fst snd]. rewrite R3.
  assert (Q3 : Q s3) by (split; [exact L3|split; [exact P3|exact I3]]).
  destruct (root_id s) as [r|] eqn:Rs;
    [|unfold bind at 1; unfold ret at 1; cbn [fst snd]; apply K; exact Q3].
  destruct (Z.eqb c r) eqn:Er';
    [|unfold bind at 1; unfold ret at 1; cbn [fst snd]; apply K; exact Q3].
  apply Z.eqb_eq in Er'. subst r.
  destruct Hroot as [N|[Pn Npc]]; [congruence|].
  unfold bind at 1. unfold _set_root at 1, bind at 1, modify at 1, modify at 1.
  cbn [fst snd]. apply K.
  assert (Pp3 : parent_get s3 p = None).
  { rewrite Hpg3. replace (Z.eqb c p) with false; [exact Pn|].
    symmetry. apply Z.eqb_neq. congruence. }
  split; [|split].
  - apply linked_set_parent_none.
    + apply linked_with_root_id. exact L3.
    + destruct s3; exact M3.
    + destruct s3; exact Pp3.
  - rewrite parent_get_set. replace (Z.eqb p c) with false
      by (symmetry; apply Z.eqb_neq; exact Npc).
    destruct s3; exact P3.
  - rewrite children_of_with_parent. destruct s3; exact I3.
Qed.

(** *** delete-subtree *)

Lemma children_of_pop (s : Workspace) (k x : Z) :
  NoDup (Dict.keys (nodes s)) ->
  children_of (with_nodes (fun d => Dict.pop d k) s) x =
  if Z.eqb k x then [] else children_of s x.
Proof.
  intros ND. unfold children_of. destruct s; simpl in *. rewrite get_pop by exact ND.
  destruct (Z.eqb k x); reflexivity.
Qed.

Lemma parent_get_pop (s : Workspace) (k x : Z) :
  NoDup (Dict.keys (parent s)) ->
  parent_get (with_parent (fun d => Dict.pop d k) s) x =
  if Z.eqb k x then None else parent_get s x.
Proof.
  intros ND. unfold parent_get. destruct s; simpl in *. rewrite get_pop by exact ND.
  destruct (Z.eqb k x); reflexivity.
Qed.

(** The loop [for ch in children: parent[ch] = None]. *)
Lemma clear_parents_run (cs : list Z) (s : Workspace) :
  exists sA,
    for_each cs (fun ch => modify (with_parent (fun d => Dict.set d ch None))) s
    = (Val tt, sA)
    /\ nodes sA = nodes s /\ root_id sA = root_id s /\ next_id sA = next_id s
    /\ (NoDup (Dict.keys (parent s)) -> NoDup (Dict.keys (parent sA)))
    /\ (forall x, parent_get sA x = if zmem x cs then None else parent_get s x)
    /\ (forall x, ~ In x cs -> Dict.get (parent sA) x = Dict.get (parent s) x).
Proof.
  revert s. induction cs as [|ch cs IH]; intros s.
  - exists s. cbn. repeat split; auto.
  - cbn [for_each]. unfold bind at 1. unfold modify at 1. cbn [fst snd].
    destruct (IH (with_parent (fun d => Dict.set d ch None) s))
      as (sA & E & En & Er & Ex & ND & Pg & Gp).
    exists sA. split; [exact E|].
    split; [rewrite En; destruct s; reflexivity|].
    split; [rewrite Er; destruct s; reflexivity|].
    split; [rewrite Ex; destruct s; reflexivity|].
    split; [|split].
    + intros N. apply ND. destruct s; simpl in *. apply NoDup_keys_set. exact N.
    + intros x. rewrite Pg, parent_get_set. unfold zmem. cbn [existsb].
      fold (zmem x cs). rewrite (Z.eqb_sym x ch).
      destruct (zmem x cs); [rewrite orb_true_r; reflexivity|].
      rewrite orb_false_r. reflexivity.
    + intros x N. rewrite Gp by (intros I; apply N; right; exact I).
      destruct s; simpl. apply get_set_other. intros ->. apply N. left. reflexivity.
Qed.

Lemma parent_get_some_entry (s : Workspace) (x p : Z) :
  parent_get s x = Some p -> Dict.get (parent s) x <> None.
Proof. unfold parent_get. destruct (Dict.get (parent s) x); [discriminate|]. discriminate. Qed.

Lemma delete_one_linked (cid : Z) (s : Workspace) :
  linked s -> linked (snd (delete_one cid s)).
Proof.
  intros L. pose proof L as [T Co]. pose proof T as (NDn & NDp & NDc & Fr).
  unfold delete_one. unfold bind at 1. unfold read at 1, node_at at 1.
  destruct (Dict.get (nodes s) cid) as [n|] eqn:G; cbn [of_option fst snd]; [|exact L].
  pose proof (children_of_get s cid n G) as Hcs.
  destruct (clear_parents_run (n_children n) s) as (sA & EA & An & Ar & Ax & AND & Apg & Agp).
  unfold bind at 1. rewrite EA. cbn [fst snd].
  unfold bind at 1. unfold gets at 1. cbn [fst snd].
  assert (AC : forall x, children_of sA x = children_of s x).
  { intros x. unfold children_of. rewrite An. reflexivity. }
  assert (TA : tables_ok sA).
  { split; [rewrite An; exact NDn|]. split; [apply AND; exact NDp|].
    split; [intros p; rewrite AC; apply NDc|].
    intros id Hid. rewrite Ax in Hid. destruct (Fr id Hid) as [Gn Gp].
    split; [rewrite An; exact Gn|]. rewrite Agp; [exact Gp|].
    rewrite <- Hcs. intros I. apply Co in I. apply parent_get_some_entry in I. contradiction. }
  destruct (detach_run cid (parent_get sA cid) sA TA)
    as (sB & EB & TB & Bp & Br & Bx & Bc & Bm & Bch).
  { intros q Hq. rewrite Apg in Hq. destruct (zmem cid (n_children n)); [discriminate|].
    unfold Dict.mem. rewrite An. apply (children_of_in_mem s q cid). apply Co. exact Hq. }
  unfold bind at 1. rewrite EB. cbn [fst snd].
  unfold bind at 1. unfold _delete_canvas_for_node at 1, modify at 1. cbn [fst snd].
  unfold bind at 1. unfold modify at 1. cbn [fst snd]. unfold modify. cbn [snd].
  set (sB' := with_canvas_items _ sB).
  assert (TB' : tables_ok sB').
  { destruct TB as (B1 & B2 & B3 & B4). unfold sB'. destruct sB; exact (conj B1 (conj B2 (conj B3 B4))). }
  assert (Hch' : forall x, children_of sB' x = children_of sB x)
    by (intros x; unfold sB'; destruct sB; reflexivity).
  assert (Hpg' : forall x, parent_get sB' x = parent_get sA x).
  { intros x. unfold sB', parent_get. destruct sB; simpl in *. rewrite Bp. reflexivity. }
  set (sP := with_parent _ sB').
  assert (HchC : forall x, children_of (with_nodes (fun d => Dict.pop d cid) sP) x =
                           if Z.eqb cid x then [] else children_of sB x).
  { intros x. rewrite children_of_pop.
    - unfold sP. rewrite children_of_with_parent, Hch'. reflexivity.
    - unfold sP. destruct TB' as (B1 & _). destruct sB'; exact B1. }
  assert (HpgC : forall x, parent_get (with_nodes (fun d => Dict.pop d cid) sP) x =
                           if Z.eqb cid x then None else parent_get sA x).
  { intros x. rewrite parent_get_with_nodes. unfold sP. rewrite parent_get_pop.
    - rewrite Hpg'. reflexivity.
    - destruct TB' as (_ & B2 & _). exact B2. }
  assert (D : forall q x, q <> cid ->
            (In x (children_of sB q) <-> parent_get s x = Some q /\ x <> cid)).
  { intros q x Nq. rewrite Bch, AC.
    destruct (match parent_get sA cid with Some q0 => Z.eqb q0 q | None => false end) eqn:E.
    - rewrite remove_first_in by apply NDc. rewrite (Co q x). tauto.
    - rewrite (Co q x). split; [|tauto]. intros H. split; [exact H|].
      intros ->. rewrite Apg in E.
      destruct (zmem cid (n_children n)) eqn:Z.
      + apply zmem_true_iff in Z. rewrite <- Hcs in Z. apply Co in Z. congruence.
      + rewrite H, Z.eqb_refl in E. discriminate E. }
  split.
  - destruct TB' as (B1 & B2 & B3 & B4). split; [|split; [|split]].
    + unfold sP. destruct sB'; simpl in *. apply NoDup_keys_pop. exact B1.
    + unfold sP. destruct sB'; simpl in *. apply NoDup_keys_pop. exact B2.
    + intros p. rewrite HchC. destruct (Z.eqb cid p); [constructor|].
      destruct TB as (_ & _ & B3' & _). apply B3'.
    + intros id Hid.
      replace (next_id (with_nodes _ sP)) with (next_id sB') in Hid
        by (unfold sP; destruct sB'; reflexivity).
      destruct (B4 id Hid) as [Gn Gp]. unfold sP. destruct sB'; simpl in *.
      rewrite !get_pop by assumption. destruct (Z.eqb cid id); auto.
  - intros q x. rewrite HchC, HpgC.
    destruct (Z.eqb cid q) eqn:Eq; destruct (Z.eqb cid x) eqn:Ex;
      try (apply Z.eqb_eq in Eq; subst q); try (apply Z.eqb_eq in Ex; subst x);
      try apply Z.eqb_neq in Eq; try apply Z.eqb_neq in Ex.
    + split; [intros []|discriminate].
    + split; [intros []|]. rewrite Apg.
      destruct (zmem x (n_children n)) eqn:Z; [discriminate|].
      intros H. apply Co in H. rewrite Hcs in H. apply zmem_false_iff in Z. contradiction.
    + rewrite D by congruence. split; [intros [_ N]; congruence|discriminate].
    + rewrite D by congruence. rewrite Apg.
      destruct (zmem x (n_children n)) eqn:Z.
      * apply zmem_true_iff in Z. rewrite <- Hcs in Z. apply Co in Z.
        split; [intros [H _]; congruence|discriminate].
      * split; [tauto|]. intros H. split; [exact H|congruence].
Qed.

Lemma for_each_linked (ids : list Z) (s : Workspace) :
  linked s -> linked (snd (for_each ids delete_one s)).
Proof.
  revert s. induction ids as [|cid ids IH]; intros s L; [exact L|].
  cbn [for_each]. unfold bind. pose proof (delete_one_linked cid s L) as L1.
  destruct (delete_one cid s) as [[u|e|] s1]; cbn [fst snd] in *; auto.
Qed.

Lemma delete_selected_linked (fuel : nat) (selected_id : option Z) (answer : bool)
  (s : Workspace) :
  linked s -> linked (snd (delete_selected fuel selected_id answer s)).
Proof.
  intros L. unfold delete_selected.
  destruct selected_id as [nid|]; [|exact L].
  destruct (Z.eqb nid 0); [exact L|].
  unfold bind at 1. unfold read at 1.
  destruct (_subtree_size fuel s nid) as [count|e|]; cbn [fst snd]; try exact L.
  destruct ((1 <? count)%Z && negb answer); [exact L|].
  unfold bind at 1. unfold read at 1.
  destruct (_collect_subtree fuel s nid) as [ids|e|]; cbn [fst snd]; try exact L.
  unfold bind at 1. pose proof (for_each_linked ids s L) as L1.
  destruct (for_each ids delete_one s) as [[u|e|] s1]; cbn [fst snd] in *; try exact L1.
  unfold bind at 1. unfold gets at 1. cbn [fst snd].
  assert (R : forall t, linked t -> linked (snd (redraw t))).
  { intros t Lt. eapply same_graph_linked; [apply redraw_same_graph|exact Lt]. }
  unfold bind at 1.
  destruct (root_id s1) as [r|]; [|apply R; exact L1].
  destruct (zmem r ids); [|apply R; exact L1].
  unfold modify at 1. cbn [fst snd]. apply R. apply linked_with_root_id. exact L1.
Qed.

Lemma linked_empty_workspace : linked empty_workspace.
Proof.
  split; [split; [|split; [|split]]|].
  - constructor.
  - constructor.
  - intros p. constructor.
  - intros nid _. split; reflexivity.
  - intros p c. split; [intros []|discriminate].
Qed.




(* ================================================================== *)
(** * Further properties of the core *)

(** ** The view transform *)

(** [_from_canvas_point] and [_to_canvas_point] are inverse to each other
    as long as the scale is not zero. *)
Theorem view_round_trip (ws : Workspace) (x y : Q) :
  ~ scale ws == 0 ->
  let c := _to_canvas_point ws x y in
  let l := _from_canvas_point ws x y in
  point_eq (_from_canvas_point ws (fst c) (snd c)) (x, y)
  /\ point_eq (_to_canvas_point ws (fst l) (snd l)) (x, y).
Proof.
  intros N. cbv zeta. unfold _from_canvas_point, _to_canvas_point.
  apply Qeqb_neq in N. rewrite N. apply Qeqb_neq in N.
  unfold point_eq. cbn [fst snd]. repeat split; field; exact N.
Qed.

Lemma view_round_trip_witness :
  point_eq (_from_canvas_point pair_ws (fst (_to_canvas_point pair_ws 3 4))
              (snd (_to_canvas_point pair_ws 3 4))) (3, 4)
  /\ point_eq (_to_canvas_point pair_ws (fst (_from_canvas_point pair_ws 3 4))
                 (snd (_from_canvas_point pair_ws 3 4))) (3, 4).
Proof.
  apply (view_round_trip pair_ws 3 4). intros E. discriminate E.
Defined.

Lemma same_view_refl (s : Workspace) : same_view s s.
Proof. unfold same_view. auto. Qed.

Lemma same_view_trans (a b c : Workspace) : same_view a b -> same_view b c -> same_view a c.
Proof. unfold same_view. intros (A1 & A2 & A3) (B1 & B2 & B3). repeat split; congruence. Qed.

Lemma only_offsets_same_view (s s' : Workspace) : only_offsets s s' -> same_view s s'.
Proof. unfold only_offsets, same_view. intros ->. destruct s. simpl. auto. Qed.

Lemma redraw_same_view : preserves same_view redraw.
Proof. intros s. apply only_offsets_same_view, redraw_only_offsets. Qed.

Lemma update_node_same_view (k : Z) (f : Node -> Node) : preserves same_view (update_node k f).
Proof.
  intros s. rewrite update_node_run.
  destruct (Dict.get (nodes s) k); [|apply same_view_refl].
  destruct s. unfold same_view. simpl. auto.
Qed.

Lemma same_view_to_canvas (s s' : Workspace) (x y : Q) :
  same_view s s' -> _to_canvas_point s' x y = _to_canvas_point s x y.
Proof. intros (A & B & C). unfold _to_canvas_point. rewrite A, B, C. reflexivity. Qed.

Lemma pan_by_fields (dx dy : Q) (s : Workspace) :
  let s' := snd (pan_by dx dy s) in
  nodes s' = nodes s /\ parent s' = parent s /\ root_id s' = root_id s
  /\ scale s' = scale s
  /\ offset_x s' = offset_x s + dx /\ offset_y s' = offset_y s + dy.
Proof.
  cbv zeta. unfold pan_by, bind, modify. cbn [fst snd].
  set (s1 := with_view _ _ _ s).
  destruct (redraw_fields s1) as (N & P & _ & _ & R & _ & S & X & Y).
  rewrite N, P, R, S, X, Y. unfold s1. destruct s. simpl. repeat split.
Qed.

(** [pan_by] moves the picture rigidly: every logical point appears
    [(dx, dy)] further on the canvas, the scale and the nodes stay, and two
    pans in a row are the pan by the sum. *)
Theorem pan_by_shift (dx dy : Q) (ws : Workspace) :
  let ws' := snd (pan_by dx dy ws) in
  nodes ws' = nodes ws /\ scale ws' = scale ws
  /\ (forall x y, point_eq (_to_canvas_point ws' x y)
                           (shifted (_to_canvas_point ws x y) dx dy))
  /\ (forall dx2 dy2 x y,
        point_eq (_to_canvas_point (snd (pan_by dx2 dy2 ws')) x y)
                 (_to_canvas_point (snd (pan_by (dx + dx2) (dy + dy2) ws)) x y)).
Proof.
  cbv zeta. destruct (pan_by_fields dx dy ws) as (N & _ & _ & S & X & Y).
  split; [exact N|]. split; [exact S|]. split.
  - intros x y. unfold _to_canvas_point, shifted, point_eq. cbn [fst snd].
    rewrite S, X, Y. split; ring.
  - intros dx2 dy2 x y.
    destruct (pan_by_fields dx2 dy2 (snd (pan_by dx dy ws))) as (_ & _ & _ & S2 & X2 & Y2).
    destruct (pan_by_fields (dx + dx2) (dy + dy2) ws) as (_ & _ & _ & S3 & X3 & Y3).
    unfold _to_canvas_point, point_eq. cbn [fst snd].
    rewrite S2, X2, Y2, S3, X3, Y3, S, X, Y. split; ring.
Qed.

Lemma reset_view_fields (s : Workspace) :
  let s' := snd (reset_view s) in
  nodes s' = nodes s /\ parent s' = parent s /\ root_id s' = root_id s
  /\ scale s' = 1 /\ offset_x s' = 0 /\ offset_y s' = 0.
Proof.
  cbv zeta. unfold reset_view, bind, modify. cbn [fst snd].
  set (s1 := with_view _ _ _ s).
  destruct (redraw_fields s1) as (N & P & _ & _ & R & _ & S & X & Y).
  rewrite N, P, R, S, X, Y. unfold s1. destruct s. simpl. repeat split.
Qed.

Lemma zoom_scale (tk : Tk) (factor : Q) (origin : option (Q * Q)) (s : Workspace) :
  let s' := snd (zoom tk factor origin s) in
  scale s' = scale s
  \/ scale s' = Qmax ZOOM_MIN (Qmin ZOOM_MAX (scale s * factor)).
Proof.
  cbv zeta.
  destruct (Qltb (Qabs (Qmax ZOOM_MIN (Qmin ZOOM_MAX (scale s * factor)) - scale s)) 1e-3)
    eqn:E.
  - left. unfold zoom, bind, gets. cbv beta iota zeta. rewrite E. reflexivity.
  - right. rewrite (zoom_changes tk s factor origin E).
    match goal with |- context [redraw ?t] =>
      destruct (redraw_fields t) as (_ & _ & _ & _ & _ & _ & S & _) end.
    rewrite S. reflexivity.
Qed.

Lemma on_drag_scale (dragging : Drag) (ex ey : Q) (s : Workspace) :
  scale (snd (on_drag dragging ex ey s)) = scale s.
Proof.
  unfold on_drag. destruct (drag_mode dragging).
  - reflexivity.
  - destruct (drag_id dragging) as [nid|]; [|reflexivity].
    destruct (Z.eqb nid 0); [reflexivity|].
    assert (P : preserves same_view
      (pos <- gets (fun ws => _from_canvas_point ws ex ey) ;;
       let '(lx, ly) := pos in
       update_node nid (fun n => node_with_xy (lx - drag_dx dragging) (n_y n) n) ;;;
       update_node nid (fun n => node_with_xy (n_x n) (ly - drag_dy dragging) n) ;;;
       read (fun ws => _refresh_node_position ws nid) ;;;
       redraw_edges_of_node_and_neighbors nid)).
    { apply (preserves_bind same_view same_view_trans);
        [apply (preserves_gets same_view same_view_refl)|intros [lx ly]].
      apply (preserves_bind same_view same_view_trans);
        [apply update_node_same_view|intros _].
      apply (preserves_bind same_view same_view_trans);
        [apply update_node_same_view|intros _].
      apply (preserves_bind same_view same_view_trans);
        [apply (preserves_read same_view same_view_refl)|intros _].
      apply redraw_same_view. }
    apply (P s).
  - unfold bind, modify. cbn [fst snd].
    match goal with |- context [redraw ?t] =>
      destruct (redraw_fields t) as (_ & _ & _ & _ & _ & _ & S & _) end.
    rewrite S. destruct s. reflexivity.
Qed.

(** The view operations keep the scale within [[ZOOM_MIN, ZOOM_MAX]], so
    that it never becomes zero: zooming clamps, panning and dragging do not
    touch the scale, and [reset_view] sets it to 1. *)
Theorem view_scale_in_range (tk : Tk) (ws : Workspace) :
  scale_in_range ws ->
  (forall factor origin, scale_in_range (snd (zoom tk factor origin ws)))
  /\ (forall dx dy, scale_in_range (snd (pan_by dx dy ws)))
  /\ (forall dragging ex ey, scale_in_range (snd (on_drag dragging ex ey ws)))
  /\ scale_in_range (snd (reset_view ws))
  /\ ~ scale ws == 0.
Proof.
  intros [Lo Hi]. unfold scale_in_range. repeat split.
  - destruct (zoom_scale tk factor origin ws) as [E|E]; rewrite E;
      [exact Lo|apply new_scale_bounds].
  - destruct (zoom_scale tk factor origin ws) as [E|E]; rewrite E;
      [exact Hi|apply new_scale_bounds].
  - destruct (pan_by_fields dx dy ws) as (_ & _ & _ & S & _). rewrite S. exact Lo.
  - destruct (pan_by_fields dx dy ws) as (_ & _ & _ & S & _). rewrite S. exact Hi.
  - rewrite on_drag_scale. exact Lo.
  - rewrite on_drag_scale. exact Hi.
  - destruct (reset_view_fields ws) as (_ & _ & _ & S & _). rewrite S. discriminate.
  - destruct (reset_view_fields ws) as (_ & _ & _ & S & _). rewrite S. discriminate.
  - intros E. rewrite E in Lo. apply Lo. reflexivity.
Qed.

Lemma view_scale_in_range_witness :
  scale_in_range empty_workspace
  /\ scale_in_range (snd (zoom example_tk 100 None empty_workspace))
  /\ scale_in_range (snd (pan_by 5 (-7) empty_workspace)).
Proof.
  assert (H : scale_in_range empty_workspace) by (split; discriminate).
  destruct (view_scale_in_range example_tk empty_workspace H) as (Z & P & _).
  split; [exact H|]. split; [apply Z|apply P].
Defined.

(** [reset_view] restores the identity transform, whatever the zoom and
    the pan were: canvas and logical coordinates coincide afterwards, and
    the nodes are as before. *)
Theorem reset_view_identity (ws : Workspace) (x y : Q) :
  let ws' := snd (reset_view ws) in
  nodes ws' = nodes ws
  /\ point_eq (_to_canvas_point ws' x y) (x, y)
  /\ point_eq (_from_canvas_point ws' x y) (x, y).
Proof.
  cbv zeta. destruct (reset_view_fields ws) as (N & _ & _ & S & X & Y).
  split; [exact N|].
  unfold _to_canvas_point, _from_canvas_point, point_eq. rewrite S, X, Y.
  cbn [fst snd]. change (Qeqb 1 0) with false. cbv iota. cbn [fst snd].
  repeat split; field.
Qed.

(** ** Dragging *)

Lemma on_drag_node_run (dragging : Drag) (ex ey : Q) (nid : Z) (s : Workspace) (n : Node) :
  drag_mode dragging = DragNode -> drag_id dragging = Some nid -> nid <> 0%Z ->
  Dict.get (nodes s) nid = Some n ->
  let p := _from_canvas_point s ex ey in
  let s' := snd (on_drag dragging ex ey s) in
  Dict.get (nodes s') nid
  = Some (node_with_xy (fst p - drag_dx dragging) (snd p - drag_dy dragging) n)
  /\ (forall k, k <> nid -> Dict.get (nodes s') k = Dict.get (nodes s) k)
  /\ same_view s s'.
Proof.
  intros Hm Hi Hn G. cbv zeta.
  set (Post := fun s' : Workspace =>
    Dict.get (nodes s') nid
    = Some (node_with_xy (fst (_from_canvas_point s ex ey) - drag_dx dragging)
              (snd (_from_canvas_point s ex ey) - drag_dy dragging) n)
    /\ (forall k, k <> nid -> Dict.get (nodes s') k = Dict.get (nodes s) k)
    /\ same_view s s').
  change (Post (snd (on_drag dragging ex ey s))).
  unfold on_drag. rewrite Hm, Hi.
  replace (Z.eqb nid 0) with false by (symmetry; apply Z.eqb_neq; exact Hn).
  unfold bind at 1. unfold gets at 1. cbn [fst snd].
  unfold Post. clear Post.
  destruct (_from_canvas_point s ex ey) as [lx ly]. cbn [fst snd].
  set (Post := fun s' : Workspace =>
    Dict.get (nodes s') nid
    = Some (node_with_xy (lx - drag_dx dragging) (ly - drag_dy dragging) n)
    /\ (forall k, k <> nid -> Dict.get (nodes s') k = Dict.get (nodes s) k)
    /\ same_view s s').
  match goal with |- ?A /\ _ => match A with context [nodes (snd ?r)] =>
    change (Post (snd r)) end end.
  unfold bind at 1. rewrite update_node_run, G. cbn [fst snd].
  set (s1 := with_nodes _ s).
  assert (G1 : Dict.get (nodes s1) nid
               = Some (node_with_xy (lx - drag_dx dragging) (n_y n) n)).
  { unfold s1. destruct s; simpl. apply get_set_same. }
  unfold bind at 1. rewrite update_node_run, G1. cbn [fst snd].
  set (s2 := with_nodes _ s1).
  assert (G2 : Dict.get (nodes s2) nid
               = Some (node_with_xy (lx - drag_dx dragging) (ly - drag_dy dragging) n)).
  { unfold s2. destruct s1; simpl. rewrite get_set_same. destruct n; reflexivity. }
  assert (O2 : forall k, k <> nid -> Dict.get (nodes s2) k = Dict.get (nodes s) k).
  { intros k Nk. unfold s2, s1. destruct s; simpl.
    rewrite !get_set_other by congruence. reflexivity. }
  assert (V2 : same_view s s2).
  { unfold s2, s1, same_view. destruct s; simpl. auto. }
  unfold bind, read. unfold Post.
  destruct (_refresh_node_position s2 nid); cbn [fst snd];
    try (split; [exact G2|split; [exact O2|exact V2]]).
  destruct (redraw_fields s2) as (N & _).
  unfold redraw_edges_of_node_and_neighbors. rewrite N.
  split; [exact G2|]. split; [exact O2|].
  eapply same_view_trans; [exact V2|apply redraw_same_view].
Qed.



(** Dragging the background: after a press on the empty canvas at
    [(ex, ey)], every drag event to [(ex', ey')] shows each logical point
    [(ex' - ex, ey' - ey)] away from where it was at the press, also after
    earlier drag events of the same gesture; nodes and scale stay. *)
Theorem drag_pan_follows_pointer (ex ey ex1 ey1 ex2 ey2 : Q) (before : Drag)
  (ws : Workspace) :
  let dragging := on_click false ex ey before ws in
  let ws1 := snd (on_drag dragging ex1 ey1 ws) in
  let ws2 := snd (on_drag dragging ex2 ey2 ws1) in
  nodes ws2 = nodes ws /\ scale ws2 = scale ws
  /\ forall x y,
       point_eq (_to_canvas_point ws1 x y)
                (shifted (_to_canvas_point ws x y) (ex1 - ex) (ey1 - ey))
       /\ point_eq (_to_canvas_point ws2 x y)
                   (shifted (_to_canvas_point ws x y) (ex2 - ex) (ey2 - ey)).
Proof.
  cbv zeta. unfold on_click.
  assert (F : forall e1 e2 s,
             let s' := snd (on_drag (mkDrag DragPan None 0 0 ex ey (offset_x ws) (offset_y ws))
                              e1 e2 s) in
             nodes s' = nodes s /\ scale s' = scale s
             /\ offset_x s' = offset_x ws + (e1 - ex)
             /\ offset_y s' = offset_y ws + (e2 - ey)).
  { intros e1 e2 s. cbv zeta. unfold on_drag. cbn [drag_mode drag_offset_x drag_offset_y
      drag_start_x drag_start_y]. unfold bind, modify. cbn [fst snd].
    match goal with |- context [redraw ?t] =>
      destruct (redraw_fields t) as (N & _ & _ & _ & _ & _ & S & X & Y) end.
    rewrite N, S, X, Y. destruct s. simpl. repeat split. }
  destruct (F ex1 ey1 ws) as (N1 & S1 & X1 & Y1).
  destruct (F ex2 ey2 (snd (on_drag (mkDrag DragPan None 0 0 ex ey (offset_x ws) (offset_y ws))
                              ex1 ey1 ws))) as (N2 & S2 & X2 & Y2).
  split; [congruence|]. split; [congruence|].
  intros x y. unfold _to_canvas_point, shifted, point_eq. cbn [fst snd].
  rewrite S2, X2, Y2, S1, X1, Y1. repeat split; ring.
Qed.

(** ** Placement of new nodes *)

Lemma _is_position_free_loop_iff (ns : Dict.t Z Node) (x y : Q) :
  _is_position_free_loop ns x y = true <->
  forall nid n, In (nid, n) ns -> ~ overlaps n x y.
Proof.
  induction ns as [|[k m] ns IH]; cbn [_is_position_free_loop].
  - split; [intros _ nid n []|reflexivity].
  - destruct (Qltb (Qabs (x - n_x m)) (NODE_W + NODE_MARGIN)) eqn:Ex;
    destruct (Qltb (Qabs (y - n_y m)) (NODE_H + NODE_MARGIN)) eqn:Ey; cbn [andb];
      try apply Qltb_lt in Ex; try apply Qltb_lt in Ey;
      try apply Qltb_ge in Ex; try apply Qltb_ge in Ey.
    + split; [intros D; discriminate D|].
      intros H. exfalso. apply (H k m (or_introl eq_refl)). split; assumption.
    + rewrite IH. split.
      * intros H nid n [E|I]; [|apply (H nid n); exact I].
        inversion E; subst. intros [_ O]. apply (Qlt_not_le _ _ O Ey).
      * intros H nid n I. apply (H nid n). right. exact I.
    + rewrite IH. split.
      * intros H nid n [E|I]; [|apply (H nid n); exact I].
        inversion E; subst. intros [O _]. apply (Qlt_not_le _ _ O Ex).
      * intros H nid n I. apply (H nid n). right. exact I.
    + rewrite IH. split.
      * intros H nid n [E|I]; [|apply (H nid n); exact I].
        inversion E; subst. intros [O _]. apply (Qlt_not_le _ _ O Ex).
      * intros H nid n I. apply (H nid n). right. exact I.
Qed.

Lemma _is_position_free_iff (ws : Workspace) (x y : Q) :
  _is_position_free ws x y = true <-> clear_of_nodes ws (x, y).
Proof.
  unfold _is_position_free, clear_of_nodes. cbn [fst snd].
  destruct (nodes ws) as [|e ns] eqn:E.
  - split; [intros _ nid n []|reflexivity].
  - apply _is_position_free_loop_iff.
Qed.

Lemma first_some_try_cell (ws : Workspace) (x y : Q) (offsets : list (Z * Z)) :
  match first_some (try_cell ws x y) offsets with
  | Some p => exists d, p = grid_cell x y d /\ first_free ws x y offsets d
  | None => forall d, In d offsets ->
              _is_position_free ws (fst (grid_cell x y d)) (snd (grid_cell x y d)) = false
  end.
Proof.
  induction offsets as [|d offsets IH]; cbn [first_some]; [intros d []|].
  unfold try_cell at 1.
  destruct (_is_position_free ws (fst (grid_cell x y d)) (snd (grid_cell x y d))) eqn:F.
  - exists d. split; [reflexivity|]. exists [], offsets.
    split; [reflexivity|]. split; [exact F|intros d' []].
  - destruct (first_some (try_cell ws x y) offsets) as [p|].
    + destruct IH as (d0 & Ep & before & after & Eo & Fr & Occ).
      exists d0. split; [exact Ep|]. exists (d :: before), after.
      split; [rewrite Eo; reflexivity|]. split; [exact Fr|].
      intros d' [<-|I]; [exact F|apply Occ; exact I].
    + intros d' [<-|I]; [exact F|apply IH; exact I].
Qed.

(** The free-position finder in general.  A candidate that is clear of
    all nodes is returned as it is.  Otherwise the result is the first
    ring cell (radius 1 to 8) that is clear of all nodes; only when the
    candidate and every ring cell are taken does the finder give up and
    return the point ten grid steps to the lower right, without testing
    it. *)
Theorem find_free_position_general (ws : Workspace) (x y : Q) :
  let p := _find_free_position ws x y in
  (clear_of_nodes ws (x, y) -> p = (x, y))
  /\ ((clear_of_nodes ws p
       /\ (p = (x, y)
           \/ exists d, p = grid_cell x y d /\ (1 <= chebyshev d <= 8)%Z
                        /\ first_free ws x y ring_offsets d))
      \/ (p = fallback_position x y
          /\ ~ clear_of_nodes ws (x, y)
          /\ forall d, In d ring_offsets -> ~ clear_of_nodes ws (grid_cell x y d))).
Proof.
  cbv zeta. rewrite _find_free_position_ring.
  destruct (_is_position_free ws x y) eqn:F.
  - split; [reflexivity|]. left. split; [apply _is_position_free_iff; exact F|].
    left. reflexivity.
  - assert (NF : ~ clear_of_nodes ws (x, y)).
    { intros C. apply _is_position_free_iff in C. congruence. }
    split; [intros C; contradiction|].
    pose proof (first_some_try_cell ws x y ring_offsets) as H.
    destruct (first_some (try_cell ws x y) ring_offsets) as [p|].
    + destruct H as (d & Ep & FF). left. split.
      * destruct FF as (before & after & _ & Fr & _).
        rewrite Ep. apply _is_position_free_iff in Fr.
        destruct (grid_cell x y d). exact Fr.
      * right. exists d. split; [exact Ep|]. split; [|exact FF].
        apply ring_offsets_chebyshev.
        destruct FF as (before & after & Eo & _). rewrite Eo.
        apply in_or_app. right. left. reflexivity.
    + right. split; [reflexivity|]. split; [exact NF|].
      intros d I C. specialize (H d I).
      destruct (grid_cell x y d) as [gx gy] eqn:G. cbn [fst snd] in H.
      apply _is_position_free_iff in C. congruence.
Qed.

(** ** Depth of a node *)

Lemma parent_chain_unique (ws : Workspace) (nid : Z) (l1 l2 : list Z) :
  parent_chain ws nid l1 -> parent_chain ws nid l2 -> l1 = l2.
Proof.
  intros C1. revert l2. induction C1 as [nid N|nid p l G C IH]; intros l2 C2.
  - inversion C2; [reflexivity|congruence].
  - inversion C2 as [? N|? p' l' G' C']; subst; [congruence|].
    assert (p' = p) by congruence. subst p'. f_equal. apply IH. exact C'.
Qed.

Lemma parent_chain_suffix (ws : Workspace) (nid : Z) (l : list Z) (x : Z) :
  parent_chain ws nid l -> In x l ->
  exists l1 l2, l = l1 ++ x :: l2 /\ parent_chain ws x l2.
Proof.
  intros C. induction C as [nid N|nid p l G C IH]; intros I; [destruct I|].
  destruct I as [<-|I].
  - exists [], l. split; [reflexivity|exact C].
  - destruct (IH I) as (l1 & l2 & E & Cx). exists (p :: l1), l2.
    split; [rewrite E; reflexivity|exact Cx].
Qed.

(** A chain that ends cannot pass through a node twice. *)
Lemma parent_chain_NoDup (ws : Workspace) (nid : Z) (l : list Z) :
  parent_chain ws nid l -> NoDup (nid :: l).
Proof.
  intros C. induction C as [nid N|nid p l G C IH].
  - constructor; [intros []|constructor].
  - constructor; [|exact IH].
    intros I.
    assert (C' : parent_chain ws nid (p :: l)) by (constructor; assumption).
    destruct (parent_chain_suffix ws nid (p :: l) nid C' I) as (l1 & l2 & E & Cx).
    pose proof (parent_chain_unique ws nid _ _ C' Cx) as U.
    rewrite U in E. apply (f_equal (@List.length Z)) in E.
    rewrite length_app in E. cbn [List.length] in E. lia.
Qed.

Lemma _node_depth_loop_chain (ws : Workspace) (current : Z) (l : list Z) :
  parent_chain ws current l ->
  forall (fuel : nat) (depth : Z) (visited : list Z),
    (forall x, In x l -> ~ In x visited) ->
    (List.length l < fuel)%nat ->
    _node_depth_loop fuel ws depth current visited
    = Val (depth + Z.of_nat (List.length l))%Z.
Proof.
  intros C. pose proof (parent_chain_NoDup ws current l C) as ND. revert ND.
  induction C as [nid N|nid p l G C IH]; intros ND fuel depth visited V F.
  - destruct fuel as [|fuel]; [cbn in F; lia|].
    cbn [_node_depth_loop]. rewrite N. cbn [List.length]. f_equal. lia.
  - destruct fuel as [|fuel]; [cbn in F; lia|].
    cbn [_node_depth_loop]. rewrite G.
    replace (zmem p visited) with false
      by (symmetry; apply zmem_false_iff; apply V; left; reflexivity).
    inversion ND as [|? ? NI ND']; subst.
    rewrite IH.
    + f_equal. cbn [List.length]. lia.
    + exact ND'.
    + intros x I [<-|Iv].
      * apply NI. right. exact I.
      * apply (V x); [right; exact I|exact Iv].
    + cbn [List.length] in F. lia.
Qed.

Lemma parent_get_in_keys (ws : Workspace) (x p : Z) :
  parent_get ws x = Some p -> In x (Dict.keys (parent ws)).
Proof.
  unfold parent_get. destruct (Dict.get (parent ws) x) as [o|] eqn:G; [|discriminate].
  intros _. eapply get_some_in_keys. exact G.
Qed.

Lemma parent_chain_length (ws : Workspace) (nid : Z) (l : list Z) :
  parent_chain ws nid l -> (List.length l <= List.length (parent ws))%nat.
Proof.
  intros C. pose proof (parent_chain_NoDup ws nid l C) as ND.
  assert (I : incl (removelast (nid :: l)) (Dict.keys (parent ws))).
  { clear ND. induction C as [nid N|nid p l G C IH].
    - intros x [].
    - change (removelast (nid :: p :: l)) with (nid :: removelast (p :: l)).
      intros x [<-|Ix]; [eapply parent_get_in_keys; exact G|apply IH; exact Ix]. }
  assert (NDr : NoDup (removelast (nid :: l))).
  { clear I C. revert ND. generalize (nid :: l). intros m.
    induction m as [|a m IH]; intros ND; [constructor|].
    destruct m as [|b m]; [constructor|].
    change (removelast (a :: b :: m)) with (a :: removelast (b :: m)).
    inversion ND as [|? ? NI ND']; subst. constructor; [|apply IH; exact ND'].
    intros Ia. apply NI. clear - Ia. revert Ia. generalize (b :: m). intros k.
    induction k as [|c k IHk]; [intros []|].
    destruct k as [|e k]; [intros []|].
    change (removelast (c :: e :: k)) with (c :: removelast (e :: k)).
    intros [<-|I]; [left; reflexivity|right; apply IHk; exact I]. }
  pose proof (NoDup_incl_length NDr I) as Len.
  unfold Dict.keys in Len. rewrite length_map in Len.
  assert (Lr : List.length (removelast (nid :: l)) = List.length l).
  { clear. revert nid. induction l as [|a l IH]; intros nid; [reflexivity|].
    change (removelast (nid :: a :: l)) with (nid :: removelast (a :: l)).
    cbn [List.length]. rewrite IH. reflexivity. }
  lia.
Qed.

(** The depth of a node is the number of parent links from it up to a
    node without parent, whenever that walk ends: a parentless node has
    depth 0 and a child is one level below its parent. *)
Theorem node_depth_chain (ws : Workspace) (nid : Z) (l : list Z) :
  parent_chain ws nid l ->
  _node_depth ws nid = Val (Z.of_nat (List.length l)).
Proof.
  intros C. unfold _node_depth.
  rewrite (_node_depth_loop_chain ws nid l C).
  - reflexivity.
  - intros x _ [].
  - pose proof (parent_chain_length ws nid l C). lia.
Qed.

Lemma node_depth_chain_witness :
  parent_chain star3_ws 3 [1%Z] /\ _node_depth star3_ws 3 = Val 1%Z.
Proof.
  assert (C : parent_chain star3_ws 3 [1%Z]).
  { apply chain_up; [reflexivity|]. apply chain_top. reflexivity. }
  split; [exact C|]. exact (node_depth_chain star3_ws 3 [1%Z] C).
Defined.

(** ** Creating nodes *)

Lemma set_set {V : Type} (d : Dict.t Z V) (k : Z) (a b : V) :
  Dict.set (Dict.set d k a) k b = Dict.set d k b.
Proof.
  induction d as [|[k' v'] d IH]; cbn [Dict.set].
  - change (keqb k k) with (Z.eqb k k). rewrite Z.eqb_refl. reflexivity.
  - change (keqb k' k) with (Z.eqb k' k). destruct (Z.eqb k' k) eqn:E; cbn [Dict.set].
    + change (keqb k' k) with (Z.eqb k' k). rewrite E. reflexivity.
    + change (keqb k' k) with (Z.eqb k' k). rewrite E, IH. reflexivity.
Qed.

Lemma set_get_same {V : Type} (d : Dict.t Z V) (k : Z) (v : V) :
  NoDup (Dict.keys d) -> Dict.get d k = Some v -> Dict.set d k v = d.
Proof.
  unfold Dict.keys. induction d as [|[k' v'] d IH]; cbn [Dict.get Dict.set map fst].
  - discriminate.
  - intros ND. inversion ND as [|? ? NI ND']; subst.
    change (keqb k' k) with (Z.eqb k' k). destruct (Z.eqb k' k) eqn:E.
    + intros G. inversion G. reflexivity.
    + intros G. rewrite IH by assumption. reflexivity.
Qed.

Lemma add_item_idem (nid : Z) (items : list Z) :
  add_item nid (add_item nid items) = add_item nid items.
Proof.
  unfold add_item. destruct (zmem nid items) eqn:M; [rewrite M; reflexivity|].
  replace (zmem nid (items ++ [nid])) with true; [reflexivity|].
  symmetry. apply zmem_true_iff. apply in_or_app. right. left. reflexivity.
Qed.

Lemma _node_bbox_val (s : Workspace) (nid : Z) (n : Node) :
  Dict.get (nodes s) nid = Some n -> exists bb, _node_bbox s nid = Val bb.
Proof.
  intros G. unfold _node_bbox. rewrite (_node_center_val s nid n G). cbn [obind].
  destruct (_to_canvas_point s (n_x n) (n_y n)). cbn [obind]. eauto.
Qed.

Lemma _draw_node_run (nid : Z) (s : Workspace) (n : Node) (fill : string) :
  Dict.get (nodes s) nid = Some n -> truthy (n_fill n) = Some fill ->
  _draw_node nid s =
  (Val tt, with_canvas_items (add_item nid)
             (with_nodes (fun d => Dict.set d nid (node_with_fill (Some fill) n)) s)).
Proof.
  intros G T. unfold _draw_node. unfold bind at 1. unfold read at 1.
  destruct (_node_bbox_val s nid n G) as [bb ->]. cbn [fst snd].
  unfold bind at 1. unfold read at 1, node_at at 1. rewrite G. cbn [of_option fst snd].
  unfold bind at 1. unfold read at 1, fill_or_default. rewrite T. cbn [fst snd].
  unfold bind. rewrite update_node_run, G. reflexivity.
Qed.

(** [_update_node_size] stores a size that is at least the default one. *)
Lemma _update_node_size_run (tk : Tk) (nid : Z) (s : Workspace) (n : Node) :
  Dict.get (nodes s) nid = Some n ->
  exists w h,
    NODE_W <= w /\ NODE_H <= h
    /\ _update_node_size tk nid s
       = (Val tt, with_nodes (fun d => Dict.set d nid (node_with_size w h n)) s).
Proof.
  intros G. unfold _update_node_size. unfold bind at 1. unfold read at 1, node_at at 1.
  rewrite G. cbn [of_option fst snd]. cbv zeta.
  destruct (measure_lines _ _ _ _) as [max_width total_height].
  rewrite update_node_run, G.
  eexists. eexists. split; [|split; [|reflexivity]]; apply Q.le_max_r.
Qed.

Lemma set_absent {V : Type} (d : Dict.t Z V) (k : Z) (v : V) :
  Dict.get d k = None -> Dict.set d k v = d ++ [(k, v)].
Proof.
  induction d as [|[k' v'] d IH]; cbn [Dict.get Dict.set]; [reflexivity|].
  change (keqb k' k) with (Z.eqb k' k). destruct (Z.eqb k' k); [discriminate|].
  intros G. rewrite IH by exact G. reflexivity.
Qed.

Lemma _edges_app (s : Workspace) (l1 l2 : Dict.t Z Node) :
  nodes s = l1 ++ l2 ->
  _edges s = flat_map (fun '(pid, info) => map (fun cid => (pid, cid)) (n_children info)) l1
             ++ flat_map (fun '(pid, info) => map (fun cid => (pid, cid)) (n_children info)) l2.
Proof. intros E. unfold _edges. rewrite E. apply flat_map_app. Qed.

(** [_create_node] from start to end, for a fresh id and a workspace
    without dangling edges. *)
Lemma _create_node_run (tk : Tk) (text : string) (x y : Q) (depth : option Z)
  (ws : Workspace) :
  (forall pid cid, In (pid, cid) (_edges ws) -> Dict.mem (nodes ws) cid = true) ->
  Dict.get (nodes ws) (next_id ws) = None ->
  let nid := next_id ws in
  let pos := _find_free_position ws x y in
  exists w h s',
    _create_node tk text x y depth ws = (Val nid, s')
    /\ NODE_W <= w /\ NODE_H <= h
    /\ nodes s' = nodes ws ++
         [(nid, mkNode text (fst pos) (snd pos) [] (Some (next_palette_color ws)) true
                  (Some w) (Some h))]
    /\ parent s' = Dict.set (parent ws) nid None
    /\ canvas_items s' = add_item nid (canvas_items ws)
    /\ palette_index s' = (palette_index ws + 1)%Z
    /\ next_id s' = (nid + 1)%Z
    /\ root_id s' = match root_id ws with Some r => Some r | None => Some nid end
    /\ same_view ws s'.
Proof.
  intros Hclosed Hfresh nid pos. rewrite _create_node_split. cbv zeta.
  fold nid. fold pos.
  set (n0 := mkNode text (fst pos) (snd pos) [] (Some (next_palette_color ws)) true
               (Some NODE_W) (Some NODE_H)).
  set (s0 := with_parent _ _).
  assert (G0 : Dict.get (nodes s0) nid = Some n0).
  { unfold s0. destruct ws; simpl. apply get_set_same. }
  unfold bind at 1.
  rewrite (_draw_node_run nid s0 n0 (next_palette_color ws) G0 (palette_truthy ws)).
  cbn [fst snd]. set (s1 := with_canvas_items _ (with_nodes _ s0)).
  unfold bind at 1. unfold modify at 1. cbn [fst snd].
  set (s2 := with_canvas_items _ s1).
  assert (G2 : Dict.get (nodes s2) nid = Some (node_with_fill (Some (next_palette_color ws)) n0)).
  { unfold s2, s1. destruct s0; simpl. apply get_set_same. }
  destruct (_update_node_size_run tk nid s2 _ G2) as (w & h & Hw & Hh & Es).
  unfold bind at 1. rewrite Es. cbn [fst snd].
  set (s3 := with_nodes _ s2).
  set (n3 := mkNode text (fst pos) (snd pos) [] (Some (next_palette_color ws)) true
               (Some w) (Some h)).
  assert (N3 : nodes s3 = nodes ws ++ [(nid, n3)]).
  { unfold s3, s2, s1, s0. destruct ws; simpl. rewrite !set_set.
    apply set_absent. exact Hfresh. }
  assert (V3 : fst (redraw s3) = Val tt).
  { apply redraw_val. intros pid cid I.
    rewrite (_edges_app s3 _ _ N3) in I. cbn in I. rewrite app_nil_r in I.
    apply mem_true_iff. rewrite N3. unfold Dict.keys. rewrite map_app.
    apply in_or_app. left. apply (proj1 (mem_true_iff _ _)).
    apply (Hclosed pid cid). exact I. }
  destruct (redraw_fields s3) as (Rn & Rp & Rc & Rpi & Rr & Rx & Rs & Rox & Roy).
  unfold bind at 1. unfold redraw_edges_of_node_and_neighbors.
  destruct (redraw s3) as [o s4]. cbn [fst snd] in *. subst o.
  unfold bind at 1. unfold gets at 1. cbn [fst snd].
  assert (R3 : root_id s3 = root_id ws) by (unfold s3, s2, s1, s0; destruct ws; reflexivity).
  assert (P3 : parent s3 = Dict.set (parent ws) nid None)
    by (unfold s3, s2, s1, s0; destruct ws; reflexivity).
  assert (C3 : canvas_items s3 = add_item nid (canvas_items ws)).
  { unfold s3, s2, s1, s0. destruct ws; simpl. apply add_item_idem. }
  assert (I3 : palette_index s3 = (palette_index ws + 1)%Z)
    by (unfold s3, s2, s1, s0; destruct ws; reflexivity).
  assert (X3 : next_id s3 = (nid + 1)%Z)
    by (unfold s3, s2, s1, s0, nid; destruct ws; reflexivity).
  assert (W3 : same_view ws s3)
    by (unfold same_view, s3, s2, s1, s0; destruct ws; simpl; auto).
  assert (W4 : same_view ws s4).
  { destruct W3 as (A & B & C). unfold same_view. rewrite Rs, Rox, Roy. auto. }
  exists w, h. rewrite Rr, R3.
  destruct (root_id ws) as [r|] eqn:Hr.
  - exists s4. unfold bind, ret. cbn [fst snd]. split; [reflexivity|].
    split; [exact Hw|]. split; [exact Hh|].
    split; [rewrite Rn; exact N3|]. split; [rewrite Rp; exact P3|].
    split; [rewrite Rc; exact C3|]. split; [rewrite Rpi; exact I3|].
    split; [rewrite Rx; exact X3|]. split; [rewrite Rr, R3; reflexivity|exact W4].
  - eexists. unfold bind, _set_root, bind, modify, ret. cbn [fst snd].
    split; [reflexivity|].
    unfold same_view.
    cbn [nodes parent canvas_items palette_index next_id root_id scale offset_x offset_y
         with_parent with_root_id].
    split; [exact Hw|]. split; [exact Hh|].
    split; [rewrite Rn; exact N3|]. split; [rewrite Rp, P3; apply set_set|].
    split; [rewrite Rc; exact C3|]. split; [rewrite Rpi; exact I3|].
    split; [rewrite Rx; exact X3|]. split; [reflexivity|exact W4].
Qed.

(** ** Edges *)

Lemma get_in {V : Type} (d : Dict.t Z V) (k : Z) (v : V) :
  Dict.get d k = Some v -> In (k, v) d.
Proof.
  induction d as [|[k' v'] d IH]; cbn [Dict.get]; [discriminate|].
  change (keqb k' k) with (Z.eqb k' k). destruct (Z.eqb k' k) eqn:E.
  - apply Z.eqb_eq in E. subst k'. intros G. inversion G. left. reflexivity.
  - intros G. right. apply IH. exact G.
Qed.

Lemma in_get {V : Type} (d : Dict.t Z V) (k : Z) (v : V) :
  NoDup (Dict.keys d) -> In (k, v) d -> Dict.get d k = Some v.
Proof.
  unfold Dict.keys. induction d as [|[k' v'] d IH]; cbn [Dict.get map fst]; [intros _ []|].
  intros ND. inversion ND as [|? ? NI ND']; subst.
  change (keqb k' k) with (Z.eqb k' k). intros [E|I].
  - inversion E; subst. rewrite Z.eqb_refl. reflexivity.
  - destruct (Z.eqb k' k) eqn:E; [|apply IH; assumption].
    apply Z.eqb_eq in E. subst k'. exfalso. apply NI.
    apply (in_map fst _ _ I).
Qed.

Lemma _edges_children (ws : Workspace) (p c : Z) :
  NoDup (Dict.keys (nodes ws)) ->
  (In (p, c) (_edges ws) <-> In c (children_of ws p)).
Proof.
  intros ND. unfold _edges, children_of. rewrite in_flat_map. split.
  - intros ([k info] & I & Ic). apply in_map_iff in Ic.
    destruct Ic as (c' & E & Ic). inversion E; subst k c'.
    rewrite (in_get _ _ _ ND I). exact Ic.
  - destruct (Dict.get (nodes ws) p) as [n|] eqn:G; [|intros []].
    intros I. exists (p, n). split; [apply get_in; exact G|].
    apply in_map. exact I.
Qed.

Lemma NoDup_flat_map_edges (l : Dict.t Z Node) :
  NoDup (Dict.keys l) -> (forall k n, In (k, n) l -> NoDup (n_children n)) ->
  NoDup (flat_map (fun '(pid, info) => map (fun cid => (pid, cid)) (n_children info)) l).
Proof.
  unfold Dict.keys. induction l as [|[k n] l IH]; cbn [flat_map map fst]; [constructor|].
  intros ND Hc. inversion ND as [|? ? NI ND']; subst.
  apply NoDup_app.
  - apply Finite.Injective_map_NoDup; [|apply (Hc k n); left; reflexivity].
    intros a b E. inversion E. reflexivity.
  - apply IH; [exact ND'|]. intros k' n' I. apply (Hc k' n'). right. exact I.
  - intros [a b] I1 I2. apply in_map_iff in I1. destruct I1 as (c & E & _).
    inversion E; subst a b. apply in_flat_map in I2.
    destruct I2 as ([k' n'] & I & Ic). apply in_map_iff in Ic.
    destruct Ic as (c' & E' & _). inversion E'; subst k' c'.
    apply NI. apply (in_map fst _ _ I).
Qed.


Lemma closed_edges (ws : Workspace) :
  NoDup (Dict.keys (nodes ws)) -> closed ws ->
  forall pid cid, In (pid, cid) (_edges ws) -> Dict.mem (nodes ws) cid = true.
Proof.
  intros ND C pid cid I. apply (C pid cid). apply _edges_children; assumption.
Qed.

Lemma get_app_l {V : Type} (d1 d2 : Dict.t Z V) (k : Z) (v : V) :
  Dict.get d1 k = Some v -> Dict.get (d1 ++ d2) k = Some v.
Proof.
  induction d1 as [|[k' v'] d1 IH]; cbn [Dict.get app]; [discriminate|].
  destruct (keqb k' k); auto.
Qed.

Lemma get_app_r {V : Type} (d1 d2 : Dict.t Z V) (k : Z) :
  Dict.get d1 k = None -> Dict.get (d1 ++ d2) k = Dict.get d2 k.
Proof.
  induction d1 as [|[k' v'] d1 IH]; cbn [Dict.get app]; [reflexivity|].
  destruct (keqb k' k); [discriminate|auto].
Qed.

(** What [_create_node] does to a workspace without dangling edges: it
    returns the id [next_id], which was not in use, and advances the
    counter; the new node has the given text, the position that
    [_find_free_position] finds, no children, no parent, and a size that
    is at least the default one; every node that existed is exactly as it
    was, and so is its parent pointer; the new node becomes the root only
    if there was none. *)
Theorem create_node_effect (tk : Tk) (text : string) (x y : Q) (depth : option Z)
  (ws : Workspace) :
  tables_ok ws -> closed ws ->
  let r := _create_node tk text x y depth ws in
  let nid := next_id ws in
  fst r = Val nid
  /\ Dict.mem (nodes ws) nid = false
  /\ next_id (snd r) = (nid + 1)%Z
  /\ (exists n w h,
        Dict.get (nodes (snd r)) nid = Some n
        /\ n_text n = text
        /\ (n_x n, n_y n) = _find_free_position ws x y
        /\ n_children n = []
        /\ n_w n = Some w /\ n_h n = Some h /\ NODE_W <= w /\ NODE_H <= h)
  /\ parent_get (snd r) nid = None
  /\ (forall k n, Dict.get (nodes ws) k = Some n -> Dict.get (nodes (snd r)) k = Some n)
  /\ (forall k, k <> nid -> parent_get (snd r) k = parent_get ws k)
  /\ root_id (snd r) = match root_id ws with Some r0 => Some r0 | None => Some nid end.
Proof.
  intros T C. cbv zeta. pose proof T as (NDn & NDp & NDc & Fr).
  destruct (Fr (next_id ws) (Z.le_refl _)) as [Gn Gp].
  destruct (_create_node_run tk text x y depth ws (closed_edges ws NDn C) Gn)
    as (w & h & s' & E & Hw & Hh & N & P & _ & _ & X & R & _).
  rewrite E. cbn [fst snd].
  split; [reflexivity|]. split; [unfold Dict.mem; rewrite Gn; reflexivity|].
  split; [exact X|]. split; [|split; [|split; [|split]]].
  - eexists. exists w, h. split.
    + rewrite N. rewrite get_app_r by exact Gn. cbn [Dict.get].
      change (keqb (next_id ws) (next_id ws)) with (Z.eqb (next_id ws) (next_id ws)).
      rewrite Z.eqb_refl. reflexivity.
    + cbn [n_text n_x n_y n_children n_w n_h].
      destruct (_find_free_position ws x y). repeat split; assumption.
  - unfold parent_get. rewrite P, get_set_same. reflexivity.
  - intros k n G. rewrite N. apply get_app_l. exact G.
  - intros k Nk. unfold parent_get. rewrite P, get_set_other by congruence. reflexivity.
  - exact R.
Qed.

Lemma create_node_effect_witness :
  tables_ok one_node_ws /\ closed one_node_ws
  /\ fst (_create_node example_tk "New Node" 220 0 None one_node_ws) = Val 2%Z.
Proof.
  assert (T : tables_ok one_node_ws).
  { split; [repeat constructor; intros []|].
    split; [repeat constructor; intros []|]. split.
    - intros p. unfold children_of, one_node_ws. cbn [nodes Dict.get keqb Key_Z].
      destruct (Z.eqb 1 p); constructor.
    - intros nid L. unfold one_node_ws in *. cbn [next_id nodes parent Dict.get keqb Key_Z] in *.
      destruct (Z.eqb_spec 1 nid) as [E|N]; [lia|]. split; reflexivity. }
  assert (C : closed one_node_ws).
  { intros p c. unfold children_of, one_node_ws. cbn [nodes Dict.get keqb Key_Z].
    destruct (Z.eqb 1 p); intros []. }
  split; [exact T|]. split; [exact C|].
  exact (proj1 (create_node_effect example_tk "New Node" 220 0 None one_node_ws T C)).
Defined.

(** ** Adding a child *)

(** [_add_edge] when the child has no parent yet, is not the root and has
    its custom flag set, which is how [add_child] calls it. *)
Lemma _add_edge_fresh_run (p c : Z) (s : Workspace) (pn cn : Node) :
  Dict.get (nodes s) p = Some pn -> Dict.get (nodes s) c = Some cn -> p <> c ->
  parent_get s c = None -> ~ In c (n_children pn) -> root_id s <> Some c ->
  n_custom cn = true ->
  _add_edge p c s =
  redraw (with_nodes (fun d => Dict.set d p (node_with_children (n_children pn ++ [c]) pn))
            (with_parent (fun d => Dict.set d c (Some p)) s)).
Proof.
  intros Gp Gc Npc Pc Nc Rc Cc. unfold _add_edge.
  unfold bind at 1. unfold gets at 1. cbn [fst snd]. rewrite Pc.
  unfold bind at 1. unfold ret at 1. cbn [fst snd].
  unfold bind at 1. unfold modify at 1. cbn [fst snd].
  set (s1 := with_parent _ s).
  assert (Gp1 : Dict.get (nodes s1) p = Some pn) by (unfold s1; destruct s; exact Gp).
  unfold bind at 1. unfold read at 1, node_at at 1. rewrite Gp1. cbn [of_option fst snd].
  replace (zmem c (n_children pn)) with false
    by (symmetry; apply zmem_false_iff; exact Nc).
  cbn [negb]. unfold bind at 1. rewrite update_node_run, Gp1. cbn [fst snd].
  set (s2 := with_nodes _ s1).
  assert (R2 : root_id s2 = root_id s) by (unfold s2, s1; destruct s; reflexivity).
  unfold bind at 1. unfold gets at 1. cbn [fst snd]. rewrite R2.
  assert (E : match root_id s with
              | Some r => if Z.eqb c r then _set_root p else ret tt
              | None => ret tt
              end = ret tt).
  { destruct (root_id s) as [r|]; [|reflexivity].
    destruct (Z.eqb_spec c r) as [->|N]; [congruence|reflexivity]. }
  rewrite E. unfold bind at 1. unfold ret at 1. cbn [fst snd].
  assert (Gc2 : Dict.get (nodes s2) c = Some cn).
  { unfold s2, s1. destruct s; simpl in *. rewrite get_set_other by exact Npc. exact Gc. }
  unfold bind at 1. unfold read at 1, node_at at 1. rewrite Gc2. cbn [of_option fst snd].
  rewrite Cc. cbn [negb]. unfold bind, ret. cbn [fst snd]. reflexivity.
Qed.

Lemma children_of_app_fresh (s s1 : Workspace) (nid : Z) (n : Node) (k : Z) :
  nodes s1 = nodes s ++ [(nid, n)] -> n_children n = [] ->
  children_of s1 k = children_of s k.
Proof.
  intros N Hc. unfold children_of. rewrite N.
  destruct (Dict.get (nodes s) k) as [m|] eqn:G.
  - rewrite (get_app_l _ _ _ _ G). reflexivity.
  - rewrite get_app_r by exact G. cbn [Dict.get].
    destruct (keqb nid k); [exact Hc|reflexivity].
Qed.

Lemma mem_app_fresh (s s1 : Workspace) (nid : Z) (n : Node) (k : Z) :
  nodes s1 = nodes s ++ [(nid, n)] ->
  Dict.mem (nodes s1) k = Dict.mem (nodes s) k || Z.eqb nid k.
Proof.
  intros N. unfold Dict.mem. rewrite N.
  destruct (Dict.get (nodes s) k) as [m|] eqn:G.
  - rewrite (get_app_l _ _ _ _ G). reflexivity.
  - rewrite get_app_r by exact G. cbn [Dict.get].
    change (keqb nid k) with (Z.eqb nid k). destruct (Z.eqb nid k); reflexivity.
Qed.

Lemma add_child_run (tk : Tk) (p : Z) (ws : Workspace) :
  tables_ok ws -> tree_invariant ws -> closed ws ->
  Dict.mem (nodes ws) p = true -> p <> 0%Z ->
  let nid := next_id ws in
  exists s',
    add_child tk (Some p) ws = (Val (Some nid), s')
    /\ tables_ok s' /\ tree_invariant s' /\ closed s'
    /\ children_of s' p = children_of ws p ++ [nid]
    /\ parent_get s' nid = Some p
    /\ children_of s' nid = []
    /\ (forall k, k <> nid -> parent_get s' k = parent_get ws k)
    /\ (forall k, k <> p -> k <> nid -> Dict.get (nodes s') k = Dict.get (nodes ws) k)
    /\ root_id s' = root_id ws.
Proof.
  intros T [TR Co] C Mp Hp nid.
  pose proof T as (NDn & NDp & NDc & Fr).
  destruct (Fr nid (Z.le_refl _)) as [Gn Gpar].
  destruct (mem_get_some _ _ Mp) as [pn Gp].
  assert (Npn : p <> nid) by (intros ->; congruence).
  destruct TR as (r0 & Rr & Mr & U).
  { intros E. rewrite E in Gp. discriminate Gp. }
  assert (Nr : r0 <> nid).
  { intros ->. unfold Dict.mem in Mr. rewrite Gn in Mr. discriminate Mr. }
  unfold add_child.
  replace (Z.eqb p 0) with false by (symmetry; apply Z.eqb_neq; exact Hp).
  unfold bind at 1. unfold read at 1, node_at at 1. rewrite Gp. cbn [of_option fst snd].
  unfold bind at 1. unfold gets at 1. cbn [fst snd].
  unfold bind at 1. unfold gets at 1. cbn [fst snd].
  destruct (_find_free_position ws _ (n_y pn)) as [new_x new_y].
  unfold bind at 1. unfold read at 1.
  destruct (_node_depth_total ws p) as [d ->]. cbn [fst snd].
  destruct (_create_node_run tk "New Node" new_x new_y (Some (d + 1)%Z) ws
              (closed_edges ws NDn C) Gn)
    as (w & h & s1 & E1 & _ & _ & N1 & P1 & _ & _ & X1 & R1 & _).
  fold nid in E1, N1, P1, X1, R1.
  pose proof (proj1 (_create_node_linked tk "New Node" new_x new_y (Some (d + 1)%Z) ws
                       (conj T Co))) as L1.
  rewrite E1 in L1. cbn [snd] in L1.
  unfold bind at 1. rewrite E1. cbn [fst snd].
  set (n3 := mkNode _ _ _ _ _ _ _ _) in N1.
  assert (Gp1 : Dict.get (nodes s1) p = Some pn) by (rewrite N1; apply get_app_l; exact Gp).
  assert (Gc1 : Dict.get (nodes s1) nid = Some n3).
  { rewrite N1, get_app_r by exact Gn. cbn [Dict.get].
    change (keqb nid nid) with (Z.eqb nid nid). rewrite Z.eqb_refl. reflexivity. }
  assert (Pc1 : parent_get s1 nid = None).
  { unfold parent_get. rewrite P1, get_set_same. reflexivity. }
  assert (Nch : ~ In nid (n_children pn)).
  { intros I. rewrite <- (children_of_get ws p pn Gp) in I.
    specialize (C p nid I). unfold Dict.mem in C. rewrite Gn in C. discriminate C. }
  assert (Rc1 : root_id s1 <> Some nid) by (rewrite R1, Rr; congruence).
  pose proof (_add_edge_linked p nid s1 L1) as L3.
  pose proof (_add_edge_fresh_run p nid s1 pn n3 Gp1 Gc1 Npn Pc1 Nch Rc1 eq_refl) as Ea.
  rewrite Ea in L3. unfold bind at 1. rewrite Ea. clear Ea.
  set (s2 := with_nodes _ (with_parent _ s1)) in *.
  destruct (redraw_fields s2) as (Rn & Rp & _ & _ & Rroot & _).
  assert (Mp1 : Dict.mem (nodes s1) p = true) by (unfold Dict.mem; rewrite Gp1; reflexivity).
  assert (Mc1 : Dict.mem (nodes s1) nid = true) by (unfold Dict.mem; rewrite Gc1; reflexivity).
  specialize (L3 Mp1 Mc1 (or_introl Rc1)). cbv zeta in L3.
  destruct L3 as ([T3 Co3] & Pg3 & _).
  assert (Hch2 : forall k, children_of s2 k
                           = if Z.eqb p k then children_of ws p ++ [nid] else children_of ws k).
  { intros k. unfold s2. rewrite children_of_set, children_of_with_parent.
    cbn [n_children node_with_children].
    rewrite (children_of_app_fresh ws s1 nid n3 k N1 eq_refl).
    rewrite (children_of_get ws p pn Gp). reflexivity. }
  assert (Hch3 : forall k, children_of (snd (redraw s2)) k = children_of s2 k).
  { intros k. unfold children_of. rewrite Rn. reflexivity. }
  assert (Hpg3 : forall k, parent_get (snd (redraw s2)) k
                           = if Z.eqb nid k then Some p else parent_get ws k).
  { intros k. unfold parent_get at 1. rewrite Rp.
    change (parent_get s2 k = if Z.eqb nid k then Some p else parent_get ws k).
    unfold s2. rewrite parent_get_with_nodes, parent_get_set.
    destruct (Z.eqb_spec nid k) as [E|N]; [reflexivity|].
    unfold parent_get. rewrite P1, get_set_other by exact N. reflexivity. }
  assert (Hm2 : forall k, Dict.mem (nodes s2) k = Dict.mem (nodes ws) k || Z.eqb nid k).
  { intros k. unfold s2. rewrite mem_with_nodes_set.
    - rewrite <- (mem_app_fresh ws s1 nid n3 k N1). destruct s1; reflexivity.
    - destruct s1; exact Mp1. }
  assert (C2 : closed s2).
  { intros q c. rewrite Hch2, Hm2. destruct (Z.eqb p q).
    - intros I. apply in_app_or in I. destruct I as [I|[<-|[]]].
      + rewrite (C p c I). reflexivity.
      + rewrite Z.eqb_refl. apply orb_true_r.
    - intros I. rewrite (C q c I). reflexivity. }
  assert (R2 : root_id s2 = Some r0) by (rewrite Rr in R1; exact R1).
  assert (V : fst (redraw s2) = Val tt).
  { apply redraw_val. apply closed_edges; [|exact C2].
    rewrite <- Rn. destruct T3 as (K & _). exact K. }
  destruct (redraw s2) as [o s3]. cbn [fst snd] in *. subst o.
  exists s3. unfold ret. split; [reflexivity|].
  split; [exact T3|]. split; [|split; [|split; [|split; [|split; [|split; [|split]]]]]].
  - split; [|exact Co3]. intros _. exists r0.
    split; [rewrite Rroot; exact R2|].
    split; [rewrite Rn, Hm2, Mr; reflexivity|].
    intros k Mk. rewrite Rn, Hm2 in Mk. rewrite Hpg3.
    destruct (Z.eqb_spec nid k) as [E|N].
    + subst k. split; [intros D; discriminate D|congruence].
    + rewrite orb_false_r in Mk. apply U. exact Mk.
  - intros q c. rewrite Hch3. unfold Dict.mem. rewrite Rn. apply C2.
  - rewrite Hch3, Hch2, Z.eqb_refl. reflexivity.
  - exact Pg3.
  - rewrite Hch3, Hch2. replace (Z.eqb p nid) with false
      by (symmetry; apply Z.eqb_neq; exact Npn).
    unfold children_of. rewrite Gn. reflexivity.
  - intros k Nk. rewrite Hpg3. replace (Z.eqb nid k) with false; [reflexivity|].
    symmetry. apply Z.eqb_neq. congruence.
  - intros k Nkp Nkn. rewrite Rn. unfold s2.
    cbn [nodes with_nodes with_parent].
    rewrite get_set_other by congruence. rewrite N1.
    destruct (Dict.get (nodes ws) k) as [m|] eqn:G.
    + apply get_app_l. exact G.
    + rewrite get_app_r by exact G. cbn [Dict.get].
      change (keqb nid k) with (Z.eqb nid k).
      replace (Z.eqb nid k) with false; [reflexivity|].
      symmetry. apply Z.eqb_neq. congruence.
  - rewrite Rroot, R2, Rr. reflexivity.
Qed.

Lemma one_node_ws_ok :
  tables_ok one_node_ws /\ tree_invariant one_node_ws /\ closed one_node_ws.
Proof.
  split; [|split].
  - split; [repeat constructor; intros []|].
    split; [repeat constructor; intros []|]. split.
    + intros p. unfold children_of, one_node_ws. cbn [nodes Dict.get keqb Key_Z].
      destruct (Z.eqb 1 p); constructor.
    + intros nid L. unfold one_node_ws in *.
      cbn [next_id nodes parent Dict.get keqb Key_Z] in *.
      destruct (Z.eqb_spec 1 nid) as [E|N]; [lia|]. split; reflexivity.
  - split.
    + intros _. exists 1%Z. split; [reflexivity|]. split; [reflexivity|].
      intros nid M. unfold Dict.mem, parent_get, one_node_ws in M |- *.
      cbn [nodes parent Dict.get keqb Key_Z] in M |- *.
      destruct (Z.eqb_spec 1 nid) as [E|N]; [|discriminate M].
      split; intros _; [symmetry; exact E|reflexivity].
    + intros p c. unfold children_of, parent_get, one_node_ws.
      cbn [nodes parent Dict.get keqb Key_Z].
      destruct (Z.eqb_spec 1 p); destruct (Z.eqb_spec 1 c); cbn [n_children In];
        (split; [intros []|intros H; discriminate H]).
  - intros p c. unfold children_of, one_node_ws. cbn [nodes Dict.get keqb Key_Z].
    destruct (Z.eqb 1 p); intros [].
Qed.




(** ** Formatted text *)

(** The three cases of the scanner, with the tests of the source. *)
Lemma scan_line_cons (ch : ascii) (rest : list ascii) (bold italic : bool)
  (buf : list ascii) (segments : list Segment) :
  scan_line (ch :: rest) bold italic buf segments =
  if Ascii.eqb ch "*"%char
     && match rest with c2 :: _ => Ascii.eqb c2 "*"%char | [] => false end
  then scan_line (tl rest) (negb bold) italic [] (flush buf bold italic segments)
  else if Ascii.eqb ch "_"%char
  then scan_line rest bold (negb italic) [] (flush buf bold italic segments)
  else scan_line rest bold italic (buf ++ [ch]) segments.
Proof.
  destruct ch as [[] [] [] [] [] [] [] []]; try reflexivity.
  destruct rest as [|c2 rest]; [reflexivity|].
  destruct c2 as [[] [] [] [] [] [] [] []]; reflexivity.
Qed.

Lemma string_of_list_ascii_nonempty (buf : list ascii) :
  buf <> [] -> string_of_list_ascii buf <> ""%string.
Proof. destruct buf; [congruence|discriminate]. Qed.

Lemma flush_shown (buf : list ascii) (bold italic : bool) (segments : list Segment) :
  ~ In "_"%char buf -> Forall shown_segment segments ->
  Forall shown_segment (flush buf bold italic segments).
Proof.
  intros Nb F. unfold flush. destruct buf as [|c buf]; [exact F|].
  apply Forall_app. split; [exact F|]. constructor; [|constructor].
  unfold shown_segment, segment_text. cbn [fst].
  split; [discriminate|]. rewrite list_ascii_of_string_of_list_ascii. exact Nb.
Qed.

Lemma scan_line_shown (n : nat) :
  forall (raw : list ascii) (bold italic : bool) (buf : list ascii) (segments : list Segment),
    (List.length raw <= n)%nat ->
    ~ In "_"%char buf -> Forall shown_segment segments ->
    let '(segments', buf', _, _) := scan_line raw bold italic buf segments in
    ~ In "_"%char buf' /\ Forall shown_segment segments'.
Proof.
  induction n as [|n IH]; intros raw bold italic buf segments Len Nb F.
  - destruct raw; [|cbn in Len; lia]. cbn. auto.
  - destruct raw as [|ch rest]; [cbn; auto|].
    rewrite scan_line_cons. cbn [List.length] in Len.
    destruct (Ascii.eqb ch "*"%char
              && match rest with c2 :: _ => Ascii.eqb c2 "*"%char | [] => false end).
    + apply IH.
      * destruct rest; cbn [tl List.length] in *; lia.
      * intros [].
      * apply flush_shown; assumption.
    + destruct (Ascii.eqb ch "_"%char) eqn:E.
      * apply IH; [lia|intros []|apply flush_shown; assumption].
      * apply IH; [lia| |exact F].
        intros I. apply in_app_or in I. destruct I as [I|[I|[]]]; [exact (Nb I)|].
        subst ch. discriminate E.
Qed.

Lemma parse_lines_shape (lines : list (list ascii)) :
  forall bold italic,
    List.length (parse_lines lines bold italic) = List.length lines
    /\ Forall (fun line => line <> [] /\ Forall shown_segment line)
              (parse_lines lines bold italic).
Proof.
  induction lines as [|raw lines IH]; intros bold italic; [split; [reflexivity|constructor]|].
  cbn [parse_lines].
  pose proof (scan_line_shown (List.length raw) raw bold italic [] []
                (Nat.le_refl _) (fun F => F) (Forall_nil _)) as H.
  destruct (scan_line raw bold italic [] []) as [[[segments buf] bold'] italic'].
  destruct H as [Nb F]. destruct (IH bold' italic') as [L G].
  split; [cbn [List.length]; rewrite L; reflexivity|].
  constructor; [|exact G].
  pose proof (flush_shown buf bold' italic' segments Nb F) as Fl.
  destruct (flush buf bold' italic' segments) as [|seg segs].
  - split; [discriminate|]. constructor; [|constructor].
    split; [discriminate|]. cbn. intros [E|[]]. discriminate E.
  - split; [discriminate|exact Fl].
Qed.

Lemma length_split_lines (s cur : list ascii) :
  List.length (split_lines s cur)
  = S (List.length (filter (fun c => Ascii.eqb c "010"%char) s)).
Proof.
  revert cur. induction s as [|c s IH]; intros cur; [reflexivity|].
  cbn [split_lines filter]. destruct (Ascii.eqb c "010"%char).
  - cbn [List.length]. rewrite IH. reflexivity.
  - apply IH.
Qed.

(** The parser returns one line per line of the text, every line has at
    least one segment, and every segment has a non-empty text without
    italic marker.  So the two fall-backs of [_update_node_size] for an
    empty parse and for an empty line are never taken. *)
Theorem parse_formatted_lines_shape (text : string) :
  let parsed := _parse_formatted_lines text in
  List.length parsed = S (count_newlines text)
  /\ Forall (fun line => line <> [] /\ Forall shown_segment line) parsed.
Proof.
  cbv zeta. unfold _parse_formatted_lines, count_newlines.
  destruct (parse_lines_shape (split_lines (list_ascii_of_string text) []) false false)
    as [L F].
  split; [rewrite L; apply length_split_lines|exact F].
Qed.

Lemma list_ascii_of_string_app (a b : string) :
  list_ascii_of_string (a ++ b) = list_ascii_of_string a ++ list_ascii_of_string b.
Proof. induction a as [|c a IH]; cbn; [reflexivity|rewrite IH; reflexivity]. Qed.

Lemma scan_line_plain (pl : list ascii) :
  Forall plain_char pl ->
  forall rest bold italic buf segments,
    scan_line (pl ++ rest) bold italic buf segments
    = scan_line rest bold italic (buf ++ pl) segments.
Proof.
  induction 1 as [|ch pl (Ns & Nu & _) F IH]; intros rest bold italic buf segments.
  - rewrite app_nil_r. reflexivity.
  - cbn [app]. rewrite scan_line_cons.
    replace (Ascii.eqb ch "*"%char) with false
      by (symmetry; apply Ascii.eqb_neq; exact Ns).
    replace (Ascii.eqb ch "_"%char) with false
      by (symmetry; apply Ascii.eqb_neq; exact Nu).
    cbn [andb]. rewrite IH, <- app_assoc. reflexivity.
Qed.

Lemma split_lines_plain (pl : list ascii) :
  Forall (fun c => c <> "010"%char) pl ->
  forall rest cur, split_lines (pl ++ rest) cur = split_lines rest (cur ++ pl).
Proof.
  induction 1 as [|ch pl Nn F IH]; intros rest cur.
  - rewrite app_nil_r. reflexivity.
  - cbn [app split_lines].
    replace (Ascii.eqb ch "010"%char) with false
      by (symmetry; apply Ascii.eqb_neq; exact Nn).
    rewrite IH, <- app_assoc. reflexivity.
Qed.

Lemma plain_no_newline (s : string) :
  plain s -> Forall (fun c => c <> "010"%char) (list_ascii_of_string s).
Proof. apply Forall_impl. intros c (_ & _ & N). exact N. Qed.

Lemma flush_nonempty (s : string) (bold italic : bool) (segments : list Segment) :
  s <> ""%string ->
  flush (list_ascii_of_string s) bold italic segments = segments ++ [(s, bold, italic)].
Proof.
  intros N. unfold flush. destruct s as [|c s]; [congruence|].
  cbn [list_ascii_of_string]. rewrite <- (string_of_list_ascii_of_string s) at 2.
  reflexivity.
Qed.

Lemma flush_nil (bold italic : bool) (segments : list Segment) :
  flush [] bold italic segments = segments.
Proof. reflexivity. Qed.

(** What the parser makes of the markers that the editor inserts.  For
    texts [s1], [s2] without markers and line breaks: the plain text is one
    upright segment; wrapped in [**] it is one bold segment, wrapped in
    [_] one italic segment; a [**] inside a line starts a new segment; and
    bold runs on across a line break until it is switched off or the text
    ends. *)
Theorem parse_formatted_lines_markers (s1 s2 : string) :
  plain s1 -> plain s2 -> s1 <> ""%string -> s2 <> ""%string ->
  _parse_formatted_lines s1 = [[(s1, false, false)]]
  /\ _parse_formatted_lines ("**" ++ s1 ++ "**") = [[(s1, true, false)]]
  /\ _parse_formatted_lines ("_" ++ s1 ++ "_") = [[(s1, false, true)]]
  /\ _parse_formatted_lines (s1 ++ "**" ++ s2) = [[(s1, false, false); (s2, true, false)]]
  /\ _parse_formatted_lines ("**" ++ s1 ++ newline ++ s2 ++ "**")
     = [[(s1, true, false)]; [(s2, true, false)]]
  /\ _parse_formatted_lines ("**" ++ s1 ++ newline ++ s2)
     = [[(s1, true, false)]; [(s2, true, false)]].
Proof.
  intros P1 P2 N1 N2.
  pose proof (plain_no_newline s1 P1) as L1. pose proof (plain_no_newline s2 P2) as L2.
  set (l1 := list_ascii_of_string s1) in *. set (l2 := list_ascii_of_string s2) in *.
  assert (Star : forall l, Forall (fun c => c <> "010"%char) l ->
                           Forall (fun c => c <> "010"%char) ("*"%char :: "*"%char :: l)).
  { intros l F. constructor; [discriminate|]. constructor; [discriminate|exact F]. }
  assert (F1 : flush l1 true false [] = [(s1, true, false)]) by (apply flush_nonempty; exact N1).
  assert (F1' : flush l1 false false [] = [(s1, false, false)])
    by (apply flush_nonempty; exact N1).
  assert (F1i : flush l1 false true [] = [(s1, false, true)])
    by (apply flush_nonempty; exact N1).
  assert (F2 : forall segs, flush l2 true false segs = segs ++ [(s2, true, false)])
    by (intros segs; apply flush_nonempty; exact N2).
  unfold _parse_formatted_lines. repeat split.
  - fold l1. rewrite <- (app_nil_r l1), (split_lines_plain l1 L1). cbn [split_lines app].
    cbn [parse_lines]. rewrite <- (app_nil_r l1), (scan_line_plain l1 P1).
    cbn [scan_line app]. rewrite F1'. reflexivity.
  - rewrite !list_ascii_of_string_app. fold l1.
    change (list_ascii_of_string "**") with ["*"%char; "*"%char].
    rewrite <- (app_nil_r (_ ++ _ ++ _)), split_lines_plain.
    2:{ apply Forall_app. split; [repeat constructor; discriminate|].
        apply Forall_app. split; [exact L1|repeat constructor; discriminate]. }
    cbn [split_lines app parse_lines]. rewrite scan_line_cons. cbn [negb Ascii.eqb Bool.eqb andb tl].
    rewrite (scan_line_plain l1 P1). rewrite scan_line_cons.
    cbn [negb Ascii.eqb Bool.eqb andb tl scan_line app]. rewrite !flush_nil, F1. reflexivity.
  - rewrite !list_ascii_of_string_app. fold l1.
    change (list_ascii_of_string "_") with ["_"%char].
    rewrite <- (app_nil_r (_ ++ _ ++ _)), split_lines_plain.
    2:{ apply Forall_app. split; [repeat constructor; discriminate|].
        apply Forall_app. split; [exact L1|repeat constructor; discriminate]. }
    cbn [split_lines app parse_lines]. rewrite scan_line_cons. cbn [negb Ascii.eqb Bool.eqb andb].
    rewrite (scan_line_plain l1 P1). rewrite scan_line_cons.
    cbn [negb Ascii.eqb Bool.eqb andb scan_line app]. rewrite !flush_nil, F1i. reflexivity.
  - rewrite !list_ascii_of_string_app. fold l1. fold l2.
    change (list_ascii_of_string "**") with ["*"%char; "*"%char].
    rewrite <- (app_nil_r (_ ++ _ ++ _)), split_lines_plain.
    2:{ apply Forall_app. split; [exact L1|].
        apply Forall_app. split; [repeat constructor; discriminate|exact L2]. }
    cbn [split_lines app parse_lines]. rewrite (scan_line_plain l1 P1).
    rewrite scan_line_cons. cbn [negb Ascii.eqb Bool.eqb andb tl app].
    rewrite F1'. rewrite <- (app_nil_r l2), (scan_line_plain l2 P2).
    cbn [scan_line app]. rewrite F2. reflexivity.
  - rewrite !list_ascii_of_string_app. fold l1. fold l2.
    change (list_ascii_of_string "**") with ["*"%char; "*"%char].
    change (list_ascii_of_string newline) with ["010"%char].
    rewrite (app_assoc ["*"%char; "*"%char] l1).
    rewrite (split_lines_plain (["*"%char; "*"%char] ++ l1) (Star l1 L1)).
    cbn [split_lines Ascii.eqb Bool.eqb app].
    rewrite <- (app_nil_r (l2 ++ _)), split_lines_plain.
    2:{ apply Forall_app. split; [exact L2|repeat constructor; discriminate]. }
    cbn [split_lines app parse_lines]. rewrite scan_line_cons. cbn [negb Ascii.eqb Bool.eqb andb tl].
    rewrite <- (app_nil_r l1) at 1. rewrite (scan_line_plain l1 P1).
    cbn [scan_line app]. rewrite ?flush_nil, F1.
    rewrite (scan_line_plain l2 P2). rewrite scan_line_cons.
    cbn [negb Ascii.eqb Bool.eqb andb tl scan_line app]. rewrite ?flush_nil, F2. reflexivity.
  - rewrite !list_ascii_of_string_app. fold l1. fold l2.
    change (list_ascii_of_string "**") with ["*"%char; "*"%char].
    change (list_ascii_of_string newline) with ["010"%char].
    rewrite (app_assoc ["*"%char; "*"%char] l1).
    rewrite (split_lines_plain (["*"%char; "*"%char] ++ l1) (Star l1 L1)).
    cbn [split_lines Ascii.eqb Bool.eqb app].
    rewrite <- (app_nil_r l2), split_lines_plain by exact L2.
    cbn [split_lines app parse_lines]. rewrite scan_line_cons. cbn [negb Ascii.eqb Bool.eqb andb tl].
    rewrite <- (app_nil_r l1) at 1. rewrite (scan_line_plain l1 P1).
    cbn [scan_line app]. rewrite ?flush_nil, F1.
    rewrite <- (app_nil_r l2), (scan_line_plain l2 P2).
    cbn [scan_line app]. rewrite F2. reflexivity.
Qed.

Lemma parse_formatted_lines_markers_witness :
  plain "ab" /\ plain "c"
  /\ _parse_formatted_lines "**ab**" = [[("ab"%string, true, false)]]
  /\ _parse_formatted_lines ("**" ++ "ab" ++ newline ++ "c" ++ "**")
     = [[("ab"%string, true, false)]; [("c"%string, true, false)]].
Proof.
  assert (P1 : plain "ab").
  { repeat constructor; intros E; discriminate E. }
  assert (P2 : plain "c").
  { repeat constructor; intros E; discriminate E. }
  assert (N1 : "ab"%string <> ""%string) by discriminate.
  assert (N2 : "c"%string <> ""%string) by discriminate.
  destruct (parse_formatted_lines_markers "ab" "c" P1 P2 N1 N2) as (_ & B & _ & _ & C & _).
  split; [exact P1|]. split; [exact P2|]. split; [exact B|exact C].
Defined.

Lemma find_free_position_general_witness :
  clear_of_nodes one_node_ws (500, 500)
  /\ _find_free_position one_node_ws 500 500 = (500, 500).
Proof.
  assert (C : clear_of_nodes one_node_ws (500, 500)).
  { apply _is_position_free_iff. vm_compute. reflexivity. }
  split; [exact C|].
  exact (proj1 (find_free_position_general one_node_ws 500 500) C).
Defined.

(** ** Node colours *)

Lemma _node_depth_loop_parent (s s' : Workspace) (fuel : nat) :
  parent s' = parent s ->
  forall depth current visited,
    _node_depth_loop fuel s' depth current visited
    = _node_depth_loop fuel s depth current visited.
Proof.
  intros P. induction fuel as [|fuel IH]; intros depth current visited; [reflexivity|].
  cbn [_node_depth_loop]. unfold parent_get. rewrite P.
  destruct (Dict.get (parent s) current) as [[p|]|]; try reflexivity.
  destruct (zmem p visited); [reflexivity|apply IH].
Qed.

Lemma _node_depth_parent (s s' : Workspace) (nid : Z) :
  parent s' = parent s -> _node_depth s' nid = _node_depth s nid.
Proof.
  intros P. unfold _node_depth. rewrite P. apply _node_depth_loop_parent. exact P.
Qed.

Lemma default_fill_truthy (d : Z) :
  truthy (Some (_default_fill_for_depth d)) = Some (_default_fill_for_depth d).
Proof.
  assert (F : Forall (fun c => String.eqb c ""%string = false) LEVEL_COLORS)
    by (repeat constructor).
  unfold _default_fill_for_depth. cbv iota beta delta [LEVEL_COLORS PALETTE_COLORS].
  fold PALETTE_COLORS. fold LEVEL_COLORS. set (i := Z.to_nat _).
  assert (E : String.eqb (nth i LEVEL_COLORS "white"%string) ""%string = false).
  { destruct (Nat.lt_ge_cases i (List.length LEVEL_COLORS)) as [L|G].
    - rewrite Forall_forall in F. apply F. apply nth_In. exact L.
    - rewrite nth_overflow by exact G. reflexivity. }
  unfold truthy. rewrite E. reflexivity.
Qed.

Lemma with_nodes_with_nodes (f g : Dict.t Z Node -> Dict.t Z Node) (s : Workspace) :
  with_nodes f (with_nodes g s) = with_nodes (fun d => f (g d)) s.
Proof. destruct s. reflexivity. Qed.

Lemma with_nodes_ext (f g : Dict.t Z Node -> Dict.t Z Node) (s : Workspace) :
  f (nodes s) = g (nodes s) -> with_nodes f s = with_nodes g s.
Proof. intros E. unfold with_nodes. rewrite E. reflexivity. Qed.

(** Fill, then flag, then [_update_node_fill]: the three steps that both
    colour commands run on a node that exists. *)
Lemma recolor_steps_run (nid : Z) (fill : string) (custom : bool) (s : Workspace) (n : Node) :
  Dict.get (nodes s) nid = Some n -> truthy (Some fill) = Some fill ->
  (update_node nid (node_with_fill (Some fill)) ;;;
   update_node nid (node_with_custom custom) ;;;
   _update_node_fill nid) s
  = (Val tt, with_nodes (fun d => Dict.set d nid (recolored fill custom n)) s).
Proof.
  intros G T. unfold bind at 1. rewrite update_node_run, G. cbn [fst snd].
  set (s1 := with_nodes _ s).
  assert (G1 : Dict.get (nodes s1) nid = Some (node_with_fill (Some fill) n)).
  { unfold s1. destruct s; simpl. apply get_set_same. }
  unfold bind at 1. rewrite update_node_run, G1. cbn [fst snd].
  set (s2 := with_nodes _ s1).
  assert (E2 : s2 = with_nodes (fun d => Dict.set d nid (recolored fill custom n)) s).
  { unfold s2, s1. rewrite with_nodes_with_nodes. apply with_nodes_ext.
    rewrite set_set. reflexivity. }
  assert (G2 : Dict.get (nodes s2) nid = Some (recolored fill custom n)).
  { rewrite E2. destruct s; simpl. apply get_set_same. }
  unfold _update_node_fill. unfold bind at 1. unfold gets at 1. cbn [fst snd].
  destruct (zmem nid (canvas_items s2)); cbn [negb]; [|unfold ret; rewrite E2; reflexivity].
  unfold bind at 1. unfold read at 1, node_at at 1. rewrite G2. cbn [of_option fst snd].
  unfold bind. unfold read, fill_or_default. cbn [n_fill recolored]. rewrite T.
  cbn [fst snd]. rewrite update_node_run, G2. f_equal.
  rewrite E2, with_nodes_with_nodes. apply with_nodes_ext. rewrite set_set. reflexivity.
Qed.

(** A loop whose body recolours the node it is given, if it exists. *)
Lemma recolor_loop (body : Z -> M Workspace unit) (fillf : Z -> string) (custom : bool)
  (ws0 : Workspace) :
  (forall nid s, parent s = parent ws0 ->
     body nid s =
     (Val tt, match Dict.get (nodes s) nid with
              | Some n => with_nodes
                            (fun d => Dict.set d nid (recolored (fillf nid) custom n)) s
              | None => s
              end)) ->
  forall (l : list Z) (s : Workspace),
    parent s = parent ws0 ->
    exists s',
      for_each l body s = (Val tt, s')
      /\ parent s' = parent s /\ root_id s' = root_id s /\ next_id s' = next_id s
      /\ same_view s s'
      /\ forall k, Dict.get (nodes s') k =
                   match Dict.get (nodes s) k with
                   | Some n => Some (if zmem k l then recolored (fillf k) custom n else n)
                   | None => None
                   end.
Proof.
  intros Hb. induction l as [|a l IH]; intros s P.
  - exists s. split; [reflexivity|]. repeat split.
    intros k. destruct (Dict.get (nodes s) k); reflexivity.
  - cbn [for_each]. unfold bind. rewrite (Hb a s P). cbn [fst snd].
    set (s1 := match Dict.get (nodes s) a with Some n => _ | None => s end).
    assert (P1 : parent s1 = parent s).
    { unfold s1. destruct (Dict.get (nodes s) a); [destruct s|]; reflexivity. }
    assert (F1 : root_id s1 = root_id s /\ next_id s1 = next_id s /\ same_view s s1).
    { unfold s1, same_view. destruct (Dict.get (nodes s) a); [destruct s|]; simpl; auto. }
    assert (N1 : forall k, Dict.get (nodes s1) k =
                           match Dict.get (nodes s) k with
                           | Some n => Some (if Z.eqb a k then recolored (fillf k) custom n
                                             else n)
                           | None => None
                           end).
    { intros k. unfold s1. destruct (Dict.get (nodes s) a) as [n|] eqn:G.
      - destruct s; simpl in *. rewrite get_set. change (keqb a k) with (Z.eqb a k).
        destruct (Z.eqb_spec a k) as [<-|N]; [rewrite G; reflexivity|].
        destruct (Dict.get nodes0 k); reflexivity.
      - destruct (Z.eqb_spec a k) as [<-|N]; [rewrite G; reflexivity|].
        destruct (Dict.get (nodes s) k); reflexivity. }
    destruct (IH s1 (eq_trans P1 P)) as (s' & E & P' & R' & X' & V' & N').
    destruct F1 as (R1 & X1 & V1).
    exists s'. split; [exact E|]. split; [congruence|]. split; [congruence|].
    split; [congruence|]. split; [eapply same_view_trans; eassumption|].
    intros k. rewrite N', N1. destruct (Dict.get (nodes s) k) as [n|]; [|reflexivity].
    f_equal. unfold zmem. cbn [existsb]. fold (zmem k l). rewrite (Z.eqb_sym k a).
    destruct (Z.eqb a k); destruct (zmem k l); cbn [orb]; reflexivity.
Qed.

Lemma _apply_node_color_run (color : string) (selected_ids : list Z)
  (context_node : option Z) (ws : Workspace) :
  truthy (Some color) = Some color ->
  exists s',
    _apply_node_color color selected_ids context_node ws = (Val tt, s')
    /\ parent s' = parent ws /\ root_id s' = root_id ws /\ next_id s' = next_id ws
    /\ same_view ws s'
    /\ forall k, Dict.get (nodes s') k =
                 match Dict.get (nodes ws) k with
                 | Some n => Some (if zmem k (color_targets selected_ids context_node)
                                   then recolored color true n else n)
                 | None => None
                 end.
Proof.
  intros T. unfold _apply_node_color.
  apply (recolor_loop _ (fun _ => color) true ws); [|reflexivity].
  intros nid s _. unfold bind at 1. unfold gets at 1. cbn [fst snd]. unfold Dict.mem.
  destruct (Dict.get (nodes s) nid) as [n|] eqn:G; [|reflexivity].
  cbn [negb]. apply recolor_steps_run; assumption.
Qed.

Lemma _reset_node_color_run (selected_ids : list Z) (context_node : option Z)
  (ws : Workspace) :
  exists s',
    _reset_node_color selected_ids context_node ws = (Val tt, s')
    /\ parent s' = parent ws /\ root_id s' = root_id ws /\ next_id s' = next_id ws
    /\ same_view ws s'
    /\ forall k, Dict.get (nodes s') k =
                 match Dict.get (nodes ws) k with
                 | Some n => Some (if zmem k (color_targets selected_ids context_node)
                                   then recolored (depth_color ws k) false n else n)
                 | None => None
                 end.
Proof.
  unfold _reset_node_color.
  apply (recolor_loop _ (depth_color ws) false ws); [|reflexivity].
  intros nid s P. unfold bind at 1. unfold gets at 1. cbn [fst snd]. unfold Dict.mem.
  destruct (Dict.get (nodes s) nid) as [n|] eqn:G; [|reflexivity].
  cbn [negb]. unfold bind at 1. unfold read at 1. cbn [fst snd].
  unfold depth_color. rewrite (_node_depth_parent ws s nid P).
  destruct (_node_depth_total ws nid) as [d ->].
  apply recolor_steps_run; [exact G|apply default_fill_truthy].
Qed.

Lemma truthy_nonempty (color : string) :
  color <> ""%string -> truthy (Some color) = Some color.
Proof.
  intros N. unfold truthy. apply String.eqb_neq in N. rewrite N. reflexivity.
Qed.

(** Applying a colour from the palette: the command never raises, also
    when a target is not a node; every target that is a node gets the
    colour as its fill and its custom flag set, and nothing else of it
    changes; all other nodes, the parent map and the view are untouched.
    A later auto-layout leaves the applied colour in place. *)
Theorem apply_node_color_effect (color : string) (selected_ids : list Z)
  (context_node : option Z) (ws : Workspace) :
  color <> ""%string ->
  let r := _apply_node_color color selected_ids context_node ws in
  let targets := color_targets selected_ids context_node in
  fst r = Val tt
  /\ (forall k, Dict.get (nodes (snd r)) k =
                match Dict.get (nodes ws) k with
                | Some n => Some (if zmem k targets then recolored color true n else n)
                | None => None
                end)
  /\ parent (snd r) = parent ws /\ root_id (snd r) = root_id ws
  /\ same_view ws (snd r)
  /\ (forall tk fuel k,
        In k targets -> Dict.mem (nodes ws) k = true ->
        exists n', Dict.get (nodes (snd (auto_layout tk fuel (snd r)))) k = Some n'
                   /\ n_fill n' = Some color /\ n_custom n' = true).
Proof.
  intros N. cbv zeta.
  destruct (_apply_node_color_run color selected_ids context_node ws (truthy_nonempty _ N))
    as (s' & E & P & R & _ & V & G).
  rewrite E. cbn [fst snd].
  split; [reflexivity|]. split; [exact G|]. split; [exact P|]. split; [exact R|].
  split; [exact V|].
  intros tk fuel k I M. destruct (mem_get_some _ _ M) as [n Gn].
  pose proof (G k) as Gk. rewrite Gn in Gk.
  replace (zmem k (color_targets selected_ids context_node)) with true in Gk
    by (symmetry; apply zmem_true_iff; exact I).
  destruct (auto_layout_layout_frame tk fuel s') as (NF & _).
  pose proof (nodes_frame_get _ _ k NF) as F. rewrite Gk in F.
  destruct (Dict.get (nodes (snd (auto_layout tk fuel s'))) k) as [n'|]; [|contradiction].
  destruct F as (_ & _ & _ & _ & C & Fl).
  exists n'. split; [reflexivity|]. split; [apply (Fl eq_refl)|exact C].
Qed.

Lemma apply_node_color_effect_witness :
  exists n,
    Dict.get (nodes (snd (_apply_node_color "#FFF49A" [2%Z] None pair_ws))) 2%Z = Some n
    /\ n_fill n = Some "#FFF49A"%string /\ n_custom n = true.
Proof.
  assert (N : "#FFF49A"%string <> ""%string) by discriminate.
  destruct (apply_node_color_effect "#FFF49A" [2%Z] None pair_ws N) as (_ & G & _).
  eexists. split; [rewrite (G 2%Z); reflexivity|]. split; reflexivity.
Defined.

(** Resetting the colour: the command never raises; every target that is
    a node gets the colour of its depth and its custom flag cleared, with
    nothing else changed; and it undoes a colour that was applied before:
    reset after apply leaves the nodes that reset alone leaves. *)
Theorem reset_node_color_effect (selected_ids : list Z) (context_node : option Z)
  (ws : Workspace) :
  let r := _reset_node_color selected_ids context_node ws in
  let targets := color_targets selected_ids context_node in
  fst r = Val tt
  /\ (forall k, Dict.get (nodes (snd r)) k =
                match Dict.get (nodes ws) k with
                | Some n => Some (if zmem k targets
                                  then recolored (depth_color ws k) false n else n)
                | None => None
                end)
  /\ parent (snd r) = parent ws /\ root_id (snd r) = root_id ws
  /\ (forall color k,
        color <> ""%string ->
        Dict.get (nodes (snd (_reset_node_color selected_ids context_node
                                (snd (_apply_node_color color selected_ids context_node ws)))))
                 k
        = Dict.get (nodes (snd r)) k).
Proof.
  cbv zeta.
  destruct (_reset_node_color_run selected_ids context_node ws)
    as (s' & E & P & R & _ & _ & G).
  rewrite E. cbn [fst snd].
  split; [reflexivity|]. split; [exact G|]. split; [exact P|]. split; [exact R|].
  intros color k N.
  destruct (_apply_node_color_run color selected_ids context_node ws (truthy_nonempty _ N))
    as (s1 & E1 & P1 & _ & _ & _ & G1).
  rewrite E1. cbn [snd].
  destruct (_reset_node_color_run selected_ids context_node s1)
    as (s2 & E2 & _ & _ & _ & _ & G2).
  rewrite E2. cbn [snd]. rewrite G2, G1, G.
  assert (D : depth_color s1 k = depth_color ws k).
  { unfold depth_color. rewrite (_node_depth_parent ws s1 k P1). reflexivity. }
  rewrite D. destruct (Dict.get (nodes ws) k) as [n|]; [|reflexivity].
  destruct (zmem k (color_targets selected_ids context_node)); reflexivity.
Qed.

(** ** Redraw *)

Section DictPop.
Context {K V : Type} `{KeyLaws K}.

Lemma keqb_sym (k k' : K) : keqb k k' = keqb k' k.
Proof.
  destruct (keqb_dec k k') as [->|N]; [reflexivity|].
  rewrite (keqb_neq k k' N). symmetry. apply keqb_neq. congruence.
Qed.

Lemma keys_pop_subset (d : Dict.t K V) (k x : K) :
  In x (Dict.keys (Dict.pop d k)) -> In x (Dict.keys d).
Proof.
  unfold Dict.keys. induction d as [|[k' v'] d IH]; simpl; [auto|].
  destruct (keqb k' k); simpl; tauto.
Qed.

Lemma NoDup_keys_pop_gen (d : Dict.t K V) (k : K) :
  NoDup (Dict.keys d) -> NoDup (Dict.keys (Dict.pop d k)).
Proof.
  unfold Dict.keys. induction d as [|[k' v'] d IH]; simpl; [auto|].
  intros ND. inversion ND as [|? ? NI ND']; subst.
  destruct (keqb k' k); simpl; [exact ND'|].
  constructor; [|apply IH; exact ND'].
  intros I. apply NI. apply (keys_pop_subset d k k' I).
Qed.

Lemma NoDup_keys_set_gen (d : Dict.t K V) (k : K) (v : V) :
  NoDup (Dict.keys d) -> NoDup (Dict.keys (Dict.set d k v)).
Proof.
  intros ND. destruct (Dict.mem d k) eqn:M.
  - rewrite keys_set_present by exact M. exact ND.
  - rewrite keys_set_absent by exact M.
    apply NoDup_app; [exact ND|repeat constructor; intros []|].
    intros a Ia [<-|[]]. apply mem_true_iff in Ia. congruence.
Qed.

Lemma mem_pop (d : Dict.t K V) (k x : K) :
  NoDup (Dict.keys d) ->
  Dict.mem (Dict.pop d k) x = Dict.mem d x && negb (keqb k x).
Proof.
  intros ND. unfold Dict.mem. destruct (keqb_dec k x) as [->|N].
  - rewrite get_pop_same by exact ND. rewrite keqb_refl, andb_false_r. reflexivity.
  - rewrite get_pop_other by exact N. rewrite (keqb_neq k x N), andb_true_r. reflexivity.
Qed.

Lemma mem_set (d : Dict.t K V) (k x : K) (v : V) :
  Dict.mem (Dict.set d k v) x = keqb k x || Dict.mem d x.
Proof.
  unfold Dict.mem. rewrite get_set. destruct (keqb k x); reflexivity.
Qed.
End DictPop.

(** The loop of [redraw] that forgets the offsets of edges that are gone. *)
Lemma prune_run (edges : list (Z * Z)) (keys : list (Z * Z)) :
  forall s : Workspace,
    NoDup (Dict.keys (edge_offsets s)) ->
    exists s',
      for_each keys (fun key =>
        if negb (edge_mem key edges)
        then modify (with_edge_offsets (fun d => Dict.pop d key))
        else ret tt) s = (Val tt, s')
      /\ only_offsets s s'
      /\ NoDup (Dict.keys (edge_offsets s'))
      /\ forall key, Dict.mem (edge_offsets s') key
                     = Dict.mem (edge_offsets s) key
                       && negb (existsb (keqb key) keys && negb (edge_mem key edges)).
Proof.
  induction keys as [|a keys IH]; intros s ND.
  - exists s. split; [reflexivity|]. split; [apply only_offsets_refl|]. split; [exact ND|].
    intros key. cbn. rewrite andb_true_r. reflexivity.
  - cbn [for_each]. unfold bind. destruct (edge_mem a edges) eqn:Ea; cbn [negb].
    + unfold ret. cbn [fst snd]. destruct (IH s ND) as (s' & E & O & ND' & M).
      exists s'. split; [exact E|]. split; [exact O|]. split; [exact ND'|].
      intros key. rewrite M. cbn [existsb]. f_equal.
      destruct (keqb_dec key a) as [->|N].
      * rewrite keqb_refl, Ea. cbn. rewrite andb_false_r. reflexivity.
      * rewrite (keqb_neq key a N). reflexivity.
    + unfold modify. cbn [fst snd].
      set (s1 := with_edge_offsets _ s).
      assert (ND1 : NoDup (Dict.keys (edge_offsets s1))).
      { unfold s1. cbn [edge_offsets with_edge_offsets]. apply NoDup_keys_pop_gen. exact ND. }
      destruct (IH s1 ND1) as (s' & E & O & ND' & M).
      exists s'. split; [exact E|]. split.
      { eapply only_offsets_trans; [apply only_offsets_with|exact O]. }
      split; [exact ND'|].
      intros key. rewrite M.
      assert (M1 : Dict.mem (edge_offsets s1) key
                   = Dict.mem (edge_offsets s) key && negb (keqb a key)).
      { unfold s1. cbn [edge_offsets with_edge_offsets]. apply mem_pop. exact ND. }
      rewrite M1. cbn [existsb]. rewrite (keqb_sym key a).
      destruct (keqb_dec a key) as [<-|N].
      * rewrite keqb_refl, Ea. cbn. rewrite !andb_false_r. reflexivity.
      * rewrite (keqb_neq a key N). cbn. rewrite andb_true_r. reflexivity.
Qed.

Lemma _render_edge_missing (ws : Workspace) (pid cid : Z) (drawn : list DrawnPath)
  (pnode : Node) :
  Dict.get (nodes ws) pid = Some pnode -> Dict.get (nodes ws) cid = None ->
  _render_edge pid cid drawn ws = (Exc KeyError, ws).
Proof.
  intros Gp Gc. unfold _render_edge, bind, read, edge_endpoints.
  rewrite (_node_center_val ws pid pnode Gp). cbn [obind].
  unfold _node_center, node_at. rewrite Gc. reflexivity.
Qed.

Lemma render_edges_outcome (edges : list (Z * Z)) :
  forall (drawn : list DrawnPath) (s : Workspace),
    (forall pid cid, In (pid, cid) edges -> Dict.mem (nodes s) pid = true) ->
    let r := render_edges edges drawn s in
    if forallb (fun e => Dict.mem (nodes s) (snd e)) edges
    then fst r = Val tt
         /\ forall key, Dict.mem (edge_offsets (snd r)) key
                        = edge_mem key edges || Dict.mem (edge_offsets s) key
    else fst r = Exc KeyError.
Proof.
  induction edges as [|[pid cid] edges IH]; intros drawn s Hp; cbv zeta.
  - cbn. split; [reflexivity|]. intros key. reflexivity.
  - cbn [forallb snd render_edges]. unfold bind.
    destruct (mem_get_some _ _ (Hp pid cid (or_introl eq_refl))) as [pnode Gp].
    destruct (Dict.mem (nodes s) cid) eqn:Mc; cbn [andb].
    + destruct (mem_get_some _ _ Mc) as [cnode Gc].
      rewrite (_render_edge_run s pid cid drawn pnode cnode Gp Gc). cbn [fst snd].
      set (s1 := with_edge_offsets _ s). set (drawn1 := drawn ++ _).
      assert (N1 : nodes s1 = nodes s) by reflexivity.
      assert (Hp1 : forall p c, In (p, c) edges -> Dict.mem (nodes s1) p = true).
      { intros p c I. rewrite N1. apply (Hp p c). right. exact I. }
      specialize (IH drawn1 s1 Hp1). cbv zeta in IH. rewrite N1 in IH.
      destruct (forallb (fun e => Dict.mem (nodes s) (snd e)) edges); [|exact IH].
      destruct IH as [V M]. split; [exact V|].
      intros key. rewrite M. unfold edge_mem. cbn [existsb].
      assert (M1 : Dict.mem (edge_offsets s1) key
                   = keqb (pid, cid) key || Dict.mem (edge_offsets s) key).
      { unfold s1. cbn [edge_offsets with_edge_offsets]. apply mem_set. }
      rewrite M1, (keqb_sym key (pid, cid)).
      destruct (keqb (pid, cid) key); destruct (existsb (keqb key) edges);
        destruct (Dict.mem (edge_offsets s) key); reflexivity.
    + unfold Dict.mem in Mc. destruct (Dict.get (nodes s) cid) eqn:Gc; [discriminate|].
      rewrite (_render_edge_missing s pid cid drawn pnode Gp Gc). reflexivity.
Qed.


Lemma redraw_run (ws : Workspace) :
  NoDup (Dict.keys (edge_offsets ws)) ->
  exists s1,
    redraw ws = render_edges (_edges ws) [] s1
    /\ nodes s1 = nodes ws
    /\ forall key, Dict.mem (edge_offsets s1) key
                   = Dict.mem (edge_offsets ws) key
                     && negb (existsb (keqb key) (Dict.keys (edge_offsets ws))
                              && negb (edge_mem key (_edges ws))).
Proof.
  intros ND. unfold redraw. unfold bind at 1. unfold read at 1.
  rewrite _refresh_all_positions_val. cbn [fst snd].
  unfold bind at 1. unfold gets at 1. cbn [fst snd].
  unfold bind at 1. unfold gets at 1. cbn [fst snd].
  destruct (prune_run (_edges ws) (Dict.keys (edge_offsets ws)) ws ND)
    as (s1 & E & O & ND1 & M1).
  unfold bind. rewrite E. cbn [fst snd].
  exists s1. split; [reflexivity|]. split; [rewrite O; destruct ws; reflexivity|exact M1].
Qed.



(** ** What auto-layout computes *)

Lemma place_node_run (root_id : Z) (base_x base_y : Q) (directions depths : Dict.t Z Z)
  (slots : Dict.t Z Q) (nid : Z) (s : Workspace) (n : Node) :
  Dict.get (nodes s) nid = Some n ->
  place_node root_id base_x base_y directions depths slots
    (opt_default 0 (Dict.get slots root_id)) nid s
  = (Val tt, with_nodes
               (fun d => Dict.set d nid
                           (placed root_id base_x base_y directions depths slots nid n)) s).
Proof.
  intros G. unfold place_node. cbv zeta.
  set (depth := opt_default 0%Z (Dict.get depths nid)).
  set (x := if (_ <? 0)%Z then _ else _). set (y := base_y + _).
  unfold bind at 1. rewrite update_node_run, G. cbn [fst snd].
  set (s1 := with_nodes _ s).
  assert (G1 : Dict.get (nodes s1) nid = Some (node_with_xy x y n)).
  { unfold s1. destruct s; simpl. apply get_set_same. }
  unfold bind at 1. unfold read at 1, node_at at 1. rewrite G1. cbn [of_option fst snd].
  assert (E1 : forall m, with_nodes (fun d => Dict.set d nid m) s1
                         = with_nodes (fun d => Dict.set d nid m) s).
  { intros m. unfold s1. rewrite with_nodes_with_nodes. apply with_nodes_ext.
    apply set_set. }
  cbn [n_custom node_with_xy]. unfold placed. cbv zeta. fold depth. fold x.
  unfold layout_x. fold x. fold y.
  destruct (n_custom n) eqn:C; cbn [negb].
  - unfold ret. f_equal. unfold s1. apply with_nodes_ext. f_equal.
    unfold node_with_xy. rewrite C. reflexivity.
  - unfold bind at 1. rewrite update_node_run, G1. cbn [fst snd].
    set (s2 := with_nodes _ s1).
    assert (G2 : Dict.get (nodes s2) nid
                 = Some (node_with_fill (Some (_default_fill_for_depth depth))
                           (node_with_xy x y n))).
    { unfold s2. destruct s1; simpl. apply get_set_same. }
    assert (U : _update_node_fill nid s2 = (Val tt, s2)).
    { unfold _update_node_fill. unfold bind at 1. unfold gets at 1. cbn [fst snd].
      destruct (zmem nid (canvas_items s2)); cbn [negb]; [|reflexivity].
      unfold bind at 1. unfold read at 1, node_at at 1. rewrite G2.
      cbn [of_option fst snd]. unfold bind, read, fill_or_default.
      cbn [n_fill node_with_fill]. rewrite default_fill_truthy. cbn [fst snd].
      rewrite update_node_run, G2. f_equal. unfold s2.
      rewrite with_nodes_with_nodes. destruct s1. unfold with_nodes. simpl. f_equal.
      rewrite set_set. reflexivity. }
    rewrite U. f_equal. unfold s2. rewrite E1. apply with_nodes_ext. f_equal.
    unfold node_with_fill, node_with_xy. cbn. rewrite C. reflexivity.
Qed.

(** A loop over distinct ids whose body rewrites the node it is given. *)
Lemma own_node_loop (body : Z -> M Workspace unit) (g : Z -> Node -> Node) :
  (forall nid s n, Dict.get (nodes s) nid = Some n ->
     body nid s = (Val tt, with_nodes (fun d => Dict.set d nid (g nid n)) s)) ->
  forall (l : list Z) (s : Workspace),
    NoDup l -> (forall k, In k l -> Dict.mem (nodes s) k = true) ->
    exists s',
      for_each l body s = (Val tt, s')
      /\ parent s' = parent s /\ root_id s' = root_id s /\ next_id s' = next_id s
      /\ canvas_items s' = canvas_items s /\ edge_offsets s' = edge_offsets s
      /\ same_view s s'
      /\ forall k, Dict.get (nodes s') k =
                   match Dict.get (nodes s) k with
                   | Some n => Some (if zmem k l then g k n else n)
                   | None => None
                   end.
Proof.
  intros Hb. induction l as [|a l IH]; intros s ND Hm.
  - exists s. split; [reflexivity|]. repeat split.
    intros k. destruct (Dict.get (nodes s) k); reflexivity.
  - inversion ND as [|? ? NI ND']; subst.
    destruct (mem_get_some _ _ (Hm a (or_introl eq_refl))) as [n G].
    cbn [for_each]. unfold bind. rewrite (Hb a s n G). cbn [fst snd].
    set (s1 := with_nodes _ s).
    assert (N1 : forall k, Dict.get (nodes s1) k
                           = if Z.eqb a k then Some (g a n) else Dict.get (nodes s) k).
    { intros k. unfold s1. cbn [nodes with_nodes]. rewrite get_set. reflexivity. }
    destruct (IH s1 ND') as (s' & E & P' & R' & X' & C' & O' & V' & N').
    { intros k I. unfold Dict.mem. rewrite N1. destruct (Z.eqb a k); [reflexivity|].
      apply (Hm k). right. exact I. }
    exists s'. split; [exact E|].
    split; [rewrite P'; reflexivity|]. split; [rewrite R'; reflexivity|].
    split; [rewrite X'; reflexivity|]. split; [rewrite C'; reflexivity|].
    split; [rewrite O'; reflexivity|].
    split; [eapply same_view_trans; [|exact V']; unfold same_view, s1; destruct s; simpl; auto|].
    intros k. rewrite N', N1. unfold zmem. cbn [existsb]. fold (zmem k l).
    rewrite (Z.eqb_sym k a).
    destruct (Z.eqb_spec a k) as [<-|N].
    + rewrite G. cbn [orb].
      replace (zmem a l) with false by (symmetry; apply zmem_false_iff; exact NI).
      reflexivity.
    + destruct (Dict.get (nodes s) k); reflexivity.
Qed.

(** [auto_layout] up to its final [redraw], for the tables that its three
    passes compute. *)
Lemma auto_layout_run (tk : Tk) (fuel : nat) (ws : Workspace) (root : Z)
  (directions depths : Dict.t Z Z) (slots : Dict.t Z Q) :
  NoDup (Dict.keys (nodes ws)) ->
  layout_root ws = Some root ->
  _assign_directions fuel ws root = Val directions ->
  _compute_depths fuel ws root = Val depths ->
  _compute_vertical_slots ws root directions depths = Val slots ->
  exists s1,
    auto_layout tk fuel ws = redraw s1
    /\ parent s1 = parent ws /\ root_id s1 = root_id ws
    /\ edge_offsets s1 = edge_offsets ws /\ same_view ws s1
    /\ forall k, Dict.get (nodes s1) k =
                 match Dict.get (nodes ws) k with
                 | Some n => Some (placed root (fst (layout_base tk ws)) (snd (layout_base tk ws))
                                     directions depths slots k n)
                 | None => None
                 end.
Proof.
  intros ND Hr Hd Hp Hs. unfold auto_layout.
  unfold bind at 1. unfold gets at 1. cbn [fst snd].
  unfold layout_root in Hr.
  destruct (Dict.first_key (nodes ws)) as [first|]; [|discriminate Hr].
  inversion Hr as [Hroot]. clear Hr.
  unfold bind at 1. unfold gets at 1. cbn [fst snd]. rewrite Hroot.
  unfold bind at 1. unfold gets at 1. cbn [fst snd].
  fold (layout_base tk ws). destruct (layout_base tk ws) as [base_x base_y]. cbn [fst snd].
  unfold bind at 1. unfold read at 1. rewrite Hd. cbn [fst snd].
  unfold bind at 1. unfold read at 1. rewrite Hp. cbn [fst snd].
  unfold bind at 1. unfold read at 1. rewrite Hs. cbn [fst snd].
  destruct (own_node_loop
              (place_node root base_x base_y directions depths slots
                 (opt_default 0 (Dict.get slots root)))
              (placed root base_x base_y directions depths slots)
              (fun nid s n G => place_node_run root base_x base_y directions depths slots
                                  nid s n G)
              (Dict.keys (nodes ws)) ws ND)
    as (s1 & E & P & R & _ & _ & O & V & N).
  { intros k I. apply mem_true_iff. exact I. }
  unfold bind. rewrite E. cbn [fst snd].
  exists s1. split; [reflexivity|]. split; [exact P|]. split; [exact R|].
  split; [exact O|]. split; [exact V|].
  intros k. rewrite N. destruct (Dict.get (nodes ws) k) as [n|] eqn:G; [|reflexivity].
  replace (zmem k (Dict.keys (nodes ws))) with true; [reflexivity|].
  symmetry. apply zmem_true_iff. eapply get_some_in_keys. exact G.
Qed.

Lemma get_setdefault_keep {V : Type} (d : Dict.t Z V) (k x : Z) (v w : V) :
  Dict.get d x = Some v -> Dict.get (Dict.setdefault d k w) x = Some v.
Proof.
  intros G. unfold Dict.setdefault. destruct (Dict.mem d k) eqn:M; [exact G|].
  rewrite get_set_other; [exact G|]. intros ->. unfold Dict.mem in M. rewrite G in M.
  discriminate M.
Qed.

Lemma get_fold_setdefault_keep {V : Type} (f : Z -> V) (l : list Z) :
  forall (d : Dict.t Z V) (x : Z) (v : V),
    Dict.get d x = Some v ->
    Dict.get (fold_left (fun d nid => Dict.setdefault d nid (f nid)) l d) x = Some v.
Proof.
  induction l as [|a l IH]; intros d x v G; [exact G|].
  cbn [fold_left]. apply IH. apply get_setdefault_keep. exact G.
Qed.

Lemma get_fold_set_const_other {V : Type} (l : list Z) (v : V) :
  forall (d : Dict.t Z V) (x : Z),
    ~ In x l ->
    Dict.get (fold_left (fun d c => Dict.set d c v) l d) x = Dict.get d x.
Proof.
  induction l as [|a l IH]; intros d x NI; [reflexivity|].
  cbn [fold_left]. rewrite IH by (intros I; apply NI; right; exact I).
  apply get_set_other. intros ->. apply NI. left. reflexivity.
Qed.

Lemma get_fold_enumerate_other {V : Type} (f : Z -> V) (l : list Z) :
  forall (i : Z) (d : Dict.t Z V) (x : Z),
    ~ In x l ->
    Dict.get (fold_left (fun d '(index, child) => Dict.set d child (f index))
                (enumerate_from i l) d) x = Dict.get d x.
Proof.
  induction l as [|a l IH]; intros i d x NI; [reflexivity|].
  cbn [enumerate_from fold_left]. rewrite IH by (intros I; apply NI; right; exact I).
  apply get_set_other. intros ->. apply NI. left. reflexivity.
Qed.

Lemma node_at_children (ws : Workspace) (nid : Z) (n : Node) :
  node_at ws nid = Val n -> n_children n = children_of ws nid.
Proof.
  unfold node_at, children_of. destruct (Dict.get (nodes ws) nid); [|discriminate].
  intros E. inversion E. reflexivity.
Qed.

(** The direction of a root that is nobody's child stays 0. *)
Lemma _assign_directions_loop_root (ws : Workspace) (root : Z) (fuel : nat) :
  (forall p, ~ In root (children_of ws p)) ->
  forall directions queue res,
    Dict.get directions root = Some 0%Z ->
    _assign_directions_loop fuel ws directions queue = Val res ->
    Dict.get res root = Some 0%Z.
Proof.
  intros Hr. induction fuel as [|fuel IH]; intros directions queue res G E;
    [discriminate E|].
  cbn [_assign_directions_loop] in E.
  destruct (pop_first queue) as [[nid queue']|]; [|inversion E; subst; exact G].
  destruct (node_at ws nid) as [node|e|] eqn:En; cbn [obind] in E; try discriminate E.
  refine (IH _ _ _ _ E). rewrite get_fold_set_const_other; [exact G|].
  rewrite (node_at_children ws nid node En). apply Hr.
Qed.

Lemma _assign_directions_root (ws : Workspace) (root : Z) (fuel : nat) (res : Dict.t Z Z) :
  (forall p, ~ In root (children_of ws p)) ->
  _assign_directions fuel ws root = Val res -> Dict.get res root = Some 0%Z.
Proof.
  intros Hr E. unfold _assign_directions in E.
  destruct (node_at ws root) as [rnode|e|] eqn:En; cbn [obind] in E; try discriminate E.
  cbv zeta in E.
  destruct (_assign_directions_loop fuel ws _ (n_children rnode)) as [dirs|e|] eqn:El;
    cbn [obind] in E; try discriminate E.
  inversion E.
  apply (get_fold_setdefault_keep (fun nid => if negb (Z.eqb nid root) then 1%Z else 0%Z)).
  refine (_assign_directions_loop_root ws root fuel Hr _ _ _ _ El).
  unfold enumerate. rewrite get_fold_enumerate_other.
  - cbn [Dict.get]. change (keqb root root) with (Z.eqb root root). rewrite Z.eqb_refl. reflexivity.
  - rewrite (node_at_children ws root rnode En). apply Hr.
Qed.

Lemma auto_layout_val_tables (tk : Tk) (fuel : nat) (ws : Workspace) (root : Z) :
  layout_root ws = Some root ->
  fst (auto_layout tk fuel ws) = Val tt ->
  exists directions depths slots,
    _assign_directions fuel ws root = Val directions
    /\ _compute_depths fuel ws root = Val depths
    /\ _compute_vertical_slots ws root directions depths = Val slots.
Proof.
  intros Hr. unfold auto_layout.
  unfold bind at 1. unfold gets at 1. cbn [fst snd].
  unfold layout_root in Hr.
  destruct (Dict.first_key (nodes ws)) as [first|]; [|discriminate Hr].
  inversion Hr as [Hroot]. clear Hr.
  unfold bind at 1. unfold gets at 1. cbn [fst snd]. rewrite Hroot.
  unfold bind at 1. unfold gets at 1. cbn [fst snd].
  destruct (_from_canvas_point ws _ _) as [base_x base_y].
  unfold bind at 1. unfold read at 1.
  destruct (_assign_directions fuel ws root) as [directions|e|] eqn:Hd; cbn [fst snd];
    try (intros D; discriminate D).
  unfold bind at 1. unfold read at 1.
  destruct (_compute_depths fuel ws root) as [depths|e|] eqn:Hp; cbn [fst snd];
    try (intros D; discriminate D).
  unfold bind at 1. unfold read at 1.
  destruct (_compute_vertical_slots ws root directions depths) as [slots|e|] eqn:Hs;
    cbn [fst snd]; try (intros D; discriminate D).
  intros _. exists directions, depths, slots. split; [reflexivity|]. split; [reflexivity|exact Hs].
Qed.

(** Where auto-layout puts the nodes.  With the direction, depth and slot
    tables that its three passes compute from the tree, the node loop
    gives every node the position of the layout formula: [depth] columns
    to the left or right of the base point according to the direction,
    and [slot - root slot] rows below it; a node without custom colour
    gets the colour of its depth.  The tables are computed before any node
    moves, and the loop visits every node once. *)
Theorem auto_layout_positions (tk : Tk) (fuel : nat) (ws : Workspace) (root : Z)
  (directions depths : Dict.t Z Z) (slots : Dict.t Z Q) :
  NoDup (Dict.keys (nodes ws)) ->
  layout_root ws = Some root ->
  _assign_directions fuel ws root = Val directions ->
  _compute_depths fuel ws root = Val depths ->
  _compute_vertical_slots ws root directions depths = Val slots ->
  forall k, Dict.get (nodes (snd (auto_layout tk fuel ws))) k =
            match Dict.get (nodes ws) k with
            | Some n => Some (placed root (fst (layout_base tk ws)) (snd (layout_base tk ws))
                                directions depths slots k n)
            | None => None
            end.
Proof.
  intros ND Hr Hd Hp Hs k.
  destruct (auto_layout_run tk fuel ws root directions depths slots ND Hr Hd Hp Hs)
    as (s1 & E & _ & _ & _ & _ & N).
  rewrite E. destruct (redraw_fields s1) as (Rn & _). rewrite Rn. apply N.
Qed.

(** Auto-layout centres the root: when the layout completes and the root
    is in no children list, the root ends exactly at the logical point of
    the canvas centre, and with a non-zero scale its centre on the canvas
    is the canvas centre (the canvas counting as at least two nodes wide
    and high). *)
Theorem auto_layout_centres_root (tk : Tk) (fuel : nat) (ws : Workspace) (root : Z) :
  NoDup (Dict.keys (nodes ws)) ->
  layout_root ws = Some root ->
  (forall p, ~ In root (children_of ws p)) ->
  fst (auto_layout tk fuel ws) = Val tt ->
  let ws' := snd (auto_layout tk fuel ws) in
  exists n',
    Dict.get (nodes ws') root = Some n'
    /\ point_eq (n_x n', n_y n') (layout_base tk ws)
    /\ (~ scale ws == 0 ->
        point_eq (_to_canvas_point ws' (n_x n') (n_y n'))
                 (Qmax (of_int (winfo_width tk)) (NODE_W * 2) / 2,
                  Qmax (of_int (winfo_height tk)) (NODE_H * 2) / 2)).
Proof.
  intros ND Hr Hc V. cbv zeta.
  destruct (auto_layout_val_tables tk fuel ws root Hr V)
    as (directions & depths & slots & Hd & Hp & Hs).
  pose proof (auto_layout_positions tk fuel ws root directions depths slots
                ND Hr Hd Hp Hs root) as G.
  assert (Mr : exists n, Dict.get (nodes ws) root = Some n).
  { unfold _assign_directions in Hd. unfold node_at in Hd.
    destruct (Dict.get (nodes ws) root) as [n|]; [eauto|discriminate Hd]. }
  destruct Mr as [n Gn]. rewrite Gn in G.
  eexists. split; [exact G|].
  assert (X : n_x (placed root (fst (layout_base tk ws)) (snd (layout_base tk ws))
                     directions depths slots root n) = fst (layout_base tk ws)).
  { unfold placed. cbv zeta. cbn [n_x].
    rewrite (_assign_directions_root ws root fuel directions Hc Hd). reflexivity. }
  assert (Y : n_y (placed root (fst (layout_base tk ws)) (snd (layout_base tk ws))
                     directions depths slots root n) == snd (layout_base tk ws)).
  { unfold placed. cbv zeta. cbn [n_y].
    destruct (Dict.get slots root); cbn [opt_default]; ring. }
  split; [split; cbn [fst snd]; [rewrite X; reflexivity|exact Y]|].
  intros Ns.
  destruct (auto_layout_layout_frame tk fuel ws) as (_ & _ & _ & _ & _ & _ & S & Ox & Oy).
  unfold _to_canvas_point, point_eq. cbn [fst snd]. rewrite S, Ox, Oy, X, Y.
  unfold layout_base, _from_canvas_point.
  apply Qeqb_neq in Ns. rewrite Ns. apply Qeqb_neq in Ns. cbn [fst snd].
  split; field; exact Ns.
Qed.

Lemma auto_layout_positions_witness :
  exists n',
    Dict.get (nodes (snd (auto_layout example_tk 5 pair_ws))) 2%Z = Some n'
    /\ n_x n' == 180 /\ n_y n' == 300.
Proof.
  assert (ND : NoDup (Dict.keys (nodes pair_ws))).
  { repeat constructor; cbn; intuition discriminate. }
  pose proof (auto_layout_positions example_tk 5 pair_ws 1%Z _ _ _ ND
                eq_refl eq_refl eq_refl eq_refl 2%Z) as G.
  eexists. split; [exact G|]. split; vm_compute; reflexivity.
Defined.

Lemma auto_layout_centres_root_witness :
  exists n',
    Dict.get (nodes (snd (auto_layout example_tk 5 one_node_ws))) 1%Z = Some n'
    /\ point_eq (n_x n', n_y n') (400, 300).
Proof.
  assert (ND : NoDup (Dict.keys (nodes one_node_ws))).
  { repeat constructor; cbn; intuition. }
  assert (Hc : forall p, ~ In 1%Z (children_of one_node_ws p)).
  { intros p. unfold children_of, one_node_ws. cbn [nodes Dict.get keqb Key_Z].
    destruct (Z.eqb 1 p); intros []. }
  assert (V : fst (auto_layout example_tk 5 one_node_ws) = Val tt)
    by (vm_compute; reflexivity).
  destruct (auto_layout_centres_root example_tk 5 one_node_ws 1%Z ND eq_refl Hc V)
    as (n' & G & P & _).
  exists n'. split; [exact G|]. destruct P as [Px Py].
  split; cbn [fst snd] in *;
    [eapply Qeq_trans; [exact Px|]|eapply Qeq_trans; [exact Py|]]; vm_compute; reflexivity.
Defined.

(** ** Loading a document *)

Lemma load_nodes_run (raw : list (Z * NodeDoc)) :
  forall (max_id : Z) (s : Workspace),
    exists s',
      load_nodes raw max_id s = (Val (fold_left Z.max (map fst raw) max_id), s')
      /\ nodes s' = fold_left (fun d kv => Dict.set d (fst kv) (loaded_node (snd kv)))
                      raw (nodes s)
      /\ parent s' = fold_left (fun d kv => Dict.set d (fst kv) None) raw (parent s)
      /\ canvas_items s' = canvas_items s /\ edge_offsets s' = edge_offsets s
      /\ palette_index s' = palette_index s /\ root_id s' = root_id s
      /\ next_id s' = next_id s /\ same_view s s'.
Proof.
  induction raw as [|[nid nd] raw IH]; intros max_id s.
  - exists s. cbn. repeat split.
  - cbn [load_nodes]. unfold bind at 1. unfold modify at 1. cbn [fst snd].
    unfold bind at 1. unfold modify at 1. cbn [fst snd].
    set (s1 := with_parent _ (with_nodes _ s)).
    destruct (IH (Z.max max_id nid) s1) as (s' & E & N & P & C & O & I & R & X & V).
    exists s'. split; [exact E|].
    split; [rewrite N; reflexivity|]. split; [rewrite P; reflexivity|].
    split; [rewrite C; reflexivity|]. split; [rewrite O; reflexivity|].
    split; [rewrite I; reflexivity|]. split; [rewrite R; reflexivity|].
    split; [rewrite X; reflexivity|].
    eapply same_view_trans; [|exact V]. unfold same_view, s1. destruct s; simpl; auto.
Qed.

Lemma fold_max_ge (l : list Z) :
  forall m, (m <= fold_left Z.max l m)%Z /\ forall x, In x l -> (x <= fold_left Z.max l m)%Z.
Proof.
  induction l as [|a l IH]; intros m; cbn [fold_left].
  - split; [lia|intros x []].
  - destruct (IH (Z.max m a)) as [H1 H2]. split; [lia|].
    intros x [<-|I]; [lia|apply H2; exact I].
Qed.

Lemma fold_set_keys {V : Type} (f : Z * NodeDoc -> V) (raw : list (Z * NodeDoc)) :
  forall d : Dict.t Z V,
    NoDup (Dict.keys d) ->
    NoDup (Dict.keys (fold_left (fun d kv => Dict.set d (fst kv) (f kv)) raw d))
    /\ forall k, In k (Dict.keys (fold_left (fun d kv => Dict.set d (fst kv) (f kv)) raw d))
                 <-> In k (Dict.keys d) \/ In k (map fst raw).
Proof.
  induction raw as [|[nid nd] raw IH]; intros d ND; cbn [fold_left map fst].
  - split; [exact ND|]. intros k. cbn [In]. tauto.
  - destruct (IH (Dict.set d nid (f (nid, nd))) (NoDup_keys_set _ _ _ ND)) as [N I].
    split; [exact N|]. intros k. rewrite I. rewrite keys_set.
    destruct (Dict.mem d nid) eqn:M.
    + apply mem_true_iff in M. split.
      * intros [H|H]; [left; exact H|right; right; exact H].
      * intros [H|[H|H]]; [left; exact H|left; rewrite <- H; exact M|right; exact H].
    + rewrite in_app_iff. cbn [In]. tauto.
Qed.

(** The loop of the loader that points every child to its parent. *)
Lemma link_children_run (ns : Dict.t Z Node) :
  forall s : Workspace,
    exists s',
      for_each ns (fun '(pid, info) =>
        for_each (n_children info) (fun cid =>
          modify (with_parent (fun d => Dict.set d cid (Some pid))))) s = (Val tt, s')
      /\ nodes s' = nodes s
      /\ canvas_items s' = canvas_items s /\ edge_offsets s' = edge_offsets s
      /\ palette_index s' = palette_index s /\ root_id s' = root_id s
      /\ next_id s' = next_id s /\ same_view s s'
      /\ (forall k, In k (Dict.keys (parent s)) -> In k (Dict.keys (parent s')))
      /\ forall k, parent_get s' k =
                   fold_left (fun acc kv => if zmem k (n_children (snd kv))
                                            then Some (fst kv) else acc)
                     ns (parent_get s k).
Proof.
  assert (Inner : forall pid cs s,
            exists s',
              for_each cs (fun cid =>
                modify (with_parent (fun d => Dict.set d cid (Some pid)))) s = (Val tt, s')
              /\ nodes s' = nodes s
              /\ canvas_items s' = canvas_items s /\ edge_offsets s' = edge_offsets s
              /\ palette_index s' = palette_index s /\ root_id s' = root_id s
              /\ next_id s' = next_id s /\ same_view s s'
              /\ (forall k, In k (Dict.keys (parent s)) -> In k (Dict.keys (parent s')))
              /\ forall k, parent_get s' k = if zmem k cs then Some pid else parent_get s k).
  { intros pid. induction cs as [|c cs IH]; intros s.
    - exists s. split; [reflexivity|]. repeat split. auto.
    - cbn [for_each]. unfold bind, modify. cbn [fst snd].
      set (s1 := with_parent _ s).
      destruct (IH s1) as (s' & E & N & C & O & I & R & X & V & K & P).
      exists s'. split; [exact E|]. split; [rewrite N; reflexivity|].
      split; [rewrite C; reflexivity|]. split; [rewrite O; reflexivity|].
      split; [rewrite I; reflexivity|]. split; [rewrite R; reflexivity|].
      split; [rewrite X; reflexivity|].
      split; [eapply same_view_trans; [|exact V]; unfold same_view, s1; destruct s; simpl; auto|].
      split.
      + intros k Ik. apply K. unfold s1. cbn [parent with_parent]. rewrite keys_set.
        destruct (Dict.mem (parent s) c); [exact Ik|apply in_or_app; left; exact Ik].
      + intros k. rewrite P. unfold s1. rewrite parent_get_set.
        unfold zmem. cbn [existsb]. fold (zmem k cs). rewrite (Z.eqb_sym k c).
        destruct (zmem k cs); [rewrite orb_true_r; reflexivity|].
        rewrite orb_false_r. reflexivity. }
  induction ns as [|[pid info] ns IH]; intros s.
  - exists s. split; [reflexivity|]. repeat split. auto.
  - cbn [for_each]. unfold bind.
    destruct (Inner pid (n_children info) s) as (s1 & E1 & N1 & C1 & O1 & I1 & R1 & X1 & V1 & K1 & P1).
    rewrite E1. cbn [fst snd].
    destruct (IH s1) as (s' & E & N & C & O & I & R & X & V & K & P).
    exists s'. split; [exact E|]. split; [congruence|]. split; [congruence|].
    split; [congruence|]. split; [congruence|]. split; [congruence|].
    split; [congruence|]. split; [eapply same_view_trans; eassumption|].
    split; [intros k Ik; apply K, K1, Ik|].
    intros k. rewrite P, P1. reflexivity.
Qed.

Lemma fill_or_default_val (s : Workspace) (nid : Z) (n : Node) :
  fill_or_default s nid n = Val (drawn_fill s nid n).
Proof.
  unfold fill_or_default, drawn_fill, depth_color.
  destruct (truthy (n_fill n)); [reflexivity|].
  destruct (_node_depth_total s nid) as [d ->]. reflexivity.
Qed.

Lemma drawn_fill_parent (s s' : Workspace) (nid : Z) (n : Node) :
  parent s' = parent s -> drawn_fill s' nid n = drawn_fill s nid n.
Proof.
  intros P. unfold drawn_fill, depth_color. rewrite (_node_depth_parent s s' nid P).
  reflexivity.
Qed.

Lemma drawn_fill_truthy (s : Workspace) (nid : Z) (n : Node) :
  truthy (Some (drawn_fill s nid n)) = Some (drawn_fill s nid n).
Proof.
  unfold drawn_fill, depth_color. destruct (truthy (n_fill n)) as [f|] eqn:T.
  - unfold truthy in T. destruct (n_fill n) as [g|]; [|discriminate T].
    destruct (String.eqb g ""%string) eqn:E; [discriminate T|].
    inversion T; subst f. unfold truthy. rewrite E. reflexivity.
  - destruct (_node_depth s nid); try apply default_fill_truthy; reflexivity.
Qed.

Lemma _draw_node_run_gen (nid : Z) (s : Workspace) (n : Node) :
  Dict.get (nodes s) nid = Some n ->
  _draw_node nid s =
  (Val tt, with_canvas_items (add_item nid)
             (with_nodes (fun d => Dict.set d nid
                                     (node_with_fill (Some (drawn_fill s nid n)) n)) s)).
Proof.
  intros G. unfold _draw_node. unfold bind at 1. unfold read at 1.
  destruct (_node_bbox_val s nid n G) as [bb ->]. cbn [fst snd].
  unfold bind at 1. unfold read at 1, node_at at 1. rewrite G. cbn [of_option fst snd].
  unfold bind at 1. unfold read at 1. rewrite fill_or_default_val. cbn [fst snd].
  unfold bind. rewrite update_node_run, G. reflexivity.
Qed.

(** The loop of the loader that draws every node. *)
Lemma draw_loop_run (ws0 : Workspace) (l : list Z) :
  forall s : Workspace,
    parent s = parent ws0 -> NoDup l ->
    (forall k, In k l -> Dict.mem (nodes s) k = true) ->
    exists s',
      for_each l (fun nid =>
        _draw_node nid ;;; modify (with_canvas_items (add_item nid))) s = (Val tt, s')
      /\ parent s' = parent s /\ root_id s' = root_id s /\ next_id s' = next_id s
      /\ palette_index s' = palette_index s /\ edge_offsets s' = edge_offsets s
      /\ same_view s s'
      /\ Dict.keys (nodes s') = Dict.keys (nodes s)
      /\ forall k, Dict.get (nodes s') k =
                   match Dict.get (nodes s) k with
                   | Some n => Some (if zmem k l
                                     then node_with_fill (Some (drawn_fill ws0 k n)) n
                                     else n)
                   | None => None
                   end.
Proof.
  induction l as [|a l IH]; intros s P ND Hm.
  - exists s. split; [reflexivity|]. repeat split.
    intros k. destruct (Dict.get (nodes s) k); reflexivity.
  - inversion ND as [|? ? NI ND']; subst.
    destruct (mem_get_some _ _ (Hm a (or_introl eq_refl))) as [n G].
    cbn [for_each]. unfold bind at 1. unfold bind at 1.
    rewrite (_draw_node_run_gen a s n G). cbn [fst snd]. unfold modify at 1. cbn [fst snd].
    rewrite (drawn_fill_parent ws0 s a n P).
    set (s1 := with_canvas_items _ (with_canvas_items _ _)).
    assert (N1 : forall k, Dict.get (nodes s1) k
                 = if Z.eqb a k then Some (node_with_fill (Some (drawn_fill ws0 a n)) n)
                   else Dict.get (nodes s) k).
    { intros k. unfold s1. cbn [nodes with_nodes with_canvas_items]. rewrite get_set.
      reflexivity. }
    assert (K1 : Dict.keys (nodes s1) = Dict.keys (nodes s)).
    { unfold s1. cbn [nodes with_nodes with_canvas_items]. apply keys_set_present.
      unfold Dict.mem. rewrite G. reflexivity. }
    destruct (IH s1) as (s' & E & P' & R' & X' & I' & O' & V' & K' & N').
    { exact P. }
    { exact ND'. }
    { intros k I. apply mem_true_iff. rewrite K1. apply mem_true_iff. apply Hm.
      right. exact I. }
    exists s'. split; [exact E|]. split; [rewrite P'; reflexivity|].
    split; [rewrite R'; reflexivity|]. split; [rewrite X'; reflexivity|].
    split; [rewrite I'; reflexivity|]. split; [rewrite O'; reflexivity|].
    split; [eapply same_view_trans; [|exact V']; unfold same_view, s1; destruct s; simpl; auto|].
    split; [rewrite K', K1; reflexivity|].
    intros k. rewrite N', N1. unfold zmem. cbn [existsb]. fold (zmem k l).
    rewrite (Z.eqb_sym k a).
    destruct (Z.eqb_spec a k) as [<-|N].
    + rewrite G. cbn [orb].
      replace (zmem a l) with false by (symmetry; apply zmem_false_iff; exact NI).
      reflexivity.
    + destruct (Dict.get (nodes s) k); reflexivity.
Qed.

Lemma get_fold_set_none (raw : list (Z * NodeDoc)) :
  forall (d : Dict.t Z (option Z)) (k : Z),
    (Dict.get d k = None \/ Dict.get d k = Some None) ->
    let d' := fold_left (fun d kv => Dict.set d (fst kv) None) raw d in
    Dict.get d' k = None \/ Dict.get d' k = Some None.
Proof.
  induction raw as [|[nid nd] raw IH]; intros d k H; cbv zeta; cbn [fold_left fst];
    [exact H|].
  apply IH. rewrite get_set. destruct (keqb nid k); [right; reflexivity|exact H].
Qed.

Lemma load_tables_run (data : Document) (ws0 : Workspace) :
  exists s',
    load_tables data ws0 = (Val tt, s')
    /\ Dict.keys (nodes s') = Dict.keys (loaded_nodes data)
    /\ (forall k, Dict.get (nodes s') k =
                  match Dict.get (loaded_nodes data) k with
                  | Some n => Some (node_with_fill (Some (drawn_fill s' k n)) n)
                  | None => None
                  end)
    /\ (forall k, parent_get s' k = loaded_parent (loaded_nodes data) k)
    /\ (forall k, In k (Dict.keys (loaded_nodes data)) -> In k (Dict.keys (parent s')))
    /\ scale s' = 1 /\ offset_x s' = 0 /\ offset_y s' = 0
    /\ next_id s' = Z.max (opt_default (max_doc_id data + 1)%Z (doc_next_id data))
                      (max_doc_id data + 1)%Z
    /\ palette_index s' = Z.of_nat (List.length (loaded_nodes data))
    /\ edge_offsets s' = []
    /\ root_id s' = match doc_root data with
                    | Some r => if Dict.mem (loaded_nodes data) r then Some r
                                else Dict.first_key (loaded_nodes data)
                    | None => Dict.first_key (loaded_nodes data)
                    end.
Proof.
  unfold load_tables. unfold bind at 1. unfold modify at 1. cbn [fst snd].
  set (s0 := mkWorkspace [] [] [] [] 0%Z (root_id ws0) (next_id ws0) 1 0 0).
  destruct (load_nodes_run (doc_nodes data) 0%Z s0)
    as (s1 & E1 & N1 & P1 & _ & O1 & _ & _ & _ & V1).
  unfold bind at 1. rewrite E1. cbn [fst snd]. fold (max_doc_id data).
  change (nodes s0) with (@nil (Z * Node)) in N1. fold (loaded_nodes data) in N1.
  unfold bind at 1. unfold gets at 1. cbn [fst snd]. rewrite N1.
  destruct (link_children_run (loaded_nodes data) s1)
    as (s2 & E2 & N2 & _ & O2 & _ & _ & _ & V2 & K2 & P2).
  unfold bind at 1. rewrite E2. cbn [fst snd].
  unfold bind at 1. unfold modify at 1. cbn [fst snd].
  unfold bind at 1. unfold modify at 1. cbn [fst snd].
  unfold bind at 1. unfold modify at 1. cbn [fst snd].
  set (s3 := with_palette_index _ (with_next_id _ (with_root_id _ s2))).
  assert (ND : NoDup (Dict.keys (loaded_nodes data))).
  { apply (fold_set_keys (fun kv => loaded_node (snd kv))). constructor. }
  destruct (draw_loop_run s3 (Dict.keys (loaded_nodes data)) s3 eq_refl ND)
    as (s4 & E4 & P4 & R4 & X4 & I4 & O4 & V4 & K4 & N4).
  { intros k I. apply mem_true_iff. unfold s3.
    cbn [nodes with_palette_index with_next_id with_root_id]. rewrite N2, N1. exact I. }
  unfold bind at 1. rewrite E4. cbn [fst snd].
  unfold bind at 1. unfold gets at 1. cbn [fst snd].
  unfold bind at 1. unfold gets at 1. cbn [fst snd].
  assert (N3 : nodes s3 = loaded_nodes data).
  { unfold s3. cbn [nodes with_palette_index with_next_id with_root_id]. congruence. }
  assert (K4' : Dict.keys (nodes s4) = Dict.keys (loaded_nodes data)) by congruence.
  assert (M4 : forall k, Dict.mem (nodes s4) k = Dict.mem (loaded_nodes data) k).
  { intros k. apply eq_true_iff_eq. rewrite !mem_true_iff, K4'. reflexivity. }
  assert (F4 : Dict.first_key (nodes s4) = Dict.first_key (loaded_nodes data)).
  { unfold Dict.first_key. revert K4'. unfold Dict.keys.
    destruct (nodes s4) as [|[k1 v1] r1]; destruct (loaded_nodes data) as [|[k2 v2] r2];
      cbn; intros K; try discriminate K; [reflexivity|]. inversion K. reflexivity. }
  assert (R3 : root_id s4 = doc_root data) by (rewrite R4; reflexivity).
  assert (Pg4 : forall k, parent_get s4 k = loaded_parent (loaded_nodes data) k).
  { intros k. unfold parent_get at 1. rewrite P4.
    change (parent_get s2 k = loaded_parent (loaded_nodes data) k).
    rewrite P2. unfold loaded_parent. f_equal.
    unfold parent_get. rewrite P1.
    destruct (get_fold_set_none (doc_nodes data) (parent s0) k (or_introl eq_refl))
      as [-> | ->]; reflexivity. }
  assert (Final : forall s5,
            nodes s5 = nodes s4 -> parent s5 = parent s4 -> next_id s5 = next_id s4 ->
            palette_index s5 = palette_index s4 -> edge_offsets s5 = edge_offsets s4 ->
            same_view s4 s5 ->
            root_id s5 = match doc_root data with
                         | Some r => if Dict.mem (loaded_nodes data) r then Some r
                                     else Dict.first_key (loaded_nodes data)
                         | None => Dict.first_key (loaded_nodes data)
                         end ->
            Dict.keys (nodes s5) = Dict.keys (loaded_nodes data)
            /\ (forall k, Dict.get (nodes s5) k =
                          match Dict.get (loaded_nodes data) k with
                          | Some n => Some (node_with_fill (Some (drawn_fill s5 k n)) n)
                          | None => None
                          end)
            /\ (forall k, parent_get s5 k = loaded_parent (loaded_nodes data) k)
            /\ (forall k, In k (Dict.keys (loaded_nodes data)) -> In k (Dict.keys (parent s5)))
            /\ scale s5 = 1 /\ offset_x s5 = 0 /\ offset_y s5 = 0
            /\ next_id s5 = Z.max (opt_default (max_doc_id data + 1)%Z (doc_next_id data))
                              (max_doc_id data + 1)%Z
            /\ palette_index s5 = Z.of_nat (List.length (loaded_nodes data))
            /\ edge_offsets s5 = []
            /\ root_id s5 = match doc_root data with
                            | Some r => if Dict.mem (loaded_nodes data) r then Some r
                                        else Dict.first_key (loaded_nodes data)
                            | None => Dict.first_key (loaded_nodes data)
                            end).
  { intros s5 En Ep Ex Ei Eo Ev Er.
    split; [rewrite En; exact K4'|]. split.
    { intros k. rewrite En, N4, N3.
      destruct (Dict.get (loaded_nodes data) k) as [n|] eqn:G; [|reflexivity].
      replace (zmem k (Dict.keys (loaded_nodes data))) with true
        by (symmetry; apply zmem_true_iff; eapply get_some_in_keys; exact G).
      rewrite (drawn_fill_parent s3 s5 k n); [reflexivity|]. rewrite Ep, P4. reflexivity. }
    split; [intros k; unfold parent_get; rewrite Ep; apply Pg4|].
    split.
    { intros k I. rewrite Ep, P4. unfold s3.
      cbn [parent with_palette_index with_next_id with_root_id]. apply K2. rewrite P1.
      apply (fold_set_keys (fun _ => @None Z)); [constructor|]. right.
      pose proof (proj2 (fold_set_keys (fun kv => loaded_node (snd kv)) (doc_nodes data)
                           [] (NoDup_nil _)) k) as Hk.
      apply Hk in I. destruct I as [[]|I]. exact I. }
    destruct Ev as (S5 & X5 & Y5). destruct V4 as (S4 & X4' & Y4).
    destruct V2 as (S2 & X2 & Y2). destruct V1 as (S1 & X1 & Y1).
    split; [rewrite S5, S4; unfold s3; cbn [scale with_palette_index with_next_id
                                             with_root_id]; rewrite S2, S1; reflexivity|].
    split; [rewrite X5, X4'; unfold s3; cbn [offset_x with_palette_index with_next_id
                                              with_root_id]; rewrite X2, X1; reflexivity|].
    split; [rewrite Y5, Y4; unfold s3; cbn [offset_y with_palette_index with_next_id
                                             with_root_id]; rewrite Y2, Y1; reflexivity|].
    split; [rewrite Ex, X4; reflexivity|].
    split; [rewrite Ei, I4; reflexivity|].
    split; [rewrite Eo, O4; unfold s3;
            cbn [edge_offsets with_palette_index with_next_id with_root_id];
            rewrite O2, O1; reflexivity|].
    exact Er. }
  rewrite R3. destruct (doc_root data) as [r|] eqn:Dr.
  - rewrite M4. destruct (Dict.mem (loaded_nodes data) r) eqn:Mr.
    + exists s4. split; [reflexivity|]. apply Final; try reflexivity.
      * apply same_view_refl.
      * rewrite R3. reflexivity.
    + eexists. split; [reflexivity|]. apply Final; try reflexivity.
      * unfold same_view. destruct s4; simpl; auto.
      * cbn [root_id with_root_id]. exact F4.
  - eexists. split; [reflexivity|]. apply Final; try reflexivity.
    + unfold same_view. destruct s4; simpl; auto.
    + cbn [root_id with_root_id]. exact F4.
Qed.

Lemma first_key_mem {V : Type} (d : Dict.t Z V) :
  match Dict.first_key d with
  | Some k => Dict.mem d k = true
  | None => d = []
  end.
Proof.
  destruct d as [|[k v] d]; [reflexivity|]. cbn. unfold Dict.mem. cbn [Dict.get].
  change (keqb k k) with (Z.eqb k k). rewrite Z.eqb_refl. reflexivity.
Qed.

Lemma keys_nil {V : Type} (d d' : Dict.t Z V) :
  Dict.keys d = Dict.keys d' -> d' = [] -> d = [].
Proof. intros K ->. destruct d; [reflexivity|discriminate K]. Qed.


(** ** Save and load *)

Lemma dict_ext {V : Type} (d : Dict.t Z V) :
  forall d' : Dict.t Z V,
    Dict.keys d = Dict.keys d' -> NoDup (Dict.keys d) ->
    (forall k, Dict.get d k = Dict.get d' k) -> d = d'.
Proof.
  unfold Dict.keys. induction d as [|[k v] d IH]; intros [|[k' v'] d'] K ND G;
    try discriminate K; [reflexivity|].
  cbn [map fst] in K, ND. injection K as Ek Ekeys. subst k'.
  inversion ND as [|? ? NI ND']; subst.
  pose proof (G k) as Gk. cbn [Dict.get] in Gk.
  change (keqb k k) with (Z.eqb k k) in Gk. rewrite Z.eqb_refl in Gk.
  injection Gk as Ev. subst v'. f_equal. apply IH; [exact Ekeys|exact ND'|].
  intros x. specialize (G x). cbn [Dict.get] in G.
  change (keqb k x) with (Z.eqb k x) in G.
  destruct (Z.eqb_spec k x) as [E|N]; [subst x|exact G].
  assert (E1 : Dict.get d k = None).
  { apply get_none_not_in_keys. exact NI. }
  assert (E2 : Dict.get d' k = None).
  { apply get_none_not_in_keys. unfold Dict.keys. rewrite <- Ekeys. exact NI. }
  congruence.
Qed.

Lemma fold_set_fresh {A V : Type} (key : A -> Z) (g : A -> V) (l : list A) :
  forall d : Dict.t Z V,
    NoDup (map key l) -> (forall a, In a l -> Dict.get d (key a) = None) ->
    fold_left (fun d a => Dict.set d (key a) (g a)) l d
    = d ++ map (fun a => (key a, g a)) l.
Proof.
  induction l as [|a l IH]; intros d ND F; cbn [fold_left map].
  - rewrite app_nil_r. reflexivity.
  - cbn [map] in ND. inversion ND as [|? ? NI ND']; subst.
    rewrite IH.
    + rewrite (set_absent d (key a) (g a) (F a (or_introl eq_refl))).
      rewrite <- app_assoc. reflexivity.
    + exact ND'.
    + intros b I. rewrite get_set_other; [apply F; right; exact I|].
      intros E. apply NI. rewrite E. apply in_map. exact I.
Qed.

Lemma fold_max_lub (l : list Z) (b : Z) :
  forall m, (m <= b)%Z -> (forall x, In x l -> (x <= b)%Z) -> (fold_left Z.max l m <= b)%Z.
Proof.
  induction l as [|a l IH]; intros m Hm Hl; cbn [fold_left]; [exact Hm|].
  apply IH; [|intros x I; apply Hl; right; exact I].
  pose proof (Hl a (or_introl eq_refl)). lia.
Qed.

Lemma loaded_nodes_save_data (ws : Workspace) :
  NoDup (Dict.keys (nodes ws)) ->
  loaded_nodes (save_data ws) = map (fun kv => (fst kv, reloaded (snd kv))) (nodes ws).
Proof.
  intros ND. unfold loaded_nodes, save_data. cbn [doc_nodes].
  rewrite (fold_set_fresh fst (fun kv => loaded_node (snd kv))).
  - cbn [app]. rewrite map_map. apply map_ext. intros [k n]. reflexivity.
  - rewrite map_map. erewrite map_ext; [exact ND|]. intros [k n]. reflexivity.
  - reflexivity.
Qed.

Lemma get_map_values {V W : Type} (f : V -> W) (d : Dict.t Z V) (k : Z) :
  Dict.get (map (fun kv => (fst kv, f (snd kv))) d) k = option_map f (Dict.get d k).
Proof.
  induction d as [|[k' v] d IH]; cbn [map Dict.get fst snd]; [reflexivity|].
  destruct (keqb k' k); [reflexivity|exact IH].
Qed.

(** In a consistent table the loader's second loop finds the parent that
    the parent map records. *)
Lemma loaded_parent_consistent (ws : Workspace) (k : Z) :
  NoDup (Dict.keys (nodes ws)) -> consistent ws ->
  loaded_parent (map (fun kv => (fst kv, reloaded (snd kv))) (nodes ws)) k
  = parent_get ws k.
Proof.
  intros ND Co. unfold loaded_parent.
  assert (H : forall l acc,
            (forall q info, In (q, info) l ->
               (In k (n_children info) <-> parent_get ws k = Some q)) ->
            fold_left (fun acc kv => if zmem k (n_children (snd kv)) then Some (fst kv)
                                     else acc)
              (map (fun kv => (fst kv, reloaded (snd kv))) l) acc
            = if existsb (fun kv => zmem k (n_children (snd kv))) l
              then parent_get ws k else acc).
  { induction l as [|[q info] l IH]; intros acc Hl; [reflexivity|].
    cbn [map fold_left existsb fst snd n_children reloaded].
    rewrite IH by (intros q' i' I; apply Hl; right; exact I).
    destruct (zmem k (n_children info)) eqn:Z; cbn [orb]; [|reflexivity].
    apply zmem_true_iff in Z. apply (Hl q info (or_introl eq_refl)) in Z. rewrite Z.
    destruct (existsb _ l); reflexivity. }
  assert (Hn : forall q info, In (q, info) (nodes ws) ->
                 (In k (n_children info) <-> parent_get ws k = Some q)).
  { intros q info I. rewrite <- (Co q k). unfold children_of.
    rewrite (in_get _ _ _ ND I). reflexivity. }
  rewrite (H (nodes ws) None Hn).
  destruct (existsb (fun kv => zmem k (n_children (snd kv))) (nodes ws)) eqn:Ex;
    [reflexivity|].
  destruct (parent_get ws k) as [p|] eqn:Pk; [|reflexivity].
  exfalso. apply Co in Pk. unfold children_of in Pk.
  destruct (Dict.get (nodes ws) p) as [info|] eqn:G; [|exact Pk].
  assert (T : existsb (fun kv => zmem k (n_children (snd kv))) (nodes ws) = true).
  { apply existsb_exists. exists (p, info). split; [apply get_in; exact G|].
    apply zmem_true_iff. exact Pk. }
  congruence.
Qed.

(** Saving and loading gives the workspace back.  For a workspace with
    well-formed tables, agreeing parent pointers and children lists,
    filled nodes and a root that is a node, the document that [save]
    writes loads, into any workspace, as the same nodes in the same order
    with the same text, position, children, fill and custom flag (the
    cached sizes are not stored), the same parent of every id, the same
    root and the same [next_id]. *)
Theorem save_load_round_trip (path : option string) (doc : Document)
  (ws ws0 : Workspace) :
  tables_ok ws -> consistent ws -> filled ws -> rooted ws -> (1 <= next_id ws)%Z ->
  save path ws = Some doc ->
  let r := load_tables doc ws0 in
  fst r = Val tt
  /\ nodes (snd r) = map (fun kv => (fst kv, reloaded (snd kv))) (nodes ws)
  /\ (forall k, parent_get (snd r) k = parent_get ws k)
  /\ root_id (snd r) = root_id ws
  /\ next_id (snd r) = next_id ws.
Proof.
  intros (NDn & NDp & NDc & Fr) Co Fl Ro Hn Hs. cbv zeta.
  assert (Ed : doc = save_data ws /\ nodes ws <> []).
  { unfold save in Hs. destruct (nodes ws) as [|e l] eqn:En; [discriminate Hs|].
    destruct path as [p|]; [|discriminate Hs].
    destruct (String.eqb p ""%string); [discriminate Hs|].
    inversion Hs. split; [reflexivity|discriminate]. }
  destruct Ed as [-> Hne].
  destruct (load_tables_run (save_data ws) ws0)
    as (s & E & K & N & Pg & _ & _ & _ & _ & Nx & _ & _ & R).
  rewrite E. cbn [fst snd]. rewrite (loaded_nodes_save_data ws NDn) in *.
  set (ns := map (fun kv => (fst kv, reloaded (snd kv))) (nodes ws)) in *.
  assert (Kn : Dict.keys ns = Dict.keys (nodes ws)).
  { unfold ns, Dict.keys. rewrite map_map. reflexivity. }
  split; [reflexivity|]. split; [|split; [|split]].
  - apply dict_ext; [exact K|rewrite K, Kn; exact NDn|].
    intros k. rewrite N. unfold ns at 1 2. rewrite get_map_values.
    destruct (Dict.get (nodes ws) k) as [n|] eqn:G; cbn [option_map]; [|reflexivity].
    destruct (Fl k n G) as (f & Ef & Nf). f_equal.
    unfold drawn_fill, truthy. cbn [n_fill reloaded]. rewrite Ef.
    apply String.eqb_neq in Nf. rewrite Nf. unfold node_with_fill, reloaded. cbn.
    rewrite Ef. reflexivity.
  - intros k. rewrite Pg. apply loaded_parent_consistent; assumption.
  - rewrite R. cbn [doc_root save_data]. unfold rooted in Ro.
    destruct (root_id ws) as [r0|].
    + replace (Dict.mem ns r0) with true; [reflexivity|].
      symmetry. apply mem_true_iff. rewrite Kn. apply mem_true_iff. exact Ro.
    + contradiction.
  - rewrite Nx. cbn [doc_next_id save_data opt_default].
    assert (L : (max_doc_id (save_data ws) + 1 <= next_id ws)%Z).
    { unfold max_doc_id. cbn [doc_nodes save_data].
      assert (B : (fold_left Z.max
                     (map fst
                        (map (fun '(nid, nd) =>
                                (nid, mkNodeDoc (Some (n_text nd)) (Some (n_x nd))
                                        (Some (n_y nd)) (Some (n_children nd)) (n_fill nd)
                                        (Some (n_custom nd)))) (nodes ws))) 0
                   <= next_id ws - 1)%Z).
      { apply fold_max_lub; [lia|]. intros x I. rewrite map_map in I.
        apply in_map_iff in I. destruct I as ([k n] & Ex & I). cbn in Ex. subst x.
        destruct (Z.lt_ge_cases k (next_id ws)) as [Lt|Ge]; [lia|].
        destruct (Fr k Ge) as [Gk _].
        assert (Ik : In k (Dict.keys (nodes ws))) by (apply (in_map fst _ _ I)).
        apply get_none_not_in_keys in Gk. contradiction. }
      lia. }
    lia.
Qed.

Lemma save_load_round_trip_witness :
  let r := load_tables (save_data one_node_ws) empty_workspace in
  save (Some "map.json"%string) one_node_ws = Some (save_data one_node_ws)
  /\ fst r = Val tt
  /\ nodes (snd r) = map (fun kv => (fst kv, reloaded (snd kv))) (nodes one_node_ws)
  /\ root_id (snd r) = Some 1%Z /\ next_id (snd r) = 2%Z.
Proof.
  destruct one_node_ws_ok as (T & [_ Co] & _).
  assert (Fl : filled one_node_ws).
  { intros k n. unfold one_node_ws. cbn [nodes Dict.get keqb Key_Z].
    destruct (Z.eqb 1 k); [|intros D; discriminate D].
    intros E. inversion E. eexists. split; [reflexivity|discriminate]. }
  assert (Ro : rooted one_node_ws) by reflexivity.
  assert (Hn : (1 <= next_id one_node_ws)%Z) by (cbn; lia).
  assert (Hs : save (Some "map.json"%string) one_node_ws = Some (save_data one_node_ws))
    by reflexivity.
  destruct (save_load_round_trip _ _ one_node_ws empty_workspace T Co Fl Ro Hn Hs)
    as (V & N & _ & R & X).
  cbv zeta. split; [exact Hs|]. split; [exact V|]. split; [exact N|].
  split; [exact R|exact X].
Defined.

(** ** Collecting a subtree *)

Scheme subtree_ind2 := Induction for subtree Sort Prop
  with subtrees_ind2 := Induction for subtrees Sort Prop.
Combined Scheme subtree_mutind from subtree_ind2, subtrees_ind2.

Lemma dfs_sound (ws : Workspace) (fuel : nat) :
  forall x acc l,
    dfs fuel ws x acc = Val l -> exists l', l = acc ++ l' /\ subtree ws x l'.
Proof.
  induction fuel as [|fuel IH]; intros x acc l E; [discriminate E|].
  cbn [dfs] in E. unfold node_at in E.
  destruct (Dict.get (nodes ws) x) as [n|] eqn:G; cbn [of_option obind] in E;
    [|discriminate E].
  assert (H : forall cs acc0 l0,
            ofold (fun a c => dfs fuel ws c a) cs acc0 = Val l0 ->
            exists l', l0 = acc0 ++ l' /\ subtrees ws cs l').
  { induction cs as [|c cs IHc]; intros acc0 l0 E0.
    - cbn in E0. inversion E0. exists []. split; [rewrite app_nil_r; reflexivity|constructor].
    - cbn [ofold] in E0.
      destruct (dfs fuel ws c acc0) as [a1|e|] eqn:Ed; cbn [obind] in E0;
        try discriminate E0.
      destruct (IH c acc0 a1 Ed) as (l1 & -> & S1).
      destruct (IHc _ _ E0) as (l2 & -> & S2).
      exists (l1 ++ l2). split; [rewrite app_assoc; reflexivity|].
      constructor; assumption. }
  destruct (H _ _ _ E) as (l' & -> & S).
  exists (x :: l'). split; [rewrite <- app_assoc; reflexivity|].
  econstructor; eassumption.
Qed.

Lemma dfs_complete (ws : Workspace) :
  (forall x l, subtree ws x l ->
     exists fuel, forall fuel' acc, (fuel <= fuel')%nat ->
       dfs fuel' ws x acc = Val (acc ++ l))
  /\ (forall cs l, subtrees ws cs l ->
        exists fuel, forall fuel' acc, (fuel <= fuel')%nat ->
          ofold (fun a c => dfs fuel' ws c a) cs acc = Val (acc ++ l)).
Proof.
  apply subtree_mutind.
  - intros nid n l G St (fuel & H). exists (S fuel). intros fuel' acc Le.
    destruct fuel' as [|fuel']; [lia|]. cbn [dfs]. unfold node_at. rewrite G.
    cbn [of_option obind]. rewrite H by lia. rewrite <- app_assoc. reflexivity.
  - exists 0%nat. intros fuel' acc _. cbn. rewrite app_nil_r. reflexivity.
  - intros c cs l1 l2 S1 (f1 & H1) S2 (f2 & H2). exists (Nat.max f1 f2).
    intros fuel' acc Le. cbn [ofold]. rewrite H1 by lia. cbn [obind].
    rewrite H2 by lia. rewrite app_assoc. reflexivity.
Qed.

(** [_collect_subtree] lists a finite subtree in preorder.  Whenever it
    returns, what it returns is the preorder listing of the tree that the
    children lists unfold to below the node; conversely, for every node
    with such a finite tree the recursion returns that listing once it may
    go deep enough; [_subtree_size] is its length; and on an id that is
    not a node the first lookup raises [KeyError]. *)
Theorem collect_subtree_preorder (ws : Workspace) (nid : Z) :
  (forall fuel l, _collect_subtree fuel ws nid = Val l -> subtree ws nid l)
  /\ (forall l, subtree ws nid l ->
        exists fuel, forall fuel', (fuel <= fuel')%nat ->
          _collect_subtree fuel' ws nid = Val l
          /\ _subtree_size fuel' ws nid = Val (Z.of_nat (List.length l)))
  /\ (Dict.mem (nodes ws) nid = false ->
      forall fuel, _collect_subtree (S fuel) ws nid = Exc KeyError).
Proof.
  split; [|split].
  - intros fuel l E. unfold _collect_subtree in E.
    destruct (dfs_sound ws fuel nid [] l E) as (l' & -> & S). exact S.
  - intros l S. destruct (proj1 (dfs_complete ws) nid l S) as (fuel & H).
    exists fuel. intros fuel' Le. unfold _subtree_size, _collect_subtree.
    rewrite (H fuel' [] Le). split; reflexivity.
  - intros M fuel. unfold _collect_subtree. cbn [dfs]. unfold node_at, Dict.mem in *.
    destruct (Dict.get (nodes ws) nid); [discriminate M|reflexivity].
Qed.

(** ** Deleting a subtree *)

Lemma mem_with_nodes_pop (s : Workspace) (k x : Z) :
  NoDup (Dict.keys (nodes s)) ->
  Dict.mem (nodes (with_nodes (fun d => Dict.pop d k) s)) x
  = if Z.eqb k x then false else Dict.mem (nodes s) x.
Proof.
  intros ND. destruct s; simpl in *. rewrite mem_pop by exact ND.
  change (keqb k x) with (Z.eqb k x).
  destruct (Z.eqb k x); [apply andb_false_r|apply andb_true_r].
Qed.

(** One round of the loop of [delete_selected] on a node [cid] of a
    linked state. *)
Lemma delete_one_run (cid : Z) (s : Workspace) :
  linked s -> Dict.mem (nodes s) cid = true ->
  exists s',
    delete_one cid s = (Val tt, s')
    /\ linked s'
    /\ (forall x, Dict.mem (nodes s') x = if Z.eqb cid x then false else Dict.mem (nodes s) x)
    /\ (forall x, children_of s' x =
                  if Z.eqb cid x then [] else remove_first cid (children_of s x))
    /\ (forall x, parent_get s' x =
                  if Z.eqb cid x then None
                  else if zmem x (children_of s cid) then None else parent_get s x)
    /\ root_id s' = root_id s /\ next_id s' = next_id s.
Proof.
  intros L M. pose proof (delete_one_linked cid s L) as L'.
  pose proof L as [T Co]. pose proof T as (NDn & NDp & NDc & Fr).
  destruct (mem_get_some _ _ M) as [n G].
  unfold delete_one in *. unfold bind at 1 in L'. unfold bind at 1.
  unfold read at 1, node_at at 1 in L'. unfold read at 1, node_at at 1.
  rewrite G in *. cbn [of_option fst snd] in *.
  pose proof (children_of_get s cid n G) as Hcs.
  destruct (clear_parents_run (n_children n) s) as (sA & EA & An & Ar & Ax & AND & Apg & Agp).
  unfold bind at 1 in L'. unfold bind at 1. rewrite EA in *. cbn [fst snd] in *.
  unfold bind at 1 in L'. unfold bind at 1. unfold gets at 1 in L'. unfold gets at 1.
  cbn [fst snd] in *.
  assert (AC : forall x, children_of sA x = children_of s x).
  { intros x. unfold children_of. rewrite An. reflexivity. }
  assert (TA : tables_ok sA).
  { split; [rewrite An; exact NDn|]. split; [apply AND; exact NDp|].
    split; [intros p; rewrite AC; apply NDc|].
    intros id Hid. rewrite Ax in Hid. destruct (Fr id Hid) as [Gn Gp].
    split; [rewrite An; exact Gn|]. rewrite Agp; [exact Gp|].
    rewrite <- Hcs. intros I. apply Co in I. apply parent_get_some_entry in I. contradiction. }
  destruct (detach_run cid (parent_get sA cid) sA TA)
    as (sB & EB & TB & Bp & Br & Bx & Bc & Bm & Bch).
  { intros q Hq. rewrite Apg in Hq. destruct (zmem cid (n_children n)); [discriminate|].
    unfold Dict.mem. rewrite An. apply (children_of_in_mem s q cid). apply Co. exact Hq. }
  unfold bind at 1 in L'. unfold bind at 1. rewrite EB in *. cbn [fst snd] in *.
  unfold bind at 1 in L'. unfold bind at 1.
  unfold _delete_canvas_for_node at 1, modify at 1 in L'.
  unfold _delete_canvas_for_node at 1, modify at 1. cbn [fst snd] in *.
  unfold bind at 1 in L'. unfold bind at 1. unfold modify at 1 in L'. unfold modify at 1.
  cbn [fst snd] in *. unfold modify in *. cbn [snd] in L'.
  set (sB' := with_canvas_items _ sB) in *.
  assert (TB' : tables_ok sB').
  { destruct TB as (B1 & B2 & B3 & B4). unfold sB'. destruct sB; exact (conj B1 (conj B2 (conj B3 B4))). }
  assert (Hch' : forall x, children_of sB' x = children_of sB x)
    by (intros x; unfold sB'; destruct sB; reflexivity).
  assert (Hpg' : forall x, parent_get sB' x = parent_get sA x).
  { intros x. unfold sB', parent_get. destruct sB; simpl in *. rewrite Bp. reflexivity. }
  assert (Hm' : forall x, Dict.mem (nodes sB') x = Dict.mem (nodes s) x).
  { intros x. unfold sB'. replace (nodes (with_canvas_items _ sB)) with (nodes sB)
      by (destruct sB; reflexivity). rewrite Bm, An. reflexivity. }
  set (sP := with_parent _ sB') in *.
  assert (NDP : NoDup (Dict.keys (nodes sP))).
  { unfold sP. destruct TB' as (B1 & _). destruct sB'; exact B1. }
  eexists. split; [reflexivity|]. split; [exact L'|].
  split; [|split; [|split; [|split]]].
  - intros x. rewrite mem_with_nodes_pop by exact NDP.
    replace (nodes sP) with (nodes sB') by (unfold sP; destruct sB'; reflexivity).
    rewrite Hm'. reflexivity.
  - intros x. rewrite children_of_pop by exact NDP.
    unfold sP. rewrite children_of_with_parent, Hch', Bch, AC.
    destruct (Z.eqb_spec cid x) as [E|N]; [reflexivity|].
    destruct (match parent_get sA cid with Some q0 => Z.eqb q0 x | None => false end) eqn:E;
      [reflexivity|].
    symmetry. apply remove_first_notin. intros I. apply Co in I.
    rewrite Apg, <- Hcs in E. destruct (zmem cid (children_of s cid)) eqn:Zc.
    + apply zmem_true_iff in Zc. apply Co in Zc. congruence.
    + rewrite I, Z.eqb_refl in E. discriminate E.
  - intros x. rewrite parent_get_with_nodes. unfold sP. rewrite parent_get_pop.
    + rewrite Hpg', Apg, Hcs. reflexivity.
    + destruct TB' as (_ & B2 & _). exact B2.
  - unfold sP, sB'. rewrite <- Ar, <- Br. destruct sB; reflexivity.
  - unfold sP, sB'. rewrite <- Ax, <- Bx. destruct sB; reflexivity.
Qed.

Lemma remove_each_nil (l : list Z) : remove_each l [] = [].
Proof. induction l as [|a l IH]; [reflexivity|exact IH]. Qed.

Lemma remove_each_notin (l cs : list Z) :
  (forall c, In c l -> ~ In c cs) -> remove_each l cs = cs.
Proof.
  revert cs. induction l as [|a l IH]; intros cs H; [reflexivity|].
  unfold remove_each. cbn [fold_left]. fold (remove_each l (remove_first a cs)).
  rewrite remove_first_notin by (apply H; left; reflexivity).
  apply IH. intros c I. apply H. right. exact I.
Qed.

Lemma remove_each_one (x : Z) (l cs : list Z) :
  NoDup l -> NoDup cs -> In x l ->
  (forall c, In c l -> In c cs -> c = x) ->
  remove_each l cs = remove_first x cs.
Proof.
  revert cs. induction l as [|a l IH]; intros cs NDl NDc I H; [destruct I|].
  inversion NDl as [|? ? Na NDl']; subst.
  unfold remove_each. cbn [fold_left]. fold (remove_each l (remove_first a cs)).
  destruct (Z.eq_dec a x) as [->|N].
  - apply remove_each_notin. intros c Ic Ir.
    apply remove_first_in in Ir; [|exact NDc]. destruct Ir as [Ir Nx].
    apply Nx. apply H; [right; exact Ic|exact Ir].
  - destruct I as [E|I]; [contradiction|].
    rewrite (remove_first_notin a cs).
    + apply IH; auto. intros c Ic. apply H. right. exact Ic.
    + intros Ia. apply N. apply H; [left; reflexivity|exact Ia].
Qed.

(** The loop [for cid in ids] of [delete_selected] over distinct nodes of
    a linked state. *)
Lemma delete_loop_run (l : list Z) :
  forall s : Workspace,
    linked s -> NoDup l -> (forall k, In k l -> Dict.mem (nodes s) k = true) ->
    exists s',
      for_each l delete_one s = (Val tt, s')
      /\ linked s'
      /\ (forall x, Dict.mem (nodes s') x = negb (zmem x l) && Dict.mem (nodes s) x)
      /\ (forall x, children_of s' x =
                    if zmem x l then [] else remove_each l (children_of s x))
      /\ (forall x, parent_get s' x =
                    if zmem x l then None else parent_outside l (parent_get s x))
      /\ root_id s' = root_id s /\ next_id s' = next_id s.
Proof.
  induction l as [|a l IH]; intros s L ND Hm.
  - exists s. split; [reflexivity|]. split; [exact L|].
    split; [reflexivity|]. split; [reflexivity|].
    split; [|split; reflexivity].
    intros x. cbn. destruct (parent_get s x); reflexivity.
  - inversion ND as [|? ? Na ND']; subst.
    destruct (delete_one_run a s L (Hm a (or_introl eq_refl)))
      as (s1 & E1 & L1 & M1 & C1 & P1 & R1 & X1).
    destruct (IH s1 L1 ND') as (s' & E & L' & M' & C' & P' & R' & X').
    { intros k I. rewrite M1. destruct (Z.eqb_spec a k) as [->|_]; [contradiction|].
      apply Hm. right. exact I. }
    exists s'. cbn [for_each]. unfold bind. rewrite E1. cbn [fst snd].
    split; [exact E|]. split; [exact L'|].
    assert (Zc : forall x, zmem x (a :: l) = Z.eqb a x || zmem x l).
    { intros x. unfold zmem. cbn [existsb]. rewrite (Z.eqb_sym x a). reflexivity. }
    split; [|split; [|split; [|split; congruence]]].
    + intros x. rewrite M', M1, Zc.
      destruct (Z.eqb a x), (zmem x l); reflexivity.
    + intros x. rewrite C', C1, Zc.
      destruct (zmem x l); [rewrite orb_true_r; reflexivity|].
      rewrite orb_false_r. destruct (Z.eqb a x); [apply remove_each_nil|reflexivity].
    + intros x. rewrite P', P1, Zc.
      destruct (zmem x l); [rewrite orb_true_r; reflexivity|].
      rewrite orb_false_r. destruct (Z.eqb_spec a x) as [->|N]; [reflexivity|].
      destruct L as [_ Co].
      destruct (zmem x (children_of s a)) eqn:Zx.
      * apply zmem_true_iff in Zx. apply Co in Zx. rewrite Zx.
        cbn [parent_outside]. rewrite Zc, Z.eqb_refl. reflexivity.
      * destruct (parent_get s x) as [q|] eqn:Pq; [|reflexivity].
        cbn [parent_outside]. rewrite Zc.
        destruct (Z.eqb_spec a q) as [->|Nq]; [|reflexivity].
        apply Co in Pq. apply zmem_false_iff in Zx. contradiction.
Qed.

(** What a preorder listing contains: the node itself first, only nodes,
    every child of a listed node, and nothing but the node and children of
    listed nodes. *)
Lemma subtree_facts (ws : Workspace) :
  (forall x l, subtree ws x l ->
     In x l
     /\ (forall k, In k l -> Dict.mem (nodes ws) k = true)
     /\ (forall k c, In k l -> In c (children_of ws k) -> In c l)
     /\ (forall k, In k l -> k = x \/ exists q, In q l /\ In k (children_of ws q)))
  /\ (forall cs l, subtrees ws cs l ->
        (forall c, In c cs -> In c l)
        /\ (forall k, In k l -> Dict.mem (nodes ws) k = true)
        /\ (forall k c, In k l -> In c (children_of ws k) -> In c l)
        /\ (forall k, In k l -> In k cs \/ exists q, In q l /\ In k (children_of ws q))).
Proof.
  apply subtree_mutind.
  - intros nid n l G St (A & B & C & D).
    pose proof (children_of_get ws nid n G) as Hc.
    split; [left; reflexivity|]. split; [|split].
    + intros k [<-|I]; [unfold Dict.mem; rewrite G; reflexivity|apply B; exact I].
    + intros k c [<-|I] Ic.
      * right. apply A. rewrite <- Hc. exact Ic.
      * right. apply (C k c I Ic).
    + intros k [E|I]; [left; symmetry; exact E|]. right.
      destruct (D k I) as [Ik|(q & Iq & Ik)].
      * exists nid. split; [left; reflexivity|rewrite Hc; exact Ik].
      * exists q. split; [right; exact Iq|exact Ik].
  - split; [intros c []|]. split; [intros k []|]. split; [intros k c []|intros k []].
  - intros c cs l1 l2 S1 (A1 & B1 & C1 & D1) S2 (A2 & B2 & C2 & D2).
    split; [|split; [|split]].
    + intros c0 [<-|I]; apply in_or_app; [left; exact A1|right; apply A2; exact I].
    + intros k I. apply in_app_or in I. destruct I as [I|I]; [apply B1|apply B2]; exact I.
    + intros k c0 I Ic. apply in_app_or in I. apply in_or_app.
      destruct I as [I|I]; [left; apply (C1 k c0 I Ic)|right; apply (C2 k c0 I Ic)].
    + intros k I. apply in_app_or in I. destruct I as [I|I].
      * destruct (D1 k I) as [->|(q & Iq & Ik)]; [left; left; reflexivity|].
        right. exists q. split; [apply in_or_app; left; exact Iq|exact Ik].
      * destruct (D2 k I) as [Ik|(q & Iq & Ik)]; [left; right; exact Ik|].
        right. exists q. split; [apply in_or_app; right; exact Iq|exact Ik].
Qed.

Lemma nth_parent_add (ws : Workspace) (a b : nat) :
  forall y, nth_parent ws (a + b) y =
            match nth_parent ws a y with
            | Some z => nth_parent ws b z
            | None => None
            end.
Proof.
  induction a as [|a IH]; intros y; [reflexivity|].
  cbn [Nat.add nth_parent]. destruct (parent_get ws y) as [p|]; [apply IH|reflexivity].
Qed.

Lemma nth_parent_snoc (ws : Workspace) (k : nat) (y z x : Z) :
  nth_parent ws k y = Some z -> parent_get ws z = Some x ->
  nth_parent ws (S k) y = Some x.
Proof.
  intros H P. replace (S k) with (k + 1)%nat by lia.
  rewrite nth_parent_add, H. cbn. rewrite P. reflexivity.
Qed.

Lemma nth_parent_last (ws : Workspace) (k : nat) (y x : Z) :
  nth_parent ws (S k) y = Some x ->
  exists z, nth_parent ws k y = Some z /\ parent_get ws z = Some x.
Proof.
  replace (S k) with (k + 1)%nat by lia. rewrite nth_parent_add.
  destruct (nth_parent ws k y) as [z|]; [|discriminate].
  cbn. intros H. exists z. split; [reflexivity|].
  destruct (parent_get ws z); [exact H|discriminate H].
Qed.

Lemma subtrees_child (ws : Workspace) (cs l : list Z) :
  subtrees ws cs l ->
  forall c, In c cs -> exists lc, subtree ws c lc /\ (List.length lc <= List.length l)%nat.
Proof.
  induction 1 as [|c0 cs l1 l2 S1 S2 IH]; intros c I; [destruct I|].
  rewrite length_app. destruct I as [<-|I].
  - exists l1. split; [exact S1|lia].
  - destruct (IH c I) as (lc & Sc & Le). exists lc. split; [exact Sc|lia].
Qed.

(** A node with a finite subtree is not its own ancestor. *)
Lemma subtree_no_cycle (ws : Workspace) :
  consistent ws ->
  forall n x l, subtree ws x l -> (List.length l <= n)%nat ->
                forall k, nth_parent ws (S k) x <> Some x.
Proof.
  intros Co. induction n as [|n IH]; intros x l St Le k H.
  - inversion St; subst. cbn in Le. lia.
  - destruct (nth_parent_last ws k x x H) as (z & Hz & Pz).
    inversion St as [? nd ls G Sc]; subst.
    assert (Iz : In z (n_children nd)).
    { rewrite <- (children_of_get ws x nd G). apply Co. exact Pz. }
    destruct (subtrees_child ws _ _ Sc z Iz) as (lz & Sz & Lz).
    apply (IH z lz Sz) with (k := k); [cbn in Le; lia|].
    cbn [nth_parent]. rewrite Pz. exact Hz.
Qed.

(** Everything in a preorder listing has the node among its ancestors. *)
Lemma subtree_ancestor (ws : Workspace) :
  consistent ws ->
  (forall x l, subtree ws x l ->
     forall y, In y l -> exists k, nth_parent ws k y = Some x)
  /\ (forall cs l, subtrees ws cs l ->
        forall y, In y l -> exists c k, In c cs /\ nth_parent ws k y = Some c).
Proof.
  intros Co. apply subtree_mutind.
  - intros nid n l G St IH y [<-|I]; [exists 0%nat; reflexivity|].
    destruct (IH y I) as (c & k & Ic & Hk). exists (S k).
    apply (nth_parent_snoc ws k y c nid Hk). apply Co.
    rewrite (children_of_get ws nid n G). exact Ic.
  - intros y [].
  - intros c cs l1 l2 S1 IH1 S2 IH2 y I. apply in_app_or in I. destruct I as [I|I].
    + destruct (IH1 y I) as (k & Hk). exists c, k. split; [left; reflexivity|exact Hk].
    + destruct (IH2 y I) as (c' & k & Ic & Hk). exists c', k. split; [right; exact Ic|exact Hk].
Qed.

Lemma siblings_disjoint (ws : Workspace) (x c1 c2 y : Z) (k1 k2 : nat) :
  (forall k, nth_parent ws (S k) x <> Some x) ->
  parent_get ws c1 = Some x -> parent_get ws c2 = Some x ->
  nth_parent ws k1 y = Some c1 -> nth_parent ws k2 y = Some c2 ->
  (k1 <= k2)%nat -> c1 = c2.
Proof.
  intros NC P1 P2 H1 H2 Le.
  replace k2 with (k1 + (k2 - k1))%nat in H2 by lia.
  rewrite nth_parent_add, H1 in H2.
  destruct (k2 - k1)%nat as [|m]; [cbn in H2; congruence|].
  cbn [nth_parent] in H2. rewrite P1 in H2.
  exfalso. apply (NC m). apply (nth_parent_snoc ws m x c2 x H2 P2).
Qed.

Lemma subtree_NoDup (ws : Workspace) :
  linked ws ->
  (forall x l, subtree ws x l -> NoDup l)
  /\ (forall cs l, subtrees ws cs l ->
        forall x, (forall c, In c cs -> parent_get ws c = Some x) ->
                  (forall k, nth_parent ws (S k) x <> Some x) ->
                  NoDup cs -> NoDup l).
Proof.
  intros [T Co]. pose proof T as (_ & _ & NDc & _). apply subtree_mutind.
  - intros nid n l G St IH.
    pose proof (children_of_get ws nid n G) as Hc.
    assert (NC : forall k, nth_parent ws (S k) nid <> Some nid).
    { apply (subtree_no_cycle ws Co (List.length (nid :: l)) nid (nid :: l)); [|apply le_n].
      econstructor; eassumption. }
    assert (Pc : forall c, In c (n_children n) -> parent_get ws c = Some nid).
    { intros c I. apply Co. rewrite Hc. exact I. }
    constructor.
    + intros I. destruct (proj2 (subtree_ancestor ws Co) _ _ St nid I) as (c & k & Ic & Hk).
      apply (NC k). apply (nth_parent_snoc ws k nid c nid Hk). apply Pc. exact Ic.
    + apply (IH nid Pc NC). rewrite <- Hc. apply NDc.
  - intros. constructor.
  - intros c cs l1 l2 S1 IH1 S2 IH2 x Pc NC ND.
    inversion ND as [|? ? Nc ND']; subst.
    apply NoDup_app.
    + exact IH1.
    + apply (IH2 x); [intros c' I; apply Pc; right; exact I|exact NC|exact ND'].
    + intros y I1 I2.
      destruct (proj1 (subtree_ancestor ws Co) _ _ S1 y I1) as (k1 & H1).
      destruct (proj2 (subtree_ancestor ws Co) _ _ S2 y I2) as (c2 & k2 & Ic2 & H2).
      assert (E : c = c2).
      { pose proof (Pc c (or_introl eq_refl)) as P1.
        pose proof (Pc c2 (or_intror Ic2)) as P2.
        destruct (Nat.le_ge_cases k1 k2) as [Le|Le].
        - apply (siblings_disjoint ws x c c2 y k1 k2 NC P1 P2 H1 H2 Le).
        - symmetry. apply (siblings_disjoint ws x c2 c y k2 k1 NC P2 P1 H2 H1 Le). }
      subst c2. contradiction.
Qed.

Lemma pair_ws_ok : linked pair_ws /\ closed pair_ws.
Proof.
  split; [split|].
  - split; [repeat constructor; cbn; intros H; intuition lia|].
    split; [repeat constructor; cbn; intros H; intuition lia|]. split.
    + intros p. unfold children_of, pair_ws. cbn [nodes Dict.get keqb Key_Z].
      destruct (Z.eqb 1 p); [repeat constructor; intros []|].
      destruct (Z.eqb 2 p); constructor.
    + intros nid L. unfold pair_ws in *.
      cbn [next_id nodes parent Dict.get keqb Key_Z] in *.
      destruct (Z.eqb_spec 1 nid) as [E|N]; [lia|].
      destruct (Z.eqb_spec 2 nid) as [E|N2]; [lia|]. split; reflexivity.
  - intros p c. unfold children_of, parent_get, pair_ws.
    cbn [nodes parent Dict.get keqb Key_Z].
    destruct (Z.eqb_spec 1 p); destruct (Z.eqb_spec 2 p);
      destruct (Z.eqb_spec 1 c); destruct (Z.eqb_spec 2 c); cbn [n_children In];
      try lia; split; intros H; try discriminate H; try tauto; try lia;
      try (left; lia); try congruence.
  - intros p c. unfold children_of, pair_ws. cbn [nodes Dict.get keqb Key_Z].
    destruct (Z.eqb 1 p); [intros [<-|[]]; reflexivity|].
    destruct (Z.eqb 2 p); intros [].
Qed.

(** In a linked workspace [_collect_subtree] returns the descendants of
    the node, each once.  An id is in the list exactly when following the
    parent pointers from it leads to the node (after zero or more steps),
    every listed id is a node, and the node itself comes first. *)
Theorem collect_subtree_descendants (fuel : nat) (ws : Workspace) (nid : Z)
  (ids : list Z) :
  linked ws ->
  _collect_subtree fuel ws nid = Val ids ->
  NoDup ids
  /\ hd_error ids = Some nid
  /\ (forall y, In y ids -> Dict.mem (nodes ws) y = true)
  /\ (forall y, In y ids <-> exists k, nth_parent ws k y = Some nid).
Proof.
  intros L E. pose proof L as [T Co]. unfold _collect_subtree in E.
  destruct (dfs_sound ws fuel nid [] ids E) as (l & -> & St). cbn [app].
  destruct (proj1 (subtree_facts ws) nid l St) as (A & B & C & D).
  split; [apply (proj1 (subtree_NoDup ws L) nid l St)|].
  split; [inversion St; reflexivity|]. split; [exact B|].
  intros y. split; [apply (proj1 (subtree_ancestor ws Co) nid l St)|].
  intros [k Hk]. revert y Hk. induction k as [|k IH]; intros y Hk.
  - cbn in Hk. inversion Hk. exact A.
  - cbn [nth_parent] in Hk. destruct (parent_get ws y) as [p|] eqn:P; [|discriminate Hk].
    apply (C p y (IH p Hk)). apply Co. exact P.
Qed.

Lemma collect_subtree_descendants_witness :
  linked pair_ws
  /\ _collect_subtree 3 pair_ws 1 = Val [1; 2]%Z
  /\ (In 2%Z [1; 2]%Z <-> exists k, nth_parent pair_ws k 2 = Some 1%Z).
Proof.
  assert (L : linked pair_ws) by apply pair_ws_ok.
  split; [exact L|]. split; [reflexivity|].
  exact (proj2 (proj2 (proj2
    (collect_subtree_descendants 3 pair_ws 1 [1; 2]%Z L eq_refl))) 2%Z).
Defined.

(** The end of [delete_selected]: the root falls back to the first
    remaining node when it was deleted, and the canvas is redrawn. *)
Lemma delete_tail_run (ids : list Z) (s1 : Workspace) :
  linked s1 -> closed s1 ->
  exists s',
    (root <- gets root_id ;;
     match root with
     | Some r =>
         if zmem r ids
         then modify (fun ws => with_root_id (Dict.first_key (nodes ws)) ws)
         else ret tt
     | None => ret tt
     end ;;;
     redraw) s1 = (Val tt, s')
    /\ nodes s' = nodes s1 /\ parent s' = parent s1 /\ next_id s' = next_id s1
    /\ root_id s' = match root_id s1 with
                    | Some r => if zmem r ids then Dict.first_key (nodes s1) else Some r
                    | None => None
                    end.
Proof.
  intros L C. unfold bind at 1. unfold gets at 1. cbn [fst snd].
  set (m := match root_id s1 with Some r => _ | None => _ end).
  assert (Hm : exists s2, m s1 = (Val tt, s2)
               /\ nodes s2 = nodes s1 /\ parent s2 = parent s1 /\ next_id s2 = next_id s1
               /\ root_id s2 = match root_id s1 with
                               | Some r => if zmem r ids then Dict.first_key (nodes s1)
                                           else Some r
                               | None => None
                               end).
  { unfold m. destruct (root_id s1) as [r|] eqn:R.
    - destruct (zmem r ids).
      + eexists. split; [reflexivity|]. unfold modify. cbn [snd].
        destruct s1; repeat split; reflexivity.
      + exists s1. split; [reflexivity|]. repeat split; auto.
    - exists s1. split; [reflexivity|]. repeat split; auto. }
  destruct Hm as (s2 & E2 & N2 & P2 & X2 & R2).
  unfold bind. rewrite E2. cbn [fst snd].
  assert (V : fst (redraw s2) = Val tt).
  { apply redraw_val. apply closed_edges.
    - rewrite N2. apply L.
    - intros p c. unfold children_of, Dict.mem. rewrite N2. apply C. }
  pose proof (redraw_only_offsets s2) as O. unfold only_offsets in O.
  destruct (redraw s2) as [o s3]. cbn [fst snd] in *. subst o.
  exists s3. split; [reflexivity|].
  rewrite <- R2, <- N2, <- P2, <- X2. rewrite O.
  destruct s2; repeat split; reflexivity.
Qed.

(** [delete_selected] removes exactly the selected subtree.  In a linked
    workspace without dangling edges, for a selected node whose subtree
    [_collect_subtree] lists as [ids], and when the user confirms (or the
    node is a leaf and nothing is asked): the call completes; the nodes
    left are those not in [ids]; a remaining node keeps its parent pointer
    and its children list, less the deleted node; a deleted id reads as
    parentless; the root stays unless it was deleted, in which case
    it becomes the first remaining node (none when the map is empty); the
    id counter is not moved back; and the workspace is again linked and
    without dangling edges. *)
Theorem delete_selected_effect (fuel : nat) (nid : Z) (answer : bool)
  (ids : list Z) (ws : Workspace) :
  linked ws -> closed ws -> nid <> 0%Z ->
  _collect_subtree fuel ws nid = Val ids ->
  answer = true \/ ids = [nid] ->
  let r := delete_selected fuel (Some nid) answer ws in
  fst r = Val tt
  /\ linked (snd r) /\ closed (snd r)
  /\ (forall k, Dict.mem (nodes (snd r)) k = negb (zmem k ids) && Dict.mem (nodes ws) k)
  /\ (forall k, ~ In k ids ->
        children_of (snd r) k = remove_first nid (children_of ws k)
        /\ parent_get (snd r) k = parent_get ws k)
  /\ (forall k, In k ids -> parent_get (snd r) k = None)
  /\ root_id (snd r) = match root_id ws with
                       | Some r0 => if zmem r0 ids then Dict.first_key (nodes (snd r))
                                    else Some r0
                       | None => None
                       end
  /\ next_id (snd r) = next_id ws.
Proof.
  intros L C Nz E Ha. pose proof L as [T Co]. pose proof T as (NDn & NDp & NDc & Fr).
  pose proof E as E'. unfold _collect_subtree in E'.
  destruct (dfs_sound ws fuel nid [] ids E') as (l & El & St). cbn [app] in El. subst l.
  destruct (proj1 (subtree_facts ws) nid ids St) as (A & B & Cl & D).
  pose proof (proj1 (subtree_NoDup ws L) nid ids St) as ND.
  destruct (delete_loop_run ids ws L ND B) as (s1 & E1 & L1 & M1 & C1 & P1 & R1 & X1).
  assert (Out : forall k c, ~ In k ids -> In c ids -> In c (children_of ws k) -> c = nid).
  { intros k c Nk Ic Ik. destruct (D c Ic) as [Ec|(q & Iq & Iqc)]; [exact Ec|].
    apply Co in Ik. apply Co in Iqc. exfalso. apply Nk. congruence. }
  assert (Ch : forall k, ~ In k ids ->
                         children_of s1 k = remove_first nid (children_of ws k)).
  { intros k Nk. rewrite C1. apply zmem_false_iff in Nk. rewrite Nk.
    apply zmem_false_iff in Nk.
    apply remove_each_one; [exact ND|apply NDc|exact A|]. intros c. apply (Out k c Nk). }
  assert (C1' : closed s1).
  { intros p c I. destruct (zmem p ids) eqn:Zp.
    - rewrite C1, Zp in I. destruct I.
    - apply zmem_false_iff in Zp. rewrite (Ch p Zp) in I.
      apply remove_first_in in I; [|apply NDc]. destruct I as [I Nc].
      rewrite M1, (C p c I), andb_true_r.
      destruct (zmem c ids) eqn:Zc; [|reflexivity].
      apply zmem_true_iff in Zc. exfalso. apply Nc. apply (Out p c Zp Zc I). }
  destruct (delete_tail_run ids s1 L1 C1') as (s' & Et & Nt & Pt & Xt & Rt).
  assert (Run : delete_selected fuel (Some nid) answer ws = (Val tt, s')).
  { unfold delete_selected. destruct (Z.eqb_spec nid 0) as [E0|_]; [contradiction|].
    unfold bind at 1. unfold read at 1. unfold _subtree_size. rewrite E.
    cbn [obind fst snd].
    assert (Hc : (1 <? Z.of_nat (List.length ids))%Z && negb answer = false).
    { destruct Ha as [->| ->]; [apply andb_false_r|reflexivity]. }
    rewrite Hc. unfold bind at 1. unfold read at 1. rewrite E. cbn [fst snd].
    unfold bind at 1. rewrite E1. cbn [fst snd]. exact Et. }
  cbv zeta. rewrite Run. cbn [fst snd].
  assert (Hch : forall k, children_of s' k = children_of s1 k)
    by (intros k; unfold children_of; rewrite Nt; reflexivity).
  assert (Hpg : forall k, parent_get s' k = parent_get s1 k)
    by (intros k; unfold parent_get; rewrite Pt; reflexivity).
  split; [reflexivity|]. split; [|split; [|split; [|split; [|split; [|split]]]]].
  - apply (same_graph_linked s1 s'); [|exact L1].
    split; [rewrite Nt; reflexivity|]. split; [exact Hch|]. split; assumption.
  - intros p c. rewrite Hch. unfold Dict.mem. rewrite Nt. apply C1'.
  - intros k. unfold Dict.mem at 1. rewrite Nt. apply M1.
  - intros k Nk. rewrite Hch, Hpg. split; [apply Ch; exact Nk|].
    rewrite P1. pose proof Nk as Zk. apply zmem_false_iff in Zk. rewrite Zk.
    destruct (parent_get ws k) as [q|] eqn:Pq; [|reflexivity].
    cbn [parent_outside]. destruct (zmem q ids) eqn:Zq; [|reflexivity].
    apply zmem_true_iff in Zq. apply Co in Pq. exfalso. apply Nk. apply (Cl q k Zq Pq).
  - intros k Ik. rewrite Hpg, P1. apply zmem_true_iff in Ik. rewrite Ik. reflexivity.
  - rewrite Rt, R1, Nt. reflexivity.
  - rewrite Xt. exact X1.
Qed.

Lemma delete_selected_effect_witness :
  let r := delete_selected 3 (Some 1%Z) true pair_ws in
  fst r = Val tt
  /\ (forall k, Dict.mem (nodes (snd r)) k
                = negb (zmem k [1; 2]%Z) && Dict.mem (nodes pair_ws) k)
  /\ next_id (snd r) = 3%Z.
Proof.
  destruct pair_ws_ok as [L C].
  assert (N : 1%Z <> 0%Z) by lia.
  destruct (delete_selected_effect 3 1 true [1; 2]%Z pair_ws L C N eq_refl
              (or_introl eq_refl)) as (H1 & _ & _ & H4 & _ & _ & _ & H8).
  split; [exact H1|]. split; [exact H4|exact H8].
Defined.

(** ** Depths of the layout *)

Lemma pop_last_snoc {A : Type} (l : list A) (x : A) : pop_last (l ++ [x]) = Some (x, l).
Proof. unfold pop_last. rewrite rev_unit, rev_involutive. reflexivity. Qed.

Lemma get_fold_set_const_in {V : Type} (l : list Z) (v : V) :
  forall (d : Dict.t Z V) (x : Z),
    In x l -> Dict.get (fold_left (fun d c => Dict.set d c v) l d) x = Some v.
Proof.
  induction l as [|a l IH]; intros d x I; [destruct I|].
  cbn [fold_left]. destruct (in_dec Z.eq_dec x l) as [Il|Nl]; [apply IH; exact Il|].
  rewrite get_fold_set_const_other by exact Nl.
  destruct I as [->|I]; [apply get_set_same|contradiction].
Qed.

(** The inner loop of [_compute_depths] for a node that is not its own
    child. *)
Lemma push_children_run (nid : Z) (d : Z) (cs : list Z) :
  forall (depths : Dict.t Z Z) (stack : list Z),
    Dict.get depths nid = Some d -> ~ In nid cs ->
    push_children nid cs depths stack
    = Val (fold_left (fun dp c => Dict.set dp c (d + 1)%Z) cs depths, stack ++ cs).
Proof.
  induction cs as [|c cs IH]; intros depths stack G N.
  - cbn. rewrite app_nil_r. reflexivity.
  - cbn [push_children fold_left]. rewrite G. cbn [of_option obind].
    rewrite IH.
    + rewrite <- app_assoc. reflexivity.
    + rewrite get_set_other; [exact G|]. intros ->. apply N. left. reflexivity.
    + intros I. apply N. right. exact I.
Qed.

(** The depth-first loop on a finite subtree: once the node on top of the
    stack and everything below it have been handled, the stack is what was
    under the node, the depths outside the subtree are untouched, and each
    node of the subtree has the depth of the node plus its distance to
    it. *)
Lemma compute_depths_loop_subtree (ws : Workspace) :
  consistent ws ->
  (forall x l, subtree ws x l ->
     forall depths stack d fuel,
       NoDup l -> Dict.get depths x = Some d ->
       exists depths',
         _compute_depths_loop (List.length l + fuel) ws depths (stack ++ [x])
         = _compute_depths_loop fuel ws depths' stack
         /\ (forall y, ~ In y l -> Dict.get depths' y = Dict.get depths y)
         /\ (forall y, In y l ->
               exists k, nth_parent ws k y = Some x
                         /\ Dict.get depths' y = Some (d + Z.of_nat k)%Z))
  /\ (forall cs l, subtrees ws cs l ->
        forall depths stack d fuel,
          NoDup l -> (forall c, In c cs -> Dict.get depths c = Some d) ->
          exists depths',
            _compute_depths_loop (List.length l + fuel) ws depths (stack ++ cs)
            = _compute_depths_loop fuel ws depths' stack
            /\ (forall y, ~ In y l -> Dict.get depths' y = Dict.get depths y)
            /\ (forall y, In y l ->
                  exists c k, In c cs /\ nth_parent ws k y = Some c
                              /\ Dict.get depths' y = Some (d + Z.of_nat k)%Z)).
Proof.
  intros Co. apply subtree_mutind.
  - intros nid n l G St IH depths stack d fuel ND Gd.
    inversion ND as [|? ? Nl NDl]; subst.
    pose proof (children_of_get ws nid n G) as Hc.
    assert (Sub : forall c, In c (n_children n) -> In c l)
      by apply (proj2 (subtree_facts ws) _ _ St).
    assert (Nc : ~ In nid (n_children n)) by (intros I; apply Nl; apply Sub; exact I).
    set (depths1 := fold_left (fun dp c => Dict.set dp c (d + 1)%Z) (n_children n) depths).
    destruct (IH depths1 stack (d + 1)%Z fuel NDl) as (depths' & E & Keep & In').
    { intros c I. apply get_fold_set_const_in. exact I. }
    exists depths'. split; [|split].
    + cbn [List.length Nat.add _compute_depths_loop]. rewrite pop_last_snoc.
      unfold node_at. rewrite G. cbn [of_option obind].
      rewrite (push_children_run nid d (n_children n) depths stack Gd Nc).
      cbn [obind fst snd]. exact E.
    + intros y Ny. rewrite Keep by (intros I; apply Ny; right; exact I).
      apply get_fold_set_const_other. intros I. apply Ny. right. apply Sub. exact I.
    + intros y [<-|I].
      * exists 0%nat. split; [reflexivity|]. rewrite Keep by exact Nl.
        unfold depths1. rewrite get_fold_set_const_other by exact Nc.
        rewrite Gd. f_equal. cbn. lia.
      * destruct (In' y I) as (c & k & Ic & Hk & Gk). exists (S k). split.
        -- apply (nth_parent_snoc ws k y c nid Hk). apply Co. rewrite Hc. exact Ic.
        -- rewrite Gk. f_equal. lia.
  - intros depths stack d fuel _ _. exists depths. rewrite app_nil_r.
    split; [reflexivity|]. split; [reflexivity|intros y []].
  - intros c cs l1 l2 S1 IH1 S2 IH2 depths stack d fuel ND Gc.
    pose proof (NoDup_app_remove_l _ _ ND) as ND2.
    pose proof (NoDup_app_remove_r _ _ ND) as ND1.
    pose proof (NoDup_app_disjoint _ _ ND) as Dj.
    destruct (IH2 depths (stack ++ [c]) d (List.length l1 + fuel)%nat ND2)
      as (depths2 & E2 & Keep2 & In2).
    { intros c' I. apply Gc. right. exact I. }
    assert (Ic : In c l1) by apply (proj1 (subtree_facts ws) _ _ S1).
    destruct (IH1 depths2 stack d fuel ND1) as (depths' & E1 & Keep1 & In1).
    { rewrite Keep2; [apply Gc; left; reflexivity|]. intros I. apply (Dj c Ic I). }
    exists depths'. split; [|split].
    + rewrite length_app.
      replace (List.length l1 + List.length l2 + fuel)%nat
        with (List.length l2 + (List.length l1 + fuel))%nat by lia.
      change (stack ++ c :: cs) with (stack ++ [c] ++ cs). rewrite app_assoc.
      rewrite E2. exact E1.
    + intros y Ny. rewrite Keep1 by (intros I; apply Ny; apply in_or_app; left; exact I).
      apply Keep2. intros I. apply Ny. apply in_or_app. right. exact I.
    + intros y I. apply in_app_or in I. destruct I as [I|I].
      * destruct (In1 y I) as (k & Hk & Gk). exists c, k.
        split; [left; reflexivity|]. split; assumption.
      * destruct (In2 y I) as (c' & k & Ic' & Hk & Gk). exists c', k.
        split; [right; exact Ic'|]. split; [exact Hk|].
        rewrite Keep1; [exact Gk|]. intros I1. apply (Dj y I1 I).
Qed.

(** The last loop of [_compute_depths] only adds ids that have no depth
    yet. *)
Lemma compute_depths_fallback_keep (ws : Workspace) (keys : list Z) :
  forall (depths : Dict.t Z Z) (y v : Z),
    Dict.get depths y = Some v ->
    Dict.get
      (fold_left (fun depths nid =>
                    if negb (Dict.mem depths nid) then
                      match parent_get ws nid with
                      | Some parent_id =>
                          Dict.set depths nid
                            (opt_default 0%Z (Dict.get depths parent_id) + 1)%Z
                      | None => Dict.set depths nid 0%Z
                      end
                    else depths) keys depths) y = Some v.
Proof.
  induction keys as [|a keys IH]; intros depths y v G; [exact G|].
  cbn [fold_left]. apply IH.
  destruct (Dict.mem depths a) eqn:M; cbn [negb]; [exact G|].
  assert (N : a <> y).
  { intros ->. unfold Dict.mem in M. rewrite G in M. discriminate M. }
  destruct (parent_get ws a); rewrite get_set_other by exact N; exact G.
Qed.

Lemma nth_parent_chain (ws : Workspace) (r : Z) :
  parent_get ws r = None ->
  forall k y, nth_parent ws k y = Some r ->
              exists l, parent_chain ws y l /\ List.length l = k.
Proof.
  intros Pr. induction k as [|k IH]; intros y H.
  - cbn in H. inversion H. subst y. exists []. split; [constructor; exact Pr|reflexivity].
  - cbn [nth_parent] in H. destruct (parent_get ws y) as [p|] eqn:P; [|discriminate H].
    destruct (IH p H) as (l & C & Len). exists (p :: l).
    split; [constructor; assumption|cbn; rewrite Len; reflexivity].
Qed.

(** The depth table of the layout below a root whose subtree is finite
    and lists every node once: with more rounds than nodes,
    [_compute_depths] completes, and the depth of a node of the subtree is
    the number of parent steps from the node to the root. *)
Lemma compute_depths_subtree (fuel : nat) (ws : Workspace) (root : Z) (ids : list Z) :
  consistent ws -> subtree ws root ids -> NoDup ids ->
  (List.length ids < fuel)%nat ->
  exists depths,
    _compute_depths fuel ws root = Val depths
    /\ forall y, In y ids ->
         exists k, nth_parent ws k y = Some root
                   /\ Dict.get depths y = Some (Z.of_nat k).
Proof.
  intros Co St ND Lt.
  destruct (proj1 (compute_depths_loop_subtree ws Co) root ids St
              [(root, 0%Z)] [] 0%Z (fuel - List.length ids)%nat ND)
    as (depths' & El & Keep & Hin).
  { cbn [Dict.get]. change (keqb root root) with (Z.eqb root root).
    rewrite Z.eqb_refl. reflexivity. }
  replace (List.length ids + (fuel - List.length ids))%nat with fuel in El by lia.
  cbn [app] in El.
  destruct (fuel - List.length ids)%nat as [|m] eqn:Em; [lia|].
  cbn [_compute_depths_loop pop_last rev] in El.
  unfold _compute_depths. rewrite El. cbn [obind].
  eexists. split; [reflexivity|].
  intros y I. destruct (Hin y I) as (k & Hk & Gk). exists k.
  split; [exact Hk|].
  apply compute_depths_fallback_keep. rewrite Gk. f_equal.
Qed.

(** ** Sides of the layout *)

Lemma subtrees_app (ws : Workspace) (a la : list Z) :
  subtrees ws a la ->
  forall b lb, subtrees ws b lb -> subtrees ws (a ++ b) (la ++ lb).
Proof.
  induction 1 as [|c cs l1 l2 S1 S2 IH]; intros b lb Sb; [exact Sb|].
  cbn [app]. rewrite <- app_assoc. constructor; [exact S1|apply IH; exact Sb].
Qed.

Lemma get_fold_enumerate_in {V : Type} (f : Z -> V) (l : list Z) :
  forall (i : Z) (d : Dict.t Z V) (j : nat) (c : Z),
    NoDup l -> nth_error l j = Some c ->
    Dict.get (fold_left (fun d '(index, child) => Dict.set d child (f index))
                (enumerate_from i l) d) c = Some (f (i + Z.of_nat j)%Z).
Proof.
  induction l as [|a l IH]; intros i d j c ND H; [destruct j; discriminate H|].
  inversion ND as [|? ? Na ND']; subst. cbn [enumerate_from fold_left].
  destruct j as [|j].
  - cbn in H. inversion H. subst c. rewrite get_fold_enumerate_other by exact Na.
    rewrite get_set_same. do 2 f_equal. cbn. lia.
  - cbn [nth_error] in H. rewrite (IH (i + 1)%Z _ j c ND' H). do 2 f_equal. lia.
Qed.

(** The breadth-first loop of [_assign_directions] on a queue whose
    subtrees are finite and disjoint: it ends after one round per node,
    changes nothing outside these subtrees, and gives every node in them
    the direction that one of the queued nodes above it had. *)
Lemma assign_directions_loop_forest (ws : Workspace) :
  consistent ws ->
  forall n queue L directions,
    subtrees ws queue L -> List.length L = n -> NoDup L ->
    (forall c, In c queue -> Dict.mem directions c = true) ->
    exists directions',
      (forall fuel, (n < fuel)%nat ->
                    _assign_directions_loop fuel ws directions queue = Val directions')
      /\ (forall y, ~ In y L -> Dict.get directions' y = Dict.get directions y)
      /\ (forall y, In y L ->
            exists c k, In c queue /\ nth_parent ws k y = Some c
                        /\ Dict.get directions' y = Dict.get directions c).
Proof.
  intros Co. induction n as [|n IH]; intros queue L directions St Len ND Hq.
  - destruct L; [|discriminate Len]. inversion St as [|c cs l1 l2 S1 S2]; subst.
    + exists directions. split; [|split; [reflexivity|intros y []]].
      intros [|fuel] Lt; [lia|reflexivity].
    + inversion S1; subst. discriminate.
  - inversion St as [|x q' l1 l2 S1 S2]; subst; [discriminate Len|].
    inversion S1 as [? nd ls G Sc]; subst. cbn [app] in *.
    pose proof (children_of_get ws x nd G) as Hc.
    inversion ND as [|? ? Nx NDt]; subst.
    pose proof (NoDup_app_remove_l _ _ NDt) as ND2.
    pose proof (NoDup_app_remove_r _ _ NDt) as NDs.
    pose proof (NoDup_app_disjoint _ _ NDt) as Dj.
    assert (Sub : forall c, In c (n_children nd) -> In c ls)
      by apply (proj2 (subtree_facts ws) _ _ Sc).
    assert (Ncx : ~ In x (n_children nd)).
    { intros I. apply Nx. apply in_or_app. left. apply Sub. exact I. }
    pose proof (Hq x (or_introl eq_refl)) as Mx. unfold Dict.mem in Mx.
    destruct (Dict.get directions x) as [dx|] eqn:Gx; [|discriminate Mx].
    set (directions1 := fold_left (fun d child => Dict.set d child dx) (n_children nd)
                          directions).
    assert (G1 : forall c, Dict.get directions1 c =
                           if in_dec Z.eq_dec c (n_children nd) then Some dx
                           else Dict.get directions c).
    { intros c. unfold directions1. destruct (in_dec Z.eq_dec c (n_children nd)) as [I|N].
      - apply get_fold_set_const_in. exact I.
      - apply get_fold_set_const_other. exact N. }
    destruct (IH (q' ++ n_children nd) (l2 ++ ls) directions1) as (directions' & Run & Keep & In').
    { apply subtrees_app; assumption. }
    { cbn in Len. rewrite length_app in *. lia. }
    { apply NoDup_app; [exact ND2|exact NDs|]. intros y I2 Is. apply (Dj y Is I2). }
    { intros c I. unfold Dict.mem. rewrite G1.
      destruct (in_dec Z.eq_dec c (n_children nd)) as [_|N]; [reflexivity|].
      apply in_app_or in I. destruct I as [I|I]; [|contradiction].
      apply (Hq c). right. exact I. }
    assert (Nx' : ~ In x (l2 ++ ls)).
    { intros I. apply Nx. apply in_app_or in I. apply in_or_app. tauto. }
    exists directions'. split; [|split].
    + intros [|fuel] Lt; [lia|]. cbn [_assign_directions_loop pop_first].
      rewrite Gx. cbn [opt_default]. unfold node_at. rewrite G. cbn [of_option obind].
      apply Run. lia.
    + intros y Ny. rewrite Keep.
      * rewrite G1. destruct (in_dec Z.eq_dec y (n_children nd)) as [I|_]; [|reflexivity].
        exfalso. apply Ny. right. apply in_or_app. left. apply Sub. exact I.
      * intros I. apply Ny. right. apply in_app_or in I. apply in_or_app. tauto.
    + intros y [<-|I].
      * exists x, 0%nat. split; [left; reflexivity|]. split; [reflexivity|].
        rewrite Keep by exact Nx'. rewrite G1.
        destruct (in_dec Z.eq_dec x (n_children nd)) as [I|_]; [contradiction|reflexivity].
      * destruct (In' y) as (c & k & Ic & Hk & Gk).
        { apply in_app_or in I. apply in_or_app. tauto. }
        rewrite G1 in Gk. destruct (in_dec Z.eq_dec c (n_children nd)) as [Icc|Ncc].
        -- exists x, (S k). split; [left; reflexivity|]. split.
           ++ apply (nth_parent_snoc ws k y c x Hk). apply Co. rewrite Hc. exact Icc.
           ++ rewrite Gk, Gx. reflexivity.
        -- apply in_app_or in Ic. destruct Ic as [Ic|Ic]; [|contradiction].
           exists c, k. split; [right; exact Ic|]. split; assumption.
Qed.

(** The sides of the layout below a root whose subtree is finite and
    lists every node once: with a round per node, [_assign_directions]
    completes, the root gets direction 0, and every other node of the
    subtree gets the side of the child of the root above it, -1 at an even
    index of the root's children list and 1 at an odd index. *)
Lemma assign_directions_subtree (fuel : nat) (ws : Workspace) (root : Z) (ids : list Z) :
  linked ws -> subtree ws root ids -> NoDup ids ->
  (List.length ids <= fuel)%nat ->
  exists directions,
    _assign_directions fuel ws root = Val directions
    /\ Dict.get directions root = Some 0%Z
    /\ forall y, In y ids -> y <> root ->
         exists i c k,
           nth_error (children_of ws root) i = Some c
           /\ nth_parent ws k y = Some c
           /\ Dict.get directions y
              = Some (if Z.eqb (Z.of_nat i mod 2) 0 then (-1)%Z else 1%Z).
Proof.
  intros L St ND Le. pose proof L as [T Co]. pose proof T as (_ & _ & NDc & _).
  inversion St as [? rnode ls G Sc]; subst.
  inversion ND as [|? ? Nr NDs]; subst.
  pose proof (children_of_get ws root rnode G) as Hc.
  assert (Sub : forall c, In c (n_children rnode) -> In c ls)
    by apply (proj2 (subtree_facts ws) _ _ Sc).
  assert (Nrc : ~ In root (n_children rnode)) by (intros I; apply Nr; apply Sub; exact I).
  set (side := fun index : Z => if Z.eqb (index mod 2) 0 then (-1)%Z else 1%Z).
  set (directions0 :=
         fold_left (fun d '(index, child) => Dict.set d child (side index))
           (enumerate (n_children rnode)) [(root, 0%Z)]).
  assert (G0 : forall j c, nth_error (n_children rnode) j = Some c ->
                           Dict.get directions0 c = Some (side (Z.of_nat j))).
  { intros j c H. unfold directions0, enumerate.
    rewrite (get_fold_enumerate_in side (n_children rnode) 0%Z _ j c); [reflexivity| |exact H].
    rewrite <- Hc. apply NDc. }
  assert (Gr : Dict.get directions0 root = Some 0%Z).
  { unfold directions0, enumerate. rewrite get_fold_enumerate_other by exact Nrc.
    cbn [Dict.get]. change (keqb root root) with (Z.eqb root root).
    rewrite Z.eqb_refl. reflexivity. }
  destruct (assign_directions_loop_forest ws Co (List.length ls) (n_children rnode) ls
              directions0 Sc eq_refl NDs) as (directions' & Run & Keep & In').
  { intros c I. destruct (In_nth_error _ _ I) as [j Hj]. unfold Dict.mem.
    rewrite (G0 j c Hj). reflexivity. }
  assert (Lt : (List.length ls < fuel)%nat) by (cbn in Le; lia).
  eexists. split; [|split].
  - unfold _assign_directions, node_at. rewrite G. cbn [of_option obind]. cbv zeta.
    pose proof (Run fuel Lt) as R. unfold directions0, side in R. rewrite R.
    cbn [obind]. reflexivity.
  - apply (get_fold_setdefault_keep (fun nid => if negb (Z.eqb nid root) then 1%Z else 0%Z)).
    rewrite Keep by exact Nr. exact Gr.
  - intros y [Ey|I] Ny; [symmetry in Ey; contradiction|].
    destruct (In' y I) as (c & k & Ic & Hk & Gk).
    destruct (In_nth_error _ _ Ic) as [j Hj].
    exists j, c, k. split; [rewrite Hc; exact Hj|]. split; [exact Hk|].
    apply (get_fold_setdefault_keep (fun nid => if negb (Z.eqb nid root) then 1%Z else 0%Z)).
    rewrite Gk. apply (G0 j c Hj).
Qed.

(** ** A new root *)

(** [new_root] on a workspace with well-formed tables and no dangling
    edge completes and makes a fresh node the root: the node has the id
    [next_id], the text Root, no children and no parent.  Nothing else
    moves: every existing node is as before and keeps its parent pointer,
    so a previous root stays in the map as a second parentless node, not
    attached below the new one. *)
Theorem new_root_effect (tk : Tk) (ws : Workspace) :
  tables_ok ws -> closed ws ->
  let r := new_root tk ws in
  let nid := next_id ws in
  fst r = Val nid
  /\ root_id (snd r) = Some nid
  /\ next_id (snd r) = (nid + 1)%Z
  /\ (exists n, Dict.get (nodes (snd r)) nid = Some n
                /\ n_text n = "Root"%string /\ n_children n = [])
  /\ parent_get (snd r) nid = None
  /\ (forall k n, Dict.get (nodes ws) k = Some n -> Dict.get (nodes (snd r)) k = Some n)
  /\ (forall k, k <> nid -> parent_get (snd r) k = parent_get ws k).
Proof.
  intros T C. pose proof T as (NDn & _ & _ & Fr). cbv zeta.
  destruct (Fr (next_id ws) (Z.le_refl _)) as [Gn _].
  assert (Run : exists s1 n,
            new_root tk ws
            = (Val (next_id ws),
               with_parent (fun d => Dict.set d (next_id ws) None)
                 (with_root_id (Some (next_id ws)) s1))
            /\ nodes s1 = nodes ws ++ [(next_id ws, n)]
            /\ n_text n = "Root"%string /\ n_children n = []
            /\ parent s1 = Dict.set (parent ws) (next_id ws) None
            /\ next_id s1 = (next_id ws + 1)%Z).
  { unfold new_root. unfold bind at 1. unfold gets at 1. cbn [fst snd].
    destruct (_from_canvas_point ws _ _) as [lx ly].
    destruct (_create_node_run tk "Root" lx ly (Some 0%Z) ws (closed_edges ws NDn C) Gn)
      as (w & h & s1 & E & _ & _ & N1 & P1 & _ & _ & X1 & _ & _).
    unfold bind at 1. rewrite E. cbn [fst snd].
    unfold _set_root, bind, modify, ret. cbn [fst snd].
    exists s1. eexists. split; [reflexivity|]. split; [exact N1|].
    split; [reflexivity|]. split; [reflexivity|]. split; assumption. }
  destruct Run as (s1 & n1 & Run & N1 & Tx & Cn & P1 & X1). rewrite Run. cbn [fst snd].
  assert (Hn : nodes (with_parent (fun d => Dict.set d (next_id ws) None)
                        (with_root_id (Some (next_id ws)) s1)) = nodes s1)
    by (destruct s1; reflexivity).
  assert (Hp : forall k, parent_get (with_parent (fun d => Dict.set d (next_id ws) None)
                                       (with_root_id (Some (next_id ws)) s1)) k
                         = if Z.eqb (next_id ws) k then None else parent_get ws k).
  { intros k. rewrite parent_get_set. destruct (Z.eqb_spec (next_id ws) k) as [E|N];
      [reflexivity|].
    unfold parent_get. replace (parent (with_root_id (Some (next_id ws)) s1))
      with (parent s1) by (destruct s1; reflexivity).
    rewrite P1, get_set_other by exact N. reflexivity. }
  split; [reflexivity|]. split; [destruct s1; reflexivity|].
  split; [rewrite <- X1; destruct s1; reflexivity|].
  split; [|split; [|split]].
  - rewrite Hn, N1. exists n1. split; [|split; assumption].
    rewrite get_app_r by exact Gn. cbn [Dict.get].
    change (keqb (next_id ws) (next_id ws)) with (Z.eqb (next_id ws) (next_id ws)).
    rewrite Z.eqb_refl. reflexivity.
  - rewrite Hp, Z.eqb_refl. reflexivity.
  - intros k n G. rewrite Hn, N1. apply get_app_l. exact G.
  - intros k N. rewrite Hp. destruct (Z.eqb_spec (next_id ws) k) as [E'|_];
      [symmetry in E'; contradiction|reflexivity].
Qed.

Lemma new_root_effect_witness :
  let r := new_root example_tk one_node_ws in
  fst r = Val 2%Z /\ root_id (snd r) = Some 2%Z
  /\ parent_get (snd r) 1 = None /\ parent_get (snd r) 2 = None.
Proof.
  destruct one_node_ws_ok as (T & _ & C).
  destruct (new_root_effect example_tk one_node_ws T C)
    as (H1 & H2 & _ & _ & H5 & _ & H7).
  split; [exact H1|]. split; [exact H2|]. split; [|exact H5].
  rewrite H7; [reflexivity|]. intros E. discriminate E.
Defined.

(** The depth table of the layout on a tree: in a linked workspace with a
    finite subtree [ids] below the layout root, and with more rounds than
    nodes, [_compute_depths] completes and gives every node of the subtree
    the number of parent steps from it to the root; when the root has no
    parent, that is the depth [_node_depth] computes for the node. *)
Theorem compute_depths_tree (fuel0 fuel : nat) (ws : Workspace) (root : Z)
  (ids : list Z) :
  linked ws ->
  _collect_subtree fuel0 ws root = Val ids ->
  (List.length ids < fuel)%nat ->
  exists depths,
    _compute_depths fuel ws root = Val depths
    /\ forall y, In y ids ->
         exists k, nth_parent ws k y = Some root
                   /\ Dict.get depths y = Some (Z.of_nat k)
                   /\ (parent_get ws root = None -> _node_depth ws y = Val (Z.of_nat k)).
Proof.
  intros L E Lt. pose proof L as [T Co]. unfold _collect_subtree in E.
  destruct (dfs_sound ws fuel0 root [] ids E) as (l & El & St). cbn [app] in El. subst l.
  pose proof (proj1 (subtree_NoDup ws L) root ids St) as ND.
  destruct (compute_depths_subtree fuel ws root ids Co St ND Lt) as (depths & Hd & Hin).
  exists depths. split; [exact Hd|].
  intros y I. destruct (Hin y I) as (k & Hk & Gk). exists k.
  split; [exact Hk|]. split; [exact Gk|].
  intros Pr. destruct (nth_parent_chain ws root Pr k y Hk) as (lc & C & Len).
  subst k. unfold _node_depth.
  rewrite (_node_depth_loop_chain ws y lc C).
  - reflexivity.
  - intros x _ [].
  - pose proof (parent_chain_length ws y lc C). lia.
Qed.

Lemma compute_depths_tree_witness :
  exists depths,
    _compute_depths 3 pair_ws 1 = Val depths
    /\ forall y, In y [1; 2]%Z ->
         exists k, nth_parent pair_ws k y = Some 1%Z
                   /\ Dict.get depths y = Some (Z.of_nat k)
                   /\ (parent_get pair_ws 1 = None -> _node_depth pair_ws y = Val (Z.of_nat k)).
Proof.
  destruct pair_ws_ok as [L _].
  assert (Lt : (List.length [1; 2]%Z < 3)%nat) by (cbn; lia).
  exact (compute_depths_tree 3 3 pair_ws 1 [1; 2]%Z L eq_refl Lt).
Defined.


(** The sides of the layout on a tree: in a linked workspace with a finite
    subtree [ids] below the layout root, and with a round per node,
    [_assign_directions] completes; the root gets direction 0 and every
    other node of the subtree the side of its top-level branch: -1 when
    the child of the root above it is at an even index of the root's
    children list, 1 when at an odd index. *)
Theorem assign_directions_branches (fuel0 fuel : nat) (ws : Workspace) (root : Z)
  (ids : list Z) :
  linked ws ->
  _collect_subtree fuel0 ws root = Val ids ->
  (List.length ids <= fuel)%nat ->
  exists directions,
    _assign_directions fuel ws root = Val directions
    /\ Dict.get directions root = Some 0%Z
    /\ forall y, In y ids -> y <> root ->
         exists i c k,
           nth_error (children_of ws root) i = Some c
           /\ nth_parent ws k y = Some c
           /\ Dict.get directions y
              = Some (if Z.eqb (Z.of_nat i mod 2) 0 then (-1)%Z else 1%Z).
Proof.
  intros L E Le. unfold _collect_subtree in E.
  destruct (dfs_sound ws fuel0 root [] ids E) as (l & El & St). cbn [app] in El. subst l.
  pose proof (proj1 (subtree_NoDup ws L) root ids St) as ND.
  exact (assign_directions_subtree fuel ws root ids L St ND Le).
Qed.

Lemma assign_directions_branches_witness :
  exists directions,
    _assign_directions 2 pair_ws 1 = Val directions
    /\ Dict.get directions 1%Z = Some 0%Z
    /\ forall y, In y [1; 2]%Z -> y <> 1%Z ->
         exists i c k,
           nth_error (children_of pair_ws 1) i = Some c
           /\ nth_parent pair_ws k y = Some c
           /\ Dict.get directions y
              = Some (if Z.eqb (Z.of_nat i mod 2) 0 then (-1)%Z else 1%Z).
Proof.
  destruct pair_ws_ok as [L _].
  assert (Le : (List.length [1; 2]%Z <= 2)%nat) by (cbn; lia).
  exact (assign_directions_branches 3 2 pair_ws 1 [1; 2]%Z L eq_refl Le).
Defined.

(** The columns of the layout.  In a linked workspace whose subtree below
    the layout root is finite, when the three tables of the layout are
    computed, [auto_layout] puts every node of the subtree in the column
    of its depth: the root at [base_x], and a node [k] parent steps below
    the root at [base_x - k * (NODE_W + HORIZ_GAP)] when its top-level
    branch is at an even index of the root's children list, and at
    [base_x + k * (NODE_W + HORIZ_GAP)] when at an odd index. *)
Theorem auto_layout_columns (tk : Tk) (fuel0 fuel : nat) (ws : Workspace) (root : Z)
  (ids : list Z) (directions depths : Dict.t Z Z) (slots : Dict.t Z Q) :
  linked ws ->
  layout_root ws = Some root ->
  _collect_subtree fuel0 ws root = Val ids ->
  (List.length ids < fuel)%nat ->
  _assign_directions fuel ws root = Val directions ->
  _compute_depths fuel ws root = Val depths ->
  _compute_vertical_slots ws root directions depths = Val slots ->
  let base_x := fst (layout_base tk ws) in
  forall y, In y ids ->
    exists n k,
      Dict.get (nodes (snd (auto_layout tk fuel ws))) y = Some n
      /\ nth_parent ws k y = Some root
      /\ (y = root -> n_x n = base_x)
      /\ (y <> root ->
          exists i c j,
            nth_error (children_of ws root) i = Some c
            /\ nth_parent ws j y = Some c
            /\ n_x n = if Z.eqb (Z.of_nat i mod 2) 0
                       then base_x - of_int (Z.of_nat k) * (NODE_W + HORIZ_GAP)
                       else base_x + of_int (Z.of_nat k) * (NODE_W + HORIZ_GAP)).
Proof.
  intros L Hr E Lt Hd Hp Hs base_x y Iy. pose proof L as [T Co].
  pose proof T as (NDn & _).
  destruct (auto_layout_run tk fuel ws root directions depths slots NDn Hr Hd Hp Hs)
    as (s1 & Er & _ & _ & _ & _ & N).
  destruct (redraw_fields s1) as (Rn & _).
  pose proof E as E'. unfold _collect_subtree in E'.
  destruct (dfs_sound ws fuel0 root [] ids E') as (l & El & St). cbn [app] in El. subst l.
  pose proof (proj1 (subtree_NoDup ws L) root ids St) as ND.
  destruct (compute_depths_subtree fuel ws root ids Co St ND Lt) as (depths' & Hp' & Dp).
  rewrite Hp in Hp'. inversion Hp'. subst depths'.
  destruct (assign_directions_subtree fuel ws root ids L St ND (Nat.lt_le_incl _ _ Lt))
    as (directions' & Hd' & Dr & Db).
  rewrite Hd in Hd'. inversion Hd'. subst directions'.
  pose proof (proj1 (proj2 (proj1 (subtree_facts ws) root ids St)) y Iy) as My.
  destruct (mem_get_some _ _ My) as [n0 G0].
  destruct (Dp y Iy) as (k & Hk & Gk).
  eexists. exists k. split; [rewrite Er, Rn, N, G0; reflexivity|].
  split; [exact Hk|]. unfold placed. cbn [n_x]. rewrite Gk. cbn [opt_default]. split.
  - intros ->. rewrite Dr. reflexivity.
  - intros Ny. destruct (Db y Iy Ny) as (i & c & j & Hi & Hj & Gd).
    exists i, c, j. split; [exact Hi|]. split; [exact Hj|].
    rewrite Gd. cbn [opt_default]. unfold layout_x.
    destruct (Z.eqb (Z.of_nat i mod 2) 0); reflexivity.
Qed.

Lemma auto_layout_columns_witness :
  exists n k,
    Dict.get (nodes (snd (auto_layout example_tk 5 pair_ws))) 2%Z = Some n
    /\ nth_parent pair_ws k 2 = Some 1%Z
    /\ exists i c j,
         nth_error (children_of pair_ws 1) i = Some c
         /\ nth_parent pair_ws j 2 = Some c
         /\ n_x n = if Z.eqb (Z.of_nat i mod 2) 0
                    then fst (layout_base example_tk pair_ws)
                         - of_int (Z.of_nat k) * (NODE_W + HORIZ_GAP)
                    else fst (layout_base example_tk pair_ws)
                         + of_int (Z.of_nat k) * (NODE_W + HORIZ_GAP).
Proof.
  destruct pair_ws_ok as [L _].
  assert (Lt : (List.length [1; 2]%Z < 5)%nat) by (cbn; lia).
  assert (I : In 2%Z [1; 2]%Z) by (right; left; reflexivity).
  assert (N : 2%Z <> 1%Z) by lia.
  destruct (auto_layout_columns example_tk 3 5 pair_ws 1 [1; 2]%Z _ _ _ L
              eq_refl eq_refl Lt eq_refl eq_refl eq_refl 2%Z I)
    as (n & k & G & Hk & _ & H).
  exists n, k. split; [exact G|]. split; [exact Hk|]. exact (H N).
Defined.
